(** * japacker: the empty-area store, the placement engine and the pack driver

    A shallow embedding of [src/japacker.h].  C [unsigned int] values are
    integers in [0, 2^32) with the wrap-around written out ([u32]); C [int]
    values are obtained with [s32].  Pointers into the empty-area array are
    array indices, the null pointer is [None].  Every C function that reads or
    writes through a pointer returns a [res]: a fault stands for undefined
    behaviour of the C program (null dereference, access outside the array,
    call through a null function pointer, division by zero) or for a loop
    that never ends. *)

From Stdlib Require Import ZArith Lia Bool.
From stdpp Require Import base list.

Local Open Scope Z_scope.

(** ** Machine integers *)

Definition UINT_RANGE : Z := 4294967296.

(** Conversion to [unsigned int]. *)
Definition u32 (z : Z) : Z := z mod UINT_RANGE.

(** Conversion to [int] (two's complement). *)
Definition s32 (z : Z) : Z :=
  if u32 z <? 2147483648 then u32 z else u32 z - UINT_RANGE.

(** ** Faults and the result monad *)

Inductive fault : Type :=
| NullDeref
| OutOfBounds
| NullCall
| DivByZero
| OutOfFuel.

Inductive res (A : Type) : Type :=
| Ok (a : A)
| Fault (f : fault).
Arguments Ok {A} a.
Arguments Fault {A} f.

Definition bind {A B : Type} (m : res A) (k : A -> res B) : res B :=
  match m with
  | Ok a => k a
  | Fault f => Fault f
  end.

Notation "x <- m ;; k" := (bind m (fun x => k))
  (at level 100, m at next level, right associativity).

(** ** Data model *)

Inductive japacker_fail_policy : Type :=
| JAPACKER_STOP
| JAPACKER_CONTINUE
| JAPACKER_NEW_IMAGE.

Inductive japacker_sort_type : Type :=
| JAPACKER_SORT_BY_PERIMETER
| JAPACKER_SORT_BY_AREA
| JAPACKER_SORT_BY_HEIGHT
| JAPACKER_SORT_BY_WIDTH.

Definition JAPACKER_OK : Z := 0.
Definition JAPACKER_ERROR_WRONG_PARAMETERS : Z := -1.
Definition JAPACKER_ERROR_NO_MEMORY : Z := -2.

Definition JAPACKER_TOLERABLE_AREA_DIFFERENCE_PERCENTAGE : Z := 2.

(** [struct japacker_rect], with the members of [input] and [output]
    flattened. *)
Record japacker_rect : Type := mk_rect {
  input_width : Z;
  input_height : Z;
  output_x : Z;
  output_y : Z;
  output_packed : Z;
  output_rotated : Z;
  output_image_index : Z
}.

(** [struct japacker_empty_area]. *)
Record japacker_empty_area : Type := mk_area {
  area_x : Z;
  area_y : Z;
  area_width : Z;
  area_height : Z;
  area_comparator : Z;
  area_prev : option nat;
  area_next : option nat
}.

(** [struct empty_areas]: [ea_list] is the allocated array (its length is the
    allocation), [ea_size] the member [size]. *)
Record empty_areas : Type := mk_empty_areas {
  ea_first : option nat;
  ea_last : option nat;
  ea_list : list japacker_empty_area;
  ea_index : Z;
  ea_size : Z;
  ea_set_comparator : option (japacker_empty_area -> japacker_empty_area)
}.

(** Field assignments. *)
Definition set_x (v : Z) (a : japacker_empty_area) :=
  mk_area v (area_y a) (area_width a) (area_height a) (area_comparator a)
          (area_prev a) (area_next a).
Definition set_y (v : Z) (a : japacker_empty_area) :=
  mk_area (area_x a) v (area_width a) (area_height a) (area_comparator a)
          (area_prev a) (area_next a).
Definition set_width (v : Z) (a : japacker_empty_area) :=
  mk_area (area_x a) (area_y a) v (area_height a) (area_comparator a)
          (area_prev a) (area_next a).
Definition set_height (v : Z) (a : japacker_empty_area) :=
  mk_area (area_x a) (area_y a) (area_width a) v (area_comparator a)
          (area_prev a) (area_next a).
Definition set_cmp (v : Z) (a : japacker_empty_area) :=
  mk_area (area_x a) (area_y a) (area_width a) (area_height a) v
          (area_prev a) (area_next a).
Definition set_prev (v : option nat) (a : japacker_empty_area) :=
  mk_area (area_x a) (area_y a) (area_width a) (area_height a)
          (area_comparator a) v (area_next a).
Definition set_next (v : option nat) (a : japacker_empty_area) :=
  mk_area (area_x a) (area_y a) (area_width a) (area_height a)
          (area_comparator a) (area_prev a) v.

Definition with_first (v : option nat) (d : empty_areas) :=
  mk_empty_areas v (ea_last d) (ea_list d) (ea_index d) (ea_size d)
                 (ea_set_comparator d).
Definition with_last (v : option nat) (d : empty_areas) :=
  mk_empty_areas (ea_first d) v (ea_list d) (ea_index d) (ea_size d)
                 (ea_set_comparator d).
Definition with_list (v : list japacker_empty_area) (d : empty_areas) :=
  mk_empty_areas (ea_first d) (ea_last d) v (ea_index d) (ea_size d)
                 (ea_set_comparator d).
Definition with_index (v : Z) (d : empty_areas) :=
  mk_empty_areas (ea_first d) (ea_last d) (ea_list d) v (ea_size d)
                 (ea_set_comparator d).
Definition with_set_comparator
    (v : option (japacker_empty_area -> japacker_empty_area))
    (d : empty_areas) :=
  mk_empty_areas (ea_first d) (ea_last d) (ea_list d) (ea_index d) (ea_size d)
                 v.

(** ** Memory access *)

(** Read of [*p] for a pointer [p] into the array. *)
Definition load (d : empty_areas) (p : nat) : res japacker_empty_area :=
  match ea_list d !! p with
  | Some a => Ok a
  | None => Fault OutOfBounds
  end.

(** Assignment to one member of [*p]. *)
Definition modify (d : empty_areas) (p : nat)
    (f : japacker_empty_area -> japacker_empty_area) : res empty_areas :=
  match ea_list d !! p with
  | Some a => Ok (with_list (<[p := f a]> (ea_list d)) d)
  | None => Fault OutOfBounds
  end.

(** Use of a possibly null pointer. *)
Definition deref (p : option nat) : res nat :=
  match p with
  | Some i => Ok i
  | None => Fault NullDeref
  end.

(** Read of the member [fld] of [*p]. *)
Definition rd {A : Type} (d : empty_areas) (p : nat)
    (fld : japacker_empty_area -> A) : res A :=
  a <- load d p ;; Ok (fld a).

(** ** Comparators of empty areas *)

Definition japacker_empty_area_set_perimeter_comparator
    (area : japacker_empty_area) : japacker_empty_area :=
  set_cmp (u32 (area_height area + area_width area)) area.

Definition japacker_empty_area_set_area_comparator
    (area : japacker_empty_area) : japacker_empty_area :=
  set_cmp (u32 (area_height area * area_width area)) area.

Definition japacker_empty_area_set_width_comparator
    (area : japacker_empty_area) : japacker_empty_area :=
  set_cmp (area_width area) area.

Definition japacker_empty_area_set_height_comparator
    (area : japacker_empty_area) : japacker_empty_area :=
  set_cmp (area_height area) area.

(** The call [data->empty_areas.set_comparator(area)]. *)
Definition call_set_comparator (d : empty_areas) (area : nat)
    : res empty_areas :=
  match ea_set_comparator d with
  | Some f => modify d area f
  | None => Fault NullCall
  end.

(** ** Empty-area store *)

Definition zero_area : japacker_empty_area := mk_area 0 0 0 0 0 None None.

(** [memset] of the first [size] slots, then the first slot becomes the whole
    image. *)
Definition japacker_reset_empty_areas (d : empty_areas) (width height : Z)
    : res empty_areas :=
  if decide (0 <= ea_size d /\ ea_size d <= Z.of_nat (length (ea_list d))) then
    let n := Z.to_nat (ea_size d) in
    let d := with_list (replicate n zero_area ++ drop n (ea_list d)) d in
    let d := with_index 0 d in
    let d := with_first (Some 0%nat) d in
    let d := with_last (Some 0%nat) d in
    f <- deref (ea_first d) ;;
    d <- modify d f (set_width width) ;;
    f <- deref (ea_first d) ;;
    modify d f (set_height height)
  else Fault OutOfBounds.

(** The [while (current)] loop of [japacker_sort_empty_area] and the
    insertion at the front that follows it. *)
Fixpoint sort_walk (fuel : nat) (d : empty_areas) (area : nat)
    (current : option nat) : res empty_areas :=
  match current with
  | Some c =>
      match fuel with
      | O => Fault OutOfFuel
      | S fuel' =>
          cc <- rd d c area_comparator ;;
          ac <- rd d area area_comparator ;;
          if cc <? ac then
            d <- (if decide (current = ea_last d) then
                    Ok (with_last (Some area) d)
                  else
                    cn <- rd d c area_next ;;
                    d <- modify d area (set_next cn) ;;
                    an <- rd d area area_next ;;
                    n <- deref an ;;
                    modify d n (set_prev (Some area))) ;;
            d <- modify d area (set_prev (Some c)) ;;
            modify d c (set_next (Some area))
          else
            cp <- rd d c area_prev ;;
            sort_walk fuel' d area cp
      end
  | None =>
      f <- deref (ea_first d) ;;
      d <- modify d f (set_prev (Some area)) ;;
      d <- modify d area (set_next (ea_first d)) ;;
      Ok (with_first (Some area) d)
  end.

(** The walk visits each slot of the array at most once unless the links are
    cyclic, so the length of the array bounds the loop exactly. *)
Definition japacker_sort_empty_area (d : empty_areas) (area : nat)
    (current : option nat) : res empty_areas :=
  match ea_first d with
  | None => Ok (with_last (Some area) (with_first (Some area) d))
  | Some _ => sort_walk (length (ea_list d)) d area current
  end.

Definition japacker_delist_empty_area (d : empty_areas) (area : nat)
    : res empty_areas :=
  d <- (if decide (Some area = ea_first d) then
          an <- rd d area area_next ;; Ok (with_first an d)
        else Ok d) ;;
  d <- (if decide (Some area = ea_last d) then
          ap <- rd d area area_prev ;; Ok (with_last ap d)
        else Ok d) ;;
  ap <- rd d area area_prev ;;
  d <- (match ap with
        | Some p => an <- rd d area area_next ;; modify d p (set_next an)
        | None => Ok d
        end) ;;
  an <- rd d area area_next ;;
  d <- (match an with
        | Some n => ap <- rd d area area_prev ;; modify d n (set_prev ap)
        | None => Ok d
        end) ;;
  d <- modify d area (set_prev None) ;;
  modify d area (set_next None).

(** *** Merging with adjacent empty areas *)

Inductive adjacency : Type :=
| AdjLeft
| AdjRight
| AdjTop
| AdjBottom.

(** The four tests of the loop body of
    [japacker_merge_adjacent_empty_areas], in the order of the source. *)
Definition adjacent (current area : japacker_empty_area) : option adjacency :=
  let same_height :=
    (area_y current =? area_y area) &&
    (area_height current =? area_height area) in
  if same_height && (u32 (area_x current + area_width current) =? area_x area)
  then Some AdjLeft
  else if same_height &&
          (u32 (area_x area + area_width area) =? area_x current)
  then Some AdjRight
  else
    let same_width :=
      (area_x current =? area_x area) &&
      (area_width current =? area_width area) in
    if same_width &&
       (u32 (area_y current + area_height current) =? area_y area)
    then Some AdjTop
    else if same_width &&
            (u32 (area_y area + area_height area) =? area_y current)
    then Some AdjBottom
    else None.

(** The [for] loop up to the first list member that passes one of the
    tests. *)
Fixpoint merge_scan (steps : nat) (d : empty_areas) (area : nat)
    (current : option nat) : res (option (nat * adjacency)) :=
  match current with
  | None => Ok None
  | Some c =>
      match steps with
      | O => Fault OutOfFuel
      | S steps' =>
          cur <- load d c ;;
          a <- load d area ;;
          match adjacent cur a with
          | Some adj => Ok (Some (c, adj))
          | None => merge_scan steps' d area (area_next cur)
          end
      end
  end.

(** The assignments of the branch taken, up to the delisting of
    [current]. *)
Definition merge_apply (d : empty_areas) (area current : nat)
    (adj : adjacency) : res empty_areas :=
  d <- match adj with
       | AdjLeft =>
           cx <- rd d current area_x ;;
           d <- modify d area (set_x cx) ;;
           aw <- rd d area area_width ;;
           cw <- rd d current area_width ;;
           modify d area (set_width (u32 (aw + cw)))
       | AdjRight =>
           aw <- rd d area area_width ;;
           cw <- rd d current area_width ;;
           modify d area (set_width (u32 (aw + cw)))
       | AdjTop =>
           cy <- rd d current area_y ;;
           d <- modify d area (set_y cy) ;;
           ah <- rd d area area_height ;;
           ch <- rd d current area_height ;;
           modify d area (set_height (u32 (ah + ch)))
       | AdjBottom =>
           ah <- rd d area area_height ;;
           ch <- rd d current area_height ;;
           modify d area (set_height (u32 (ah + ch)))
       end ;;
  japacker_delist_empty_area d current.

Fixpoint merge_rec (depth : nat) (d : empty_areas) (area : nat)
    : res (empty_areas * Z) :=
  match depth with
  | O => Fault OutOfFuel
  | S depth' =>
      found <- merge_scan (length (ea_list d)) d area (ea_first d) ;;
      match found with
      | None => Ok (d, 0)
      | Some (current, adj) =>
          d <- merge_apply d area current adj ;;
          r <- merge_rec depth' d area ;;
          Ok (fst r, 1)
      end
  end.

(** Every recursive call follows the delisting of one list member, so the
    recursion is no deeper than the array is long, plus one. *)
Definition japacker_merge_adjacent_empty_areas (d : empty_areas) (area : nat)
    : res (empty_areas * Z) :=
  merge_rec (S (length (ea_list d))) d area.

(** *** Splitting an empty area *)

(** [&data->empty_areas.list[i]] for an [int] [i]. *)
Definition slot (d : empty_areas) (i : Z) : res nat :=
  if decide (0 <= i /\ i < Z.of_nat (length (ea_list d))) then Ok (Z.to_nat i)
  else Fault OutOfBounds.

(** The two calls of [japacker_merge_adjacent_empty_areas] are the operands of
    a [+]; they are taken from left to right. *)
Definition japacker_split_empty_area (d : empty_areas) (area : nat)
    (width height : Z) : res empty_areas :=
  let d := with_index (ea_index d + 1) d in
  new_area <- slot d (ea_index d) ;;
  aw <- rd d area area_width ;;
  ah <- rd d area area_height ;;
  let remaining_width := s32 (aw - width) in
  let remaining_height := s32 (ah - height) in
  d <- (if remaining_height <? remaining_width then
          ax <- rd d area area_x ;;
          d <- modify d new_area (set_x ax) ;;
          ay <- rd d area area_y ;;
          d <- modify d new_area (set_y (u32 (ay + height))) ;;
          d <- modify d new_area (set_width width) ;;
          ah <- rd d area area_height ;;
          d <- modify d new_area (set_height (u32 (ah - height))) ;;
          ax <- rd d area area_x ;;
          d <- modify d area (set_x (u32 (ax + width))) ;;
          aw <- rd d area area_width ;;
          modify d area (set_width (u32 (aw - width)))
        else
          ax <- rd d area area_x ;;
          d <- modify d new_area (set_x (u32 (ax + width))) ;;
          ay <- rd d area area_y ;;
          d <- modify d new_area (set_y ay) ;;
          aw <- rd d area area_width ;;
          d <- modify d new_area (set_width (u32 (aw - width))) ;;
          d <- modify d new_area (set_height height) ;;
          ay <- rd d area area_y ;;
          d <- modify d area (set_y (u32 (ay + height))) ;;
          ah <- rd d area area_height ;;
          modify d area (set_height (u32 (ah - height)))) ;;
  original_prev <- rd d area area_prev ;;
  d <- japacker_delist_empty_area d area ;;
  m1 <- japacker_merge_adjacent_empty_areas d area ;;
  m2 <- japacker_merge_adjacent_empty_areas (fst m1) new_area ;;
  let d := fst m2 in
  let merged := snd m1 + snd m2 in
  d <- call_set_comparator d area ;;
  d <- call_set_comparator d new_area ;;
  if merged =? 0 then
    d <- japacker_sort_empty_area d area original_prev ;;
    ap <- rd d area area_prev ;;
    japacker_sort_empty_area d new_area ap
  else
    nc <- rd d new_area area_comparator ;;
    ac <- rd d area area_comparator ;;
    if nc <? ac then
      d <- japacker_sort_empty_area d area (ea_last d) ;;
      ap <- rd d area area_prev ;;
      japacker_sort_empty_area d new_area ap
    else
      d <- japacker_sort_empty_area d new_area (ea_last d) ;;
      np <- rd d new_area area_prev ;;
      japacker_sort_empty_area d area np.

(** ** Placement engine *)

Definition set_output_x (v : Z) (r : japacker_rect) :=
  mk_rect (input_width r) (input_height r) v (output_y r) (output_packed r)
          (output_rotated r) (output_image_index r).
Definition set_output_y (v : Z) (r : japacker_rect) :=
  mk_rect (input_width r) (input_height r) (output_x r) v (output_packed r)
          (output_rotated r) (output_image_index r).
Definition set_output_packed (v : Z) (r : japacker_rect) :=
  mk_rect (input_width r) (input_height r) (output_x r) (output_y r) v
          (output_rotated r) (output_image_index r).
Definition set_output_rotated (v : Z) (r : japacker_rect) :=
  mk_rect (input_width r) (input_height r) (output_x r) (output_y r)
          (output_packed r) v (output_image_index r).
Definition set_output_image_index (v : Z) (r : japacker_rect) :=
  mk_rect (input_width r) (input_height r) (output_x r) (output_y r)
          (output_packed r) (output_rotated r) v.

(** The [for] loop of [japacker_pack_rect] up to the first empty area that
    is not skipped by [continue]. *)
Fixpoint find_fit (steps : nat) (d : empty_areas) (width height : Z)
    (area : option nat) : res (option nat) :=
  match area with
  | None => Ok None
  | Some p =>
      match steps with
      | O => Fault OutOfFuel
      | S steps' =>
          a <- load d p ;;
          if (area_height a <? height) || (area_width a <? width) then
            find_fit steps' d width height (area_next a)
          else Ok (Some p)
      end
  end.

(** The two symmetric branches of [japacker_pack_rect] end the same way. *)
Definition shrink_tail (d : empty_areas) (area : nat) : res empty_areas :=
  prev <- rd d area area_prev ;;
  d <- japacker_delist_empty_area d area ;;
  m <- japacker_merge_adjacent_empty_areas d area ;;
  let d := fst m in
  let prev := if snd m =? 0 then prev else ea_last d in
  d <- call_set_comparator d area ;;
  japacker_sort_empty_area d area prev.

(** The body of the loop of [japacker_pack_rect] for the area found. *)
Definition place_in (d : empty_areas) (rect : japacker_rect) (area : nat)
    (width height : Z) : res (empty_areas * japacker_rect) :=
  ax <- rd d area area_x ;;
  let rect := set_output_x ax rect in
  ay <- rd d area area_y ;;
  let rect := set_output_y ay rect in
  let rect := set_output_packed 1 rect in
  ah <- rd d area area_height ;;
  aw <- rd d area area_width ;;
  if (height =? ah) && (width =? aw) then
    d <- japacker_delist_empty_area d area ;;
    Ok (d, rect)
  else if height =? ah then
    d <- modify d area (set_x (u32 (ax + width))) ;;
    aw <- rd d area area_width ;;
    d <- modify d area (set_width (u32 (aw - width))) ;;
    d <- shrink_tail d area ;;
    Ok (d, rect)
  else if width =? aw then
    d <- modify d area (set_y (u32 (ay + height))) ;;
    ah <- rd d area area_height ;;
    d <- modify d area (set_height (u32 (ah - height))) ;;
    d <- shrink_tail d area ;;
    Ok (d, rect)
  else
    d <- japacker_split_empty_area d area width height ;;
    Ok (d, rect).

(** One activation of [japacker_pack_rect]; [self] is the recursive call. *)
Definition pack_rect_body
    (self : empty_areas -> japacker_rect -> Z ->
            res (empty_areas * japacker_rect * Z))
    (d : empty_areas) (rect : japacker_rect) (allow_rotation : Z)
    : res (empty_areas * japacker_rect * Z) :=
  let width :=
    if output_rotated rect =? 0 then input_width rect else input_height rect in
  let height :=
    if output_rotated rect =? 0 then input_height rect else input_width rect in
  found <- find_fit (length (ea_list d)) d width height (ea_first d) ;;
  match found with
  | Some area =>
      r <- place_in d rect area width height ;;
      Ok (fst r, snd r, 1)
  | None =>
      if allow_rotation =? 0 then Ok (d, set_output_rotated 0 rect, 0)
      else self d (set_output_rotated 1 rect) 0
  end.

(** The recursive call passes [allow_rotation = 0] and so never recurses
    again: two activations are all there can be. *)
Definition japacker_pack_rect (d : empty_areas) (rect : japacker_rect)
    (allow_rotation : Z) : res (empty_areas * japacker_rect * Z) :=
  pack_rect_body
    (pack_rect_body (fun _ _ _ => Fault OutOfFuel))
    d rect allow_rotation.

(** ** The packer *)

(** [struct options]. *)
Record japacker_options : Type := mk_options {
  allow_rotation : Z;
  rects_are_sorted : Z;
  always_repack : Z;
  reduce_image_size : Z;
  sort_by : japacker_sort_type;
  fail_policy : japacker_fail_policy
}.

(** [struct result]. *)
Record japacker_result : Type := mk_result {
  images_needed : Z;
  last_image_width : Z;
  last_image_height : Z
}.

(** [struct japacker_internal_data]; [sorted_rects] holds, for each pointer
    of the C array, the index of the rect it points to. *)
Record japacker_internal_data : Type := mk_data {
  sorted_rects : option (list nat);
  num_rects : Z;
  image_width : Z;
  image_height : Z;
  data_empty_areas : empty_areas
}.

(** [struct japacker_t].  Allocation never fails in this model, so [rects]
    and [internal_data] are never null. *)
Record japacker_t : Type := mk_packer {
  rects : list japacker_rect;
  options : japacker_options;
  result : japacker_result;
  internal_data : japacker_internal_data
}.

Definition with_rects (v : list japacker_rect) (p : japacker_t) :=
  mk_packer v (options p) (result p) (internal_data p).
Definition with_options (v : japacker_options) (p : japacker_t) :=
  mk_packer (rects p) v (result p) (internal_data p).
Definition with_result (v : japacker_result) (p : japacker_t) :=
  mk_packer (rects p) (options p) v (internal_data p).
Definition with_internal_data (v : japacker_internal_data) (p : japacker_t) :=
  mk_packer (rects p) (options p) (result p) v.

Definition with_empty_areas (v : empty_areas) (p : japacker_t) :=
  let data := internal_data p in
  with_internal_data
    (mk_data (sorted_rects data) (num_rects data) (image_width data)
             (image_height data) v) p.
Definition with_sorted_rects (v : option (list nat)) (p : japacker_t) :=
  let data := internal_data p in
  with_internal_data
    (mk_data v (num_rects data) (image_width data) (image_height data)
             (data_empty_areas data)) p.
Definition with_images_needed (v : Z) (p : japacker_t) :=
  with_result
    (mk_result v (last_image_width (result p)) (last_image_height (result p)))
    p.
Definition with_last_image (w h : Z) (p : japacker_t) :=
  with_result (mk_result (images_needed (result p)) w h) p.
Definition with_rects_are_sorted (v : Z) (p : japacker_t) :=
  let o := options p in
  with_options
    (mk_options (allow_rotation o) v (always_repack o) (reduce_image_size o)
                (sort_by o) (fail_policy o)) p.

Definition zero_rect : japacker_rect := mk_rect 0 0 0 0 0 0 0.

(** [*ptr] for an element [ptr] of [sorted_rects]. *)
Definition rect_at (rs : list japacker_rect) (ptr : nat) : japacker_rect :=
  default zero_rect (rs !! ptr).

(** *** Rect ordering *)

Definition japacker_compare_rect_perimeters (rs : list japacker_rect)
    (a b : nat) : Z :=
  s32 (input_height (rect_at rs b) + input_width (rect_at rs b)
       - input_height (rect_at rs a) - input_width (rect_at rs a)).

Definition japacker_compare_rect_areas (rs : list japacker_rect)
    (a b : nat) : Z :=
  s32 (input_height (rect_at rs b) * input_width (rect_at rs b)
       - input_height (rect_at rs a) * input_width (rect_at rs a)).

Definition japacker_compare_rect_heights (rs : list japacker_rect)
    (a b : nat) : Z :=
  s32 (input_height (rect_at rs b) - input_height (rect_at rs a)).

Definition japacker_compare_rect_widths (rs : list japacker_rect)
    (a b : nat) : Z :=
  s32 (input_width (rect_at rs b) - input_width (rect_at rs a)).

Section Packer.

(** The C library's [qsort], applied to the array of pointers with one of the
    comparators above. *)
Variable qsort : (nat -> nat -> Z) -> list nat -> list nat.

(** The two floating-point estimates of [japacker_reduce_last_image_size],
    [(unsigned int) sqrt(rects_area * image_ratio) + 1] and
    [(unsigned int) sqrt(rects_area / image_ratio) + 1], as a function of
    [rects_area], [image_width] and [image_height]. *)
Variable needed_size : Z -> Z -> Z -> Z * Z.

Definition japacker_sort_rects (packer : japacker_t) : japacker_t :=
  let data := internal_data packer in
  let ptrs := seq 0 (Z.to_nat (num_rects data)) in
  if rects_are_sorted (options packer) =? 1 then
    with_sorted_rects (Some ptrs) packer
  else
    let choice :=
      match sort_by (options packer) with
      | JAPACKER_SORT_BY_AREA =>
          (japacker_compare_rect_areas,
           japacker_empty_area_set_area_comparator)
      | JAPACKER_SORT_BY_HEIGHT =>
          (japacker_compare_rect_heights,
           japacker_empty_area_set_height_comparator)
      | JAPACKER_SORT_BY_WIDTH =>
          (japacker_compare_rect_widths,
           japacker_empty_area_set_width_comparator)
      | JAPACKER_SORT_BY_PERIMETER =>
          (japacker_compare_rect_perimeters,
           japacker_empty_area_set_perimeter_comparator)
      end in
    let packer :=
      with_empty_areas
        (with_set_comparator (Some (snd choice)) (data_empty_areas data))
        packer in
    let packer :=
      with_sorted_rects (Some (qsort (fst choice (rects packer)) ptrs))
                        packer in
    with_rects_are_sorted 1 packer.

(** [data->sorted_rects[i]]. *)
Definition sorted_rect (packer : japacker_t) (i : nat) : res nat :=
  match sorted_rects (internal_data packer) with
  | None => Fault NullDeref
  | Some ptrs =>
      match ptrs !! i with
      | Some ptr => Ok ptr
      | None => Fault OutOfBounds
      end
  end.

(** [*rect] for a pointer into [packer->rects]. *)
Definition load_rect (packer : japacker_t) (ptr : nat) : res japacker_rect :=
  match rects packer !! ptr with
  | Some r => Ok r
  | None => Fault OutOfBounds
  end.

Definition store_rect (packer : japacker_t) (ptr : nat) (r : japacker_rect)
    : japacker_t :=
  with_rects (<[ptr := r]> (rects packer)) packer.

(** The call [japacker_pack_rect(data, rect, packer->options.allow_rotation)]
    on the packer: both the store and [*rect] are written back. *)
Definition pack_rect_in (packer : japacker_t) (ptr : nat)
    (rect : japacker_rect) : res (japacker_t * Z) :=
  r <- japacker_pack_rect (data_empty_areas (internal_data packer)) rect
         (allow_rotation (options packer)) ;;
  Ok (store_rect (with_empty_areas (fst (fst r)) packer) ptr (snd (fst r)),
      snd r).

(** *** Shrink-to-fit *)

(** The first [for] loop of [japacker_reduce_last_image_size]; the result is
    [failed_to_pack]. *)
Fixpoint reduce_for (count : nat) (i : nat) (packer : japacker_t)
    (image_index : Z) : res (japacker_t * Z) :=
  match count with
  | O => Ok (packer, 0)
  | S count' =>
      ptr <- sorted_rect packer i ;;
      rect <- load_rect packer ptr ;;
      if negb (u32 (output_image_index rect) =? image_index) then
        reduce_for count' (S i) packer image_index
      else
        r <- pack_rect_in packer ptr rect ;;
        if snd r =? 0 then Ok (fst r, 1)
        else reduce_for count' (S i) (fst r) image_index
  end.

(** The second [for] loop, which ignores the result of
    [japacker_pack_rect]. *)
Fixpoint restore_for (count : nat) (i : nat) (packer : japacker_t)
    (image_index : Z) : res japacker_t :=
  match count with
  | O => Ok packer
  | S count' =>
      ptr <- sorted_rect packer i ;;
      rect <- load_rect packer ptr ;;
      if negb (u32 (output_image_index rect) =? image_index) then
        restore_for count' (S i) packer image_index
      else
        r <- pack_rect_in packer ptr rect ;;
        restore_for count' (S i) (fst r) image_index
  end.

(** The call [japacker_reset_empty_areas(data, width, height)] on the
    packer. *)
Definition reset_in (packer : japacker_t) (width height : Z)
    : res japacker_t :=
  d <- japacker_reset_empty_areas (data_empty_areas (internal_data packer))
         width height ;;
  Ok (with_empty_areas d packer).

(** The [while (delta_width && delta_height)] loop.  The result tells whether
    the function returned from inside the loop. *)
Fixpoint reduce_while (fuel : nat) (packer : japacker_t)
    (rects_area image_index delta_width delta_height
     last_successful_width last_successful_height : Z)
    : res (japacker_t * bool * Z * Z) :=
  if (delta_width =? 0) || (delta_height =? 0) then
    Ok (packer, false, last_successful_width, last_successful_height)
  else
    match fuel with
    | O => Fault OutOfFuel
    | S fuel' =>
        let r := result packer in
        let packer :=
          if last_successful_width =? last_image_width r then
            with_last_image (u32 (last_image_width r - delta_width))
                            (u32 (last_image_height r - delta_height)) packer
          else
            with_last_image (u32 (last_image_width r + delta_width))
                            (u32 (last_image_height r + delta_height)) packer
        in
        packer <- reset_in packer (last_image_width (result packer))
                    (last_image_height (result packer)) ;;
        f <- reduce_for (Z.to_nat (num_rects (internal_data packer))) 0
               packer image_index ;;
        let packer := fst f in
        let failed_to_pack := snd f in
        if failed_to_pack =? 0 then
          let last_successful_width := last_image_width (result packer) in
          let last_successful_height := last_image_height (result packer) in
          let area_percentage_difference :=
            u32 (last_successful_width * last_successful_height * 100)
              / rects_area in
          if area_percentage_difference
               <? 100 + JAPACKER_TOLERABLE_AREA_DIFFERENCE_PERCENTAGE
          then Ok (packer, true, last_successful_width, last_successful_height)
          else
            reduce_while fuel' packer rects_area image_index
              (delta_width / 2) (delta_height / 2)
              last_successful_width last_successful_height
        else
          reduce_while fuel' packer rects_area image_index
            (delta_width / 2) (delta_height / 2)
            last_successful_width last_successful_height
    end.

(** Both deltas are below [2^32] and are halved at every iteration, so the
    loop body runs at most 32 times. *)
Definition japacker_reduce_last_image_size (packer : japacker_t)
    (rects_area : Z) : res japacker_t :=
  let data := internal_data packer in
  let current_area := u32 (image_width data * image_height data) in
  if rects_area =? 0 then Fault DivByZero
  else if u32 (current_area * 100) / rects_area
            <? 100 + JAPACKER_TOLERABLE_AREA_DIFFERENCE_PERCENTAGE
  then Ok packer
  else
    let image_index := u32 (images_needed (result packer) - 1) in
    let needed := needed_size rects_area (image_width data)
                    (image_height data) in
    let needed_width := fst needed in
    let needed_height := snd needed in
    let delta_width := u32 (image_width data - needed_width) / 2 in
    let delta_height := u32 (image_height data - needed_height) / 2 in
    let last_successful_width := image_width data in
    let last_successful_height := image_height data in
    w <- reduce_while 32 packer rects_area image_index delta_width
           delta_height last_successful_width last_successful_height ;;
    let '(packer, returned, last_successful_width, last_successful_height) :=
      w in
    if returned then Ok packer
    else if negb (last_successful_width =? last_image_width (result packer))
    then
      let packer :=
        with_last_image last_successful_width last_successful_height packer in
      packer <- reset_in packer (last_image_width (result packer))
                  (last_image_height (result packer)) ;;
      restore_for (Z.to_nat (num_rects (internal_data packer))) 0 packer
                  image_index
    else Ok packer.

(** *** Pack driver *)

(** The local variables of [japacker_pack] that the [for] loop updates. *)
Record pack_locals : Type := mk_locals {
  request_new_image : Z;
  packed_rects : Z;
  area_used_in_last_image : Z
}.

(** The [for] loop of [japacker_pack].  [Some v] in the result is a
    [return v] from inside the loop. *)
Fixpoint pack_for (count : nat) (i : nat) (packer : japacker_t)
    (locals : pack_locals) : res (japacker_t * pack_locals * option Z) :=
  match count with
  | O => Ok (packer, locals, None)
  | S count' =>
      ptr <- sorted_rect packer i ;;
      rect <- load_rect packer ptr ;;
      if negb (output_packed rect =? 0) &&
         (negb (always_repack (options packer) =? 1) ||
          negb (images_needed (result packer) =? 0))
      then pack_for count' (S i) packer locals
      else
        let rect := set_output_packed 0 rect in
        let packer := store_rect packer ptr rect in
        r <- pack_rect_in packer ptr rect ;;
        let packer := fst r in
        if snd r =? 0 then
          match fail_policy (options packer) with
          | JAPACKER_CONTINUE => pack_for count' (S i) packer locals
          | JAPACKER_STOP => Ok (packer, locals, Some (s32 (Z.of_nat i)))
          | JAPACKER_NEW_IMAGE =>
              let locals :=
                mk_locals 1 (packed_rects locals)
                          (area_used_in_last_image locals) in
              let data := internal_data packer in
              f <- deref (ea_first (data_empty_areas data)) ;;
              fw <- rd (data_empty_areas data) f area_width ;;
              fh <- rd (data_empty_areas data) f area_height ;;
              if (fw =? image_width data) && (fh =? image_height data) then
                let packer :=
                  with_images_needed
                    (u32 (images_needed (result packer) - 1)) packer in
                Ok (packer, locals, Some (s32 (packed_rects locals)))
              else pack_for count' (S i) packer locals
          end
        else
          rect <- load_rect packer ptr ;;
          let rect :=
            set_output_image_index (s32 (images_needed (result packer)))
                                   rect in
          let rect := set_output_packed 1 rect in
          let packer := store_rect packer ptr rect in
          let locals :=
            mk_locals (request_new_image locals)
              (u32 (packed_rects locals + 1))
              (u32 (area_used_in_last_image locals
                    + input_width rect * input_height rect)) in
          pack_for count' (S i) packer locals
  end.

(** The [do ... while (request_new_image)] loop and what follows it. *)
Fixpoint pack_do_while (fuel : nat) (packer : japacker_t) (packed : Z)
    : res (japacker_t * Z) :=
  match fuel with
  | O => Fault OutOfFuel
  | S fuel' =>
      let data := internal_data packer in
      packer <- reset_in packer (image_width data) (image_height data) ;;
      f <- pack_for (Z.to_nat (num_rects data)) 0 packer
             (mk_locals 0 packed 0) ;;
      let '(packer, locals, returned) := f in
      match returned with
      | Some v => Ok (packer, v)
      | None =>
          let packer :=
            with_images_needed (u32 (images_needed (result packer) + 1))
                               packer in
          if negb (request_new_image locals =? 0) then
            pack_do_while fuel' packer (packed_rects locals)
          else
            let data := internal_data packer in
            let packer :=
              with_last_image (image_width data) (image_height data) packer in
            packer <- (if reduce_image_size (options packer) =? 1 then
                         japacker_reduce_last_image_size packer
                           (area_used_in_last_image locals)
                       else Ok packer) ;;
            Ok (packer, s32 (packed_rects locals))
      end
  end.

(** What [japacker_pack] does between the validation of the setup and the
    [do] loop: the rects are sorted if needed, and a forced repack starts
    again from no image. *)
Definition pack_prepare (packer : japacker_t) : japacker_t :=
  let data := internal_data packer in
  let packer :=
    if negb (rects_are_sorted (options packer) =? 1) ||
       match sorted_rects data with None => true | Some _ => false end
    then japacker_sort_rects packer
    else packer in
  if negb (always_repack (options packer) =? 0)
  then with_images_needed 0 packer
  else packer.

(** A pass that asks for a new image has placed at least one rect that the
    later passes skip (a first failure on an untouched store returns), so
    [num_rects + 2] passes are more than the loop can make. *)
Definition japacker_pack (packer : japacker_t) : res (japacker_t * Z) :=
  let data := internal_data packer in
  if (num_rects data =? 0) || (image_width data =? 0) ||
     (image_height data =? 0) ||
     negb (u32 (ea_size (data_empty_areas data)) =? u32 (num_rects data + 1))
  then Ok (packer, JAPACKER_ERROR_WRONG_PARAMETERS)
  else
    pack_do_while (S (S (Z.to_nat (num_rects data)))) (pack_prepare packer) 0.

End Packer.

(** *** The other public functions *)

(** The rects and the internal data start zeroed; the content of the freshly
    allocated empty-area array is not specified by C and is taken zeroed. *)
Definition japacker_init (num_rectangles width height : Z) : japacker_t :=
  let size := u32 (num_rectangles + 1) in
  mk_packer
    (replicate (Z.to_nat num_rectangles) zero_rect)
    (mk_options 0 0 0 0 JAPACKER_SORT_BY_PERIMETER JAPACKER_STOP)
    (mk_result 0 0 0)
    (mk_data None num_rectangles width height
       (mk_empty_areas None None
          (replicate (Z.to_nat size) zero_area) 0 (s32 size) None)).

Definition japacker_resize_image (packer : japacker_t)
    (image_width' image_height' : Z) : japacker_t :=
  let data := internal_data packer in
  with_internal_data
    (mk_data (sorted_rects data) (num_rects data) image_width' image_height'
             (data_empty_areas data)) packer.

Definition japacker_get_dst_offset (packer : japacker_t)
    (rect : japacker_rect) (x y : Z) : Z :=
  let dst_width :=
    if (reduce_image_size (options packer) =? 1) &&
       (u32 (output_image_index rect)
          =? u32 (images_needed (result packer) - 1))
    then s32 (last_image_width (result packer))
    else s32 (image_width (internal_data packer)) in
  if output_rotated rect =? 0 then
    u32 ((y + output_y rect) * dst_width + output_x rect + x)
  else
    u32 ((output_y rect + input_width rect - 1) * dst_width + y
         + output_x rect - x * dst_width).

(** ** Vocabulary of the specification *)

(** A rectangular region of the destination image. *)
Record box : Type := mk_box {
  box_x : Z;
  box_y : Z;
  box_w : Z;
  box_h : Z
}.

Definition geom (a : japacker_empty_area) : box :=
  mk_box (area_x a) (area_y a) (area_width a) (area_height a).

(** The array seen member by member. *)
Definition geoms (d : empty_areas) : list box := geom <$> ea_list d.
Definition nexts (d : empty_areas) : list (option nat) :=
  area_next <$> ea_list d.
Definition prevs (d : empty_areas) : list (option nat) :=
  area_prev <$> ea_list d.
Definition meta (d : empty_areas) :=
  (ea_first d, ea_last d, ea_index d, ea_size d, ea_set_comparator d).

(** [p] points into the array. *)
Definition valid (d : empty_areas) (p : nat) : Prop :=
  (p < length (ea_list d))%nat.

Definition hd_or (l : list nat) (q : option nat) : option nat :=
  match l with
  | [] => q
  | i :: _ => Some i
  end.

Definition last_or (l : list nat) (p : option nat) : option nat :=
  match last l with
  | Some i => Some i
  | None => p
  end.

(** [lseg P N p l q]: the slots [l] are doubly linked in this order, the
    first one coming after [p] and the last one before [q]. *)
Fixpoint lseg (P N : list (option nat)) (p : option nat) (l : list nat)
    (q : option nat) : Prop :=
  match l with
  | [] => True
  | i :: l' =>
      P !! i = Some p /\ N !! i = Some (hd_or l' q) /\ lseg P N (Some i) l' q
  end.

(** [repr d l]: the linked list of [d] is made of the slots [l], from
    [first] to [last], and every other slot has null links. *)
Definition repr (d : empty_areas) (l : list nat) : Prop :=
  NoDup l /\
  ea_first d = head l /\
  ea_last d = last l /\
  lseg (prevs d) (nexts d) None l None /\
  (forall i, i ∉ l -> (i < length (ea_list d))%nat ->
     prevs d !! i = Some None /\ nexts d !! i = Some None).

(** The slots met when following [next] from [first]. *)
Fixpoint walk_next (steps : nat) (N : list (option nat)) (p : option nat)
    : list nat :=
  match p with
  | None => []
  | Some i =>
      match steps with
      | O => []
      | S steps' => i :: walk_next steps' N (default None (N !! i))
      end
  end.

Definition listed (d : empty_areas) : list nat :=
  walk_next (length (ea_list d)) (nexts d) (ea_first d).

(** The empty areas of the list, as regions. *)
Definition box_at (d : empty_areas) (i : nat) : box :=
  default (mk_box 0 0 0 0) (geoms d !! i).

Definition empty_boxes (d : empty_areas) : list box :=
  box_at d <$> listed d.

(** The region a packed rect covers: width and height are exchanged when it
    is rotated. *)
Definition footprint (r : japacker_rect) : box :=
  if output_rotated r =? 0
  then mk_box (output_x r) (output_y r) (input_width r) (input_height r)
  else mk_box (output_x r) (output_y r) (input_height r) (input_width r).

Definition inside (b : box) (px py : Z) : Prop :=
  box_x b <= px < box_x b + box_w b /\ box_y b <= py < box_y b + box_h b.

(** No point lies in both regions. *)
Definition disjoint (b1 b2 : box) : Prop :=
  forall px py, ~ (inside b1 px py /\ inside b2 px py).

(** [parts] are pairwise disjoint and their union is [whole]. *)
Definition partition_of (whole : box) (parts : list box) : Prop :=
  (forall px py,
     inside whole px py <-> exists b, b ∈ parts /\ inside b px py) /\
  (forall (i j : nat) bi bj, i <> j ->
     parts !! i = Some bi -> parts !! j = Some bj ->
     forall px py, ~ (inside bi px py /\ inside bj px py)).

Definition insideb (b : box) (px py : Z) : bool :=
  (box_x b <=? px) && (px <? box_x b + box_w b) &&
  (box_y b <=? py) && (py <? box_y b + box_h b).

Definition cnt (b : box) (px py : Z) : nat :=
  if insideb b px py then 1%nat else 0%nat.

(** How many of [parts] contain the point. *)
Fixpoint hits (parts : list box) (px py : Z) : nat :=
  match parts with
  | [] => 0%nat
  | b :: parts' => (cnt b px py + hits parts' px py)%nat
  end.

(** The regions of the slots [l]. *)
Definition boxes (d : empty_areas) (l : list nat) : list box :=
  box_at d <$> l.

(** A region that lies in the image [W] x [H]. *)
Definition in_image (W H : Z) (b : box) : Prop :=
  0 <= box_x b /\ 0 <= box_y b /\ 0 <= box_w b /\ 0 <= box_h b /\
  box_x b + box_w b <= W /\ box_y b + box_h b <= H.

(** A comparator function writes the member [comparator] and nothing
    else. *)
Definition comparator_only (f : japacker_empty_area -> japacker_empty_area)
    : Prop :=
  forall a, geom (f a) = geom a /\ area_next (f a) = area_next a /\
            area_prev (f a) = area_prev a.

Definition comparator_ok (d : empty_areas) : Prop :=
  forall f, ea_set_comparator d = Some f -> comparator_only f.

(** The invariant of the store while one image is being filled: the list is
    well formed, its areas lie in the image, and no slot above the high-water
    mark [index] is in use. *)
Definition store_ok (W H : Z) (d : empty_areas) (l : list nat) : Prop :=
  repr d l /\
  (forall i, i ∈ l -> in_image W H (box_at d i)) /\
  (forall i, i ∈ l -> Z.of_nat i <= ea_index d) /\
  0 <= ea_index d < Z.of_nat (length (ea_list d)) /\
  comparator_ok d.

(** The members that the functions on the store never change. *)
Definition same_conf (d d' : empty_areas) : Prop :=
  length (ea_list d') = length (ea_list d) /\
  ea_index d' = ea_index d /\
  ea_size d' = ea_size d /\
  ea_set_comparator d' = ea_set_comparator d.

(** An assignment through a pointer that is skipped when the pointer is
    null. *)
Definition opt_insert {A : Type} (o : option nat) (v : A) (L : list A)
    : list A :=
  match o with
  | Some p => <[p := v]> L
  | None => L
  end.

(** What a successful test of [adjacent] says about the two regions, and the
    region that the merge gives to [area]. *)
Definition adj_facts (adj : adjacency) (bc ba : box) : Prop :=
  match adj with
  | AdjLeft =>
      box_y bc = box_y ba /\ box_h bc = box_h ba /\
      u32 (box_x bc + box_w bc) = box_x ba
  | AdjRight =>
      box_y bc = box_y ba /\ box_h bc = box_h ba /\
      u32 (box_x ba + box_w ba) = box_x bc
  | AdjTop =>
      box_x bc = box_x ba /\ box_w bc = box_w ba /\
      u32 (box_y bc + box_h bc) = box_y ba
  | AdjBottom =>
      box_x bc = box_x ba /\ box_w bc = box_w ba /\
      u32 (box_y ba + box_h ba) = box_y bc
  end.

Definition merged_box (adj : adjacency) (bc ba : box) : box :=
  match adj with
  | AdjLeft =>
      mk_box (box_x bc) (box_y ba) (u32 (box_w ba + box_w bc)) (box_h ba)
  | AdjRight =>
      mk_box (box_x ba) (box_y ba) (u32 (box_w ba + box_w bc)) (box_h ba)
  | AdjTop =>
      mk_box (box_x ba) (box_y bc) (box_w ba) (u32 (box_h ba + box_h bc))
  | AdjBottom =>
      mk_box (box_x ba) (box_y ba) (box_w ba) (u32 (box_h ba + box_h bc))
  end.

(** The functions of the placement engine either return, or call the
    comparator function through a null pointer. *)
Definition ok_or_nullcall {A : Type} (d : empty_areas) (r : res A)
    (post : A -> Prop) : Prop :=
  (exists a, r = Ok a /\ post a) \/
  (r = Fault NullCall /\ ea_set_comparator d = None).

(** The three ways [japacker_pack_rect] can end: it returns, it calls the
    comparator function through a null pointer, or it takes a slot beyond
    the end of the array. *)
Definition placed_or_fault {A : Type} (d : empty_areas) (r : res A)
    (post : A -> Prop) : Prop :=
  (exists a, r = Ok a /\ post a) \/
  (r = Fault NullCall /\ ea_set_comparator d = None) \/
  (r = Fault OutOfBounds /\
   Z.of_nat (length (ea_list d)) <= ea_index d + 1).

(** A rect of the given dimensions is not skipped at the region [b]. *)
Definition fits (width height : Z) (b : box) : Prop :=
  height <= box_h b /\ width <= box_w b.

(** The width and the height a rect is placed with. *)
Definition placed_width (r : japacker_rect) : Z :=
  if output_rotated r =? 0 then input_width r else input_height r.
Definition placed_height (r : japacker_rect) : Z :=
  if output_rotated r =? 0 then input_height r else input_width r.

(** What a call of [japacker_pack_rect] that returns has done, for a store
    whose list is [l]. *)
Definition pack_rect_post (W H : Z) (d : empty_areas) (l : list nat)
    (rect : japacker_rect) (allow_rotation : Z)
    (r : empty_areas * japacker_rect * Z) : Prop :=
  let d' := fst (fst r) in
  let rect' := snd (fst r) in
  let ret := snd r in
  input_width rect' = input_width rect /\
  input_height rect' = input_height rect /\
  output_image_index rect' = output_image_index rect /\
  ((ret = 0 /\ d' = d /\ rect' = set_output_rotated 0 rect /\
    (forall i, i ∈ l ->
       ~ fits (placed_width rect) (placed_height rect) (box_at d i)) /\
    (allow_rotation <> 0 ->
     forall i, i ∈ l ->
       ~ fits (input_height rect) (input_width rect) (box_at d i)))
   \/
   (ret = 1 /\ output_packed rect' = 1 /\
    (output_rotated rect' = output_rotated rect /\
     (exists i, i ∈ l /\
        fits (placed_width rect) (placed_height rect) (box_at d i))
     \/
     output_rotated rect' = 1 /\ allow_rotation <> 0 /\
     (forall i, i ∈ l ->
        ~ fits (placed_width rect) (placed_height rect) (box_at d i))) /\
    exists l',
      store_ok W H d' l' /\
      ea_index d <= ea_index d' <= ea_index d + 1 /\
      length (ea_list d') = length (ea_list d) /\
      ea_size d' = ea_size d /\
      ea_set_comparator d' = ea_set_comparator d /\
      in_image W H (footprint rect') /\
      (forall px py,
         (cnt (footprint rect') px py + hits (boxes d' l') px py =
          hits (boxes d l) px py)%nat))).

(** [filling W H d placed]: the store [d] is what a reset to one empty area
    of [W] x [H] followed by calls of [japacker_pack_rect] has produced, and
    [placed] are the regions of the rects that those calls have placed.  The
    store that is reset is as [japacker_init] allocates it: [size] is the
    number of elements of the array. *)
Inductive filling (W H : Z) : empty_areas -> list box -> Prop :=
| filling_reset d0 d :
    comparator_ok d0 ->
    ea_size d0 = Z.of_nat (length (ea_list d0)) ->
    japacker_reset_empty_areas d0 W H = Ok d ->
    filling W H d []
| filling_place d placed rect allow_rotation d' rect' ret :
    filling W H d placed ->
    0 <= input_width rect ->
    0 <= input_height rect ->
    japacker_pack_rect d rect allow_rotation = Ok (d', rect', ret) ->
    filling W H d' (if ret =? 0 then placed else footprint rect' :: placed).

(** ** Running the model *)

(** One admissible [qsort]: insertion sort. *)
Fixpoint insert_sorted (cmp : nat -> nat -> Z) (x : nat) (l : list nat)
    : list nat :=
  match l with
  | [] => [x]
  | y :: l' => if cmp x y <=? 0 then x :: l else y :: insert_sorted cmp x l'
  end.

Definition insertion_qsort (cmp : nat -> nat -> Z) (l : list nat)
    : list nat :=
  foldr (insert_sorted cmp) [] l.

(** The two estimates on a square image whose rects have a total area below
    [2^24]: there [image_ratio] is exactly [1], the product and the quotient
    are exactly [rects_area], and the truncated square root of an integer of
    that size is its integer square root. *)
Definition needed_size_square (rects_area image_width image_height : Z)
    : Z * Z :=
  (Z.sqrt rects_area + 1, Z.sqrt rects_area + 1).

(** A packer after [japacker_init], the assignment of the options and the
    assignment of the inputs [dims] (width, height). *)
Definition new_packer (dims : list (Z * Z)) (width height : Z)
    (opts : japacker_options) : japacker_t :=
  with_options opts
    (with_rects
       (map (fun wh => mk_rect (fst wh) (snd wh) 0 0 0 0 0) dims)
       (japacker_init (Z.of_nat (length dims)) width height)).

Definition res_map {A B : Type} (f : A -> B) (r : res A) : res B :=
  match r with
  | Ok a => Ok (f a)
  | Fault e => Fault e
  end.

Definition store_of (packer : japacker_t) : empty_areas :=
  data_empty_areas (internal_data packer).

(** The comparators of the empty areas, from [first] to [last]. *)
Definition comparators (d : empty_areas) : list Z :=
  (fun i => default 0 (area_comparator <$> ea_list d !! i)) <$> listed d.

(** The output members of a rect: x, y, packed, rotated, image_index. *)
Definition outputs (r : japacker_rect) : Z * Z * Z * Z * Z :=
  (output_x r, output_y r, output_packed r, output_rotated r,
   output_image_index r).

(** The test that ends the search of the shrink-to-fit optimizer: the image
    area is less than 102 percent of the area of the rects. *)
Definition within_tolerance (width height rects_area : Z) : Prop :=
  u32 (width * height * 100) / rects_area
    < 100 + JAPACKER_TOLERABLE_AREA_DIFFERENCE_PERCENTAGE.

(** The list is in ascending order of the comparator. *)
Definition ascending (l : list Z) : Prop :=
  forall (i j : nat) a b,
    (i < j)%nat -> l !! i = Some a -> l !! j = Some b -> a <= b.

(** Two calls of [japacker_pack] in a row. *)
Definition pack_twice (qsort : (nat -> nat -> Z) -> list nat -> list nat)
    (needed_size : Z -> Z -> Z -> Z * Z) (packer : japacker_t)
    : res ((japacker_t * Z) * (japacker_t * Z)) :=
  first <- japacker_pack qsort needed_size packer ;;
  second <- japacker_pack qsort needed_size (fst first) ;;
  Ok (first, second).

(** The width of the destination image that [japacker_get_dst_offset] takes
    for a rect: the reduced width for a rect of the last image when
    [reduce_image_size] is set, the width given at initialisation
    otherwise. *)
Definition dst_width_of (packer : japacker_t) (rect : japacker_rect) : Z :=
  if (reduce_image_size (options packer) =? 1) &&
     (u32 (output_image_index rect)
        =? u32 (images_needed (result packer) - 1))
  then last_image_width (result packer)
  else image_width (internal_data packer).

(** A store as [japacker_init] and a first sort by perimeter leave it, for
    two rects. *)
Definition example_store : empty_areas :=
  with_set_comparator (Some japacker_empty_area_set_perimeter_comparator)
    (store_of (japacker_init 2 10 4)).

(** ** Invariants of the packer *)

(** No access outside an array, and no loop that outruns the steps the model
    gives it: the computation returns a result that satisfies [post], or
    stops at a null pointer or at a division by zero. *)
Definition safe {A : Type} (r : res A) (post : A -> Prop) : Prop :=
  match r with
  | Ok a => post a
  | Fault f => f <> OutOfBounds /\ f <> OutOfFuel
  end.

(** The rects that are not marked as packed. *)
Definition unpacked (rs : list japacker_rect) : nat :=
  length (filter (fun r => output_packed r = 0) rs).

(** The test of [japacker_pack] on the first empty area: the store is as the
    reset has left it. *)
Definition pristine (p : japacker_t) : Prop :=
  let data := internal_data p in
  (f <- deref (ea_first (data_empty_areas data)) ;;
   fw <- rd (data_empty_areas data) f area_width ;;
   fh <- rd (data_empty_areas data) f area_height ;;
   Ok ((fw =? image_width data) && (fh =? image_height data))) = Ok true.

(** The loop of [japacker_pack] skips the rects that are packed. *)
Definition skips_packed (p : japacker_t) : bool :=
  negb (always_repack (options p) =? 1) ||
  negb (images_needed (result p) =? 0).

(** A bound on the rects that the passes to come can place. *)
Definition pending (p : japacker_t) : Z :=
  if skips_packed p then Z.of_nat (unpacked (rects p))
  else num_rects (internal_data p) + 1.

(** The part of the packer that [japacker_pack] never changes once the rects
    are sorted: the arrays have the sizes given at initialisation,
    [sorted_rects] points once to each rect, the comparator function is null
    or a comparator, and the inputs are unsigned. *)
Definition packer_static (p : japacker_t) : Prop :=
  let data := internal_data p in
  let d := data_empty_areas data in
  num_rects data = Z.of_nat (length (rects p)) /\
  ea_size d = Z.of_nat (length (ea_list d)) /\
  ea_size d = num_rects data + 1 /\
  num_rects data + 1 < 2147483648 /\
  comparator_ok d /\
  0 <= image_width data < UINT_RANGE /\
  0 <= image_height data < UINT_RANGE /\
  (exists ptrs, sorted_rects data = Some ptrs /\
                ptrs ≡ₚ seq 0 (length (rects p))) /\
  Forall (fun r => 0 <= input_width r /\ 0 <= input_height r) (rects p).

(** The store is being filled, for some image size, and its high-water mark
    is at most [k]. *)
Definition filled_to (k : Z) (d : empty_areas) : Prop :=
  exists W H l,
    0 <= W < UINT_RANGE /\ 0 <= H < UINT_RANGE /\
    store_ok W H d l /\ ea_index d <= k.

Definition driver_inv (k : Z) (p : japacker_t) : Prop :=
  packer_static p /\ filled_to k (store_of p).

(** What holds of a packer between two calls of the public functions. *)
Definition packer_ok (p : japacker_t) : Prop :=
  let data := internal_data p in
  let d := data_empty_areas data in
  num_rects data = Z.of_nat (length (rects p)) /\
  ea_size d = Z.of_nat (length (ea_list d)) /\
  ea_size d < 2147483648 /\
  num_rects data + 1 < 2147483648 /\
  comparator_ok d /\
  0 <= image_width data < UINT_RANGE /\
  0 <= image_height data < UINT_RANGE /\
  (forall ptrs, sorted_rects data = Some ptrs ->
                ptrs ≡ₚ seq 0 (length (rects p))) /\
  Forall (fun r => 0 <= input_width r /\ 0 <= input_height r) (rects p) /\
  ea_index d <= num_rects data.

(** The members that a call of [japacker_pack_rect] on the packer leaves
    alone. *)
Definition same_frame (p p' : japacker_t) : Prop :=
  options p' = options p /\
  result p' = result p /\
  sorted_rects (internal_data p') = sorted_rects (internal_data p) /\
  num_rects (internal_data p') = num_rects (internal_data p) /\
  image_width (internal_data p') = image_width (internal_data p) /\
  image_height (internal_data p') = image_height (internal_data p) /\
  length (rects p') = length (rects p).

(** What the passes of shrink-to-fit read of a rect and never write. *)
Definition rect_job (r : japacker_rect) : Z * Z * Z :=
  (input_width r, input_height r, output_image_index r).

(** The packer [q] is [p] at another moment of the search of shrink-to-fit:
    it holds the rects of [p] with other outputs, in the same order, and has
    the options, the image, the count of images, the array of empty areas
    (with other contents) and the comparator function of [p]. *)
Definition same_job (p q : japacker_t) : Prop :=
  options q = options p /\
  sorted_rects (internal_data q) = sorted_rects (internal_data p) /\
  num_rects (internal_data q) = num_rects (internal_data p) /\
  rect_job <$> rects q = rect_job <$> rects p /\
  image_width (internal_data q) = image_width (internal_data p) /\
  image_height (internal_data q) = image_height (internal_data p) /\
  images_needed (result q) = images_needed (result p) /\
  length (ea_list (store_of q)) = length (ea_list (store_of p)) /\
  ea_size (store_of q) = ea_size (store_of p) /\
  ea_set_comparator (store_of q) = ea_set_comparator (store_of p).

(** The rects of the image [image_index] are marked as packed, lie in an
    image of [w] x [h] and do not overlap. *)
Definition image_packed (image_index w h : Z) (rs : list japacker_rect)
    : Prop :=
  (forall i r, rs !! i = Some r ->
     u32 (output_image_index r) = image_index ->
     output_packed r <> 0 /\ in_image w h (footprint r)) /\
  (forall i j r r', i <> j -> rs !! i = Some r -> rs !! j = Some r' ->
     u32 (output_image_index r) = image_index ->
     u32 (output_image_index r') = image_index ->
     disjoint (footprint r) (footprint r')).

(** A pass of shrink-to-fit at the size [w] x [h], the reset of the store
    and the first [for] loop, has placed every rect of the image
    [image_index]: the loop has met no failure, and it leaves the rects of
    [p], with their inputs and image indices, those of the image
    [image_index] inside an image of [w] x [h] and no two of them
    overlapping. *)
Definition pass_succeeded (p : japacker_t) (image_index w h : Z) : Prop :=
  exists q q0 q1,
    same_job p q /\ reset_in q w h = Ok q0 /\
    reduce_for (Z.to_nat (num_rects (internal_data q0))) 0 q0 image_index =
    Ok (q1, 0) /\
    rect_job <$> rects q1 = rect_job <$> rects p /\
    image_packed image_index w h (rects q1).

(** The sizes shrink-to-fit may record: the one given at initialisation, or
    one at which a pass has succeeded. *)
Definition size_ok (p : japacker_t) (image_index w h : Z) : Prop :=
  (w = image_width (internal_data p) /\ h = image_height (internal_data p)) \/
  pass_succeeded p image_index w h.

(** ** Examples *)

(** The result of a computation that returns. *)
Definition ok_or {A : Type} (a : A) (r : res A) : A :=
  match r with
  | Ok x => x
  | Fault _ => a
  end.

(** [example_store] reset for an image of 10 x 4, and the same after a rect
    of 3 x 2 has been placed. *)
Definition example_reset : empty_areas :=
  ok_or example_store (japacker_reset_empty_areas example_store 10 4).

Definition example_placed : empty_areas * japacker_rect * Z :=
  ok_or (example_reset, zero_rect, 0)
    (japacker_pack_rect example_reset (mk_rect 3 2 0 0 0 0 0) 0).

(** Two rects that need two images of 100 x 10. *)
Definition capacity_example : japacker_t :=
  new_packer [(60, 9); (50, 5)] 100 10
    (mk_options 1 0 0 1 JAPACKER_SORT_BY_AREA JAPACKER_NEW_IMAGE).

(** Under [JAPACKER_STOP], a rect of 9 x 9 that fits an image of 10 x 10 and
    a rect of 1 x 11 that does not. *)
Definition stop_example : japacker_t :=
  new_packer [(9, 9); (1, 11)] 10 10
    (mk_options 0 0 0 0 JAPACKER_SORT_BY_PERIMETER JAPACKER_STOP).

(** A packer whose only rect has been packed by a first call. *)
Definition packed_example : japacker_t :=
  let p := new_packer [(5, 5)] 10 10
             (mk_options 0 0 0 0 JAPACKER_SORT_BY_PERIMETER JAPACKER_STOP) in
  fst (ok_or (p, 0) (japacker_pack insertion_qsort needed_size_square p)).

(** The packer that [japacker_pack] hands to shrink-to-fit for one rect of
    50 x 50 in an image of 100 x 100. *)
Definition shrink_example_reset : japacker_t :=
  let p := new_packer [(50, 50)] 100 100
             (mk_options 0 0 0 1 JAPACKER_SORT_BY_PERIMETER JAPACKER_STOP) in
  ok_or p (reset_in (pack_prepare insertion_qsort p) 100 100).

Definition shrink_example : japacker_t :=
  let f := ok_or (shrink_example_reset, mk_locals 0 0 0, None)
             (pack_for 1 0 shrink_example_reset (mk_locals 0 0 0)) in
  with_last_image 100 100 (with_images_needed 1 (fst (fst f))).

(** ** Vocabulary of the further properties *)

(** The member [comparator] of the slot [i]. *)
Definition cmp_at (d : empty_areas) (i : nat) : Z :=
  default 0 (area_comparator <$> ea_list d !! i).

Definition cmps (d : empty_areas) : list Z := area_comparator <$> ea_list d.

(** [example_reset] with the image cut in two: the listed slot 0 keeps the
    left 6 x 4, the unlisted slot 1 holds the right 4 x 4. *)
Definition merge_example : empty_areas :=
  ok_or example_reset
    (d <- modify example_reset 0%nat (set_width 6) ;;
     d <- modify d 1%nat (set_x 6) ;;
     d <- modify d 1%nat (set_width 4) ;;
     d <- modify d 1%nat (set_height 4) ;;
     call_set_comparator d 0%nat).

(** What the user gives of a rect. *)
Definition rect_inputs (r : japacker_rect) : Z * Z :=
  (input_width r, input_height r).

(** The rects marked as packed lie in the image, and two of them that are
    on the same image do not overlap. *)
Definition valid_packing (W H : Z) (rs : list japacker_rect) : Prop :=
  (forall i r, rs !! i = Some r -> output_packed r <> 0 ->
     in_image W H (footprint r)) /\
  (forall i j r r', i <> j -> rs !! i = Some r -> rs !! j = Some r' ->
     output_packed r <> 0 -> output_packed r' <> 0 ->
     output_image_index r = output_image_index r' ->
     disjoint (footprint r) (footprint r')).

(** The images of the packed rects have indices from 0 to [k - 1]. *)
Definition packed_below (k : Z) (rs : list japacker_rect) : Prop :=
  forall i r, rs !! i = Some r -> output_packed r <> 0 ->
    0 <= output_image_index r < k.

(** The regions of the rects [done]. *)
Definition placed_of (rs : list japacker_rect) (done : list nat)
    : list box :=
  (fun ptr => footprint (rect_at rs ptr)) <$> done.

(** A pass of [japacker_pack] on the image [k]: the store is being filled
    with the rects [done], which are the packed rects of that image; the
    packed rects of the other images are on earlier images and make a valid
    packing. *)
Definition pass_inv (W H k : Z) (rs : list japacker_rect) (d : empty_areas)
    (done : list nat) : Prop :=
  filling W H d (placed_of rs done) /\
  NoDup done /\
  (forall ptr, ptr ∈ done ->
     exists r, rs !! ptr = Some r /\ in_image W H (footprint r)) /\
  (forall i r, rs !! i = Some r -> output_packed r <> 0 ->
     output_image_index r = k -> i ∈ done) /\
  (forall i r, rs !! i = Some r -> output_packed r <> 0 ->
     output_image_index r <> k ->
     0 <= output_image_index r < k /\ in_image W H (footprint r)) /\
  (forall i j r r', i <> j -> rs !! i = Some r -> rs !! j = Some r' ->
     output_packed r <> 0 -> output_packed r' <> 0 ->
     output_image_index r = output_image_index r' ->
     output_image_index r <> k ->
     disjoint (footprint r) (footprint r')).

(** The inputs of the rects are unsigned. *)
Definition nonneg_inputs (rs : list japacker_rect) : Prop :=
  Forall (fun r => 0 <= input_width r /\ 0 <= input_height r) rs.


(** Two rects of 6 x 6 that need two images of 10 x 10. *)
Definition two_images_example : japacker_t :=
  new_packer [(6, 6); (6, 6)] 10 10
    (mk_options 0 0 0 0 JAPACKER_SORT_BY_PERIMETER JAPACKER_NEW_IMAGE).

(** Under [JAPACKER_CONTINUE], two rects of 6 x 6, of which one fits an
    image of 10 x 10, and a rect of 3 x 3 that fits beside it. *)
Definition continue_example : japacker_t :=
  new_packer [(6, 6); (6, 6); (3, 3)] 10 10
    (mk_options 0 0 0 0 JAPACKER_SORT_BY_PERIMETER JAPACKER_CONTINUE).

(** The packers that a first call leaves for these examples. *)
Definition two_images_packed : japacker_t :=
  fst (ok_or (two_images_example, 0)
         (japacker_pack insertion_qsort needed_size_square
            two_images_example)).

Definition continue_packed : japacker_t :=
  fst (ok_or (continue_example, 0)
         (japacker_pack insertion_qsort needed_size_square continue_example)).

Definition stop_packed : japacker_t :=
  fst (ok_or (stop_example, 0)
         (japacker_pack insertion_qsort needed_size_square stop_example)).

(** A rect that is packed, or that is not rotated and that the empty image
    takes. *)
Definition fits_image (W H : Z) (r : japacker_rect) : Prop :=
  output_packed r <> 0 \/
  (output_rotated r = 0 /\ input_width r <= W /\ input_height r <= H).

(** As long as no new image is asked for, the rects that the loop of
    [japacker_pack] has met, which are the first [i] of [ptrs], are
    packed. *)
Definition met_packed (ptrs : list nat) (i : nat) (rs : list japacker_rect)
    (request : Z) : Prop :=
  request = 0 ->
  forall (j : nat) ptr, (j < i)%nat -> ptrs !! j = Some ptr ->
    exists r, rs !! ptr = Some r /\ output_packed r <> 0.

(** A pass of shrink-to-fit in an image of [W] x [H]: the store is being
    filled with the rects [done], which are marked as packed and lie in the
    image. *)
Definition reduce_inv (W H : Z) (rs : list japacker_rect) (d : empty_areas)
    (done : list nat) : Prop :=
  filling W H d (placed_of rs done) /\
  NoDup done /\
  (forall ptr, ptr ∈ done ->
     exists r, rs !! ptr = Some r /\ output_packed r <> 0 /\
               in_image W H (footprint r)).


(** Three rects of which the second, of 11 x 1, does not fit an image of
    10 x 10: the packer after a first call under [JAPACKER_CONTINUE], which
    has packed the first and the third, with the policy then set to
    [JAPACKER_STOP] for a second call; the second call when its loop starts,
    the loop after the first rect, and the call that fails. *)
Definition resume_example : japacker_t :=
  let p := new_packer [(7, 7); (11, 1); (3, 3)] 10 10
             (mk_options 0 0 0 0 JAPACKER_SORT_BY_PERIMETER
                JAPACKER_CONTINUE) in
  with_options
    (mk_options 0 1 0 0 JAPACKER_SORT_BY_PERIMETER JAPACKER_STOP)
    (fst (ok_or (p, 0) (japacker_pack insertion_qsort needed_size_square p))).

Definition resume_example_reset : japacker_t :=
  ok_or resume_example
    (reset_in (pack_prepare insertion_qsort resume_example) 10 10).

Definition resume_example_loop : japacker_t * pack_locals * option Z :=
  ok_or (resume_example_reset, mk_locals 0 0 0, None)
    (pack_for 1 0 resume_example_reset (mk_locals 0 0 0)).

Definition resume_example_failed : japacker_t * Z :=
  let p1 := fst (fst resume_example_loop) in
  let rect := set_output_packed 0 (rect_at (rects p1) 1) in
  ok_or (p1, 0) (pack_rect_in (store_rect p1 1%nat rect) 1%nat rect).

(** * Proofs *)

(** ** Machine integers *)

Lemma u32_range z : 0 <= u32 z < UINT_RANGE.
Proof. unfold u32, UINT_RANGE. apply Z.mod_pos_bound. lia. Qed.

Lemma u32_small z : 0 <= z < UINT_RANGE -> u32 z = z.
Proof. unfold u32. apply Z.mod_small. Qed.

(** ** The result monad *)

Lemma bind_ok {A B} (m : res A) (k : A -> res B) a r :
  m = Ok a -> k a = r -> bind m k = r.
Proof. intros -> <-. reflexivity. Qed.

Lemma bind_inv {A B} (m : res A) (k : A -> res B) b :
  bind m k = Ok b -> exists a, m = Ok a /\ k a = Ok b.
Proof. destruct m; simpl; [eauto | discriminate]. Qed.

(** ** The array seen member by member *)

Lemma length_geoms d : length (geoms d) = length (ea_list d).
Proof. apply length_fmap. Qed.
Lemma length_nexts d : length (nexts d) = length (ea_list d).
Proof. apply length_fmap. Qed.
Lemma length_prevs d : length (prevs d) = length (ea_list d).
Proof. apply length_fmap. Qed.

Lemma valid_lookup d p : valid d p -> exists a, ea_list d !! p = Some a.
Proof. intros H. apply lookup_lt_is_Some_2 in H. destruct H; eauto. Qed.

Lemma nexts_valid d p v : nexts d !! p = Some v -> valid d p.
Proof.
  intros H. apply lookup_lt_Some in H. rewrite length_nexts in H. exact H.
Qed.

Lemma prevs_valid d p v : prevs d !! p = Some v -> valid d p.
Proof.
  intros H. apply lookup_lt_Some in H. rewrite length_prevs in H. exact H.
Qed.

Lemma geoms_valid d p v : geoms d !! p = Some v -> valid d p.
Proof.
  intros H. apply lookup_lt_Some in H. rewrite length_geoms in H. exact H.
Qed.

Lemma lookup_views d p a :
  ea_list d !! p = Some a ->
  geoms d !! p = Some (geom a) /\
  nexts d !! p = Some (area_next a) /\
  prevs d !! p = Some (area_prev a).
Proof.
  intros H. unfold geoms, nexts, prevs.
  rewrite !list_lookup_fmap, H. auto.
Qed.

Lemma rd_next d p v : nexts d !! p = Some v -> rd d p area_next = Ok v.
Proof.
  unfold nexts, rd, load. rewrite list_lookup_fmap.
  destruct (ea_list d !! p); simpl; congruence.
Qed.

Lemma rd_prev d p v : prevs d !! p = Some v -> rd d p area_prev = Ok v.
Proof.
  unfold prevs, rd, load. rewrite list_lookup_fmap.
  destruct (ea_list d !! p); simpl; congruence.
Qed.

Lemma rd_geom d p b :
  geoms d !! p = Some b ->
  rd d p area_x = Ok (box_x b) /\ rd d p area_y = Ok (box_y b) /\
  rd d p area_width = Ok (box_w b) /\ rd d p area_height = Ok (box_h b).
Proof.
  unfold geoms, rd, load. rewrite list_lookup_fmap.
  destruct (ea_list d !! p); simpl; [|discriminate].
  intros [= <-]. auto.
Qed.

Lemma rd_valid {A} d p (fld : japacker_empty_area -> A) :
  valid d p -> exists v, rd d p fld = Ok v.
Proof.
  intros H. destruct (valid_lookup _ _ H) as [a Ha].
  unfold rd, load. rewrite Ha. simpl. eauto.
Qed.

Lemma load_views d p b n q :
  geoms d !! p = Some b -> nexts d !! p = Some n -> prevs d !! p = Some q ->
  exists a, load d p = Ok a /\ geom a = b /\ area_next a = n /\
            area_prev a = q.
Proof.
  unfold geoms, nexts, prevs, load. rewrite !list_lookup_fmap.
  destruct (ea_list d !! p); simpl; [|discriminate].
  intros [= <-] [= <-] [= <-]. eauto.
Qed.

(** What an assignment to one member does to each view. *)
Lemma modify_views d p f :
  valid d p ->
  exists d' a,
    ea_list d !! p = Some a /\
    modify d p f = Ok d' /\
    meta d' = meta d /\
    length (ea_list d') = length (ea_list d) /\
    geoms d' = <[p := geom (f a)]> (geoms d) /\
    nexts d' = <[p := area_next (f a)]> (nexts d) /\
    prevs d' = <[p := area_prev (f a)]> (prevs d).
Proof.
  intros H. destruct (valid_lookup _ _ H) as [a Ha].
  exists (with_list (<[p := f a]> (ea_list d)) d), a.
  unfold modify. rewrite Ha. repeat split.
  - simpl. apply length_insert.
  - unfold geoms. simpl. apply list_fmap_insert.
  - unfold nexts. simpl. apply list_fmap_insert.
  - unfold prevs. simpl. apply list_fmap_insert.
Qed.

Lemma insert_same {A} (l : list A) p x : l !! p = Some x -> <[p := x]> l = l.
Proof. apply list_insert_id. Qed.

Lemma modify_next d p v :
  valid d p ->
  exists d',
    modify d p (set_next v) = Ok d' /\ meta d' = meta d /\
    length (ea_list d') = length (ea_list d) /\
    geoms d' = geoms d /\ prevs d' = prevs d /\
    nexts d' = <[p := v]> (nexts d).
Proof.
  intros H. destruct (modify_views d p (set_next v) H)
    as (d' & a & Ha & Hm & Hmeta & Hlen & Hg & Hn & Hp).
  apply lookup_views in Ha as (Ha1 & Ha2 & Ha3).
  exists d'. repeat split; auto.
  - rewrite Hg. apply insert_same. exact Ha1.
  - rewrite Hp. apply insert_same. exact Ha3.
Qed.

Lemma modify_prev d p v :
  valid d p ->
  exists d',
    modify d p (set_prev v) = Ok d' /\ meta d' = meta d /\
    length (ea_list d') = length (ea_list d) /\
    geoms d' = geoms d /\ nexts d' = nexts d /\
    prevs d' = <[p := v]> (prevs d).
Proof.
  intros H. destruct (modify_views d p (set_prev v) H)
    as (d' & a & Ha & Hm & Hmeta & Hlen & Hg & Hn & Hp).
  apply lookup_views in Ha as (Ha1 & Ha2 & Ha3).
  exists d'. repeat split; auto.
  - rewrite Hg. apply insert_same. exact Ha1.
  - rewrite Hn. apply insert_same. exact Ha2.
Qed.

(** An assignment that leaves the links alone. *)
Lemma modify_geom d p f :
  valid d p ->
  (forall a, area_next (f a) = area_next a) ->
  (forall a, area_prev (f a) = area_prev a) ->
  exists d' a,
    ea_list d !! p = Some a /\
    modify d p f = Ok d' /\ meta d' = meta d /\
    length (ea_list d') = length (ea_list d) /\
    nexts d' = nexts d /\ prevs d' = prevs d /\
    geoms d' = <[p := geom (f a)]> (geoms d).
Proof.
  intros H Hfn Hfp. destruct (modify_views d p f H)
    as (d' & a & Ha & Hm & Hmeta & Hlen & Hg & Hn & Hp).
  pose proof (lookup_views _ _ _ Ha) as (Ha1 & Ha2 & Ha3).
  exists d', a. repeat split; auto.
  - rewrite Hn, Hfn. apply insert_same. exact Ha2.
  - rewrite Hp, Hfp. apply insert_same. exact Ha3.
Qed.

(** ** Linked segments *)

Lemma hd_or_app l1 l2 q : hd_or (l1 ++ l2) q = hd_or l1 (hd_or l2 q).
Proof. destruct l1; reflexivity. Qed.

Lemma last_or_nil p : last_or [] p = p.
Proof. reflexivity. Qed.

Lemma last_or_snoc l x p : last_or (l ++ [x]) p = Some x.
Proof. unfold last_or. rewrite last_snoc. reflexivity. Qed.

Lemma last_or_cons x l p : last_or (x :: l) p = last_or l (Some x).
Proof.
  unfold last_or. rewrite last_cons. destruct (last l); reflexivity.
Qed.

Lemma last_or_app l1 l2 p : last_or (l1 ++ l2) p = last_or l2 (last_or l1 p).
Proof.
  unfold last_or. rewrite last_app. destruct (last l2); reflexivity.
Qed.

Lemma hd_or_None l : hd_or l None = head l.
Proof. destruct l; reflexivity. Qed.

Lemma last_or_None l : last_or l None = last l.
Proof. unfold last_or. destruct (last l); reflexivity. Qed.

Lemma lseg_app P N p l1 l2 q :
  lseg P N p (l1 ++ l2) q <->
  lseg P N p l1 (hd_or l2 q) /\ lseg P N (last_or l1 p) l2 q.
Proof.
  revert p. induction l1 as [|i l1 IH]; intros p; simpl.
  - rewrite last_or_nil. tauto.
  - rewrite IH, hd_or_app, last_or_cons. tauto.
Qed.

Lemma lseg_lookup P N p l q i :
  lseg P N p l q -> i ∈ l -> is_Some (P !! i) /\ is_Some (N !! i).
Proof.
  revert p. induction l as [|j l IH]; intros p H Hi.
  - inversion Hi.
  - destruct H as (HP & HN & H). apply elem_of_cons in Hi as [->|Hi].
    + split; eauto.
    + eapply IH; eauto.
Qed.

(** The links of the slots outside [l] do not matter. *)
Lemma lseg_frame P N P' N' p l q :
  (forall i, i ∈ l -> P' !! i = P !! i) ->
  (forall i, i ∈ l -> N' !! i = N !! i) ->
  lseg P N p l q -> lseg P' N' p l q.
Proof.
  revert p. induction l as [|j l IH]; intros p HP HN H; [exact I|].
  destruct H as (H1 & H2 & H). simpl. repeat split.
  - rewrite HP by left. exact H1.
  - rewrite HN by left. exact H2.
  - apply IH; auto; intros; [apply HP | apply HN]; right; auto.
Qed.

(** Redirecting the [next] link of the last slot. *)
Lemma lseg_set_tail P N P' N' p l q q' :
  NoDup l ->
  (forall i, i ∈ l -> P' !! i = P !! i) ->
  (forall i, i ∈ l -> Some i <> last l -> N' !! i = N !! i) ->
  (forall z, last l = Some z -> N' !! z = Some q') ->
  lseg P N p l q -> lseg P' N' p l q'.
Proof.
  intros Hnd HP HN Hz H.
  destruct l as [|x l0] using rev_ind; [exact I|]. clear IHl0.
  apply lseg_app in H as [H1 H2]. apply lseg_app. simpl in *.
  apply NoDup_app in Hnd as (Hnd1 & Hnd2 & _).
  destruct H2 as (H2 & H3 & _). split.
  - eapply lseg_frame; [| |exact H1].
    + intros i Hi. apply HP. apply elem_of_app. auto.
    + intros i Hi. apply HN. { apply elem_of_app. auto. }
      rewrite last_snoc. intros [= ->]. eapply Hnd2; eauto. left.
  - repeat split.
    + rewrite HP; [exact H2|]. apply elem_of_app. right. left.
    + apply Hz. apply last_snoc.
Qed.

(** Redirecting the [prev] link of the first slot. *)
Lemma lseg_set_head P N P' N' p p' l q :
  NoDup l ->
  (forall i, i ∈ l -> N' !! i = N !! i) ->
  (forall i, i ∈ l -> Some i <> head l -> P' !! i = P !! i) ->
  (forall z, head l = Some z -> P' !! z = Some p') ->
  lseg P N p l q -> lseg P' N' p' l q.
Proof.
  intros Hnd HN HP Hz H. destruct l as [|x l]; [exact I|].
  destruct H as (H1 & H2 & H). apply NoDup_cons in Hnd as [Hx Hnd].
  simpl. repeat split.
  - apply Hz. reflexivity.
  - rewrite HN by left. exact H2.
  - eapply lseg_frame; [| |exact H].
    + intros i Hi. apply HP; [right; exact Hi|].
      simpl. intros [= ->]. contradiction.
    + intros i Hi. apply HN. right. exact Hi.
Qed.

(** The links of a slot in the middle of a segment. *)
Lemma lseg_middle P N p l1 c l2 q :
  lseg P N p (l1 ++ c :: l2) q ->
  P !! c = Some (last_or l1 p) /\ N !! c = Some (hd_or l2 q).
Proof.
  intros H. apply lseg_app in H as [_ H]. destruct H as (H1 & H2 & _). auto.
Qed.

Lemma repr_valid d l i : repr d l -> i ∈ l -> valid d i.
Proof.
  intros (_ & _ & _ & H & _) Hi.
  destruct (lseg_lookup _ _ _ _ _ _ H Hi) as [[v Hv] _].
  eapply prevs_valid; eauto.
Qed.

(** Following [next] from the head of a segment enumerates it. *)
Lemma walk_next_lseg P N p l steps :
  lseg P N p l None -> (length l <= steps)%nat ->
  walk_next steps N (head l) = l.
Proof.
  revert p steps. induction l as [|i l IH]; intros p steps H Hlen.
  - destruct steps; reflexivity.
  - destruct H as (H1 & H2 & H). simpl in Hlen.
    destruct steps as [|steps]; [lia|]. simpl. rewrite H2. simpl.
    rewrite hd_or_None. f_equal. eapply IH; eauto. lia.
Qed.

(** A list without duplicates of valid slots is no longer than the
    array. *)
Lemma NoDup_bounded_length (l : list nat) n :
  NoDup l -> (forall i, i ∈ l -> (i < n)%nat) -> (length l <= n)%nat.
Proof.
  intros Hnd Hb.
  assert (Hsub : l ⊆ seq 0 n).
  { intros i Hi. apply elem_of_seq. specialize (Hb i Hi). lia. }
  pose proof (submseteq_length l (seq 0 n)) as Hl.
  rewrite length_seq in Hl. apply Hl.
  apply NoDup_submseteq; auto.
Qed.

Lemma repr_length d l : repr d l -> (length l <= length (ea_list d))%nat.
Proof.
  intros H. apply NoDup_bounded_length.
  - apply H.
  - intros i Hi. eapply repr_valid; eauto.
Qed.

Lemma listed_repr d l : repr d l -> listed d = l.
Proof.
  intros H. pose proof (repr_length _ _ H) as Hlen.
  destruct H as (_ & Hf & _ & H & _). unfold listed. rewrite Hf.
  eapply walk_next_lseg; eauto.
Qed.

(** ** Removing a slot from the list *)

Lemma opt_insert_ne {A} (o : option nat) (v : A) L i :
  Some i <> o -> opt_insert o v L !! i = L !! i.
Proof.
  destruct o as [p|]; simpl; [|reflexivity].
  intros H. apply list_lookup_insert_ne. congruence.
Qed.

Lemma opt_insert_eq {A} (o : option nat) (v : A) L z :
  o = Some z -> (z < length L)%nat -> opt_insert o v L !! z = Some v.
Proof. intros -> H. simpl. apply list_lookup_insert_eq. exact H. Qed.

Lemma length_opt_insert {A} (o : option nat) (v : A) L :
  length (opt_insert o v L) = length L.
Proof. destruct o; simpl; [apply length_insert|reflexivity]. Qed.

Lemma same_conf_refl d : same_conf d d.
Proof. repeat split. Qed.

Lemma same_conf_trans d1 d2 d3 :
  same_conf d1 d2 -> same_conf d2 d3 -> same_conf d1 d3.
Proof.
  intros (A1 & A2 & A3 & A4) (B1 & B2 & B3 & B4).
  repeat split; congruence.
Qed.

Lemma meta_same_conf d d' :
  meta d' = meta d -> length (ea_list d') = length (ea_list d) ->
  same_conf d d'.
Proof. unfold meta. intros [= H1 H2 H3 H4 H5] H. repeat split; auto. Qed.

Lemma with_first_id d : with_first (ea_first d) d = d.
Proof. destruct d; reflexivity. Qed.

Lemma with_last_id d : with_last (ea_last d) d = d.
Proof. destruct d; reflexivity. Qed.

Lemma delist_spec d l1 c l2 :
  repr d (l1 ++ c :: l2) ->
  exists d',
    japacker_delist_empty_area d c = Ok d' /\
    repr d' (l1 ++ l2) /\
    geoms d' = geoms d /\
    same_conf d d'.
Proof.
  intros Hr. pose proof Hr as (Hnd & Hf & Hl & Hseg & Hout).
  pose proof (lseg_middle _ _ _ _ _ _ _ Hseg) as [HPc HNc].
  rewrite last_or_None in HPc. rewrite hd_or_None in HNc.
  assert (Hvc : valid d c) by (eapply prevs_valid; eauto).
  apply NoDup_app in Hnd as (Hnd1 & Hnd12 & Hnd2).
  apply NoDup_cons in Hnd2 as (Hc2 & Hnd2).
  assert (Hc1 : c ∉ l1) by (intros H; eapply Hnd12; eauto; left).
  assert (H12 : forall i, i ∈ l1 -> i ∉ l2).
  { intros i Hi Hi2. eapply Hnd12; eauto. right. exact Hi2. }
  unfold japacker_delist_empty_area.
  (* first *)
  set (d1 := with_first (head (l1 ++ l2)) d).
  assert (H1 : (if decide (Some c = ea_first d)
                then an <- rd d c area_next ;; Ok (with_first an d)
                else Ok d) = Ok d1).
  { destruct (decide (Some c = ea_first d)) as [e|n].
    - rewrite (rd_next _ _ _ HNc). simpl. unfold d1.
      rewrite Hf in e. destruct l1 as [|x l1]; simpl in *; [reflexivity|].
      injection e as ->. exfalso. apply Hc1. left.
    - unfold d1. destruct l1 as [|x l1]; simpl in *.
      + exfalso. apply n. congruence.
      + rewrite <- Hf. rewrite with_first_id. reflexivity. }
  rewrite H1. cbn [bind]. clear H1.
  (* last *)
  set (d2 := with_last (last (l1 ++ l2)) d1).
  assert (H2 : (if decide (Some c = ea_last d1)
                then ap <- rd d1 c area_prev ;; Ok (with_last ap d1)
                else Ok d1) = Ok d2).
  { change (ea_last d1) with (ea_last d).
    assert (Hrd : rd d1 c area_prev = Ok (last l1))
      by (apply rd_prev; exact HPc).
    destruct (decide (Some c = ea_last d)) as [e|n].
    - rewrite Hrd. simpl. unfold d2.
      rewrite Hl in e. destruct l2 as [|x l2 _] using rev_ind.
      + rewrite app_nil_r. reflexivity.
      + exfalso. rewrite app_comm_cons, app_assoc, last_snoc in e.
        injection e as ->. apply Hc2. apply elem_of_app. right. left.
    - unfold d2. destruct l2 as [|x l2 _] using rev_ind.
      + exfalso. apply n. rewrite Hl. rewrite last_app. reflexivity.
      + rewrite app_assoc, last_snoc.
        rewrite app_comm_cons, app_assoc, last_snoc in Hl.
        change (ea_last d) with (ea_last d1) in Hl.
        rewrite <- Hl, with_last_id. reflexivity. }
  rewrite H2. cbn [bind]. clear H2.
  assert (Hg2 : geoms d2 = geoms d) by reflexivity.
  assert (HN2 : nexts d2 = nexts d) by reflexivity.
  assert (HP2 : prevs d2 = prevs d) by reflexivity.
  assert (Hlen2 : length (ea_list d2) = length (ea_list d)) by reflexivity.
  rewrite (rd_prev d2 c (last l1)) by (rewrite HP2; exact HPc). cbn [bind].
  (* area->prev->next = area->next *)
  assert (H3 : exists d3,
    match last l1 with
    | Some p => an <- rd d2 c area_next ;; modify d2 p (set_next an)
    | None => Ok d2
    end = Ok d3 /\
    meta d3 = meta d2 /\ length (ea_list d3) = length (ea_list d) /\
    geoms d3 = geoms d /\ prevs d3 = prevs d /\
    nexts d3 = opt_insert (last l1) (head l2) (nexts d)).
  { destruct (last l1) as [p|] eqn:Hlast.
    - rewrite (rd_next d2 c (head l2)) by (rewrite HN2; exact HNc). simpl.
      assert (Hvp : valid d2 p).
      { apply last_Some in Hlast as [l1' ->].
        change (valid d p).
        eapply repr_valid; [exact Hr|]. rewrite !elem_of_app.
        left. right. left. }
      destruct (modify_next d2 p (head l2) Hvp)
        as (d3 & E & M & L & G & P & N).
      exists d3. repeat split; auto; congruence.
    - exists d2. repeat split; auto. }
  destruct H3 as (d3 & H3 & M3 & L3 & G3 & P3 & N3). rewrite H3. cbn [bind].
  assert (HPc3 : prevs d3 !! c = Some (last l1)) by (rewrite P3; exact HPc).
  assert (HNc3 : nexts d3 !! c = Some (head l2)).
  { rewrite N3, opt_insert_ne; [exact HNc|].
    intros E. symmetry in E. apply last_Some in E as [l1' ->].
    apply Hc1. apply elem_of_app. right. left. }
  rewrite (rd_next d3 c (head l2) HNc3). cbn [bind].
  (* area->next->prev = area->prev *)
  assert (H4 : exists d4,
    match head l2 with
    | Some n => ap <- rd d3 c area_prev ;; modify d3 n (set_prev ap)
    | None => Ok d3
    end = Ok d4 /\
    meta d4 = meta d2 /\ length (ea_list d4) = length (ea_list d) /\
    geoms d4 = geoms d /\ nexts d4 = nexts d3 /\
    prevs d4 = opt_insert (head l2) (last l1) (prevs d)).
  { destruct (head l2) as [n|] eqn:Hhead.
    - rewrite (rd_prev d3 c (last l1) HPc3). simpl.
      assert (Hvn : valid d3 n).
      { unfold valid. rewrite L3. destruct l2 as [|n' l2]; [discriminate|].
        injection Hhead as ->.
        eapply repr_valid; [exact Hr|]. rewrite !elem_of_app.
        right. right. left. }
      destruct (modify_prev d3 n (last l1) Hvn)
        as (d4 & E & M & L & G & N & P).
      exists d4. repeat split; auto; congruence.
    - exists d3. repeat split; auto. }
  destruct H4 as (d4 & H4 & M4 & L4 & G4 & N4 & P4). rewrite H4. cbn [bind].
  assert (Hv4 : valid d4 c) by (unfold valid; rewrite L4; exact Hvc).
  destruct (modify_prev d4 c None Hv4) as (d5 & E5 & M5 & L5 & G5 & N5 & P5).
  rewrite E5. cbn [bind].
  assert (Hv5 : valid d5 c) by (unfold valid; rewrite L5; exact Hv4).
  destruct (modify_next d5 c None Hv5) as (d6 & E6 & M6 & L6 & G6 & P6 & N6).
  rewrite E6. exists d6. split; [reflexivity|].
  assert (HP : prevs d6 =
               <[c := None]> (opt_insert (head l2) (last l1) (prevs d)))
    by congruence.
  assert (HN : nexts d6 =
               <[c := None]> (opt_insert (last l1) (head l2) (nexts d)))
    by congruence.
  assert (Hmeta : meta d6 = meta d2) by congruence.
  assert (Hlen : length (ea_list d6) = length (ea_list d)) by congruence.
  split; [|split].
  - (* repr *)
    unfold meta in Hmeta. injection Hmeta as Hf6 Hl6 _ _ _.
    split; [|split; [|split; [|split]]].
    + apply NoDup_app. repeat split; auto.
    + rewrite Hf6. reflexivity.
    + rewrite Hl6. reflexivity.
    + rewrite HP, HN. apply lseg_app in Hseg as [HA HB].
      destruct HB as (_ & _ & HB). apply lseg_app. split.
      * rewrite hd_or_None.
        eapply lseg_set_tail; [exact Hnd1| | | |exact HA].
        -- intros i Hi. rewrite list_lookup_insert_ne by congruence.
           apply opt_insert_ne. destruct l2 as [|n l2]; [discriminate|].
           simpl. intros [= ->]. eapply H12; eauto. left.
        -- intros i Hi Hne. rewrite list_lookup_insert_ne by congruence.
           apply opt_insert_ne. exact Hne.
        -- intros z Hz.
           assert (z ∈ l1).
           { apply last_Some in Hz as [l' ->]. apply elem_of_app.
             right. left. }
           rewrite list_lookup_insert_ne by congruence.
           apply opt_insert_eq; [exact Hz|].
           rewrite length_nexts. eapply repr_valid; [exact Hr|].
           apply elem_of_app. auto.
      * rewrite last_or_None.
        eapply lseg_set_head; [exact Hnd2| | | |exact HB].
        -- intros i Hi. rewrite list_lookup_insert_ne by congruence.
           apply opt_insert_ne. intros E. symmetry in E.
           apply last_Some in E as [l' ->]. eapply H12; [|exact Hi].
           apply elem_of_app. right. left.
        -- intros i Hi Hne. rewrite list_lookup_insert_ne by congruence.
           apply opt_insert_ne. exact Hne.
        -- intros z Hz.
           assert (z ∈ l2).
           { destruct l2; [discriminate|]. injection Hz as ->. left. }
           rewrite list_lookup_insert_ne by congruence.
           apply opt_insert_eq; [exact Hz|].
           rewrite length_prevs. eapply repr_valid; [exact Hr|].
           apply elem_of_app. right. right. auto.
    + intros i Hi Hv. rewrite HP, HN. destruct (decide (i = c)) as [->|Hic].
      * rewrite !list_lookup_insert_eq; auto.
        -- rewrite length_opt_insert, length_nexts. exact Hvc.
        -- rewrite length_opt_insert, length_prevs. exact Hvc.
      * rewrite !list_lookup_insert_ne by congruence.
        rewrite !opt_insert_ne.
        -- apply Hout; [|rewrite <- Hlen; exact Hv].
           rewrite elem_of_app, elem_of_cons. rewrite elem_of_app in Hi.
           tauto.
        -- intros E. symmetry in E. apply last_Some in E as [l' ->].
           apply Hi. rewrite !elem_of_app. left. right. left.
        -- intros E. destruct l2; [discriminate|]. injection E as ->.
           apply Hi. rewrite !elem_of_app. right. left.
  - congruence.
  - unfold meta in Hmeta. injection Hmeta as _ _ Hi Hs Hc.
    repeat split; auto.
Qed.

(** ** Inserting a slot into the list *)

Lemma lseg_insert P N P' N' p l1 a l2 q :
  NoDup (l1 ++ l2) ->
  lseg P N p (l1 ++ l2) q ->
  (forall i, i ∈ l1 ++ l2 -> Some i <> head l2 -> P' !! i = P !! i) ->
  (forall i, i ∈ l1 ++ l2 -> Some i <> last l1 -> N' !! i = N !! i) ->
  (forall z, last l1 = Some z -> N' !! z = Some (Some a)) ->
  (forall z, head l2 = Some z -> P' !! z = Some (Some a)) ->
  P' !! a = Some (last_or l1 p) ->
  N' !! a = Some (hd_or l2 q) ->
  lseg P' N' p (l1 ++ a :: l2) q.
Proof.
  intros Hnd H HP HN Hz1 Hz2 Ha1 Ha2.
  apply NoDup_app in Hnd as (Hnd1 & Hnd12 & Hnd2).
  apply lseg_app in H as [H1 H2]. apply lseg_app. split.
  - simpl. eapply lseg_set_tail; [exact Hnd1| | |exact Hz1|exact H1].
    + intros i Hi. apply HP; [apply elem_of_app; auto|].
      intros E. symmetry in E. destruct l2; [discriminate|].
      injection E as ->. eapply Hnd12; eauto. left.
    + intros i Hi Hne. apply HN; [apply elem_of_app; auto|exact Hne].
  - simpl. repeat split; auto.
    eapply lseg_set_head; [exact Hnd2| | |exact Hz2|exact H2].
    + intros i Hi. apply HN; [apply elem_of_app; auto|].
      intros E. symmetry in E. apply last_Some in E as [l' ->].
      eapply Hnd12; [|exact Hi]. apply elem_of_app. right. left.
    + intros i Hi Hne. apply HP; [apply elem_of_app; auto|exact Hne].
Qed.

(** The three ways [japacker_sort_empty_area] links [area] in all produce
    the views below. *)
Lemma repr_insert d d' l1 area l2 :
  repr d (l1 ++ l2) ->
  area ∉ l1 ++ l2 ->
  valid d area ->
  length (ea_list d') = length (ea_list d) ->
  ea_first d' = head (l1 ++ area :: l2) ->
  ea_last d' = last (l1 ++ area :: l2) ->
  prevs d' = <[area := last l1]> (opt_insert (head l2) (Some area) (prevs d)) ->
  nexts d' = <[area := head l2]> (opt_insert (last l1) (Some area) (nexts d)) ->
  repr d' (l1 ++ area :: l2).
Proof.
  intros Hr Ha Hv Hlen Hf Hl HP HN.
  pose proof Hr as (Hnd & _ & _ & Hseg & Hout).
  assert (Hvi : forall i, i ∈ l1 ++ l2 -> valid d i)
    by (intros; eapply repr_valid; eauto).
  split; [|split; [|split; [|split]]]; auto.
  - apply NoDup_app in Hnd as (Hnd1 & Hnd12 & Hnd2).
    rewrite elem_of_app in Ha.
    apply NoDup_app. repeat split; auto.
    + intros x Hx. rewrite elem_of_cons. intros [->|Hx2]; [tauto|].
      eapply Hnd12; eauto.
    + apply NoDup_cons. split; [tauto|auto].
  - rewrite HP, HN.
    eapply lseg_insert; [exact Hnd|exact Hseg| | | | | |].
    + intros i Hi Hne. rewrite list_lookup_insert_ne by congruence.
      apply opt_insert_ne. exact Hne.
    + intros i Hi Hne. rewrite list_lookup_insert_ne by congruence.
      apply opt_insert_ne. exact Hne.
    + intros z Hz.
      assert (z ∈ l1 ++ l2).
      { apply last_Some in Hz as [l' ->]. rewrite !elem_of_app.
        left. right. left. }
      rewrite list_lookup_insert_ne by congruence.
      apply opt_insert_eq; [exact Hz|]. rewrite length_nexts. apply Hvi; auto.
    + intros z Hz.
      assert (z ∈ l1 ++ l2).
      { destruct l2; [discriminate|]. injection Hz as ->.
        rewrite !elem_of_app. right. left. }
      rewrite list_lookup_insert_ne by congruence.
      apply opt_insert_eq; [exact Hz|]. rewrite length_prevs. apply Hvi; auto.
    + rewrite last_or_None. apply list_lookup_insert_eq.
      rewrite length_opt_insert, length_prevs. exact Hv.
    + rewrite hd_or_None. apply list_lookup_insert_eq.
      rewrite length_opt_insert, length_nexts. exact Hv.
  - intros i Hi Hvi'. rewrite Hlen in Hvi'.
    assert (Hia : i <> area).
    { intros ->. apply Hi. rewrite elem_of_app. right. left. }
    assert (Hil : i ∉ l1 ++ l2).
    { intros H. apply Hi. rewrite elem_of_app in *. rewrite elem_of_cons.
      tauto. }
    rewrite HP, HN. rewrite !list_lookup_insert_ne by congruence.
    rewrite !opt_insert_ne.
    + apply Hout; auto.
    + intros E. symmetry in E. apply last_Some in E as [l' ->].
      apply Hil. rewrite !elem_of_app. left. right. left.
    + intros E. destruct l2; [discriminate|]. injection E as ->.
      apply Hil. rewrite !elem_of_app. right. left.
Qed.

Lemma sort_walk_None fuel d area :
  sort_walk fuel d area None =
  (f <- deref (ea_first d) ;;
   d <- modify d f (set_prev (Some area)) ;;
   d <- modify d area (set_next (ea_first d)) ;;
   Ok (with_first (Some area) d)).
Proof. destruct fuel; reflexivity. Qed.

Lemma meta_fields d d' :
  meta d' = meta d ->
  ea_first d' = ea_first d /\ ea_last d' = ea_last d /\
  ea_index d' = ea_index d /\ ea_size d' = ea_size d /\
  ea_set_comparator d' = ea_set_comparator d.
Proof. unfold meta. intros [= H1 H2 H3 H4 H5]. auto. Qed.

Lemma out_links d l i :
  repr d l -> i ∉ l -> valid d i ->
  prevs d !! i = Some None /\ nexts d !! i = Some None.
Proof. intros (_ & _ & _ & _ & H) Hi Hv. apply H; auto. Qed.

Lemma sort_walk_order d l1 l2 area fuel :
  repr d (l1 ++ l2) ->
  l1 ++ l2 <> [] ->
  area ∉ l1 ++ l2 ->
  valid d area ->
  (length l1 <= fuel)%nat ->
  exists d' la lb,
    ((forall i, i ∈ lb -> cmp_at d area <= cmp_at d i) /\
     (forall z, last la = Some z -> cmp_at d z < cmp_at d area)) /\
    sort_walk fuel d area (last l1) = Ok d' /\
    l1 = la ++ lb /\
    repr d' (la ++ area :: lb ++ l2) /\
    geoms d' = geoms d /\
    same_conf d d'.
Proof.
  revert l2 fuel. induction l1 as [|c l1 IH] using rev_ind;
    intros l2 fuel Hr Hne Ha Hv Hfuel.
  - (* the walk has passed the first slot: [area] becomes the first *)
    simpl in *. rewrite sort_walk_None.
    pose proof Hr as (Hnd & Hf & Hl & Hseg & Hout).
    destruct l2 as [|f l2]; [congruence|]. clear Hne.
    rewrite Hf. simpl.
    assert (Hvf : valid d f) by (eapply repr_valid; eauto; left).
    destruct (modify_prev d f (Some area) Hvf)
      as (d1 & E1 & M1 & L1 & G1 & N1 & P1).
    rewrite E1. cbn [bind].
    assert (Hv1 : valid d1 area) by (unfold valid; rewrite L1; exact Hv).
    destruct (modify_next d1 area (ea_first d1) Hv1)
      as (d2 & E2 & M2 & L2 & G2 & P2 & N2).
    rewrite E2. cbn [bind].
    apply meta_fields in M1 as (F1 & La1 & I1 & S1 & C1).
    apply meta_fields in M2 as (F2 & La2 & I2 & S2 & C2).
    destruct (out_links _ _ _ Hr Ha Hv) as [HPa HNa].
    assert (Haf : area <> f) by (intros ->; apply Ha; left).
    exists (with_first (Some area) d2), [], [].
    split; [split; [intros i Hi; inversion Hi|intros z Hz; discriminate Hz]|].
    split; [reflexivity|]. split; [reflexivity|].
    split; [|split; [|split; [|split; [|split]]]].
    + eapply (repr_insert d (with_first (Some area) d2) [] area (f :: l2));
        [exact Hr|exact Ha|exact Hv| | | | | ].
      * simpl. congruence.
      * reflexivity.
      * simpl. rewrite La2, La1, Hl. reflexivity.
      * change (prevs (with_first (Some area) d2)) with (prevs d2).
        rewrite P2, P1. simpl. symmetry. apply list_insert_id.
        rewrite list_lookup_insert_ne by congruence. exact HPa.
      * change (nexts (with_first (Some area) d2)) with (nexts d2).
        rewrite N2, N1, F1, Hf. reflexivity.
    + change (geoms (with_first (Some area) d2)) with (geoms d2). congruence.
    + simpl. congruence.
    + simpl. congruence.
    + simpl. congruence.
    + simpl. congruence.
  - rewrite last_snoc. rewrite length_app in Hfuel. simpl in Hfuel.
    destruct fuel as [|fuel]; [lia|].
    pose proof Hr as (Hnd & Hf & Hl & Hseg & Hout).
    rewrite <- app_assoc in Hr, Ha, Hseg, Hnd, Hl. simpl in Hr, Ha, Hseg, Hnd, Hl.
    assert (Hvc : valid d c).
    { eapply repr_valid; eauto. apply elem_of_app. right. left. }
    assert (Hac : area <> c).
    { intros ->. apply Ha. apply elem_of_app. right. left. }
    pose proof (lseg_middle _ _ _ _ _ _ _ Hseg) as [HPc HNc].
    rewrite last_or_None in HPc. rewrite hd_or_None in HNc.
    destruct (rd_valid d c area_comparator Hvc) as [cc Hcc].
    destruct (rd_valid d area area_comparator Hv) as [ac Hac'].
    cbn [sort_walk]. rewrite Hcc. cbn [bind]. rewrite Hac'. cbn [bind].
    assert (Hcmp : cmp_at d c = cc /\ cmp_at d area = ac).
    { unfold cmp_at, rd, load in *.
      destruct (ea_list d !! c); [|discriminate].
      destruct (ea_list d !! area); [|discriminate].
      simpl in *. split; congruence. }
    destruct Hcmp as [Hcmpc Hcmpa].
    destruct (cc <? ac) eqn:Hlt.
    + (* [area] is linked in right after [c] *)
      destruct (out_links _ _ _ Hr Ha Hv) as [HPa HNa].
      assert (H1 : exists d1,
        (if decide (Some c = ea_last d) then Ok (with_last (Some area) d)
         else
           cn <- rd d c area_next ;;
           d <- modify d area (set_next cn) ;;
           an <- rd d area area_next ;;
           n <- deref an ;;
           modify d n (set_prev (Some area))) = Ok d1 /\
        ea_first d1 = ea_first d /\
        ea_last d1 = last ((l1 ++ [c]) ++ area :: l2) /\
        same_conf d d1 /\ geoms d1 = geoms d /\
        prevs d1 = opt_insert (head l2) (Some area) (prevs d) /\
        nexts d1 = <[area := head l2]> (nexts d)).
      { destruct (decide (Some c = ea_last d)) as [e|n].
        - assert (l2 = []) as ->.
          { rewrite Hl in e. destruct l2 as [|x l2 _] using rev_ind;
              [reflexivity|].
            rewrite app_comm_cons, app_assoc, last_snoc in e.
            injection e as ->. exfalso.
            apply NoDup_app in Hnd as (_ & _ & Hnd).
            apply NoDup_cons in Hnd as [Hnd _]. apply Hnd.
            apply elem_of_app. right. left. }
          exists (with_last (Some area) d). repeat split.
          + simpl. rewrite last_snoc. reflexivity.
          + simpl. symmetry. apply list_insert_id. exact HNa.
        - destruct l2 as [|x l2].
          { exfalso. apply n. rewrite Hl, last_snoc. reflexivity. }
          simpl in HNc. rewrite (rd_next _ _ _ HNc). cbn [bind].
          destruct (modify_next d area (Some x) Hv)
            as (d1 & E1 & M1 & L1 & G1 & P1 & N1).
          rewrite E1. cbn [bind].
          rewrite (rd_next d1 area (Some x)).
          2:{ rewrite N1. apply list_lookup_insert_eq.
              rewrite length_nexts. exact Hv. }
          cbn [bind deref].
          assert (Hvx : valid d1 x).
          { unfold valid. rewrite L1. eapply repr_valid; eauto.
            rewrite elem_of_app, !elem_of_cons. auto. }
          destruct (modify_prev d1 x (Some area) Hvx)
            as (d2 & E2 & M2 & L2 & G2 & N2 & P2).
          rewrite E2.
          apply meta_fields in M1 as (F1 & La1 & I1 & S1 & C1).
          apply meta_fields in M2 as (F2 & La2 & I2 & S2 & C2).
          exists d2. cbn [head opt_insert].
          repeat split; try congruence.
          rewrite La2, La1, Hl.
          rewrite <- !app_assoc. simpl.
          rewrite !last_app. simpl. rewrite !last_cons.
          destruct (last l2); reflexivity. }
      destruct H1 as (d1 & H1 & F1 & La1 & SC1 & G1 & P1 & N1).
      rewrite H1. cbn [bind].
      assert (Hv1 : valid d1 area).
      { unfold valid. destruct SC1 as [-> _]. exact Hv. }
      destruct (modify_prev d1 area (Some c) Hv1)
        as (d2 & E2 & M2 & L2 & G2 & N2 & P2).
      rewrite E2. cbn [bind].
      assert (Hv2 : valid d2 c).
      { unfold valid. rewrite L2. destruct SC1 as [-> _]. exact Hvc. }
      destruct (modify_next d2 c (Some area) Hv2)
        as (d3 & E3 & M3 & L3 & G3 & P3 & N3).
      rewrite E3.
      apply meta_fields in M2 as (F2 & La2 & I2 & S2 & C2).
      apply meta_fields in M3 as (F3 & La3 & I3 & S3 & C3).
      destruct SC1 as (SL & SI & SS & SC).
      exists d3, (l1 ++ [c]), [].
      split.
      { split; [intros i Hi; inversion Hi|].
        intros z Hz. rewrite last_snoc in Hz. injection Hz as <-.
        apply Z.ltb_lt in Hlt. lia. }
      split; [reflexivity|].
      split; [rewrite app_nil_r; reflexivity|]. simpl.
      split; [|split].
      * rewrite <- app_assoc in La1. simpl in La1.
        eapply (repr_insert d d3 (l1 ++ [c]) area l2).
        -- rewrite <- app_assoc. exact Hr.
        -- rewrite <- app_assoc. exact Ha.
        -- exact Hv.
        -- congruence.
        -- rewrite F3, F2, F1, Hf. rewrite <- !app_assoc.
           destruct l1; reflexivity.
        -- rewrite La3, La2, La1. rewrite <- app_assoc. reflexivity.
        -- rewrite last_snoc. congruence.
        -- rewrite last_snoc. simpl. rewrite N3, N2, N1.
           apply list_insert_insert_ne. congruence.
      * congruence.
      * repeat split; congruence.
    + (* [area] goes somewhere before [c] *)
      rewrite (rd_prev _ _ _ HPc). cbn [bind].
      destruct (IH (c :: l2) fuel)
        as (d' & la & lb & [O1 O2] & E & -> & Hr' & G & SC); auto; try lia.
      { destruct l1; discriminate. }
      exists d', la, (lb ++ [c]).
      split.
      { split; [|exact O2]. intros i Hi.
        apply elem_of_app in Hi as [Hi|Hi]; [auto|].
        apply list_elem_of_singleton in Hi as ->.
        apply Z.ltb_ge in Hlt. lia. }
      split; [exact E|].
      split; [rewrite app_assoc; reflexivity|].
      split; [|auto].
      rewrite <- (app_assoc lb). exact Hr'.
Qed.

Lemma sort_walk_spec d l1 l2 area fuel :
  repr d (l1 ++ l2) ->
  l1 ++ l2 <> [] ->
  area ∉ l1 ++ l2 ->
  valid d area ->
  (length l1 <= fuel)%nat ->
  exists d' la lb,
    sort_walk fuel d area (last l1) = Ok d' /\
    l1 = la ++ lb /\
    repr d' (la ++ area :: lb ++ l2) /\
    geoms d' = geoms d /\
    same_conf d d'.
Proof.
  intros Hr Hne Ha Hv Hfuel.
  destruct (sort_walk_order d l1 l2 area fuel Hr Hne Ha Hv Hfuel)
    as (d' & la & lb & _ & H).
  exists d', la, lb. exact H.
Qed.

Lemma sort_empty_area_spec d l1 l2 area :
  repr d (l1 ++ l2) ->
  area ∉ l1 ++ l2 ->
  valid d area ->
  exists d' la lb,
    japacker_sort_empty_area d area (last l1) = Ok d' /\
    l1 ++ l2 = la ++ lb /\
    repr d' (la ++ area :: lb) /\
    geoms d' = geoms d /\
    same_conf d d'.
Proof.
  intros Hr Ha Hv. unfold japacker_sort_empty_area.
  pose proof Hr as (Hnd & Hf & Hl & Hseg & Hout).
  destruct (ea_first d) as [f|] eqn:Ef.
  - destruct (sort_walk_spec d l1 l2 area (length (ea_list d)))
      as (d' & la & lb & E & -> & Hr' & G & SC); auto.
    + intros H. rewrite H in Hf. discriminate.
    + pose proof (repr_length _ _ Hr) as Hlen.
      rewrite length_app in Hlen. lia.
    + exists d', la, (lb ++ l2). split; [exact E|].
      split; [rewrite app_assoc; reflexivity|]. auto.
  - assert (l1 ++ l2 = []) as E by (destruct (l1 ++ l2); [auto|discriminate]).
    rewrite E in *.
    destruct (out_links _ _ _ Hr Ha Hv) as [HPa HNa].
    exists (with_last (Some area) (with_first (Some area) d)), [], [].
    split; [reflexivity|]. split; [reflexivity|].
    split; [|split; [reflexivity|repeat split]].
    split; [|split; [|split; [|split]]]; simpl; auto.
    + apply NoDup_singleton.
    + intros i Hi Hvi. apply Hout; auto. apply not_elem_of_nil.
Qed.

(** ** Regions and counting *)

Lemma hits_app l1 l2 px py :
  hits (l1 ++ l2) px py = (hits l1 px py + hits l2 px py)%nat.
Proof. induction l1 as [|b l1 IH]; simpl; [reflexivity|]. rewrite IH. lia. Qed.

Lemma boxes_app d l1 l2 : boxes d (l1 ++ l2) = boxes d l1 ++ boxes d l2.
Proof. unfold boxes. apply fmap_app. Qed.

Lemma boxes_cons d i l : boxes d (i :: l) = box_at d i :: boxes d l.
Proof. reflexivity. Qed.

Lemma hits_insert d l1 a l2 px py :
  hits (boxes d (l1 ++ a :: l2)) px py =
  (cnt (box_at d a) px py + hits (boxes d (l1 ++ l2)) px py)%nat.
Proof. rewrite !boxes_app, boxes_cons, !hits_app. simpl. lia. Qed.

Lemma cnt_le_1 b px py : (cnt b px py <= 1)%nat.
Proof. unfold cnt. destruct (insideb b px py); lia. Qed.

Lemma insideb_inside b px py : insideb b px py = true <-> inside b px py.
Proof.
  unfold insideb, inside. rewrite !andb_true_iff.
  rewrite !Z.leb_le, !Z.ltb_lt. tauto.
Qed.

Lemma cnt_inside b px py : cnt b px py = 1%nat <-> inside b px py.
Proof.
  rewrite <- insideb_inside. unfold cnt.
  destruct (insideb b px py); split; intros; auto; discriminate.
Qed.

Lemma cnt_not_inside b px py : cnt b px py = 0%nat <-> ~ inside b px py.
Proof.
  rewrite <- insideb_inside. unfold cnt.
  destruct (insideb b px py); split; intros; auto; try discriminate.
  exfalso. auto.
Qed.

Lemma box_at_eq d d' i :
  geoms d' !! i = geoms d !! i -> box_at d' i = box_at d i.
Proof. unfold box_at. intros ->. reflexivity. Qed.

Lemma boxes_eq d d' l :
  (forall i, i ∈ l -> geoms d' !! i = geoms d !! i) ->
  boxes d' l = boxes d l.
Proof.
  intros H. unfold boxes. apply list_fmap_ext. intros k i Hk.
  apply box_at_eq. apply H. eapply list_elem_of_lookup_2; eauto.
Qed.

Lemma box_at_lookup d i : valid d i -> geoms d !! i = Some (box_at d i).
Proof.
  intros Hv. unfold box_at.
  destruct (geoms d !! i) eqn:E; [reflexivity|].
  apply lookup_ge_None in E. rewrite length_geoms in E.
  unfold valid in Hv. lia.
Qed.

Lemma box_at_insert_eq (d d' : empty_areas) p g :
  valid d p -> geoms d' = <[p := g]> (geoms d) -> box_at d' p = g.
Proof.
  intros Hv E. unfold box_at. rewrite E, list_lookup_insert_eq; [reflexivity|].
  rewrite length_geoms. exact Hv.
Qed.

Lemma geoms_insert_ne (d d' : empty_areas) p g i :
  geoms d' = <[p := g]> (geoms d) -> i <> p -> geoms d' !! i = geoms d !! i.
Proof. intros -> H. apply list_lookup_insert_ne. congruence. Qed.

(** The links alone decide whether a list is represented. *)
Lemma repr_views d d' l :
  repr d l ->
  prevs d' = prevs d -> nexts d' = nexts d ->
  ea_first d' = ea_first d -> ea_last d' = ea_last d ->
  length (ea_list d') = length (ea_list d) ->
  repr d' l.
Proof.
  intros (Hnd & Hf & Hl & Hseg & Hout) HP HN F L Len.
  unfold repr. rewrite HP, HN, F, L, Len. auto.
Qed.

(** An assignment to a member that is not a link, where [f] gives the region
    [g] to the slot. *)
Lemma modify_box d l p f g :
  repr d l -> valid d p ->
  (forall a, area_next (f a) = area_next a) ->
  (forall a, area_prev (f a) = area_prev a) ->
  (forall a, geom a = box_at d p -> geom (f a) = g) ->
  exists d',
    modify d p f = Ok d' /\ repr d' l /\ same_conf d d' /\
    box_at d' p = g /\
    (forall i, i <> p -> geoms d' !! i = geoms d !! i).
Proof.
  intros Hr Hv Hn Hp Hg.
  destruct (modify_geom d p f Hv Hn Hp)
    as (d' & a & Ha & E & M & L & N & P & G).
  apply meta_fields in M as (F1 & La1 & I1 & S1 & C1).
  assert (Hga : geom a = box_at d p).
  { apply lookup_views in Ha as (Ha & _). unfold box_at. rewrite Ha.
    reflexivity. }
  exists d'. split; [exact E|]. split; [|split; [|split]].
  - eapply repr_views; eauto.
  - repeat split; auto.
  - rewrite <- (Hg a Hga). eapply box_at_insert_eq; eauto.
  - intros i Hi. eapply geoms_insert_ne; eauto.
Qed.

Lemma rd_box d p :
  valid d p ->
  rd d p area_x = Ok (box_x (box_at d p)) /\
  rd d p area_y = Ok (box_y (box_at d p)) /\
  rd d p area_width = Ok (box_w (box_at d p)) /\
  rd d p area_height = Ok (box_h (box_at d p)).
Proof. intros Hv. apply rd_geom. apply box_at_lookup. exact Hv. Qed.

Lemma geom_set_x v a :
  geom (set_x v a) = mk_box v (area_y a) (area_width a) (area_height a).
Proof. reflexivity. Qed.
Lemma geom_set_y v a :
  geom (set_y v a) = mk_box (area_x a) v (area_width a) (area_height a).
Proof. reflexivity. Qed.
Lemma geom_set_width v a :
  geom (set_width v a) = mk_box (area_x a) (area_y a) v (area_height a).
Proof. reflexivity. Qed.
Lemma geom_set_height v a :
  geom (set_height v a) = mk_box (area_x a) (area_y a) (area_width a) v.
Proof. reflexivity. Qed.

(** The four assignments to a coordinate or a dimension of a slot. *)
Lemma modify_set_x d l p v :
  repr d l -> valid d p ->
  exists d',
    modify d p (set_x v) = Ok d' /\ repr d' l /\ same_conf d d' /\
    box_at d' p = mk_box v (box_y (box_at d p)) (box_w (box_at d p))
                         (box_h (box_at d p)) /\
    (forall i, i <> p -> geoms d' !! i = geoms d !! i).
Proof.
  intros Hr Hv. apply modify_box; auto.
  intros a <-. reflexivity.
Qed.

Lemma modify_set_y d l p v :
  repr d l -> valid d p ->
  exists d',
    modify d p (set_y v) = Ok d' /\ repr d' l /\ same_conf d d' /\
    box_at d' p = mk_box (box_x (box_at d p)) v (box_w (box_at d p))
                         (box_h (box_at d p)) /\
    (forall i, i <> p -> geoms d' !! i = geoms d !! i).
Proof.
  intros Hr Hv. apply modify_box; auto.
  intros a <-. reflexivity.
Qed.

Lemma modify_set_width d l p v :
  repr d l -> valid d p ->
  exists d',
    modify d p (set_width v) = Ok d' /\ repr d' l /\ same_conf d d' /\
    box_at d' p = mk_box (box_x (box_at d p)) (box_y (box_at d p)) v
                         (box_h (box_at d p)) /\
    (forall i, i <> p -> geoms d' !! i = geoms d !! i).
Proof.
  intros Hr Hv. apply modify_box; auto.
  intros a <-. reflexivity.
Qed.

Lemma modify_set_height d l p v :
  repr d l -> valid d p ->
  exists d',
    modify d p (set_height v) = Ok d' /\ repr d' l /\ same_conf d d' /\
    box_at d' p = mk_box (box_x (box_at d p)) (box_y (box_at d p))
                         (box_w (box_at d p)) v /\
    (forall i, i <> p -> geoms d' !! i = geoms d !! i).
Proof.
  intros Hr Hv. apply modify_box; auto.
  intros a <-. reflexivity.
Qed.

Lemma same_conf_valid d d' p : same_conf d d' -> valid d p -> valid d' p.
Proof. intros (L & _) H. unfold valid. rewrite L. exact H. Qed.

(** ** Merging with adjacent empty areas *)

Lemma adjacent_facts cur a adj :
  adjacent cur a = Some adj -> adj_facts adj (geom cur) (geom a).
Proof.
  unfold adjacent, adj_facts. simpl.
  destruct (area_y cur =? area_y a) eqn:Ey;
  destruct (area_height cur =? area_height a) eqn:Eh;
  destruct (area_x cur =? area_x a) eqn:Ex;
  destruct (area_width cur =? area_width a) eqn:Ew;
  destruct (u32 (area_x cur + area_width cur) =? area_x a) eqn:E1;
  destruct (u32 (area_x a + area_width a) =? area_x cur) eqn:E2;
  destruct (u32 (area_y cur + area_height cur) =? area_y a) eqn:E3;
  destruct (u32 (area_y a + area_height a) =? area_y cur) eqn:E4;
  simpl; intros [= <-];
  rewrite ?Z.eqb_eq in *; auto.
Qed.

Ltac split_cmp :=
  repeat match goal with
  | |- context [?a <=? ?b] => destruct (Z.leb_spec a b)
  | |- context [?a <? ?b] => destruct (Z.ltb_spec a b)
  end.

Lemma merged_box_ok W H adj bc ba :
  0 <= W < UINT_RANGE -> 0 <= H < UINT_RANGE ->
  adj_facts adj bc ba -> in_image W H bc -> in_image W H ba ->
  in_image W H (merged_box adj bc ba) /\
  forall px py,
    cnt (merged_box adj bc ba) px py = (cnt ba px py + cnt bc px py)%nat.
Proof.
  intros HW HH Hf (c1 & c2 & c3 & c4 & c5 & c6) (a1 & a2 & a3 & a4 & a5 & a6).
  destruct bc as [cx cy cw ch], ba as [ax ay aw ah]. simpl in *.
  unfold UINT_RANGE in *.
  destruct adj; simpl in Hf; destruct Hf as (f1 & f2 & f3);
    rewrite u32_small in f3 by (unfold UINT_RANGE; lia); subst;
    unfold merged_box; simpl;
    rewrite u32_small by (unfold UINT_RANGE; lia);
    (split; [unfold in_image; simpl; lia|]);
    intros px py; unfold cnt, insideb; simpl; split_cmp; simpl; lia.
Qed.

Lemma merge_scan_None steps d area :
  merge_scan steps d area None = Ok None.
Proof. destruct steps; reflexivity. Qed.

Lemma merge_scan_spec d l1 l2 area steps :
  repr d (l1 ++ l2) -> valid d area -> (length l2 <= steps)%nat ->
  merge_scan steps d area (head l2) = Ok None \/
  exists c adj,
    merge_scan steps d area (head l2) = Ok (Some (c, adj)) /\
    c ∈ l2 /\ adj_facts adj (box_at d c) (box_at d area).
Proof.
  revert l1 steps. induction l2 as [|c l2 IH]; intros l1 steps Hr Hv Hs.
  - left. apply merge_scan_None.
  - simpl in Hs. destruct steps as [|steps]; [lia|]. simpl.
    assert (Hvc : valid d c).
    { eapply repr_valid; eauto. apply elem_of_app. right. left. }
    destruct (valid_lookup _ _ Hvc) as [cur Hcur].
    destruct (valid_lookup _ _ Hv) as [a Ha].
    unfold load. rewrite Hcur, Ha. simpl.
    destruct (adjacent cur a) as [adj|] eqn:Eadj.
    + right. exists c, adj. split; [reflexivity|]. split; [left|].
      apply adjacent_facts in Eadj.
      apply lookup_views in Hcur as (Hcur & _).
      apply lookup_views in Ha as (Ha & _).
      unfold box_at. rewrite Hcur, Ha. exact Eadj.
    + pose proof Hr as (_ & _ & _ & Hseg & _).
      apply lseg_middle in Hseg as [_ HN].
      apply lookup_views in Hcur as (_ & Hn & _).
      rewrite Hn in HN. injection HN as ->. rewrite hd_or_None.
      destruct (IH (l1 ++ [c]) steps) as [E|(c' & adj & E & Hc & Hf)];
        auto; try lia.
      * rewrite <- app_assoc. exact Hr.
      * right. exists c', adj. split; [exact E|]. split; [right|]; auto.
Qed.

Lemma merge_apply_spec W H d l1 c l2 area adj :
  0 <= W < UINT_RANGE -> 0 <= H < UINT_RANGE ->
  repr d (l1 ++ c :: l2) -> area ∉ l1 ++ c :: l2 -> valid d area ->
  adj_facts adj (box_at d c) (box_at d area) ->
  exists d',
    merge_apply d area c adj = Ok d' /\
    repr d' (l1 ++ l2) /\ same_conf d d' /\
    box_at d' area = merged_box adj (box_at d c) (box_at d area) /\
    (forall i, i <> area -> geoms d' !! i = geoms d !! i).
Proof.
  intros HW HH Hr Ha Hv Hf.
  assert (Hvc : valid d c).
  { eapply repr_valid; eauto. apply elem_of_app. right. left. }
  assert (Hca : c <> area).
  { intros ->. apply Ha. apply elem_of_app. right. left. }
  destruct (rd_box d c Hvc) as (Cx & Cy & Cw & Ch).
  destruct (rd_box d area Hv) as (Ax & Ay & Aw & Ah).
  unfold merge_apply.
  assert (Hstep : exists d1,
    match adj with
    | AdjLeft =>
        cx <- rd d c area_x ;;
        d <- modify d area (set_x cx) ;;
        aw <- rd d area area_width ;;
        cw <- rd d c area_width ;;
        modify d area (set_width (u32 (aw + cw)))
    | AdjRight =>
        aw <- rd d area area_width ;;
        cw <- rd d c area_width ;;
        modify d area (set_width (u32 (aw + cw)))
    | AdjTop =>
        cy <- rd d c area_y ;;
        d <- modify d area (set_y cy) ;;
        ah <- rd d area area_height ;;
        ch <- rd d c area_height ;;
        modify d area (set_height (u32 (ah + ch)))
    | AdjBottom =>
        ah <- rd d area area_height ;;
        ch <- rd d c area_height ;;
        modify d area (set_height (u32 (ah + ch)))
    end = Ok d1 /\
    repr d1 (l1 ++ c :: l2) /\ same_conf d d1 /\
    box_at d1 area = merged_box adj (box_at d c) (box_at d area) /\
    (forall i, i <> area -> geoms d1 !! i = geoms d !! i)).
  { destruct adj; simpl in Hf; destruct Hf as (f1 & f2 & f3).
    - rewrite Cx. cbn [bind].
      destruct (modify_set_x d _ area (box_x (box_at d c)) Hr Hv)
        as (d1 & E1 & R1 & S1 & B1 & G1).
      rewrite E1. cbn [bind].
      pose proof (same_conf_valid _ _ _ S1 Hv) as Hv1.
      pose proof (same_conf_valid _ _ _ S1 Hvc) as Hvc1.
      destruct (rd_box d1 area Hv1) as (_ & _ & Aw1 & _).
      destruct (rd_box d1 c Hvc1) as (_ & _ & Cw1 & _).
      rewrite Aw1, Cw1. cbn [bind].
      destruct (modify_set_width d1 _ area
                  (u32 (box_w (box_at d1 area) + box_w (box_at d1 c))) R1 Hv1)
        as (d2 & E2 & R2 & S2 & B2 & G2).
      exists d2. split; [exact E2|]. split; [exact R2|].
      split; [eapply same_conf_trans; eauto|]. split.
      + rewrite B2, B1. simpl. rewrite (box_at_eq d d1 c) by auto.
        unfold merged_box. f_equal; congruence.
      + intros i Hi. rewrite G2, G1; auto.
    - rewrite Aw, Cw. cbn [bind].
      destruct (modify_set_width d _ area
                  (u32 (box_w (box_at d area) + box_w (box_at d c))) Hr Hv)
        as (d2 & E2 & R2 & S2 & B2 & G2).
      exists d2. split; [exact E2|]. split; [exact R2|].
      split; [exact S2|]. split; [|exact G2].
      rewrite B2. reflexivity.
    - rewrite Cy. cbn [bind].
      destruct (modify_set_y d _ area (box_y (box_at d c)) Hr Hv)
        as (d1 & E1 & R1 & S1 & B1 & G1).
      rewrite E1. cbn [bind].
      pose proof (same_conf_valid _ _ _ S1 Hv) as Hv1.
      pose proof (same_conf_valid _ _ _ S1 Hvc) as Hvc1.
      destruct (rd_box d1 area Hv1) as (_ & _ & _ & Ah1).
      destruct (rd_box d1 c Hvc1) as (_ & _ & _ & Ch1).
      rewrite Ah1, Ch1. cbn [bind].
      destruct (modify_set_height d1 _ area
                  (u32 (box_h (box_at d1 area) + box_h (box_at d1 c))) R1 Hv1)
        as (d2 & E2 & R2 & S2 & B2 & G2).
      exists d2. split; [exact E2|]. split; [exact R2|].
      split; [eapply same_conf_trans; eauto|]. split.
      + rewrite B2, B1. simpl. rewrite (box_at_eq d d1 c) by auto.
        unfold merged_box. f_equal; congruence.
      + intros i Hi. rewrite G2, G1; auto.
    - rewrite Ah, Ch. cbn [bind].
      destruct (modify_set_height d _ area
                  (u32 (box_h (box_at d area) + box_h (box_at d c))) Hr Hv)
        as (d2 & E2 & R2 & S2 & B2 & G2).
      exists d2. split; [exact E2|]. split; [exact R2|].
      split; [exact S2|]. split; [|exact G2].
      rewrite B2. reflexivity. }
  destruct Hstep as (d1 & E1 & R1 & S1 & B1 & G1).
  rewrite E1. cbn [bind].
  destruct (delist_spec d1 l1 c l2 R1) as (d2 & E2 & R2 & G2 & S2).
  exists d2. split; [exact E2|]. split; [exact R2|].
  split; [eapply same_conf_trans; eauto|]. split.
  - rewrite <- B1. apply box_at_eq. rewrite G2. reflexivity.
  - intros i Hi. rewrite G2. auto.
Qed.

Lemma merge_rec_spec W H :
  0 <= W < UINT_RANGE -> 0 <= H < UINT_RANGE ->
  forall depth d l area,
    repr d l -> area ∉ l -> valid d area ->
    (forall i, i ∈ l -> in_image W H (box_at d i)) ->
    in_image W H (box_at d area) ->
    (length l < depth)%nat ->
    exists d' l' m,
      merge_rec depth d area = Ok (d', m) /\
      repr d' l' /\ l' ⊆ l /\ same_conf d d' /\
      (forall i, i <> area -> geoms d' !! i = geoms d !! i) /\
      in_image W H (box_at d' area) /\
      (forall px py,
         (cnt (box_at d' area) px py + hits (boxes d' l') px py =
          cnt (box_at d area) px py + hits (boxes d l) px py)%nat) /\
      ((m = 0 /\ d' = d /\ l' = l) \/ m = 1).
Proof.
  intros HW HH. induction depth as [|depth IH];
    intros d l area Hr Ha Hv Hin Hina Hlen; [lia|].
  cbn [merge_rec].
  pose proof Hr as (_ & Hf & _).
  pose proof (repr_length _ _ Hr) as Hl.
  destruct (merge_scan_spec d [] l area (length (ea_list d)) Hr Hv Hl)
    as [E|(c & adj & E & Hc & Hfacts)]; rewrite Hf, E; cbn [bind].
  - exists d, l, 0. split; [reflexivity|]. split; [exact Hr|].
    split; [reflexivity|]. split; [apply same_conf_refl|].
    split; [auto|]. split; [exact Hina|]. split; [auto|]. left. auto.
  - apply list_elem_of_split in Hc as (l1 & l2 & ->).
    destruct (merge_apply_spec W H d l1 c l2 area adj HW HH Hr Ha Hv Hfacts)
      as (d1 & E1 & R1 & S1 & B1 & G1).
    rewrite E1. cbn [bind].
    assert (Hinc : in_image W H (box_at d c)).
    { apply Hin. apply elem_of_app. right. left. }
    destruct (merged_box_ok W H adj _ _ HW HH Hfacts Hinc Hina) as [Hm Hcnt].
    assert (Ha' : area ∉ l1 ++ l2).
    { intros X. apply Ha. rewrite elem_of_app in *. rewrite elem_of_cons.
      tauto. }
    assert (Hbox1 : forall i, i ∈ l1 ++ l2 -> box_at d1 i = box_at d i).
    { intros i Hi. apply box_at_eq. apply G1. intros ->. contradiction. }
    destruct (IH d1 (l1 ++ l2) area) as (d2 & l' & m & E2 & R2 & Sub & S2 &
                                         G2 & In2 & Cnt2 & _); auto.
    + eapply same_conf_valid; eauto.
    + intros i Hi. rewrite Hbox1 by auto. apply Hin.
      rewrite elem_of_app in *. rewrite elem_of_cons. tauto.
    + rewrite B1. exact Hm.
    + rewrite length_app in *. simpl in Hlen. lia.
    + rewrite E2. cbn [bind fst].
      exists d2, l', 1. split; [reflexivity|]. split; [exact R2|].
      split.
      { intros i Hi. apply Sub in Hi. rewrite elem_of_app in *.
        rewrite elem_of_cons. tauto. }
      split; [eapply same_conf_trans; eauto|].
      split; [intros i Hi; rewrite G2, G1; auto|].
      split; [exact In2|]. split; [|right; reflexivity].
      intros px py. rewrite Cnt2, B1, Hcnt, hits_insert.
      rewrite (boxes_eq d d1 (l1 ++ l2)).
      * lia.
      * intros i Hi. apply G1. intros ->. contradiction.
Qed.

Lemma merge_spec W H d l area :
  0 <= W < UINT_RANGE -> 0 <= H < UINT_RANGE ->
  repr d l -> area ∉ l -> valid d area ->
  (forall i, i ∈ l -> in_image W H (box_at d i)) ->
  in_image W H (box_at d area) ->
  exists d' l' m,
    japacker_merge_adjacent_empty_areas d area = Ok (d', m) /\
    repr d' l' /\ l' ⊆ l /\ same_conf d d' /\
    (forall i, i <> area -> geoms d' !! i = geoms d !! i) /\
    in_image W H (box_at d' area) /\
    (forall px py,
       (cnt (box_at d' area) px py + hits (boxes d' l') px py =
        cnt (box_at d area) px py + hits (boxes d l) px py)%nat) /\
    ((m = 0 /\ d' = d /\ l' = l) \/ m = 1).
Proof.
  intros HW HH Hr Ha Hv Hin Hina.
  unfold japacker_merge_adjacent_empty_areas.
  apply (merge_rec_spec W H HW HH); auto.
  pose proof (repr_length _ _ Hr). lia.
Qed.

(** ** Shrinking an empty area in place *)

Lemma call_set_comparator_spec d l area :
  repr d l -> valid d area -> comparator_ok d ->
  ok_or_nullcall d (call_set_comparator d area)
    (fun d' => repr d' l /\ same_conf d d' /\ geoms d' = geoms d).
Proof.
  intros Hr Hv Hc. unfold call_set_comparator, ok_or_nullcall.
  destruct (ea_set_comparator d) as [f|] eqn:Ef; [left|right; auto].
  destruct (modify_geom d area f Hv)
    as (d' & a & Ha & E & M & L & N & P & G).
  { intros a. apply (Hc f Ef). }
  { intros a. apply (Hc f Ef). }
  apply meta_fields in M as (F1 & La1 & I1 & S1 & C1).
  exists d'. split; [exact E|]. split; [|split].
  - eapply repr_views; eauto.
  - repeat split; auto.
  - rewrite G. destruct (Hc f Ef a) as (-> & _).
    apply insert_same. apply lookup_views in Ha as (Ha & _). exact Ha.
Qed.

(** [japacker_sort_empty_area] from any member of the list, or from the null
    pointer. *)
Lemma sort_from_spec d l area cur :
  repr d l -> area ∉ l -> valid d area ->
  (forall c, cur = Some c -> c ∈ l) ->
  exists d' la lb,
    japacker_sort_empty_area d area cur = Ok d' /\
    l = la ++ lb /\
    repr d' (la ++ area :: lb) /\
    geoms d' = geoms d /\
    same_conf d d'.
Proof.
  intros Hr Ha Hv Hc. destruct cur as [c|].
  - destruct (list_elem_of_split l c (Hc c eq_refl)) as (l1 & l2 & ->).
    replace (Some c) with (last (l1 ++ [c])) by apply last_snoc.
    replace (l1 ++ c :: l2) with ((l1 ++ [c]) ++ l2) in *
      by (rewrite <- app_assoc; reflexivity).
    apply sort_empty_area_spec; auto.
  - apply (sort_empty_area_spec d [] l area); auto.
Qed.

Lemma elem_of_insert_middle (la lb : list nat) a i :
  i ∈ la ++ a :: lb <-> i = a \/ i ∈ la ++ lb.
Proof. rewrite !elem_of_app, elem_of_cons. tauto. Qed.

Lemma shrink_tail_spec W H d l1 area l2 :
  0 <= W < UINT_RANGE -> 0 <= H < UINT_RANGE ->
  repr d (l1 ++ area :: l2) ->
  (forall i, i ∈ l1 ++ area :: l2 -> in_image W H (box_at d i)) ->
  comparator_ok d ->
  ok_or_nullcall d (shrink_tail d area)
    (fun d' => exists l',
       repr d' l' /\ same_conf d d' /\
       l' ⊆ l1 ++ area :: l2 /\
       (forall i, i ∈ l' -> in_image W H (box_at d' i)) /\
       (forall px py, hits (boxes d' l') px py =
                      hits (boxes d (l1 ++ area :: l2)) px py)).
Proof.
  intros HW HH Hr Hin Hc.
  pose proof Hr as (Hnd & _ & _ & Hseg & _).
  assert (Hv : valid d area).
  { eapply repr_valid; eauto. apply elem_of_app. right. left. }
  assert (Ha : area ∉ l1 ++ l2).
  { apply NoDup_app in Hnd as (_ & H1 & H2).
    apply NoDup_cons in H2 as [H2 _]. rewrite elem_of_app.
    intros [X|X]; [|contradiction]. eapply H1; eauto. left. }
  apply lseg_middle in Hseg as [HP _]. rewrite last_or_None in HP.
  unfold shrink_tail. rewrite (rd_prev _ _ _ HP). cbn [bind].
  destruct (delist_spec d l1 area l2 Hr) as (d1 & E1 & R1 & G1 & S1).
  rewrite E1. cbn [bind].
  pose proof (same_conf_valid _ _ _ S1 Hv) as Hv1.
  assert (Hb1 : forall i, box_at d1 i = box_at d i).
  { intros i. apply box_at_eq. rewrite G1. reflexivity. }
  destruct (merge_spec W H d1 (l1 ++ l2) area HW HH R1 Ha Hv1)
    as (d2 & l' & m & E2 & R2 & Sub & S2 & G2 & In2 & Cnt2 & Hm).
  { intros i Hi. rewrite Hb1. apply Hin. apply elem_of_insert_middle. auto. }
  { rewrite Hb1. apply Hin. apply elem_of_insert_middle. auto. }
  rewrite E2. cbn [bind fst snd].
  pose proof (same_conf_valid _ _ _ S2 Hv1) as Hv2.
  assert (Ha2 : area ∉ l') by (intros X; apply Ha, Sub, X).
  assert (Hc2 : comparator_ok d2).
  { destruct S1 as (_ & _ & _ & C1), S2 as (_ & _ & _ & C2).
    unfold comparator_ok. rewrite C2, C1. exact Hc. }
  assert (Hcmp : ea_set_comparator d2 = ea_set_comparator d).
  { destruct S1 as (_ & _ & _ & C1), S2 as (_ & _ & _ & C2). congruence. }
  destruct (call_set_comparator_spec d2 l' area R2 Hv2 Hc2)
    as [(d3 & E3 & R3 & S3 & G3)|[E3 N3]].
  2:{ right. rewrite E3. split; [reflexivity|congruence]. }
  left. rewrite E3. cbn [bind].
  pose proof (same_conf_valid _ _ _ S3 Hv2) as Hv3.
  destruct (sort_from_spec d3 l' area
              (if m =? 0 then last l1 else ea_last d2) R3 Ha2 Hv3)
    as (d4 & la & lb & E4 & El & R4 & G4 & S4).
  { intros c Ec. destruct Hm as [(-> & -> & ->)| ->]; simpl in Ec.
    - apply last_Some in Ec as [l0 ->]. rewrite !elem_of_app.
      left. right. left.
    - destruct R2 as (_ & _ & L2 & _). rewrite L2 in Ec.
      apply last_Some in Ec as [l0 ->]. apply elem_of_app. right. left. }
  exists d4. split; [exact E4|]. exists (la ++ area :: lb).
  assert (Hb4 : forall i, box_at d4 i = box_at d2 i).
  { intros i. apply box_at_eq. rewrite G4, G3. reflexivity. }
  split; [exact R4|]. split; [|split; [|split]].
  - eapply same_conf_trans; [exact S1|]. eapply same_conf_trans; [exact S2|].
    eapply same_conf_trans; eauto.
  - intros i Hi. apply elem_of_insert_middle in Hi as [->|Hi].
    + apply elem_of_app. right. left.
    + rewrite <- El in Hi. apply Sub in Hi.
      apply elem_of_insert_middle. auto.
  - intros i Hi. rewrite Hb4. apply elem_of_insert_middle in Hi as [->|Hi].
    + exact In2.
    + rewrite <- El in Hi.
      rewrite (box_at_eq d1 d2 i).
      * rewrite Hb1. apply Hin. apply elem_of_insert_middle.
        right. apply Sub. exact Hi.
      * apply G2. intros ->. contradiction.
  - intros px py. rewrite !hits_insert. rewrite <- El.
    rewrite Hb4. rewrite (boxes_eq d2 d4 l').
    + rewrite Cnt2. rewrite Hb1. rewrite (boxes_eq d d1); auto.
      intros i _. rewrite G1. reflexivity.
    + intros i _. rewrite G4, G3. reflexivity.
Qed.

(** ** Splitting an empty area *)

(** The two calls of [japacker_sort_empty_area] that end
    [japacker_split_empty_area]: the second search starts at the [prev] link
    that the first insertion gave to its slot. *)
Lemma sort_pair_spec d l a b cur :
  repr d l -> a ∉ l -> b ∉ l -> a <> b -> valid d a -> valid d b ->
  (forall c, cur = Some c -> c ∈ l) ->
  exists d' la lb la' lb',
    (d1 <- japacker_sort_empty_area d a cur ;;
     ap <- rd d1 a area_prev ;;
     japacker_sort_empty_area d1 b ap) = Ok d' /\
    l = la ++ lb /\ la ++ a :: lb = la' ++ lb' /\
    repr d' (la' ++ b :: lb') /\
    geoms d' = geoms d /\ same_conf d d'.
Proof.
  intros Hr Ha Hb Hab Hva Hvb Hcur.
  destruct (sort_from_spec d l a cur Hr Ha Hva Hcur)
    as (d1 & la & lb & E1 & El & R1 & G1 & S1).
  rewrite E1. cbn [bind].
  pose proof R1 as (_ & _ & _ & Hseg & _).
  apply lseg_middle in Hseg as [HP _]. rewrite last_or_None in HP.
  rewrite (rd_prev _ _ _ HP). cbn [bind].
  assert (Hb1 : b ∉ la ++ a :: lb).
  { rewrite elem_of_insert_middle. rewrite <- El. intros [X|X]; auto. }
  pose proof (same_conf_valid _ _ _ S1 Hvb) as Hvb1.
  destruct (sort_empty_area_spec d1 la (a :: lb) b R1 Hb1 Hvb1)
    as (d2 & la' & lb' & E2 & El2 & R2 & G2 & S2).
  exists d2, la, lb, la', lb'. split; [exact E2|].
  split; [exact El|]. split; [exact El2|]. split; [exact R2|].
  split; [congruence|]. eapply same_conf_trans; eauto.
Qed.

Lemma cnt_split_side ax ay aw ah w h px py :
  0 <= w <= aw -> 0 <= h <= ah ->
  cnt (mk_box ax ay aw ah) px py =
  (cnt (mk_box ax ay w h) px py +
   cnt (mk_box ax (ay + h) w (ah - h)) px py +
   cnt (mk_box (ax + w) ay (aw - w) ah) px py)%nat.
Proof.
  intros Hw Hh. unfold cnt, insideb. simpl. split_cmp; simpl; lia.
Qed.

Lemma cnt_split_below ax ay aw ah w h px py :
  0 <= w <= aw -> 0 <= h <= ah ->
  cnt (mk_box ax ay aw ah) px py =
  (cnt (mk_box ax ay w h) px py +
   cnt (mk_box (ax + w) ay (aw - w) h) px py +
   cnt (mk_box ax (ay + h) aw (ah - h)) px py)%nat.
Proof.
  intros Hw Hh. unfold cnt, insideb. simpl. split_cmp; simpl; lia.
Qed.

Lemma box_eta b : mk_box (box_x b) (box_y b) (box_w b) (box_h b) = b.
Proof. destruct b; reflexivity. Qed.

(** The six assignments that reshape [area] and fill [new_area]. *)
Lemma split_shape W H d l area new_area width height (side : bool) :
  0 <= W < UINT_RANGE -> 0 <= H < UINT_RANGE ->
  repr d l -> valid d area -> valid d new_area -> new_area <> area ->
  in_image W H (box_at d area) ->
  0 <= width <= box_w (box_at d area) ->
  0 <= height <= box_h (box_at d area) ->
  exists d1,
    (if side then
       ax <- rd d area area_x ;;
       d <- modify d new_area (set_x ax) ;;
       ay <- rd d area area_y ;;
       d <- modify d new_area (set_y (u32 (ay + height))) ;;
       d <- modify d new_area (set_width width) ;;
       ah <- rd d area area_height ;;
       d <- modify d new_area (set_height (u32 (ah - height))) ;;
       ax <- rd d area area_x ;;
       d <- modify d area (set_x (u32 (ax + width))) ;;
       aw <- rd d area area_width ;;
       modify d area (set_width (u32 (aw - width)))
     else
       ax <- rd d area area_x ;;
       d <- modify d new_area (set_x (u32 (ax + width))) ;;
       ay <- rd d area area_y ;;
       d <- modify d new_area (set_y ay) ;;
       aw <- rd d area area_width ;;
       d <- modify d new_area (set_width (u32 (aw - width))) ;;
       d <- modify d new_area (set_height height) ;;
       ay <- rd d area area_y ;;
       d <- modify d area (set_y (u32 (ay + height))) ;;
       ah <- rd d area area_height ;;
       modify d area (set_height (u32 (ah - height)))) = Ok d1 /\
    repr d1 l /\ same_conf d d1 /\
    (forall i, i <> area -> i <> new_area ->
       geoms d1 !! i = geoms d !! i) /\
    in_image W H (box_at d1 new_area) /\
    in_image W H (box_at d1 area) /\
    (forall px py,
       cnt (box_at d area) px py =
       (cnt (mk_box (box_x (box_at d area)) (box_y (box_at d area))
                    width height) px py +
        cnt (box_at d1 new_area) px py + cnt (box_at d1 area) px py)%nat).
Proof.
  intros HW HH Hr Hv Hvn Hne Hin Hw Hh.
  destruct (box_at d area) as [ax ay aw ah] eqn:Ebox.
  destruct Hin as (i1 & i2 & i3 & i4 & i5 & i6). simpl in *.
  assert (Hrd : forall d', valid d' area -> box_at d' area = box_at d area ->
            rd d' area area_x = Ok ax /\ rd d' area area_y = Ok ay /\
            rd d' area area_width = Ok aw /\ rd d' area area_height = Ok ah).
  { intros d' Hv' Hb'. destruct (rd_box d' area Hv') as (X1 & X2 & X3 & X4).
    rewrite Hb', Ebox in *. auto. }
  assert (Hkeep : forall d' d'', (forall i, i <> new_area ->
              geoms d'' !! i = geoms d' !! i) ->
            box_at d' area = box_at d area -> box_at d'' area = box_at d area).
  { intros d' d'' G Hb'. rewrite <- Hb'. apply box_at_eq. apply G. auto. }
  destruct side.
  - destruct (Hrd d Hv eq_refl) as (Rx & Ry & Rw & Rh).
    rewrite Rx. cbn [bind].
    destruct (modify_set_x d l new_area ax Hr Hvn)
      as (d1 & E1 & R1 & S1 & B1 & G1).
    rewrite E1. cbn [bind].
    pose proof (same_conf_valid _ _ _ S1 Hv) as Hv1.
    pose proof (same_conf_valid _ _ _ S1 Hvn) as Hvn1.
    pose proof (Hkeep d d1 G1 eq_refl) as K1.
    destruct (Hrd d1 Hv1 K1) as (Rx1 & Ry1 & Rw1 & Rh1).
    rewrite Ry1. cbn [bind].
    destruct (modify_set_y d1 l new_area (u32 (ay + height)) R1 Hvn1)
      as (d2 & E2 & R2 & S2 & B2 & G2).
    rewrite E2. cbn [bind].
    pose proof (same_conf_valid _ _ _ S2 Hv1) as Hv2.
    pose proof (same_conf_valid _ _ _ S2 Hvn1) as Hvn2.
    pose proof (Hkeep d1 d2 G2 K1) as K2.
    destruct (modify_set_width d2 l new_area width R2 Hvn2)
      as (d3 & E3 & R3 & S3 & B3 & G3).
    rewrite E3. cbn [bind].
    pose proof (same_conf_valid _ _ _ S3 Hv2) as Hv3.
    pose proof (same_conf_valid _ _ _ S3 Hvn2) as Hvn3.
    pose proof (Hkeep d2 d3 G3 K2) as K3.
    destruct (Hrd d3 Hv3 K3) as (Rx3 & Ry3 & Rw3 & Rh3).
    rewrite Rh3. cbn [bind].
    destruct (modify_set_height d3 l new_area (u32 (ah - height)) R3 Hvn3)
      as (d4 & E4 & R4 & S4 & B4 & G4).
    rewrite E4. cbn [bind].
    pose proof (same_conf_valid _ _ _ S4 Hv3) as Hv4.
    pose proof (Hkeep d3 d4 G4 K3) as K4.
    destruct (Hrd d4 Hv4 K4) as (Rx4 & Ry4 & Rw4 & Rh4).
    rewrite Rx4. cbn [bind].
    destruct (modify_set_x d4 l area (u32 (ax + width)) R4 Hv4)
      as (d5 & E5 & R5 & S5 & B5 & G5).
    rewrite E5. cbn [bind].
    pose proof (same_conf_valid _ _ _ S5 Hv4) as Hv5.
    destruct (rd_box d5 area Hv5) as (_ & _ & Rw5 & _).
    rewrite Rw5. cbn [bind].
    destruct (modify_set_width d5 l area
                (u32 (box_w (box_at d5 area) - width)) R5 Hv5)
      as (d6 & E6 & R6 & S6 & B6 & G6).
    exists d6. split; [exact E6|]. split; [exact R6|].
    assert (Bn : box_at d6 new_area =
                 mk_box ax (ay + height) width (ah - height)).
    { rewrite (box_at_eq d5 d6) by (apply G6; auto).
      rewrite (box_at_eq d4 d5) by (apply G5; auto).
      rewrite B4, B3, B2, B1. simpl.
      rewrite !u32_small by (unfold UINT_RANGE in *; lia). reflexivity. }
    assert (Ba : box_at d6 area = mk_box (ax + width) ay (aw - width) ah).
    { rewrite B6, B5, K4, Ebox. simpl.
      rewrite !u32_small by (unfold UINT_RANGE in *; lia). reflexivity. }
    split.
    { repeat (eapply same_conf_trans; [eassumption|]). apply same_conf_refl. }
    split.
    { intros i Ha Hn. rewrite G6, G5, G4, G3, G2, G1; auto. }
    rewrite Bn, Ba. split; [|split].
    + unfold in_image. simpl. lia.
    + unfold in_image. simpl. lia.
    + intros px py. apply cnt_split_side; lia.
  - destruct (Hrd d Hv eq_refl) as (Rx & Ry & Rw & Rh).
    rewrite Rx. cbn [bind].
    destruct (modify_set_x d l new_area (u32 (ax + width)) Hr Hvn)
      as (d1 & E1 & R1 & S1 & B1 & G1).
    rewrite E1. cbn [bind].
    pose proof (same_conf_valid _ _ _ S1 Hv) as Hv1.
    pose proof (same_conf_valid _ _ _ S1 Hvn) as Hvn1.
    pose proof (Hkeep d d1 G1 eq_refl) as K1.
    destruct (Hrd d1 Hv1 K1) as (Rx1 & Ry1 & Rw1 & Rh1).
    rewrite Ry1. cbn [bind].
    destruct (modify_set_y d1 l new_area ay R1 Hvn1)
      as (d2 & E2 & R2 & S2 & B2 & G2).
    rewrite E2. cbn [bind].
    pose proof (same_conf_valid _ _ _ S2 Hv1) as Hv2.
    pose proof (same_conf_valid _ _ _ S2 Hvn1) as Hvn2.
    pose proof (Hkeep d1 d2 G2 K1) as K2.
    destruct (Hrd d2 Hv2 K2) as (Rx2 & Ry2 & Rw2 & Rh2).
    rewrite Rw2. cbn [bind].
    destruct (modify_set_width d2 l new_area (u32 (aw - width)) R2 Hvn2)
      as (d3 & E3 & R3 & S3 & B3 & G3).
    rewrite E3. cbn [bind].
    pose proof (same_conf_valid _ _ _ S3 Hv2) as Hv3.
    pose proof (same_conf_valid _ _ _ S3 Hvn2) as Hvn3.
    pose proof (Hkeep d2 d3 G3 K2) as K3.
    destruct (modify_set_height d3 l new_area height R3 Hvn3)
      as (d4 & E4 & R4 & S4 & B4 & G4).
    rewrite E4. cbn [bind].
    pose proof (same_conf_valid _ _ _ S4 Hv3) as Hv4.
    pose proof (Hkeep d3 d4 G4 K3) as K4.
    destruct (Hrd d4 Hv4 K4) as (Rx4 & Ry4 & Rw4 & Rh4).
    rewrite Ry4. cbn [bind].
    destruct (modify_set_y d4 l area (u32 (ay + height)) R4 Hv4)
      as (d5 & E5 & R5 & S5 & B5 & G5).
    rewrite E5. cbn [bind].
    pose proof (same_conf_valid _ _ _ S5 Hv4) as Hv5.
    destruct (rd_box d5 area Hv5) as (_ & _ & _ & Rh5).
    rewrite Rh5. cbn [bind].
    destruct (modify_set_height d5 l area
                (u32 (box_h (box_at d5 area) - height)) R5 Hv5)
      as (d6 & E6 & R6 & S6 & B6 & G6).
    exists d6. split; [exact E6|]. split; [exact R6|].
    assert (Bn : box_at d6 new_area =
                 mk_box (ax + width) ay (aw - width) height).
    { rewrite (box_at_eq d5 d6) by (apply G6; auto).
      rewrite (box_at_eq d4 d5) by (apply G5; auto).
      rewrite B4, B3, B2, B1. simpl.
      rewrite !u32_small by (unfold UINT_RANGE in *; lia). reflexivity. }
    assert (Ba : box_at d6 area = mk_box ax (ay + height) aw (ah - height)).
    { rewrite B6, B5, K4, Ebox. simpl.
      rewrite !u32_small by (unfold UINT_RANGE in *; lia). reflexivity. }
    split.
    { repeat (eapply same_conf_trans; [eassumption|]). apply same_conf_refl. }
    split.
    { intros i Ha Hn. rewrite G6, G5, G4, G3, G2, G1; auto. }
    rewrite Bn, Ba. split; [|split].
    + unfold in_image. simpl. lia.
    + unfold in_image. simpl. lia.
    + intros px py. apply cnt_split_below; lia.
Qed.

Lemma slot_ok d i :
  0 <= i < Z.of_nat (length (ea_list d)) -> slot d i = Ok (Z.to_nat i).
Proof. intros H. unfold slot. rewrite decide_True by lia. reflexivity. Qed.

Lemma slot_out d i :
  Z.of_nat (length (ea_list d)) <= i -> slot d i = Fault OutOfBounds.
Proof. intros H. unfold slot. rewrite decide_False by lia. reflexivity. Qed.

(** Without a free slot the function writes outside the array. *)
Lemma split_out_of_bounds d area width height :
  Z.of_nat (length (ea_list d)) <= ea_index d + 1 ->
  japacker_split_empty_area d area width height = Fault OutOfBounds.
Proof.
  intros H. unfold japacker_split_empty_area.
  rewrite slot_out; [reflexivity|]. simpl. exact H.
Qed.

Lemma merged_flag m1 m2 :
  (m1 = 0 \/ m1 = 1) -> (m2 = 0 \/ m2 = 1) ->
  (m1 + m2 =? 0) = true /\ m1 = 0 /\ m2 = 0 \/ (m1 + m2 =? 0) = false.
Proof.
  intros [->| ->] [->| ->]; simpl; auto.
Qed.

Lemma split_spec W H d l1 area l2 width height :
  0 <= W < UINT_RANGE -> 0 <= H < UINT_RANGE ->
  store_ok W H d (l1 ++ area :: l2) ->
  0 <= width <= box_w (box_at d area) ->
  0 <= height <= box_h (box_at d area) ->
  ea_index d + 1 < Z.of_nat (length (ea_list d)) ->
  ok_or_nullcall d (japacker_split_empty_area d area width height)
    (fun d' => exists l',
       store_ok W H d' l' /\
       ea_index d' = ea_index d + 1 /\
       length (ea_list d') = length (ea_list d) /\
       ea_size d' = ea_size d /\
       ea_set_comparator d' = ea_set_comparator d /\
       (forall px py,
          (cnt (mk_box (box_x (box_at d area)) (box_y (box_at d area))
                       width height) px py +
           hits (boxes d' l') px py =
           hits (boxes d (l1 ++ area :: l2)) px py)%nat)).
Proof.
  intros HW HH (Hr & Hin & Hidx & Hrange & Hc) Hw Hh Hcap.
  set (l := l1 ++ area :: l2) in *.
  unfold japacker_split_empty_area.
  set (d0 := with_index (ea_index d + 1) d).
  set (new_area := Z.to_nat (ea_index d + 1)).
  assert (Hr0 : repr d0 l) by (eapply repr_views; eauto).
  assert (Hb0 : forall i, box_at d0 i = box_at d i) by reflexivity.
  rewrite slot_ok by (simpl; lia). cbn [bind].
  change (Z.to_nat (ea_index d0)) with new_area.
  assert (Hal : area ∈ l) by (apply elem_of_app; right; left).
  assert (Hv : valid d0 area) by (eapply repr_valid; eauto).
  assert (Hvn : valid d0 new_area).
  { unfold valid, new_area. simpl. lia. }
  assert (Hnl : new_area ∉ l).
  { intros X. apply Hidx in X. unfold new_area in X. lia. }
  assert (Hna : new_area <> area) by (intros ->; contradiction).
  destruct (rd_box d0 area Hv) as (_ & _ & Rw & Rh).
  rewrite Rw. cbn [bind]. rewrite Rh. cbn [bind].
  destruct (split_shape W H d0 l area new_area width height
              (s32 (box_h (box_at d0 area) - height)
                 <? s32 (box_w (box_at d0 area) - width))
              HW HH Hr0 Hv Hvn Hna (Hin area Hal) Hw Hh)
    as (d1 & E1 & R1 & S1 & G1 & In1n & In1a & Cnt1).
  rewrite E1. cbn [bind]. clear E1.
  pose proof R1 as (Hnd & _ & _ & Hseg & _).
  assert (Ha : area ∉ l1 ++ l2).
  { apply NoDup_app in Hnd as (_ & H1 & H2).
    apply NoDup_cons in H2 as [H2 _]. rewrite elem_of_app.
    intros [X|X]; [|contradiction]. eapply H1; eauto. left. }
  assert (Hn12 : new_area ∉ l1 ++ l2).
  { intros X. apply Hnl. apply elem_of_insert_middle. auto. }
  apply lseg_middle in Hseg as [HP _]. rewrite last_or_None in HP.
  rewrite (rd_prev _ _ _ HP). cbn [bind].
  destruct (delist_spec d1 l1 area l2 R1) as (d2 & E2 & R2 & G2 & S2).
  rewrite E2. cbn [bind]. clear E2.
  assert (Hb2 : forall i, box_at d2 i = box_at d1 i).
  { intros i. apply box_at_eq. rewrite G2. reflexivity. }
  assert (Hb1 : forall i, i ∈ l1 ++ l2 -> box_at d1 i = box_at d i).
  { intros i Hi. rewrite <- Hb0. apply box_at_eq. apply G1.
    - intros ->. contradiction.
    - intros ->. contradiction. }
  pose proof (same_conf_trans _ _ _ S1 S2) as S02.
  pose proof (same_conf_valid _ _ _ S02 Hv) as Hv2.
  pose proof (same_conf_valid _ _ _ S02 Hvn) as Hvn2.
  (* first merge *)
  destruct (merge_spec W H d2 (l1 ++ l2) area HW HH R2 Ha Hv2)
    as (d3 & l3 & m1 & E3 & R3 & Sub3 & S3 & G3 & In3 & Cnt3 & Hm1).
  { intros i Hi. rewrite Hb2, Hb1 by auto. apply Hin.
    apply elem_of_insert_middle. auto. }
  { rewrite Hb2. exact In1a. }
  rewrite E3. cbn [bind fst snd]. clear E3.
  pose proof (same_conf_valid _ _ _ S3 Hv2) as Hv3.
  pose proof (same_conf_valid _ _ _ S3 Hvn2) as Hvn3.
  assert (Hb3 : forall i, i <> area -> box_at d3 i = box_at d2 i).
  { intros i Hi. apply box_at_eq. apply G3. exact Hi. }
  (* second merge *)
  destruct (merge_spec W H d3 l3 new_area HW HH R3)
    as (d4 & l4 & m2 & E4 & R4 & Sub4 & S4 & G4 & In4 & Cnt4 & Hm2); auto.
  { intros i Hi. rewrite Hb3, Hb2, Hb1.
    - apply Hin. apply elem_of_insert_middle. auto.
    - auto.
    - intros ->. apply Sub3 in Hi. contradiction. }
  { rewrite Hb3, Hb2 by auto. exact In1n. }
  rewrite E4. cbn [bind fst snd]. clear E4.
  pose proof (same_conf_valid _ _ _ S4 Hv3) as Hv4.
  pose proof (same_conf_valid _ _ _ S4 Hvn3) as Hvn4.
  assert (Hb4 : forall i, i <> new_area -> box_at d4 i = box_at d3 i).
  { intros i Hi. apply box_at_eq. apply G4. exact Hi. }
  assert (Ha4 : area ∉ l4) by (intros X; apply Ha, Sub3, Sub4, X).
  assert (Hn4 : new_area ∉ l4) by (intros X; apply Hn12, Sub3, Sub4, X).
  assert (Hcmp4 : ea_set_comparator d4 = ea_set_comparator d).
  { destruct S02 as (_ & _ & _ & C1), S3 as (_ & _ & _ & C2),
      S4 as (_ & _ & _ & C3). simpl in C1. congruence. }
  assert (Hc4 : comparator_ok d4).
  { unfold comparator_ok. rewrite Hcmp4. exact Hc. }
  (* the comparators *)
  destruct (call_set_comparator_spec d4 l4 area R4 Hv4 Hc4)
    as [(d5 & E5 & R5 & S5 & G5)|[E5 N5]].
  2:{ right. rewrite E5. split; [reflexivity|congruence]. }
  rewrite E5. cbn [bind]. clear E5.
  assert (Hc5 : comparator_ok d5).
  { unfold comparator_ok. destruct S5 as (_ & _ & _ & ->). exact Hc4. }
  destruct (call_set_comparator_spec d5 l4 new_area R5
              (same_conf_valid _ _ _ S5 Hvn4) Hc5)
    as [(d6 & E6 & R6 & S6 & G6)|[E6 N6]].
  2:{ right. rewrite E6. split; [reflexivity|].
      destruct S5 as (_ & _ & _ & C5). congruence. }
  rewrite E6. cbn [bind]. clear E6. left.
  pose proof (same_conf_trans _ _ _ S5 S6) as S46.
  pose proof (same_conf_valid _ _ _ S46 Hv4) as Hv6.
  pose proof (same_conf_valid _ _ _ S46 Hvn4) as Hvn6.
  assert (Hb6 : forall i, box_at d6 i = box_at d4 i).
  { intros i. apply box_at_eq. rewrite G6, G5. reflexivity. }
  (* the two insertions *)
  assert (Hsort : exists d7 la lb la' lb' (x y : nat),
    (if snd (d3, m1) + snd (d4, m2) =? 0 then
       d <- japacker_sort_empty_area d6 area (last l1) ;;
       ap <- rd d area area_prev ;;
       japacker_sort_empty_area d new_area ap
     else
       nc <- rd d6 new_area area_comparator ;;
       ac <- rd d6 area area_comparator ;;
       if nc <? ac then
         d <- japacker_sort_empty_area d6 area (ea_last d6) ;;
         ap <- rd d area area_prev ;;
         japacker_sort_empty_area d new_area ap
       else
         d <- japacker_sort_empty_area d6 new_area (ea_last d6) ;;
         np <- rd d new_area area_prev ;;
         japacker_sort_empty_area d area np) = Ok d7 /\
    (x = area /\ y = new_area \/ x = new_area /\ y = area) /\
    l4 = la ++ lb /\ la ++ x :: lb = la' ++ lb' /\
    repr d7 (la' ++ y :: lb') /\
    geoms d7 = geoms d6 /\ same_conf d6 d7).
  { cbn [snd].
    destruct (merged_flag m1 m2) as [(Em & -> & ->)| Em].
    { destruct Hm1 as [?|?]; tauto. }
    { destruct Hm2 as [?|?]; tauto. }
    - rewrite Em.
      destruct Hm1 as [(_ & _ & ->)|X]; [|discriminate].
      destruct Hm2 as [(_ & _ & ->)|X]; [|discriminate].
      destruct (sort_pair_spec d6 (l1 ++ l2) area new_area (last l1))
        as (d7 & la & lb & la' & lb' & E & X1 & X2 & X3 & X4 & X5); auto.
      { intros c Ec. apply last_Some in Ec as [l0 ->].
        rewrite !elem_of_app. left. right. left. }
      exists d7, la, lb, la', lb', area, new_area. auto 10.
    - rewrite Em.
      destruct (rd_valid d6 new_area area_comparator Hvn6) as [nc Enc].
      destruct (rd_valid d6 area area_comparator Hv6) as [ac Eac].
      rewrite Enc. cbn [bind]. rewrite Eac. cbn [bind].
      assert (Hlast : forall c, ea_last d6 = Some c -> c ∈ l4).
      { intros c Ec. destruct R6 as (_ & _ & L6 & _). rewrite L6 in Ec.
        apply last_Some in Ec as [l0 ->]. apply elem_of_app. right. left. }
      destruct (nc <? ac).
      + destruct (sort_pair_spec d6 l4 area new_area (ea_last d6))
          as (d7 & la & lb & la' & lb' & E & X1 & X2 & X3 & X4 & X5); auto.
        exists d7, la, lb, la', lb', area, new_area. auto 10.
      + destruct (sort_pair_spec d6 l4 new_area area (ea_last d6))
          as (d7 & la & lb & la' & lb' & E & X1 & X2 & X3 & X4 & X5); auto.
        exists d7, la, lb, la', lb', new_area, area. auto 10. }
  destruct Hsort as (d7 & la & lb & la' & lb' & x & y & E7 & Hxy & El4 &
                     El' & R7 & G7 & S7).
  exists d7. split; [exact E7|]. clear E7.
  exists (la' ++ y :: lb').
  assert (Hb7 : forall i, box_at d7 i = box_at d4 i).
  { intros i. rewrite <- Hb6. apply box_at_eq. rewrite G7. reflexivity. }
  assert (Hmem : forall i, i ∈ la' ++ y :: lb' <->
                           i = area \/ i = new_area \/ i ∈ l4).
  { intros i. rewrite elem_of_insert_middle. rewrite <- El'.
    rewrite elem_of_insert_middle. rewrite <- El4.
    destruct Hxy as [[-> ->]|[-> ->]]; tauto. }
  assert (Hconf : same_conf d0 d7).
  { eapply same_conf_trans; [exact S02|].
    eapply same_conf_trans; [exact S3|].
    eapply same_conf_trans; [exact S4|].
    eapply same_conf_trans; [exact S46|]. exact S7. }
  destruct Hconf as (CL & CI & CS & CC). simpl in CL, CI, CS, CC.
  assert (Hbl4 : forall i, i ∈ l4 -> box_at d4 i = box_at d i).
  { intros i Hi. assert (i ∈ l1 ++ l2) by (apply Sub3, Sub4, Hi).
    rewrite Hb4, Hb3, Hb2, Hb1; auto.
    - intros ->. contradiction.
    - intros ->. contradiction. }
  split; [|split; [exact CI|split; [exact CL|split; [exact CS|
           split; [exact CC|]]]]].
  - split; [exact R7|]. split; [|split; [|split]].
    + intros i Hi. rewrite Hb7. apply Hmem in Hi as [->|[->|Hi]].
      * rewrite Hb4 by auto. exact In3.
      * exact In4.
      * rewrite Hbl4 by auto. apply Hin. apply elem_of_insert_middle.
        right. apply Sub3, Sub4, Hi.
    + intros i Hi. rewrite CI. apply Hmem in Hi as [->|[->|Hi]].
      * specialize (Hidx area Hal). lia.
      * unfold new_area. lia.
      * assert (i ∈ l) by (apply elem_of_insert_middle; right;
                           apply Sub3, Sub4, Hi).
        specialize (Hidx i H0). lia.
    + rewrite CI, CL. lia.
    + unfold comparator_ok. rewrite CC. exact Hc.
  - intros px py.
    assert (Hh7 : hits (boxes d7 (la' ++ y :: lb')) px py =
                  (cnt (box_at d4 area) px py + cnt (box_at d4 new_area) px py
                   + hits (boxes d4 l4) px py)%nat).
    { rewrite hits_insert. rewrite <- El'. rewrite hits_insert.
      rewrite <- El4. rewrite !Hb7.
      rewrite (boxes_eq d4 d7 l4).
      - destruct Hxy as [[-> ->]|[-> ->]]; lia.
      - intros i _. rewrite G7, G6, G5. reflexivity. }
    rewrite Hh7. unfold l. rewrite hits_insert.
    specialize (Cnt1 px py). specialize (Cnt3 px py).
    specialize (Cnt4 px py).
    rewrite (Hb4 area) by auto.
    rewrite (Hb3 new_area), Hb2 in Cnt4 by auto.
    rewrite Hb2 in Cnt3.
    rewrite (boxes_eq d1 d2 (l1 ++ l2)) in Cnt3
      by (intros i _; rewrite G2; reflexivity).
    rewrite (boxes_eq d d1 (l1 ++ l2)) in Cnt3.
    2:{ intros i Hi. change (geoms d) with (geoms d0). apply G1.
        - intros ->. contradiction.
        - intros ->. contradiction. }
    rewrite Hb0 in Cnt1. lia.
Qed.

(** ** Placing one rect *)

Lemma find_fit_None steps d width height :
  find_fit steps d width height None = Ok None.
Proof. destruct steps; reflexivity. Qed.

Lemma find_fit_spec d l1 l2 width height steps :
  repr d (l1 ++ l2) -> (length l2 <= steps)%nat ->
  (find_fit steps d width height (head l2) = Ok None /\
   forall i, i ∈ l2 -> ~ fits width height (box_at d i)) \/
  exists p,
    find_fit steps d width height (head l2) = Ok (Some p) /\
    p ∈ l2 /\ fits width height (box_at d p).
Proof.
  revert l1 steps. induction l2 as [|c l2 IH]; intros l1 steps Hr Hs.
  - left. split; [apply find_fit_None|]. intros i Hi. inversion Hi.
  - simpl in Hs. destruct steps as [|steps]; [lia|]. simpl.
    assert (Hvc : valid d c).
    { eapply repr_valid; eauto. apply elem_of_app. right. left. }
    destruct (valid_lookup _ _ Hvc) as [a Ha].
    unfold load. rewrite Ha. simpl.
    pose proof (lookup_views _ _ _ Ha) as (Hg & Hn & _).
    assert (Hbox : box_at d c = geom a).
    { unfold box_at. rewrite Hg. reflexivity. }
    destruct ((area_height a <? height) || (area_width a <? width)) eqn:E.
    + pose proof Hr as (_ & _ & _ & Hseg & _).
      apply lseg_middle in Hseg as [_ HN].
      rewrite Hn in HN. injection HN as ->. rewrite hd_or_None.
      assert (Hnf : ~ fits width height (box_at d c)).
      { rewrite Hbox. unfold fits. simpl.
        apply orb_true_iff in E as [E|E]; apply Z.ltb_lt in E; lia. }
      destruct (IH (l1 ++ [c]) steps) as [[E' Hno]|(p & E' & Hp & Hf)];
        try lia.
      * rewrite <- app_assoc. exact Hr.
      * left. split; [exact E'|]. intros i Hi.
        apply elem_of_cons in Hi as [->|Hi]; auto.
      * right. exists p. split; [exact E'|]. split; [right|]; auto.
    + right. exists c. split; [reflexivity|]. split; [left|].
      rewrite Hbox. unfold fits. simpl.
      apply orb_false_iff in E as [E1 E2].
      apply Z.ltb_ge in E1, E2. lia.
Qed.

Lemma cnt_shrink_x ax ay aw ah w px py :
  0 <= w <= aw ->
  cnt (mk_box ax ay aw ah) px py =
  (cnt (mk_box ax ay w ah) px py +
   cnt (mk_box (ax + w) ay (aw - w) ah) px py)%nat.
Proof. intros Hw. unfold cnt, insideb. simpl. split_cmp; simpl; lia. Qed.

Lemma cnt_shrink_y ax ay aw ah h px py :
  0 <= h <= ah ->
  cnt (mk_box ax ay aw ah) px py =
  (cnt (mk_box ax ay aw h) px py +
   cnt (mk_box ax (ay + h) aw (ah - h)) px py)%nat.
Proof. intros Hh. unfold cnt, insideb. simpl. split_cmp; simpl; lia. Qed.

Lemma store_ok_repr W H d l : store_ok W H d l -> repr d l.
Proof. intros H0. apply H0. Qed.

Lemma place_in_spec W H d l1 area l2 rect width height :
  0 <= W < UINT_RANGE -> 0 <= H < UINT_RANGE ->
  store_ok W H d (l1 ++ area :: l2) ->
  0 <= width -> 0 <= height ->
  fits width height (box_at d area) ->
  placed_or_fault d (place_in d rect area width height)
    (fun r => exists l',
       store_ok W H (fst r) l' /\
       ea_index d <= ea_index (fst r) <= ea_index d + 1 /\
       length (ea_list (fst r)) = length (ea_list d) /\
       ea_size (fst r) = ea_size d /\
       ea_set_comparator (fst r) = ea_set_comparator d /\
       snd r = set_output_packed 1
                 (set_output_y (box_y (box_at d area))
                    (set_output_x (box_x (box_at d area)) rect)) /\
       (forall px py,
          (cnt (mk_box (box_x (box_at d area)) (box_y (box_at d area))
                       width height) px py +
           hits (boxes (fst r) l') px py =
           hits (boxes d (l1 ++ area :: l2)) px py)%nat)).
Proof.
  intros HW HH Hok Hw0 Hh0 [Hfh Hfw].
  pose proof Hok as (Hr & Hin & Hidx & Hrange & Hc).
  assert (Hal : area ∈ l1 ++ area :: l2) by (apply elem_of_app; right; left).
  assert (Hv : valid d area) by (eapply repr_valid; eauto).
  pose proof (Hin area Hal) as Hina.
  destruct (box_at d area) as [ax ay aw ah] eqn:Ebox.
  destruct Hina as (i1 & i2 & i3 & i4 & i5 & i6). simpl in *.
  destruct (rd_box d area Hv) as (Rx & Ry & Rw & Rh).
  rewrite Ebox in Rx, Ry, Rw, Rh. simpl in Rx, Ry, Rw, Rh.
  unfold place_in. rewrite Rx. cbn [bind]. rewrite Ry. cbn [bind].
  rewrite Rh. cbn [bind]. rewrite Rw. cbn [bind].
  assert (Hnd : area ∉ l1 ++ l2).
  { pose proof Hr as (Hnd & _). apply NoDup_app in Hnd as (_ & H1 & H2).
    apply NoDup_cons in H2 as [H2 _]. rewrite elem_of_app.
    intros [X|X]; [|contradiction]. eapply H1; eauto. left. }
  destruct ((height =? ah) && (width =? aw)) eqn:Eexact.
  - (* the area is used up *)
    apply andb_true_iff in Eexact as [E1 E2].
    apply Z.eqb_eq in E1, E2. subst.
    destruct (delist_spec d l1 area l2 Hr) as (d1 & E1 & R1 & G1 & S1).
    rewrite E1. cbn [bind]. left. eexists. split; [reflexivity|].
    exists (l1 ++ l2). cbn [fst snd].
    destruct S1 as (CL & CI & CS & CC).
    assert (Hb1 : forall i, box_at d1 i = box_at d i).
    { intros i. apply box_at_eq. rewrite G1. reflexivity. }
    split; [|split; [lia|split; [exact CL|split; [exact CS|
             split; [exact CC|split; [reflexivity|]]]]]].
    + split; [exact R1|]. split; [|split; [|split]].
      * intros i Hi. rewrite Hb1. apply Hin.
        apply elem_of_insert_middle. auto.
      * intros i Hi. rewrite CI. apply Hidx.
        apply elem_of_insert_middle. auto.
      * rewrite CI, CL. exact Hrange.
      * unfold comparator_ok. rewrite CC. exact Hc.
    + intros px py. rewrite hits_insert, Ebox.
      rewrite (boxes_eq d d1 (l1 ++ l2)); [reflexivity|].
      intros i _. rewrite G1. reflexivity.
  - assert (Hshrink : forall d2 (b : box),
      repr d2 (l1 ++ area :: l2) -> same_conf d d2 ->
      box_at d2 area = b -> in_image W H b ->
      (forall i, i <> area -> geoms d2 !! i = geoms d !! i) ->
      (forall px py, cnt (mk_box ax ay aw ah) px py =
                     (cnt (mk_box ax ay width height) px py + cnt b px py)%nat) ->
      placed_or_fault d
        (d <- shrink_tail d2 area ;;
         Ok (d, set_output_packed 1 (set_output_y ay (set_output_x ax rect))))
        (fun r => exists l',
           store_ok W H (fst r) l' /\
           ea_index d <= ea_index (fst r) <= ea_index d + 1 /\
           length (ea_list (fst r)) = length (ea_list d) /\
           ea_size (fst r) = ea_size d /\
           ea_set_comparator (fst r) = ea_set_comparator d /\
           snd r = set_output_packed 1
                     (set_output_y ay (set_output_x ax rect)) /\
           (forall px py,
              (cnt (mk_box ax ay width height) px py +
               hits (boxes (fst r) l') px py =
               hits (boxes d (l1 ++ area :: l2)) px py)%nat))).
    { intros d2 b R2 S2 B2 In2 G2 Cnt2.
      assert (Hb2 : forall i, i ∈ l1 ++ l2 -> box_at d2 i = box_at d i).
      { intros i Hi. apply box_at_eq. apply G2. intros ->. contradiction. }
      assert (Hc2 : comparator_ok d2).
      { unfold comparator_ok. destruct S2 as (_ & _ & _ & ->). exact Hc. }
      destruct (shrink_tail_spec W H d2 l1 area l2 HW HH R2)
        as [(d3 & E3 & l' & R3 & S3 & Sub & In3 & Cnt3)|[E3 N3]]; auto.
      { intros i Hi. apply elem_of_insert_middle in Hi as [->|Hi].
        - rewrite B2. exact In2.
        - rewrite Hb2 by auto. apply Hin. apply elem_of_insert_middle.
          auto. }
      - left. rewrite E3. cbn [bind]. eexists. split; [reflexivity|].
        exists l'. cbn [fst snd].
        destruct (same_conf_trans _ _ _ S2 S3) as (CL & CI & CS & CC).
        split; [|split; [lia|split; [exact CL|split; [exact CS|
                 split; [exact CC|split; [reflexivity|]]]]]].
        + split; [exact R3|]. split; [exact In3|]. split; [|split].
          * intros i Hi. rewrite CI. apply Hidx, Sub, Hi.
          * rewrite CI, CL. exact Hrange.
          * unfold comparator_ok. rewrite CC. exact Hc.
        + intros px py. rewrite Cnt3, !hits_insert, B2, Ebox.
          rewrite (boxes_eq d d2 (l1 ++ l2)).
          * rewrite (Cnt2 px py). lia.
          * intros i Hi. apply G2. intros ->. contradiction.
      - right. left. rewrite E3. split; [reflexivity|].
        destruct S2 as (_ & _ & _ & C2). congruence. }
    destruct (height =? ah) eqn:Eh.
    + (* same height: the area loses its left part *)
      apply Z.eqb_eq in Eh. subst height.
      destruct (modify_set_x d _ area (u32 (ax + width)) Hr Hv)
        as (d1 & E1 & R1 & S1 & B1 & G1).
      rewrite E1. cbn [bind].
      pose proof (same_conf_valid _ _ _ S1 Hv) as Hv1.
      destruct (rd_box d1 area Hv1) as (_ & _ & Rw1 & _).
      rewrite Rw1. cbn [bind].
      destruct (modify_set_width d1 _ area
                  (u32 (box_w (box_at d1 area) - width)) R1 Hv1)
        as (d2 & E2 & R2 & S2 & B2 & G2).
      rewrite E2. cbn [bind].
      apply (Hshrink d2 (mk_box (ax + width) ay (aw - width) ah)); auto.
      * eapply same_conf_trans; eauto.
      * rewrite B2, B1, Ebox. simpl.
        rewrite !u32_small by (unfold UINT_RANGE in *; lia). reflexivity.
      * unfold in_image. simpl. lia.
      * intros i Hi. rewrite G2, G1; auto.
      * intros px py. apply cnt_shrink_x. lia.
    + destruct (width =? aw) eqn:Ew.
      * (* same width: the area loses its top part *)
        apply Z.eqb_eq in Ew. subst width.
        destruct (modify_set_y d _ area (u32 (ay + height)) Hr Hv)
          as (d1 & E1 & R1 & S1 & B1 & G1).
        rewrite E1. cbn [bind].
        pose proof (same_conf_valid _ _ _ S1 Hv) as Hv1.
        destruct (rd_box d1 area Hv1) as (_ & _ & _ & Rh1).
        rewrite Rh1. cbn [bind].
        destruct (modify_set_height d1 _ area
                    (u32 (box_h (box_at d1 area) - height)) R1 Hv1)
          as (d2 & E2 & R2 & S2 & B2 & G2).
        rewrite E2. cbn [bind].
        apply (Hshrink d2 (mk_box ax (ay + height) aw (ah - height))); auto.
        -- eapply same_conf_trans; eauto.
        -- rewrite B2, B1, Ebox. simpl.
           rewrite !u32_small by (unfold UINT_RANGE in *; lia). reflexivity.
        -- unfold in_image. simpl. lia.
        -- intros i Hi. rewrite G2, G1; auto.
        -- intros px py. apply cnt_shrink_y. lia.
      * (* smaller in both dimensions: the area is split *)
        destruct (Z_lt_le_dec (ea_index d + 1)
                    (Z.of_nat (length (ea_list d)))) as [Hcap|Hcap].
        -- destruct (split_spec W H d l1 area l2 width height HW HH Hok)
             as [(d1 & E1 & l' & Ok1 & I1 & L1 & S1 & C1 & Cnt1)|[E1 N1]];
             try (rewrite Ebox; simpl; lia); auto.
           ++ left. rewrite E1. cbn [bind]. eexists. split; [reflexivity|].
              exists l'. cbn [fst snd]. rewrite Ebox in Cnt1.
              split; [exact Ok1|]. split; [lia|]. split; [exact L1|].
              split; [exact S1|]. split; [exact C1|].
              split; [reflexivity|exact Cnt1].
           ++ right. left. rewrite E1. auto.
        -- right. right. rewrite split_out_of_bounds by lia. auto.
Qed.

Lemma footprint_placed rect x y :
  footprint (set_output_packed 1 (set_output_y y (set_output_x x rect))) =
  mk_box x y (placed_width rect) (placed_height rect).
Proof.
  unfold footprint, placed_width, placed_height. simpl.
  destruct (output_rotated rect =? 0); reflexivity.
Qed.

(** One activation of [japacker_pack_rect] that finds an area. *)
Lemma pack_rect_found W H d l rect area :
  0 <= W < UINT_RANGE -> 0 <= H < UINT_RANGE ->
  store_ok W H d l -> area ∈ l ->
  0 <= input_width rect -> 0 <= input_height rect ->
  fits (placed_width rect) (placed_height rect) (box_at d area) ->
  placed_or_fault d
    (r <- place_in d rect area (placed_width rect) (placed_height rect) ;;
     Ok (fst r, snd r, 1))
    (fun r =>
       input_width (snd (fst r)) = input_width rect /\
       input_height (snd (fst r)) = input_height rect /\
       output_image_index (snd (fst r)) = output_image_index rect /\
       output_rotated (snd (fst r)) = output_rotated rect /\
       snd r = 1 /\ output_packed (snd (fst r)) = 1 /\
       exists l',
         store_ok W H (fst (fst r)) l' /\
         ea_index d <= ea_index (fst (fst r)) <= ea_index d + 1 /\
         length (ea_list (fst (fst r))) = length (ea_list d) /\
         ea_size (fst (fst r)) = ea_size d /\
         ea_set_comparator (fst (fst r)) = ea_set_comparator d /\
         in_image W H (footprint (snd (fst r))) /\
         (forall px py,
            (cnt (footprint (snd (fst r))) px py +
             hits (boxes (fst (fst r)) l') px py =
             hits (boxes d l) px py)%nat)).
Proof.
  intros HW HH Hok Hal Hiw Hih Hfit.
  destruct (list_elem_of_split _ _ Hal) as (l1 & l2 & ->).
  assert (Hpw : 0 <= placed_width rect).
  { unfold placed_width. destruct (output_rotated rect =? 0); auto. }
  assert (Hph : 0 <= placed_height rect).
  { unfold placed_height. destruct (output_rotated rect =? 0); auto. }
  destruct (place_in_spec W H d l1 area l2 rect _ _ HW HH Hok Hpw Hph Hfit)
    as [(r & E & l' & Ok' & I & L & S & C & Er & Cnt)|[[E N]|[E N]]].
  - left. rewrite E. cbn [bind]. eexists. split; [reflexivity|].
    cbn [fst snd]. rewrite Er. cbn.
    repeat (split; [reflexivity|]).
    exists l'. split; [exact Ok'|]. split; [exact I|]. split; [exact L|].
    split; [exact S|]. split; [exact C|].
    change (mk_rect (input_width rect) (input_height rect)
              (box_x (box_at d area)) (box_y (box_at d area)) 1
              (output_rotated rect) (output_image_index rect))
      with (set_output_packed 1
              (set_output_y (box_y (box_at d area))
                 (set_output_x (box_x (box_at d area)) rect))).
    rewrite footprint_placed. split; [|exact Cnt].
    destruct Hok as (_ & Hin & _). destruct Hfit as [F1 F2].
    destruct (Hin area Hal) as (i1 & i2 & i3 & i4 & i5 & i6).
    unfold in_image. simpl. lia.
  - right. left. rewrite E. auto.
  - right. right. rewrite E. auto.
Qed.

Lemma placed_rotated_1 rect :
  placed_width (set_output_rotated 1 rect) = input_height rect /\
  placed_height (set_output_rotated 1 rect) = input_width rect.
Proof. split; reflexivity. Qed.

Lemma set_rotated_twice rect :
  set_output_rotated 0 (set_output_rotated 1 rect) = set_output_rotated 0 rect.
Proof. reflexivity. Qed.

Lemma pack_rect_spec W H d l rect allow_rotation :
  0 <= W < UINT_RANGE -> 0 <= H < UINT_RANGE ->
  store_ok W H d l ->
  0 <= input_width rect -> 0 <= input_height rect ->
  placed_or_fault d (japacker_pack_rect d rect allow_rotation)
    (pack_rect_post W H d l rect allow_rotation).
Proof.
  intros HW HH Hok Hiw Hih.
  pose proof (store_ok_repr _ _ _ _ Hok) as Hr.
  pose proof (repr_length _ _ Hr) as Hlen.
  pose proof Hr as (_ & Hf & _).
  unfold japacker_pack_rect, pack_rect_body at 1.
  fold (placed_width rect). fold (placed_height rect).
  destruct (find_fit_spec d [] l (placed_width rect) (placed_height rect)
              (length (ea_list d)) Hr Hlen)
    as [[E Hno]|(p & E & Hp & Hfit)]; rewrite Hf, E; cbn [bind].
  - destruct (allow_rotation =? 0) eqn:Eallow.
    + left. eexists. split; [reflexivity|]. unfold pack_rect_post.
      cbn [fst snd]. split; [reflexivity|]. split; [reflexivity|].
      split; [reflexivity|]. left.
      apply Z.eqb_eq in Eallow.
      repeat split; auto.
    + apply Z.eqb_neq in Eallow.
      unfold pack_rect_body.
      fold (placed_width (set_output_rotated 1 rect)).
      fold (placed_height (set_output_rotated 1 rect)).
      destruct (placed_rotated_1 rect) as [Ew Eh].
      destruct (find_fit_spec d [] l
                  (placed_width (set_output_rotated 1 rect))
                  (placed_height (set_output_rotated 1 rect))
                  (length (ea_list d)) Hr Hlen)
        as [[E' Hno']|(p & E' & Hp & Hfit)]; rewrite Hf, E'; cbn [bind].
      * rewrite Z.eqb_refl. left. eexists. split; [reflexivity|].
        unfold pack_rect_post. cbn [fst snd].
        split; [reflexivity|]. split; [reflexivity|].
        split; [reflexivity|]. left.
        split; [reflexivity|]. split; [reflexivity|].
        split; [apply set_rotated_twice|]. split; [exact Hno|].
        intros _. rewrite Ew, Eh in Hno'. exact Hno'.
      * destruct (pack_rect_found W H d l (set_output_rotated 1 rect) p
                    HW HH Hok Hp)
          as [(r & Er & P1 & P2 & P3 & P4 & P5 & P6 & P7)|[X|X]]; auto.
        -- left. exists r. split; [exact Er|]. unfold pack_rect_post.
           split; [exact P1|]. split; [exact P2|]. split; [exact P3|].
           right. split; [exact P5|]. split; [exact P6|].
           split; [|exact P7]. right. auto.
        -- right. left. exact X.
        -- right. right. exact X.
  - destruct (pack_rect_found W H d l rect p HW HH Hok Hp Hiw Hih Hfit)
      as [(r & Er & P1 & P2 & P3 & P4 & P5 & P6 & P7)|[X|X]].
    + left. exists r. split; [exact Er|]. unfold pack_rect_post.
      split; [exact P1|]. split; [exact P2|]. split; [exact P3|].
      right. split; [exact P5|]. split; [exact P6|].
      split; [|exact P7]. left. split; [exact P4|]. eauto.
    + right. left. exact X.
    + right. right. exact X.
Qed.

(** ** Resetting the store *)

Lemma reset_spec d0 W H :
  0 <= W -> 0 <= H ->
  0 < ea_size d0 -> ea_size d0 = Z.of_nat (length (ea_list d0)) ->
  comparator_ok d0 ->
  exists d,
    japacker_reset_empty_areas d0 W H = Ok d /\
    store_ok W H d [0%nat] /\
    box_at d 0%nat = mk_box 0 0 W H /\
    ea_index d = 0 /\
    length (ea_list d) = length (ea_list d0) /\
    ea_size d = ea_size d0 /\
    ea_set_comparator d = ea_set_comparator d0.
Proof.
  intros HW HH Hpos Hsize Hc. unfold japacker_reset_empty_areas.
  rewrite decide_True by lia. cbn [with_last with_first ea_first deref bind].
  set (n := Z.to_nat (ea_size d0)).
  set (m := replicate n zero_area ++ drop n (ea_list d0)).
  assert (Hlen : length m = length (ea_list d0)).
  { unfold m. rewrite length_app, length_replicate, length_drop. lia. }
  assert (Hn : (0 < n)%nat) by (unfold n; lia).
  assert (Hm0 : m !! 0%nat = Some zero_area).
  { unfold m. rewrite lookup_app_l by (rewrite length_replicate; lia).
    apply lookup_replicate_2. lia. }
  set (d1 := mk_empty_areas (Some 0%nat) (Some 0%nat) m 0 (ea_size d0)
               (ea_set_comparator d0)).
  change (modify _ 0%nat (set_width W)) with (modify d1 0%nat (set_width W)).
  assert (Hz : forall i a, m !! i = Some a ->
                 area_prev a = None /\ area_next a = None).
  { intros i a Hi. unfold m in Hi. apply lookup_app_Some in Hi as [Hi|[_ Hi]].
    - apply lookup_replicate in Hi as [-> _]. auto.
    - exfalso. apply lookup_lt_Some in Hi. rewrite length_drop in Hi.
      unfold n in Hi. lia. }
  assert (Hr1 : repr d1 [0%nat]).
  { split; [apply NoDup_singleton|]. split; [reflexivity|].
    split; [reflexivity|]. split.
    - simpl. unfold prevs, nexts. simpl. rewrite !list_lookup_fmap, Hm0.
      auto.
    - intros i _ Hi. unfold prevs, nexts. simpl in *.
      rewrite !list_lookup_fmap.
      destruct (lookup_lt_is_Some_2 m i Hi) as [a Ha]. rewrite Ha. simpl.
      destruct (Hz i a Ha) as [-> ->]. auto. }
  assert (Hv1 : valid d1 0%nat) by (unfold valid; simpl; lia).
  assert (Hb1 : box_at d1 0%nat = mk_box 0 0 0 0).
  { unfold box_at, geoms. simpl. rewrite list_lookup_fmap, Hm0. reflexivity. }
  destruct (modify_set_width d1 _ 0%nat W Hr1 Hv1)
    as (d2 & E2 & R2 & S2 & B2 & G2).
  rewrite E2. cbn [bind].
  pose proof (same_conf_valid _ _ _ S2 Hv1) as Hv2.
  assert (F2 : ea_first d2 = Some 0%nat) by (destruct R2 as (_ & -> & _); auto).
  rewrite F2. cbn [deref bind].
  destruct (modify_set_height d2 _ 0%nat H R2 Hv2)
    as (d3 & E3 & R3 & S3 & B3 & G3).
  exists d3. split; [exact E3|].
  destruct (same_conf_trans _ _ _ S2 S3) as (CL & CI & CS & CC).
  simpl in CL, CI, CS, CC.
  assert (Hb3 : box_at d3 0%nat = mk_box 0 0 W H).
  { rewrite B3, B2, Hb1. reflexivity. }
  split; [|split; [exact Hb3|split; [exact CI|split; [congruence|
           split; [exact CS|exact CC]]]]].
  split; [exact R3|]. split; [|split; [|split]].
  - intros i Hi. apply list_elem_of_singleton in Hi as ->. rewrite Hb3.
    unfold in_image. simpl. lia.
  - intros i Hi. apply list_elem_of_singleton in Hi as ->. rewrite CI. simpl.
    lia.
  - rewrite CI, CL, Hlen. lia.
  - unfold comparator_ok. rewrite CC. exact Hc.
Qed.

(** ** The tiling invariant *)

Lemma hits_pos parts px py :
  (0 < hits parts px py)%nat <-> exists b, b ∈ parts /\ inside b px py.
Proof.
  induction parts as [|b parts IH]; simpl.
  - split; [lia|]. intros (b & Hb & _). inversion Hb.
  - split.
    + intros Hpos. destruct (cnt b px py) eqn:E.
      * destruct IH as [IH _]. destruct IH as (b' & Hb' & Hi); [lia|].
        exists b'. split; [right|]; auto.
      * exists b. split; [left|]. apply cnt_inside.
        pose proof (cnt_le_1 b px py). lia.
    + intros (b' & Hb' & Hi). apply elem_of_cons in Hb' as [->|Hb'].
      * apply cnt_inside in Hi. lia.
      * destruct IH as [_ IH]. assert (0 < hits parts px py)%nat; [|lia].
        apply IH. eauto.
Qed.

Lemma hits_two parts (i j : nat) bi bj px py :
  (i < j)%nat -> parts !! i = Some bi -> parts !! j = Some bj ->
  inside bi px py -> inside bj px py ->
  (2 <= hits parts px py)%nat.
Proof.
  intros Hij Hi Hj Ii Ij.
  rewrite <- (take_drop_middle parts i bi Hi).
  rewrite hits_app. simpl. apply cnt_inside in Ii.
  assert (0 < hits (drop (S i) parts) px py)%nat; [|lia].
  apply hits_pos. exists bj. split; [|exact Ij].
  apply list_elem_of_lookup. exists (j - S i)%nat.
  rewrite lookup_drop. rewrite <- Hj. f_equal. lia.
Qed.

(** Regions that cover every point of [whole] once and no other point
    partition it. *)
Lemma hits_partition whole parts :
  (forall px py, hits parts px py = cnt whole px py) ->
  partition_of whole parts.
Proof.
  intros Hh. split.
  - intros px py. rewrite <- hits_pos, Hh. rewrite <- cnt_inside.
    pose proof (cnt_le_1 whole px py). lia.
  - intros i j bi bj Hij Hi Hj px py [Ii Ij].
    pose proof (cnt_le_1 whole px py) as Hle. rewrite <- Hh in Hle.
    destruct (Nat.lt_total i j) as [Hlt|[Heq|Hlt]]; [|contradiction|].
    + pose proof (hits_two parts i j bi bj px py Hlt Hi Hj Ii Ij). lia.
    + pose proof (hits_two parts j i bj bi px py Hlt Hj Hi Ij Ii). lia.
Qed.

Lemma reset_size_ok d0 d W H :
  ea_size d0 = Z.of_nat (length (ea_list d0)) ->
  japacker_reset_empty_areas d0 W H = Ok d -> 0 < ea_size d0.
Proof.
  intros Hsz. unfold japacker_reset_empty_areas.
  destruct (decide _) as [[H1 H2]|]; [|discriminate].
  intros E.
  destruct (Z.eq_dec (ea_size d0) 0) as [E0|]; [|lia].
  exfalso. rewrite E0 in E. simpl in E.
  unfold modify in E. simpl in E.
  destruct (ea_list d0); simpl in *; [discriminate|lia].
Qed.

(** The invariant behind the tiling: a well-formed store whose areas,
    together with the placed rects, cover each point of the image once. *)
Lemma filling_invariant W H d placed :
  0 <= W < UINT_RANGE -> 0 <= H < UINT_RANGE ->
  filling W H d placed ->
  exists l,
    store_ok W H d l /\
    forall px py,
      (hits placed px py + hits (boxes d l) px py)%nat =
      cnt (mk_box 0 0 W H) px py.
Proof.
  intros HW HH Hf.
  induction Hf as [d0 d Hc Hsz E|d placed rect allow d' rect' ret
                   Hf IH Hiw Hih E].
  - pose proof (reset_size_ok _ _ _ _ Hsz E) as Hs.
    destruct (reset_spec d0 W H) as (d1 & E1 & Ok1 & B1 & _); try lia; auto.
    rewrite E1 in E. injection E as <-.
    exists [0%nat]. split; [exact Ok1|]. intros px py. simpl.
    rewrite B1. lia.
  - destruct IH as (l & Hok & Hcnt).
    destruct (pack_rect_spec W H d l rect allow HW HH Hok Hiw Hih)
      as [(r & Er & P)|[[Er _]|[Er _]]]; rewrite Er in E; try discriminate.
    injection E as ->. destruct P as (_ & _ & _ & P). cbn [fst snd] in P.
    destruct P as [(-> & -> & _)|(-> & _ & _ & l' & Ok' & _ & _ & _ & _ & _ &
                                  Cnt')].
    + exists l. auto.
    + exists l'. split; [exact Ok'|]. intros px py. simpl.
      rewrite <- Hcnt, <- (Cnt' px py). lia.
Qed.

(** C1.  After a reset to one empty area covering the whole image and any
    sequence of calls of [japacker_pack_rect], the regions of the placed
    rects together with the empty areas of the list partition the image:
    they are pairwise disjoint and their union is the whole image. *)
Theorem C1_tiling_invariant W H d placed :
  0 <= W < UINT_RANGE -> 0 <= H < UINT_RANGE ->
  filling W H d placed ->
  partition_of (mk_box 0 0 W H) (placed ++ empty_boxes d).
Proof.
  intros HW HH Hf.
  destruct (filling_invariant W H d placed HW HH Hf) as (l & Hok & Hcnt).
  apply hits_partition. intros px py. rewrite hits_app.
  unfold empty_boxes. rewrite (listed_repr d l) by apply Hok.
  apply Hcnt.
Qed.

(** ** The regions of the rects that a pass has placed *)

Lemma rect_at_lookup rs i r : rs !! i = Some r -> rect_at rs i = r.
Proof. unfold rect_at. intros ->. reflexivity. Qed.

Lemma placed_of_insert rs done ptr r :
  ptr ∉ done -> placed_of (<[ptr := r]> rs) done = placed_of rs done.
Proof.
  intros Hp. unfold placed_of. apply list_fmap_ext. intros k i Hk.
  unfold rect_at. rewrite list_lookup_insert_ne; [reflexivity|].
  intros ->. apply Hp. eapply list_elem_of_lookup_2; eauto.
Qed.

(** Two rects of the pass do not overlap. *)
Lemma placed_of_disjoint W H rs d done i j r r' :
  0 <= W < UINT_RANGE -> 0 <= H < UINT_RANGE ->
  filling W H d (placed_of rs done) -> NoDup done ->
  i ∈ done -> j ∈ done -> i <> j ->
  rs !! i = Some r -> rs !! j = Some r' ->
  disjoint (footprint r) (footprint r').
Proof.
  intros HW HH Hf Hnd Hi Hj Hij Hr Hr' px py [I1 I2].
  destruct (filling_invariant W H d _ HW HH Hf) as (l & _ & Hhits).
  specialize (Hhits px py). pose proof (cnt_le_1 (mk_box 0 0 W H) px py).
  apply list_elem_of_lookup_1 in Hi as [a Ha].
  apply list_elem_of_lookup_1 in Hj as [b Hb].
  assert (Hab : a <> b) by (intros ->; congruence).
  assert (Pa : placed_of rs done !! a = Some (footprint r)).
  { unfold placed_of. rewrite list_lookup_fmap, Ha. simpl.
    rewrite (rect_at_lookup _ _ _ Hr). reflexivity. }
  assert (Pb : placed_of rs done !! b = Some (footprint r')).
  { unfold placed_of. rewrite list_lookup_fmap, Hb. simpl.
    rewrite (rect_at_lookup _ _ _ Hr'). reflexivity. }
  destruct (Nat.lt_total a b) as [Hlt|[Heq|Hlt]]; [|contradiction|].
  - pose proof (hits_two _ a b _ _ px py Hlt Pa Pb I1 I2). lia.
  - pose proof (hits_two _ b a _ _ px py Hlt Pb Pa I2 I1). lia.
Qed.

(** ** Rotation *)

Lemma u32_s32 z : u32 (s32 z) = u32 z.
Proof.
  unfold s32. destruct (u32 z <? 2147483648).
  - unfold u32. apply Z.mod_mod. unfold UINT_RANGE. lia.
  - unfold u32. rewrite Zminus_mod, Z_mod_same_full, Z.sub_0_r.
    rewrite !Z.mod_mod by (unfold UINT_RANGE; lia). reflexivity.
Qed.

Lemma u32_mul_s32 a b w :
  u32 (a * s32 w + b) = u32 (a * w + b).
Proof.
  unfold u32.
  rewrite (Zplus_mod (a * s32 w)), (Zmult_mod a (s32 w)).
  fold (u32 (s32 w)). rewrite u32_s32. unfold u32.
  rewrite <- Zmult_mod, <- Zplus_mod. reflexivity.
Qed.

(** The offset of a rotated rect, before the reduction modulo [2^32]. *)
Lemma dst_offset_rotated packer rect x y :
  output_rotated rect <> 0 ->
  japacker_get_dst_offset packer rect x y =
  u32 ((output_y rect + input_width rect - 1 - x) * dst_width_of packer rect
       + output_x rect + y).
Proof.
  intros Hrot. unfold japacker_get_dst_offset, dst_width_of.
  apply Z.eqb_neq in Hrot. rewrite Hrot.
  set (w := if _ && _ then last_image_width _ else image_width _).
  replace (if (reduce_image_size (options packer) =? 1) &&
              (u32 (output_image_index rect)
                 =? u32 (images_needed (result packer) - 1))
           then s32 (last_image_width (result packer))
           else s32 (image_width (internal_data packer)))
    with (s32 w) by (unfold w; destruct (_ && _); reflexivity).
  replace ((output_y rect + input_width rect - 1) * s32 w + y + output_x rect
           - x * s32 w)
    with ((output_y rect + input_width rect - 1 - x) * s32 w
          + (output_x rect + y)) by ring.
  rewrite u32_mul_s32. f_equal. ring.
Qed.




(** ** The driver: no access outside the arrays *)

Lemma safe_bind {A B} (m : res A) (k : A -> res B) (P : A -> Prop)
    (Q : B -> Prop) :
  safe m P -> (forall a, P a -> safe (k a) Q) -> safe (bind m k) Q.
Proof. destruct m; simpl; auto. Qed.

Lemma safe_weaken {A} (r : res A) (P Q : A -> Prop) :
  safe r P -> (forall a, P a -> Q a) -> safe r Q.
Proof. destruct r; simpl; auto. Qed.

Lemma same_frame_refl p : same_frame p p.
Proof. repeat split. Qed.

Lemma same_frame_trans p1 p2 p3 :
  same_frame p1 p2 -> same_frame p2 p3 -> same_frame p1 p3.
Proof.
  intros (A1 & A2 & A3 & A4 & A5 & A6 & A7) (B1 & B2 & B3 & B4 & B5 & B6 & B7).
  repeat split; congruence.
Qed.

Lemma filled_to_mono k k' d : k <= k' -> filled_to k d -> filled_to k' d.
Proof.
  intros Hk (W & H & l & HW & HH & Hok & Hi).
  exists W, H, l. split; [exact HW|]. split; [exact HH|].
  split; [exact Hok|lia].
Qed.

Lemma driver_inv_mono k k' p : k <= k' -> driver_inv k p -> driver_inv k' p.
Proof. intros Hk [Hs Hf]. split; [exact Hs|]. eapply filled_to_mono; eauto. Qed.

Lemma static_sorted_rect p i :
  packer_static p -> (i < length (rects p))%nat ->
  exists ptr, sorted_rect p i = Ok ptr /\ (ptr < length (rects p))%nat.
Proof.
  intros (_ & _ & _ & _ & _ & _ & _ & (ptrs & Ep & Hperm) & _) Hi.
  unfold sorted_rect. rewrite Ep.
  assert (Hlen : length ptrs = length (rects p)).
  { rewrite Hperm. apply length_seq. }
  destruct (lookup_lt_is_Some_2 ptrs i) as [ptr Hptr]; [lia|].
  rewrite Hptr. exists ptr. split; [reflexivity|].
  assert (Hin : ptr ∈ seq 0 (length (rects p))).
  { rewrite <- Hperm. eapply list_elem_of_lookup_2; eauto. }
  apply elem_of_seq in Hin. lia.
Qed.

Lemma static_load_rect p ptr :
  packer_static p -> (ptr < length (rects p))%nat ->
  exists rect, load_rect p ptr = Ok rect /\ rects p !! ptr = Some rect /\
               0 <= input_width rect /\ 0 <= input_height rect.
Proof.
  intros (_ & _ & _ & _ & _ & _ & _ & _ & Hall) Hptr.
  destruct (lookup_lt_is_Some_2 (rects p) ptr Hptr) as [rect Hr].
  unfold load_rect. rewrite Hr. exists rect. split; [reflexivity|].
  split; [reflexivity|]. eapply Forall_lookup_1 in Hall; eauto.
Qed.

(** Writing back a rect whose inputs are unsigned. *)
Lemma static_store_rect p ptr r :
  packer_static p -> 0 <= input_width r -> 0 <= input_height r ->
  packer_static (store_rect p ptr r).
Proof.
  intros (H1 & H2 & H3 & H4 & H5 & H6 & H7 & (ptrs & Ep & Hperm) & H9) Hw Hh.
  unfold packer_static, store_rect. simpl. rewrite length_insert.
  split; [exact H1|]. split; [exact H2|]. split; [exact H3|].
  split; [exact H4|]. split; [exact H5|]. split; [exact H6|].
  split; [exact H7|]. split; [exists ptrs; auto|].
  apply Forall_insert; auto.
Qed.

Lemma static_with_empty_areas p d' :
  packer_static p ->
  length (ea_list d') = length (ea_list (store_of p)) ->
  ea_size d' = ea_size (store_of p) ->
  ea_set_comparator d' = ea_set_comparator (store_of p) ->
  packer_static (with_empty_areas d' p).
Proof.
  intros (H1 & H2 & H3 & H4 & H5 & H6 & H7 & H8 & H9) L S C.
  unfold packer_static, with_empty_areas, store_of in *. simpl.
  rewrite L, S.
  split; [exact H1|]. split; [exact H2|]. split; [exact H3|].
  split; [exact H4|]. split; [|auto].
  unfold comparator_ok. rewrite C. exact H5.
Qed.

Lemma static_capacity p :
  packer_static p ->
  Z.of_nat (length (ea_list (store_of p))) = num_rects (internal_data p) + 1.
Proof. intros (_ & H2 & H3 & _). unfold store_of. lia. Qed.

(** The call of [japacker_pack_rect] on the packer. *)
Lemma pack_rect_in_safe k p ptr rect :
  driver_inv k p -> k < num_rects (internal_data p) ->
  0 <= input_width rect -> 0 <= input_height rect ->
  safe (pack_rect_in p ptr rect)
    (fun r => driver_inv (k + 1) (fst r) /\ same_frame p (fst r) /\
              (snd r = 0 \/ snd r = 1) /\
              exists rect',
                rects (fst r) = <[ptr := rect']> (rects p) /\
                input_width rect' = input_width rect /\
                input_height rect' = input_height rect).
Proof.
  intros [Hs (W & H & l & HW & HH & Hok & Hi)] Hk Hw Hh.
  unfold pack_rect_in. fold (store_of p).
  pose proof (static_capacity p Hs) as Hcap.
  destruct (pack_rect_spec W H (store_of p) l rect (allow_rotation (options p))
              HW HH Hok Hw Hh) as [(r & Er & P)|[[Er _]|[Er N]]];
    rewrite Er; cbn [bind safe]; try (split; discriminate); [|lia].
  destruct r as [[d' rect'] ret]. cbn [fst snd].
  destruct P as (P1 & P2 & P3 & P). cbn [fst snd] in P1, P2, P3, P.
  assert (Hframe : same_frame p (store_rect (with_empty_areas d' p) ptr rect')).
  { unfold same_frame, store_rect, with_empty_areas. simpl.
    rewrite length_insert. repeat split. }
  assert (Hrects : rects (store_rect (with_empty_areas d' p) ptr rect') =
                   <[ptr := rect']> (rects p)) by reflexivity.
  destruct P as [(-> & -> & _)|(-> & _ & _ & l' & Ok' & Hi' & L' & S' & C' & _)].
  - split; [|split; [exact Hframe|split; [auto|eauto]]].
    split.
    + apply static_store_rect; try lia.
      apply static_with_empty_areas; auto.
    + exists W, H, l. split; [exact HW|]. split; [exact HH|].
      split; [exact Hok|unfold store_of in *; simpl; lia].
  - split; [|split; [exact Hframe|split; [auto|eauto]]].
    split.
    + apply static_store_rect; try lia.
      apply static_with_empty_areas; auto.
    + exists W, H, l'. split; [exact HW|]. split; [exact HH|].
      split; [exact Ok'|unfold store_of in *; simpl; lia].
Qed.

Lemma driver_inv_store_rect k p ptr r :
  driver_inv k p -> 0 <= input_width r -> 0 <= input_height r ->
  driver_inv k (store_rect p ptr r).
Proof.
  intros [Hs Hf] Hw Hh. split; [apply static_store_rect; auto|exact Hf].
Qed.

Lemma driver_inv_with_images_needed k p v :
  driver_inv k p -> driver_inv k (with_images_needed v p).
Proof. intros H. exact H. Qed.

Lemma driver_inv_with_last_image k p w h :
  driver_inv k p -> driver_inv k (with_last_image w h p).
Proof. intros H. exact H. Qed.

Lemma driver_inv_first_valid k p f :
  driver_inv k p -> ea_first (store_of p) = Some f -> valid (store_of p) f.
Proof.
  intros [_ (W & H & l & _ & _ & Hok & _)] Ef.
  pose proof (store_ok_repr _ _ _ _ Hok) as Hr.
  eapply repr_valid; [exact Hr|].
  destruct Hr as (_ & Hf & _). rewrite Ef in Hf.
  destruct l; [discriminate|]. injection Hf as ->. left.
Qed.

(** The [for] loop of [japacker_pack]. *)
Lemma pack_for_safe count :
  forall i p locals,
    driver_inv (Z.of_nat i) p ->
    Z.of_nat (i + count) = num_rects (internal_data p) ->
    safe (pack_for count i p locals)
      (fun r => driver_inv (num_rects (internal_data p)) (fst (fst r)) /\
                num_rects (internal_data (fst (fst r))) =
                num_rects (internal_data p)).
Proof.
  induction count as [|count IH]; intros i p locals Hinv Hn.
  - simpl. split; [|reflexivity]. eapply driver_inv_mono; [|exact Hinv]. lia.
  - cbn [pack_for]. pose proof Hinv as [Hs _].
    pose proof Hs as (Hnum & _).
    destruct (static_sorted_rect p i Hs) as (ptr & E1 & Hptr); [lia|].
    rewrite E1. cbn [bind].
    destruct (static_load_rect p ptr Hs Hptr) as (rect & E2 & _ & Hw & Hh).
    rewrite E2. cbn [bind].
    assert (Hnext : forall p' locals',
      driver_inv (Z.of_nat i + 1) p' ->
      num_rects (internal_data p') = num_rects (internal_data p) ->
      safe (pack_for count (S i) p' locals')
        (fun r => driver_inv (num_rects (internal_data p)) (fst (fst r)) /\
                  num_rects (internal_data (fst (fst r))) =
                  num_rects (internal_data p))).
    { intros p' locals' Hinv' Hn'.
      eapply safe_weaken; [apply IH|].
      - replace (Z.of_nat (S i)) with (Z.of_nat i + 1) by lia. exact Hinv'.
      - rewrite Hn'. lia.
      - intros r [R1 R2]. rewrite Hn' in R1, R2. auto. }
    destruct (negb (output_packed rect =? 0) && _).
    { apply Hnext; [|reflexivity]. eapply driver_inv_mono; [|exact Hinv]. lia. }
    set (rect0 := set_output_packed 0 rect).
    set (p0 := store_rect p ptr rect0).
    assert (Hinv0 : driver_inv (Z.of_nat i) p0)
      by (apply driver_inv_store_rect; auto).
    eapply safe_bind.
    { apply (pack_rect_in_safe (Z.of_nat i) p0 ptr rect0 Hinv0); auto.
      change (num_rects (internal_data p0)) with (num_rects (internal_data p)).
      lia. }
    intros [p1 ret] (Hinv1 & Hframe & Hret & _). cbn [fst snd] in *.
    destruct Hframe as (F1 & F2 & F3 & F4 & F5 & F6 & F7).
    change (num_rects (internal_data p0)) with (num_rects (internal_data p))
      in F4.
    destruct Hret as [-> | ->]; simpl (_ =? 0).
    + cbv iota. destruct (fail_policy (options p1)).
      * simpl. split; [|exact F4].
        eapply driver_inv_mono; [|exact Hinv1]. lia.
      * apply Hnext; auto.
      * destruct (ea_first (data_empty_areas (internal_data p1))) as [f|] eqn:Ef;
          [|simpl; split; discriminate].
        cbn [deref bind].
        pose proof (driver_inv_first_valid _ _ _ Hinv1 Ef) as Hvf.
        destruct (rd_valid (store_of p1) f area_width Hvf) as [fw Efw].
        destruct (rd_valid (store_of p1) f area_height Hvf) as [fh Efh].
        unfold store_of in Efw, Efh. rewrite Efw. cbn [bind].
        rewrite Efh. cbn [bind].
        destruct ((fw =? _) && (fh =? _)).
        -- simpl. split; [|exact F4].
           eapply driver_inv_mono; [|exact Hinv1]. lia.
        -- apply Hnext; auto.
    + cbv iota. pose proof Hinv1 as [Hs1 _].
      destruct (static_load_rect p1 ptr Hs1) as (rect1 & E3 & _ & Hw1 & Hh1).
      { rewrite F7. unfold p0, store_rect. simpl. rewrite length_insert.
        exact Hptr. }
      rewrite E3. cbn [bind].
      apply Hnext; [|exact F4].
      apply driver_inv_store_rect; auto.
Qed.

(** The first [for] loop of [japacker_reduce_last_image_size]. *)
Lemma reduce_for_safe count :
  forall i p image_index,
    driver_inv (Z.of_nat i) p ->
    Z.of_nat (i + count) = num_rects (internal_data p) ->
    safe (reduce_for count i p image_index)
      (fun r => driver_inv (num_rects (internal_data p)) (fst r) /\
                same_frame p (fst r)).
Proof.
  induction count as [|count IH]; intros i p image_index Hinv Hn.
  - simpl. split; [|apply same_frame_refl].
    eapply driver_inv_mono; [|exact Hinv]. lia.
  - cbn [reduce_for]. pose proof Hinv as [Hs _].
    pose proof Hs as (Hnum & _).
    destruct (static_sorted_rect p i Hs) as (ptr & E1 & Hptr); [lia|].
    rewrite E1. cbn [bind].
    destruct (static_load_rect p ptr Hs Hptr) as (rect & E2 & _ & Hw & Hh).
    rewrite E2. cbn [bind].
    destruct (negb _).
    { eapply safe_weaken; [apply IH|]; auto.
      - eapply driver_inv_mono; [|exact Hinv]. lia.
      - lia. }
    eapply safe_bind.
    { apply (pack_rect_in_safe (Z.of_nat i) p ptr rect Hinv); auto. lia. }
    intros [p1 ret] (Hinv1 & Hframe & Hret & _). cbn [fst snd] in *.
    pose proof Hframe as (F1 & F2 & F3 & F4 & F5 & F6 & F7).
    destruct Hret as [-> | ->]; simpl (_ =? 0); cbv iota.
    + simpl. split; [|exact Hframe].
      eapply driver_inv_mono; [|exact Hinv1]. lia.
    + eapply safe_weaken; [apply IH|].
      * replace (Z.of_nat (S i)) with (Z.of_nat i + 1) by lia. exact Hinv1.
      * rewrite F4. lia.
      * intros r [R1 R2]. rewrite F4 in R1. split; [exact R1|].
        eapply same_frame_trans; eauto.
Qed.

(** The second [for] loop of [japacker_reduce_last_image_size]. *)
Lemma restore_for_safe count :
  forall i p image_index,
    driver_inv (Z.of_nat i) p ->
    Z.of_nat (i + count) = num_rects (internal_data p) ->
    safe (restore_for count i p image_index)
      (fun p' => driver_inv (num_rects (internal_data p)) p' /\
                 same_frame p p').
Proof.
  induction count as [|count IH]; intros i p image_index Hinv Hn.
  - simpl. split; [|apply same_frame_refl].
    eapply driver_inv_mono; [|exact Hinv]. lia.
  - cbn [restore_for]. pose proof Hinv as [Hs _].
    pose proof Hs as (Hnum & _).
    destruct (static_sorted_rect p i Hs) as (ptr & E1 & Hptr); [lia|].
    rewrite E1. cbn [bind].
    destruct (static_load_rect p ptr Hs Hptr) as (rect & E2 & _ & Hw & Hh).
    rewrite E2. cbn [bind].
    destruct (negb _).
    { eapply safe_weaken; [apply IH|]; auto.
      - eapply driver_inv_mono; [|exact Hinv]. lia.
      - lia. }
    eapply safe_bind.
    { apply (pack_rect_in_safe (Z.of_nat i) p ptr rect Hinv); auto. lia. }
    intros [p1 ret] (Hinv1 & Hframe & Hret & _). cbn [fst snd] in *.
    pose proof Hframe as (F1 & F2 & F3 & F4 & F5 & F6 & F7).
    eapply safe_weaken; [apply IH|].
    + replace (Z.of_nat (S i)) with (Z.of_nat i + 1) by lia. exact Hinv1.
    + rewrite F4. lia.
    + intros r [R1 R2]. rewrite F4 in R1. split; [exact R1|].
      eapply same_frame_trans; eauto.
Qed.

(** A reset makes the store ready to be filled, whatever it held. *)
Lemma reset_in_spec p W H :
  packer_static p -> 0 <= W < UINT_RANGE -> 0 <= H < UINT_RANGE ->
  exists p',
    reset_in p W H = Ok p' /\ driver_inv 0 p' /\ same_frame p p' /\
    rects p' = rects p /\
    store_ok W H (store_of p') [0%nat] /\
    box_at (store_of p') 0%nat = mk_box 0 0 W H.
Proof.
  intros Hs HW HH. pose proof Hs as (H1 & H2 & H3 & H4 & H5 & _).
  unfold reset_in.
  destruct (reset_spec (data_empty_areas (internal_data p)) W H)
    as (d & E & Hok & Hb & Hi & L & S & C); auto; try lia.
  rewrite E. cbn [bind]. eexists. split; [reflexivity|].
  split; [|split; [repeat split|split; [reflexivity|split; [exact Hok|exact Hb]]]].
  split.
  - apply static_with_empty_areas; auto.
  - exists W, H, [0%nat]. split; [exact HW|]. split; [exact HH|].
    split; [exact Hok|]. unfold store_of. simpl. lia.
Qed.

Lemma static_same_frame_num p p' :
  same_frame p p' ->
  num_rects (internal_data p') = num_rects (internal_data p).
Proof. intros (_ & _ & _ & H & _). exact H. Qed.

Lemma half_bounds dw (fuel : nat) :
  1 <= dw < 2 ^ Z.of_nat (S fuel) ->
  0 <= dw / 2 < 2 ^ Z.of_nat fuel /\ 2 * (dw / 2) <= dw.
Proof.
  intros Hd. rewrite Nat2Z.inj_succ, Z.pow_succ_r in Hd by lia.
  pose proof (Z.div_mod dw 2 ltac:(lia)).
  pose proof (Z.mod_pos_bound dw 2 ltac:(lia)). lia.
Qed.

(** The [while] loop of [japacker_reduce_last_image_size]. *)
Lemma reduce_while_safe fuel :
  forall p rects_area image_index dw dh lsw lsh,
    driver_inv (num_rects (internal_data p)) p ->
    0 <= dw < 2 ^ Z.of_nat fuel ->
    0 <= lsw < UINT_RANGE -> 0 <= lsh < UINT_RANGE ->
    safe (reduce_while fuel p rects_area image_index dw dh lsw lsh)
      (fun r =>
         driver_inv (num_rects (internal_data p)) (fst (fst (fst r))) /\
         num_rects (internal_data (fst (fst (fst r)))) =
         num_rects (internal_data p) /\
         0 <= snd (fst r) < UINT_RANGE /\ 0 <= snd r < UINT_RANGE).
Proof.
  induction fuel as [|fuel IH];
    intros p A idx dw dh lsw lsh Hinv Hdw Hlw Hlh.
  - change (2 ^ Z.of_nat 0) with 1 in Hdw. replace dw with 0 by lia.
    simpl. auto.
  - cbn [reduce_while].
    destruct ((dw =? 0) || (dh =? 0)) eqn:Ez; [simpl; auto|].
    apply orb_false_elim in Ez as [Ez _]. apply Z.eqb_neq in Ez.
    destruct (half_bounds dw fuel ltac:(lia)) as [Hhalf _].
    set (p1 := if lsw =? last_image_width (result p) then _ else _).
    assert (Hs1 : packer_static p1).
    { unfold p1. destruct (lsw =? _); apply Hinv. }
    assert (Hn1 : num_rects (internal_data p1) = num_rects (internal_data p)).
    { unfold p1. destruct (lsw =? _); reflexivity. }
    assert (Hr1 : 0 <= last_image_width (result p1) < UINT_RANGE /\
                  0 <= last_image_height (result p1) < UINT_RANGE).
    { unfold p1. destruct (lsw =? _); simpl; split; apply u32_range. }
    destruct (reset_in_spec p1 _ _ Hs1 (proj1 Hr1) (proj2 Hr1))
      as (p2 & E2 & Hinv2 & Hf2 & _).
    rewrite E2. cbn [bind].
    pose proof (static_same_frame_num _ _ Hf2) as Hn2.
    eapply safe_bind.
    { apply (reduce_for_safe _ 0 p2 idx Hinv2). simpl. rewrite Hn2, Hn1.
      destruct Hinv as [(Hnum & _ & _ & Hb & _) _]. lia. }
    intros [p3 failed] (Hinv3 & Hf3). cbn [fst snd] in *.
    pose proof (static_same_frame_num _ _ Hf3) as Hn3.
    rewrite Hn2, Hn1 in Hinv3.
    assert (Hn : num_rects (internal_data p3) = num_rects (internal_data p))
      by congruence.
    assert (Hr3 : 0 <= last_image_width (result p3) < UINT_RANGE /\
                  0 <= last_image_height (result p3) < UINT_RANGE).
    { destruct Hf3 as (_ & -> & _). destruct Hf2 as (_ & -> & _). exact Hr1. }
    assert (Hnext : forall dh' lsw' lsh',
      0 <= lsw' < UINT_RANGE -> 0 <= lsh' < UINT_RANGE ->
      safe (reduce_while fuel p3 A idx (dw / 2) dh' lsw' lsh')
        (fun r =>
           driver_inv (num_rects (internal_data p)) (fst (fst (fst r))) /\
           num_rects (internal_data (fst (fst (fst r)))) =
           num_rects (internal_data p) /\
           0 <= snd (fst r) < UINT_RANGE /\ 0 <= snd r < UINT_RANGE)).
    { intros. eapply safe_weaken; [apply IH|]; auto.
      - rewrite Hn. exact Hinv3.
      - intros r (R1 & R2 & R3). rewrite Hn in R1, R2. auto. }
    destruct (failed =? 0); [|apply Hnext; auto].
    destruct (_ <? _); [|apply Hnext; apply Hr3].
    simpl. split; [exact Hinv3|]. split; [exact Hn|]. exact Hr3.
Qed.

Lemma static_image_range p :
  packer_static p ->
  0 <= image_width (internal_data p) < UINT_RANGE /\
  0 <= image_height (internal_data p) < UINT_RANGE.
Proof. intros (_ & _ & _ & _ & _ & H6 & H7 & _). auto. Qed.

Lemma static_num_rects p :
  packer_static p ->
  Z.of_nat (Z.to_nat (num_rects (internal_data p))) =
  num_rects (internal_data p).
Proof. intros (H1 & _). lia. Qed.

Section DriverSafety.

Variable qsort : (nat -> nat -> Z) -> list nat -> list nat.
Variable needed_size : Z -> Z -> Z -> Z * Z.
Hypothesis qsort_perm : forall cmp l, qsort cmp l ≡ₚ l.

Lemma delta_bound v : 0 <= u32 v / 2 < 2 ^ Z.of_nat 32.
Proof.
  change (2 ^ Z.of_nat 32) with 4294967296.
  pose proof (u32_range v) as Hr. unfold UINT_RANGE in Hr.
  pose proof (Z.div_mod (u32 v) 2 ltac:(lia)).
  pose proof (Z.mod_pos_bound (u32 v) 2 ltac:(lia)). lia.
Qed.

Lemma reduce_last_image_size_safe p rects_area :
  driver_inv (num_rects (internal_data p)) p ->
  safe (japacker_reduce_last_image_size needed_size p rects_area)
    (fun p' => driver_inv (num_rects (internal_data p)) p' /\
               num_rects (internal_data p') = num_rects (internal_data p)).
Proof.
  intros Hinv. unfold japacker_reduce_last_image_size.
  destruct (rects_area =? 0); [simpl; split; discriminate|].
  destruct (_ <? _); [simpl; auto|].
  destruct (static_image_range p (proj1 Hinv)) as [HW HH].
  eapply safe_bind; [apply reduce_while_safe; eauto using delta_bound|].
  intros [[[p1 returned] lsw] lsh] (Hinv1 & Hn1 & Hlw & Hlh).
  cbn [fst snd] in *.
  destruct returned; [simpl; auto|].
  destruct (negb _); [|simpl; auto].
  set (p2 := with_last_image lsw lsh p1).
  assert (Hs2 : packer_static p2) by apply Hinv1.
  destruct (reset_in_spec p2 lsw lsh Hs2 Hlw Hlh)
    as (p3 & E3 & Hinv3 & Hf3 & _).
  change (last_image_width (result p2)) with lsw.
  change (last_image_height (result p2)) with lsh.
  rewrite E3. cbn [bind].
  pose proof (static_same_frame_num _ _ Hf3) as Hn3.
  change (num_rects (internal_data p2)) with (num_rects (internal_data p1))
    in Hn3.
  eapply safe_weaken.
  { apply (restore_for_safe _ 0 p3 _ Hinv3). simpl.
    rewrite (static_num_rects p3); [reflexivity|apply Hinv3]. }
  intros p4 [R1 R2]. pose proof (static_same_frame_num _ _ R2) as Hn4.
  rewrite Hn3, Hn1 in R1. split; [exact R1|]. lia.
Qed.

End DriverSafety.

(** ** The driver: the passes come to an end *)

(** A call of [japacker_pack_rect] on the packer writes one rect and the
    store. *)
Lemma pack_rect_in_inv p ptr rect p' ret :
  pack_rect_in p ptr rect = Ok (p', ret) ->
  exists d' rect',
    japacker_pack_rect (data_empty_areas (internal_data p)) rect
      (allow_rotation (options p)) = Ok (d', rect', ret) /\
    p' = store_rect (with_empty_areas d' p) ptr rect'.
Proof.
  unfold pack_rect_in. intros E. apply bind_inv in E as ([[d' rect'] r] & E1 & E2).
  cbn [fst snd] in E2. injection E2 as <- <-. eauto.
Qed.

Lemma pack_rect_in_frame p ptr rect p' ret :
  pack_rect_in p ptr rect = Ok (p', ret) ->
  same_frame p p' /\
  exists rect', rects p' = <[ptr := rect']> (rects p).
Proof.
  intros E. apply pack_rect_in_inv in E as (d' & rect' & _ & ->).
  split; [|exists rect'; reflexivity].
  unfold same_frame, store_rect, with_empty_areas. simpl.
  rewrite length_insert. repeat split.
Qed.

(** A call that returns 0 has only cleared [rotated]. *)
Lemma pack_rect_failed d rect allow_rotation d' rect' :
  japacker_pack_rect d rect allow_rotation = Ok (d', rect', 0) ->
  d' = d /\ rect' = set_output_rotated 0 rect.
Proof.
  unfold japacker_pack_rect, pack_rect_body at 1. intros E.
  apply bind_inv in E as (found & _ & E). destruct found as [area|].
  { apply bind_inv in E as (r & _ & E). discriminate. }
  destruct (allow_rotation =? 0); [injection E as <- <-; auto|].
  unfold pack_rect_body in E.
  apply bind_inv in E as (found & _ & E). destruct found as [area|].
  { apply bind_inv in E as (r & _ & E). discriminate. }
  simpl in E. injection E as <- <-. auto.
Qed.

Lemma sorted_rect_inv p i ptr :
  sorted_rect p i = Ok ptr ->
  exists ptrs, sorted_rects (internal_data p) = Some ptrs /\
               ptrs !! i = Some ptr.
Proof.
  unfold sorted_rect. destruct (sorted_rects (internal_data p)) as [ptrs|];
    [|discriminate].
  destruct (ptrs !! i) eqn:E; [|discriminate]. intros [= <-]. eauto.
Qed.

Lemma load_rect_inv p ptr rect :
  load_rect p ptr = Ok rect -> rects p !! ptr = Some rect.
Proof.
  unfold load_rect. destruct (rects p !! ptr); [|discriminate].
  intros [= <-]. reflexivity.
Qed.

Lemma unpacked_le rs : (unpacked rs <= length rs)%nat.
Proof. apply length_filter. Qed.

(** Writing one rect changes the count by what that rect contributes. *)
Lemma unpacked_insert rs i r r' :
  rs !! i = Some r ->
  (unpacked (<[i := r']> rs) +
     (if decide (output_packed r = 0%Z) then 1 else 0) =
   unpacked rs + (if decide (output_packed r' = 0%Z) then 1 else 0))%nat.
Proof.
  unfold unpacked. revert i.
  induction rs as [|a rs IH]; intros [|i] H; try discriminate.
  - injection H as ->. simpl. rewrite !filter_cons.
    repeat destruct (decide _); simpl; lia.
  - simpl in H. specialize (IH i H). simpl. rewrite !filter_cons.
    destruct (decide (output_packed a = 0)); simpl; lia.
Qed.

Lemma unpacked_insert_same rs i r r' :
  rs !! i = Some r -> output_packed r = 0 -> output_packed r' = 0 ->
  unpacked (<[i := r']> rs) = unpacked rs.
Proof.
  intros H H0 H1. pose proof (unpacked_insert rs i r r' H) as E.
  rewrite !decide_True in E by assumption. lia.
Qed.

Lemma unpacked_insert_packed rs i r r' :
  rs !! i = Some r -> output_packed r = 0 -> output_packed r' <> 0 ->
  (unpacked (<[i := r']> rs) < unpacked rs)%nat.
Proof.
  intros H H0 H1. pose proof (unpacked_insert rs i r r' H) as E.
  rewrite decide_True in E by assumption.
  rewrite decide_False in E by assumption. lia.
Qed.

(** After a reset the test on the first empty area holds. *)
Lemma reset_in_pristine p p' :
  packer_static p ->
  reset_in p (image_width (internal_data p)) (image_height (internal_data p))
  = Ok p' ->
  pristine p'.
Proof.
  intros Hs E. destruct (static_image_range p Hs) as [HW HH].
  destruct (reset_in_spec p _ _ Hs HW HH)
    as (p1 & E1 & _ & Hf & _ & Hok & Hbox).
  rewrite E in E1. injection E1 as <-.
  destruct Hf as (_ & _ & _ & _ & F5 & F6 & _).
  pose proof (store_ok_repr _ _ _ _ Hok) as Hr.
  assert (Hv : valid (store_of p') 0%nat).
  { eapply repr_valid; [exact Hr|]. left. }
  destruct (rd_box _ _ Hv) as (_ & _ & Ew & Eh). rewrite Hbox in Ew, Eh.
  destruct Hr as (_ & Hfirst & _). simpl in Hfirst.
  unfold pristine. fold (store_of p'). rewrite Hfirst. cbn [deref bind].
  rewrite Ew. cbn [bind]. rewrite Eh. cbn [bind box_w box_h].
  rewrite F5, F6, !Z.eqb_refl. reflexivity.
Qed.

(** A pass that skips the packed rects packs no rect twice: the count of
    unpacked rects does not grow, and it has gone down once the pass asks
    for a new image, because a rect that fails on an untouched store ends
    the call. *)
Lemma pack_for_pending count :
  forall i p locals p' locals' (c0 : nat),
    skips_packed p = true ->
    pack_for count i p locals = Ok (p', locals', None) ->
    (unpacked (rects p) <= c0)%nat ->
    (unpacked (rects p) < c0)%nat \/ pristine p ->
    (request_new_image locals <> 0 -> (unpacked (rects p) < c0)%nat) ->
    (unpacked (rects p') <= c0)%nat /\
    (request_new_image locals' <> 0 -> (unpacked (rects p') < c0)%nat).
Proof.
  induction count as [|count IH];
    intros i p locals p' locals' c0 Hmode E Hle Hor Hreq.
  - simpl in E. injection E as <- <-. auto.
  - cbn [pack_for] in E.
    apply bind_inv in E as (ptr & _ & E).
    apply bind_inv in E as (rect & E2 & E).
    apply load_rect_inv in E2.
    fold (skips_packed p) in E. rewrite Hmode, andb_true_r in E.
    destruct (output_packed rect =? 0) eqn:Hp; cbn [negb] in E;
      [|eapply IH; eauto].
    apply Z.eqb_eq in Hp.
    set (rect0 := set_output_packed 0 rect) in *.
    set (p0 := store_rect p ptr rect0) in *.
    apply bind_inv in E as ([p1 ret] & E3 & E). cbn [fst snd] in E.
    apply pack_rect_in_inv in E3 as (d' & rect' & Epr & Ep1).
    assert (Hrects1 : rects p1 = <[ptr := rect']> (rects p)).
    { rewrite Ep1. unfold p0, store_rect. simpl.
      apply list_insert_insert_eq. }
    assert (Hmode1 : forall rs, skips_packed (with_rects rs p1) = true).
    { intros rs. rewrite Ep1. exact Hmode. }
    destruct (Z.eqb_spec ret 0) as [-> | Hret].
    + apply pack_rect_failed in Epr as [-> ->].
      assert (Hu1 : unpacked (rects p1) = unpacked (rects p)).
      { rewrite Hrects1. eapply unpacked_insert_same; eauto. }
      assert (Hpr1 : pristine p -> pristine p1).
      { rewrite Ep1. intros H. exact H. }
      assert (Hm1 : skips_packed p1 = true) by (rewrite Ep1; exact Hmode).
      destruct (fail_policy (options p1)).
      * discriminate E.
      * eapply IH; [exact Hm1|exact E|lia| |rewrite Hu1; exact Hreq].
        destruct Hor as [H|H]; [left; lia|right; auto].
      * apply bind_inv in E as (f & Ef & E).
        apply bind_inv in E as (fw & Efw & E).
        apply bind_inv in E as (fh & Efh & E).
        destruct ((fw =? _) && (fh =? _)) eqn:Ht; [discriminate E|].
        assert (Hlt : (unpacked (rects p1) < c0)%nat).
        { destruct Hor as [H|H]; [lia|]. apply Hpr1 in H.
          unfold pristine in H. rewrite Ef in H. cbn [bind] in H.
          rewrite Efw in H. cbn [bind] in H. rewrite Efh in H.
          cbn [bind] in H. rewrite Ht in H. discriminate H. }
        eapply IH; [exact Hm1|exact E|lia|left; exact Hlt|auto].
    + apply bind_inv in E as (rect1 & _ & E).
      set (rect2 := set_output_packed 1 _) in E.
      assert (Hlt : (unpacked (<[ptr := rect2]> (rects p1)) <
                     unpacked (rects p))%nat).
      { rewrite Hrects1, list_insert_insert_eq.
        eapply unpacked_insert_packed; eauto; simpl; lia. }
      eapply IH; [apply Hmode1|exact E|simpl; lia|left; simpl; lia|
                  intros _; simpl; lia].
Qed.

(** A pass that does not return leaves the options and the results alone. *)
Lemma pack_for_frame count :
  forall i p locals p' locals',
    pack_for count i p locals = Ok (p', locals', None) ->
    options p' = options p /\ result p' = result p.
Proof.
  induction count as [|count IH]; intros i p locals p' locals' E.
  - simpl in E. injection E as <- <-. auto.
  - cbn [pack_for] in E.
    apply bind_inv in E as (ptr & _ & E).
    apply bind_inv in E as (rect & _ & E).
    destruct (negb _ && _); [eapply IH; eauto|].
    apply bind_inv in E as ([p1 ret] & E3 & E). cbn [fst snd] in E.
    apply pack_rect_in_frame in E3 as [(F1 & F2 & _) _].
    change (options (store_rect p ptr (set_output_packed 0 rect)))
      with (options p) in F1.
    change (result (store_rect p ptr (set_output_packed 0 rect)))
      with (result p) in F2.
    destruct (ret =? 0).
    + destruct (fail_policy (options p1)).
      * discriminate E.
      * apply IH in E as [G1 G2]. split; congruence.
      * apply bind_inv in E as (f & _ & E).
        apply bind_inv in E as (fw & _ & E).
        apply bind_inv in E as (fh & _ & E).
        destruct (_ && _); [discriminate E|].
        apply IH in E as [G1 G2]. split; congruence.
    + apply bind_inv in E as (rect1 & _ & E).
      apply IH in E as [G1 G2]. simpl in G1, G2. split; congruence.
Qed.

Lemma pending_nonneg p : packer_static p -> 0 <= pending p.
Proof.
  intros (Hn & _). unfold pending. destruct (skips_packed p); lia.
Qed.

Lemma skips_packed_cases p :
  skips_packed p = false ->
  always_repack (options p) = 1 /\ images_needed (result p) = 0.
Proof.
  unfold skips_packed. intros H. apply orb_false_elim in H as [H1 H2].
  apply negb_false_iff in H1, H2. apply Z.eqb_eq in H1, H2. auto.
Qed.

Lemma skips_packed_counted p :
  images_needed (result p) <> 0 -> skips_packed p = true.
Proof.
  intros H. unfold skips_packed. apply Z.eqb_neq in H. rewrite H.
  apply orb_true_r.
Qed.

Lemma skips_packed_never p :
  always_repack (options p) <> 1 -> skips_packed p = true.
Proof. intros H. unfold skips_packed. apply Z.eqb_neq in H. rewrite H. auto. Qed.

Section Passes.

Variable needed_size : Z -> Z -> Z -> Z * Z.

(** The [do] loop of [japacker_pack] and what follows it.  The steps left
    exceed the rects that the passes to come can place; when every rect is
    repacked the counter of images tells the passes made. *)
Lemma pack_do_while_safe fuel :
  forall p packed,
    packer_static p ->
    pending p < Z.of_nat fuel ->
    (always_repack (options p) = 1 ->
     0 <= images_needed (result p) /\
     images_needed (result p) + Z.of_nat fuel <=
     num_rects (internal_data p) + 2) ->
    safe (pack_do_while needed_size fuel p packed)
      (fun r => driver_inv (num_rects (internal_data p)) (fst r) /\
                num_rects (internal_data (fst r)) =
                num_rects (internal_data p)).
Proof.
  induction fuel as [|fuel IH]; intros p packed Hs Hpend Hrep.
  { pose proof (pending_nonneg p Hs). lia. }
  cbn [pack_do_while].
  destruct (static_image_range p Hs) as [HW HH].
  destruct (reset_in_spec p _ _ Hs HW HH) as (p1 & E1 & Hinv1 & Hf1 & Hr1 & _).
  rewrite E1. cbn [bind].
  pose proof (reset_in_pristine p p1 Hs E1) as Hpr1.
  pose proof (static_same_frame_num _ _ Hf1) as Hn1.
  pose proof Hf1 as (F1 & F2 & _).
  assert (Hsafe : safe (pack_for (Z.to_nat (num_rects (internal_data p))) 0 p1
                          (mk_locals 0 packed 0))
            (fun r => driver_inv (num_rects (internal_data p1)) (fst (fst r)) /\
                      num_rects (internal_data (fst (fst r))) =
                      num_rects (internal_data p1))).
  { apply (pack_for_safe _ 0 p1 _ Hinv1). simpl.
    rewrite Hn1. apply (static_num_rects p Hs). }
  destruct (pack_for _ 0 p1 _) as [[[p2 locals] returned]|f] eqn:E2;
    [|exact Hsafe].
  cbn [safe fst snd bind] in *. destruct Hsafe as [Hinv2 Hn2].
  rewrite Hn1 in Hinv2, Hn2.
  destruct returned as [v|]; [simpl; auto|].
  set (p3 := with_images_needed _ p2).
  assert (Hframe2 : options p2 = options p /\ result p2 = result p).
  { destruct (pack_for_frame _ _ _ _ _ _ E2) as [G1 G2]. split; congruence. }
  destruct Hframe2 as [G1 G2].
  pose proof Hs as (Hnum & _ & _ & Hbig & _).
  pose proof (unpacked_le (rects p2)) as Hule.
  assert (Hlen2 : Z.of_nat (length (rects p2)) = num_rects (internal_data p)).
  { destruct Hinv2 as [(Hnum2 & _) _]. lia. }
  destruct (negb (request_new_image locals =? 0)) eqn:Hreq.
  - apply negb_true_iff, Z.eqb_neq in Hreq.
    assert (Hcount : always_repack (options p) = 1 ->
              images_needed (result p3) = images_needed (result p) + 1).
    { intros H. destruct (Hrep H) as [R1 R2]. unfold p3. simpl. rewrite G2.
      apply u32_small. unfold UINT_RANGE. lia. }
    assert (Hm3 : skips_packed p3 = true).
    { destruct (Z.eq_dec (always_repack (options p)) 1) as [H|H].
      - apply skips_packed_counted. rewrite (Hcount H).
        destruct (Hrep H). lia.
      - apply skips_packed_never. unfold p3. simpl. congruence. }
    eapply safe_weaken; [apply (IH p3)|].
    + apply Hinv2.
    + unfold pending. rewrite Hm3. change (rects p3) with (rects p2).
      destruct (skips_packed p) eqn:Hm.
      * assert (Hm1 : skips_packed p1 = true).
        { unfold skips_packed in *. rewrite F1, F2. exact Hm. }
        destruct (pack_for_pending _ _ _ _ _ _ (unpacked (rects p)) Hm1 E2)
          as [_ Hlt]; [rewrite Hr1; lia|right; exact Hpr1|simpl; lia|].
        specialize (Hlt Hreq). unfold pending in Hpend. rewrite Hm in Hpend.
        lia.
      * unfold pending in Hpend. rewrite Hm in Hpend. lia.
    + intros H. unfold p3 in H. simpl in H. rewrite G1 in H.
      rewrite (Hcount H). destruct (Hrep H).
      change (num_rects (internal_data p3)) with (num_rects (internal_data p2)).
      lia.
    + intros r [R1 R2].
      change (num_rects (internal_data p3)) with (num_rects (internal_data p2))
        in R1, R2.
      rewrite Hn2 in R1, R2. auto.
  - set (p4 := with_last_image _ _ p3).
    change (reduce_image_size (options p4)) with (reduce_image_size (options p2)).
    destruct (reduce_image_size (options p2) =? 1).
    + cbn [bind]. eapply safe_bind.
      { apply (reduce_last_image_size_safe needed_size p4).
        change (num_rects (internal_data p4))
          with (num_rects (internal_data p2)).
        rewrite Hn2. exact Hinv2. }
      intros p5 [R1 R2]. simpl.
      change (num_rects (internal_data p4)) with (num_rects (internal_data p2))
        in R1, R2.
      rewrite Hn2 in R1, R2. auto.
    + simpl. auto.
Qed.

End Passes.

(** ** The capacity of the pool *)

Lemma perimeter_comparator_only :
  comparator_only japacker_empty_area_set_perimeter_comparator.
Proof. intros a. repeat split. Qed.
Lemma area_comparator_only :
  comparator_only japacker_empty_area_set_area_comparator.
Proof. intros a. repeat split. Qed.
Lemma height_comparator_only :
  comparator_only japacker_empty_area_set_height_comparator.
Proof. intros a. repeat split. Qed.
Lemma width_comparator_only :
  comparator_only japacker_empty_area_set_width_comparator.
Proof. intros a. repeat split. Qed.

Lemma insert_sorted_perm cmp x l : insert_sorted cmp x l ≡ₚ x :: l.
Proof.
  induction l as [|y l IH]; simpl; [reflexivity|].
  destruct (cmp x y <=? 0); [reflexivity|].
  rewrite IH. apply Permutation_swap.
Qed.

Lemma insertion_qsort_perm cmp l : insertion_qsort cmp l ≡ₚ l.
Proof.
  unfold insertion_qsort. induction l as [|x l IH]; simpl; [reflexivity|].
  rewrite insert_sorted_perm, IH. reflexivity.
Qed.

(** The setup that [japacker_pack] accepts. *)
Lemma validation_passed p :
  packer_ok p ->
  (num_rects (internal_data p) =? 0) || (image_width (internal_data p) =? 0) ||
  (image_height (internal_data p) =? 0) ||
  negb (u32 (ea_size (store_of p)) =? u32 (num_rects (internal_data p) + 1))
  = false ->
  ea_size (store_of p) = num_rects (internal_data p) + 1.
Proof.
  intros (H1 & H2 & H3 & H4 & _) E.
  apply orb_false_iff in E as [_ E]. apply negb_false_iff in E.
  apply Z.eqb_eq in E. unfold store_of in *.
  rewrite !u32_small in E by (unfold UINT_RANGE; lia). exact E.
Qed.

Section Capacity.

Variable qsort : (nat -> nat -> Z) -> list nat -> list nat.
Variable needed_size : Z -> Z -> Z -> Z * Z.
Hypothesis qsort_perm : forall cmp l, qsort cmp l ≡ₚ l.

Lemma sort_rects_static p :
  packer_ok p ->
  ea_size (store_of p) = num_rects (internal_data p) + 1 ->
  packer_static (japacker_sort_rects qsort p) /\
  rects (japacker_sort_rects qsort p) = rects p /\
  num_rects (internal_data (japacker_sort_rects qsort p)) =
  num_rects (internal_data p).
Proof.
  intros (H1 & H2 & H3 & H4 & H5 & H6 & H7 & H8 & H9 & H10) Hsz.
  unfold store_of in Hsz. unfold japacker_sort_rects.
  assert (Hseq : Z.to_nat (num_rects (internal_data p)) = length (rects p))
    by lia.
  destruct (rects_are_sorted (options p) =? 1).
  - split; [|split; reflexivity].
    unfold packer_static, with_sorted_rects. simpl.
    split; [exact H1|]. split; [exact H2|]. split; [exact Hsz|].
    split; [exact H4|]. split; [exact H5|]. split; [exact H6|].
    split; [exact H7|]. split; [|exact H9].
    eexists. split; [reflexivity|]. rewrite Hseq. reflexivity.
  - split; [|split; reflexivity].
    unfold packer_static, with_rects_are_sorted, with_sorted_rects,
      with_empty_areas. simpl.
    split; [exact H1|]. split; [exact H2|]. split; [exact Hsz|].
    split; [exact H4|]. split; [|split; [exact H6|split; [exact H7|
            split; [|exact H9]]]].
    + intros f [= <-].
      destruct (sort_by (options p)); simpl;
        [apply perimeter_comparator_only|apply area_comparator_only|
         apply height_comparator_only|apply width_comparator_only].
    + eexists. split; [reflexivity|]. rewrite Hseq. apply qsort_perm.
Qed.

Lemma pack_prepare_static p :
  packer_ok p ->
  ea_size (store_of p) = num_rects (internal_data p) + 1 ->
  packer_static (pack_prepare qsort p) /\
  rects (pack_prepare qsort p) = rects p /\
  num_rects (internal_data (pack_prepare qsort p)) =
  num_rects (internal_data p).
Proof.
  intros Hok Hsz. unfold pack_prepare.
  assert (Hsort :
    let p1 := if negb (rects_are_sorted (options p) =? 1) ||
                 match sorted_rects (internal_data p) with
                 | None => true
                 | Some _ => false
                 end
              then japacker_sort_rects qsort p else p in
    packer_static p1 /\ rects p1 = rects p /\
    num_rects (internal_data p1) = num_rects (internal_data p)).
  { destruct (negb _ || _) eqn:E; cbv zeta.
    - apply sort_rects_static; auto.
    - split; [|split; reflexivity].
      apply orb_false_iff in E as [_ E].
      destruct (sorted_rects (internal_data p)) as [ptrs|] eqn:Ep;
        [|discriminate].
      destruct Hok as (H1 & H2 & H3 & H4 & H5 & H6 & H7 & H8 & H9 & H10).
      unfold packer_static.
      split; [exact H1|]. split; [exact H2|]. split; [exact Hsz|].
      split; [exact H4|]. split; [exact H5|]. split; [exact H6|].
      split; [exact H7|]. split; [|exact H9].
      exists ptrs. split; [exact Ep|]. apply H8. exact Ep. }
  cbv zeta in Hsort. destruct (negb (always_repack _ =? 0)); exact Hsort.
Qed.

Lemma driver_inv_packer_ok p :
  driver_inv (num_rects (internal_data p)) p -> packer_ok p.
Proof.
  intros [(H1 & H2 & H3 & H4 & H5 & H6 & H7 & (ptrs & Ep & Hperm) & H9)
          (W & H & l & _ & _ & _ & Hi)].
  unfold packer_ok.
  split; [exact H1|]. split; [exact H2|]. split; [lia|]. split; [exact H4|].
  split; [exact H5|]. split; [exact H6|]. split; [exact H7|].
  split; [|split; [exact H9|exact Hi]].
  intros ptrs' E. rewrite Ep in E. injection E as <-. exact Hperm.
Qed.

Lemma sort_rects_options p :
  let p' := japacker_sort_rects qsort p in
  allow_rotation (options p') = allow_rotation (options p) /\
  always_repack (options p') = always_repack (options p) /\
  reduce_image_size (options p') = reduce_image_size (options p) /\
  fail_policy (options p') = fail_policy (options p) /\
  result p' = result p.
Proof.
  unfold japacker_sort_rects.
  destruct (rects_are_sorted (options p) =? 1); repeat split.
Qed.

Lemma pack_prepare_options p :
  let p' := pack_prepare qsort p in
  allow_rotation (options p') = allow_rotation (options p) /\
  always_repack (options p') = always_repack (options p) /\
  reduce_image_size (options p') = reduce_image_size (options p) /\
  fail_policy (options p') = fail_policy (options p) /\
  images_needed (result p') =
  (if negb (always_repack (options p) =? 0) then 0
   else images_needed (result p)).
Proof.
  unfold pack_prepare.
  destruct (sort_rects_options p) as (S1 & S2 & S3 & S4 & S5).
  destruct (negb (rects_are_sorted (options p) =? 1) || _); cbv zeta.
  - rewrite S2. destruct (negb (always_repack (options p) =? 0));
      simpl; rewrite ?S5; auto.
  - destruct (negb (always_repack (options p) =? 0)); simpl; auto.
Qed.

(** The steps that [japacker_pack] gives its loop. *)
Lemma pack_prepare_pending p :
  packer_ok p ->
  ea_size (store_of p) = num_rects (internal_data p) + 1 ->
  let p' := pack_prepare qsort p in
  let fuel := S (S (Z.to_nat (num_rects (internal_data p)))) in
  pending p' < Z.of_nat fuel /\
  (always_repack (options p') = 1 ->
   0 <= images_needed (result p') /\
   images_needed (result p') + Z.of_nat fuel <=
   num_rects (internal_data p') + 2).
Proof.
  intros Hok Hsz. cbv zeta.
  destruct (pack_prepare_static p Hok Hsz) as (Hs & Hr & Hn).
  destruct (pack_prepare_options p) as (_ & Hrep & _ & _ & Himg).
  cbv zeta in Hrep, Himg.
  pose proof Hok as (Hnum & _).
  pose proof (unpacked_le (rects (pack_prepare qsort p))) as Hle.
  rewrite Hr in Hle. split.
  - unfold pending. rewrite Hn, Hr. destruct (skips_packed _); lia.
  - intros H. rewrite Hrep in H. rewrite H in Himg. simpl in Himg.
    rewrite Himg, Hn. lia.
Qed.

(** C3.  Whatever the inputs and the options, [japacker_pack] never takes a
    slot of the empty-area array (or any other array element) outside the
    allocated [num_rects + 1]: the call either returns, with the high-water
    mark [index] at most [num_rects] and the packer ready for a next call,
    or stops at a null pointer or at a division by zero, before any access
    outside an array.  The shrink-to-fit passes are part of the call, and
    no loop makes more steps than the model gives it. *)
Theorem C3_capacity_bound p :
  packer_ok p ->
  safe (japacker_pack qsort needed_size p)
    (fun r =>
       ea_index (store_of (fst r)) <= num_rects (internal_data (fst r)) /\
       Z.of_nat (length (ea_list (store_of (fst r)))) =
       Z.of_nat (length (ea_list (store_of p))) /\
       packer_ok (fst r)).
Proof.
  intros Hok. unfold japacker_pack.
  destruct (_ || _) eqn:E.
  - simpl. split; [apply Hok|]. split; [reflexivity|exact Hok].
  - pose proof (validation_passed p Hok E) as Hsz.
    destruct (pack_prepare_static p Hok Hsz) as (Hs & Hr & Hn).
    destruct (pack_prepare_pending p Hok Hsz) as [Hpend Hrep].
    eapply safe_weaken;
      [apply (pack_do_while_safe needed_size _ _ _ Hs Hpend Hrep)|].
    intros r [R1 R2]. rewrite <- R2 in R1.
    pose proof (driver_inv_packer_ok _ R1) as Hok'.
    split; [apply Hok'|]. split; [|exact Hok'].
    pose proof (static_capacity _ (proj1 R1)) as C1.
    destruct Hok as (_ & Hz & _). unfold store_of in *. lia.
Qed.

End Capacity.

(** ** The driver: what a pass does to the rects *)

(** The loop over [a + b] rects is the loop over the first [a] followed,
    unless it returned, by the loop over the next [b]. *)
Lemma pack_for_app a : forall b i p locals,
  pack_for (a + b) i p locals =
  (r <- pack_for a i p locals ;;
   match snd r with
   | Some v => Ok r
   | None => pack_for b (i + a) (fst (fst r)) (snd (fst r))
   end).
Proof.
  induction a as [|a IH]; intros b i p locals.
  - simpl. rewrite Nat.add_0_r. reflexivity.
  - cbn [Nat.add pack_for].
    destruct (sorted_rect p i) as [ptr|]; [|reflexivity]. cbn [bind].
    destruct (load_rect p ptr) as [rect|]; [|reflexivity]. cbn [bind].
    replace (i + S a)%nat with (S i + a)%nat by lia.
    destruct (negb _ && _); [apply IH|].
    destruct (pack_rect_in _ ptr _) as [[p1 ret]|]; [|reflexivity].
    cbn [bind fst snd].
    destruct (ret =? 0).
    + destruct (fail_policy (options p1)); [reflexivity|apply IH|].
      destruct (deref _) as [f|]; [|reflexivity]. cbn [bind].
      destruct (rd _ f area_width) as [fw|]; [|reflexivity]. cbn [bind].
      destruct (rd _ f area_height) as [fh|]; [|reflexivity]. cbn [bind].
      destruct (_ && _); [reflexivity|apply IH].
    + destruct (load_rect p1 ptr) as [rect1|]; [|reflexivity]. cbn [bind].
      apply IH.
Qed.

(** Under [JAPACKER_STOP], a loop that has not returned has packed or found
    packed every rect it went through, and has touched no other rect and no
    counter. *)
Lemma pack_for_stop_prefix ptrs count :
  forall i p locals p' locals',
    fail_policy (options p) = JAPACKER_STOP ->
    sorted_rects (internal_data p) = Some ptrs ->
    NoDup ptrs ->
    pack_for count i p locals = Ok (p', locals', None) ->
    options p' = options p /\ result p' = result p /\
    sorted_rects (internal_data p') = Some ptrs /\
    (forall j ptr', (i <= j < i + count)%nat -> ptrs !! j = Some ptr' ->
       exists r, rects p' !! ptr' = Some r /\ output_packed r <> 0) /\
    (forall ptr', (forall j, (i <= j < i + count)%nat ->
                     ptrs !! j <> Some ptr') ->
       rects p' !! ptr' = rects p !! ptr').
Proof.
  induction count as [|count IH]; intros i p locals p' locals' Hpol Hs Hnd E.
  - simpl in E. injection E as <- <-.
    repeat split; auto. intros j ptr' Hj. lia.
  - cbn [pack_for] in E.
    apply bind_inv in E as (ptr & E1 & E).
    apply bind_inv in E as (rect & E2 & E).
    apply sorted_rect_inv in E1 as (ptrs0 & Es & Hptr).
    rewrite Hs in Es. injection Es as <-.
    apply load_rect_inv in E2.
    assert (Hother : forall j, (S i <= j < S i + count)%nat ->
                       ptrs !! j <> Some ptr).
    { intros j Hj Hp. pose proof (NoDup_lookup _ _ _ _ Hnd Hptr Hp). lia. }
    assert (Hcombine : forall p1,
      options p1 = options p -> result p1 = result p ->
      sorted_rects (internal_data p1) = Some ptrs ->
      (exists r, rects p1 !! ptr = Some r /\ output_packed r <> 0) ->
      (forall ptr', ptr' <> ptr -> rects p1 !! ptr' = rects p !! ptr') ->
      forall locals1,
      pack_for count (S i) p1 locals1 = Ok (p', locals', None) ->
      options p' = options p /\ result p' = result p /\
      sorted_rects (internal_data p') = Some ptrs /\
      (forall j ptr', (i <= j < i + S count)%nat -> ptrs !! j = Some ptr' ->
         exists r, rects p' !! ptr' = Some r /\ output_packed r <> 0) /\
      (forall ptr', (forall j, (i <= j < i + S count)%nat ->
                       ptrs !! j <> Some ptr') ->
         rects p' !! ptr' = rects p !! ptr')).
    { intros p1 O1 R1 S1 Hp1 Hrest locals1 E'.
      destruct (IH (S i) p1 locals1 p' locals') as (A1 & A2 & A3 & A4 & A5);
        auto; [congruence|].
      split; [congruence|]. split; [congruence|]. split; [exact A3|].
      split.
      - intros j ptr' Hj Hp.
        destruct (decide (j = i)) as [->|Hne].
        + rewrite Hptr in Hp. injection Hp as <-.
          rewrite (A5 ptr Hother). exact Hp1.
        + apply (A4 j ptr'); [lia|exact Hp].
      - intros ptr' Hno. rewrite A5.
        + apply Hrest. intros ->. apply (Hno i); [lia|exact Hptr].
        + intros j Hj. apply Hno. lia. }
    destruct (negb (output_packed rect =? 0) && _) eqn:Eskip.
    { apply (Hcombine p) in E; auto.
      apply andb_true_iff in Eskip as [Ep _].
      apply negb_true_iff, Z.eqb_neq in Ep. eauto. }
    apply bind_inv in E as ([p1 ret] & E3 & E). cbn [fst snd] in E.
    apply pack_rect_in_frame in E3 as [(F1 & F2 & F3 & F4 & F5 & F6 & F7)
                                       (rect' & Er)].
    change (options (store_rect p ptr (set_output_packed 0 rect)))
      with (options p) in F1.
    change (result (store_rect p ptr (set_output_packed 0 rect)))
      with (result p) in F2.
    change (sorted_rects
              (internal_data (store_rect p ptr (set_output_packed 0 rect))))
      with (sorted_rects (internal_data p)) in F3.
    change (rects (store_rect p ptr (set_output_packed 0 rect)))
      with (<[ptr := set_output_packed 0 rect]> (rects p)) in Er.
    destruct (ret =? 0).
    { rewrite F1, Hpol in E. discriminate. }
    apply bind_inv in E as (rect1 & E4 & E).
    apply load_rect_inv in E4.
    eapply Hcombine; [| | | | |exact E].
    + exact F1.
    + exact F2.
    + simpl. congruence.
    + simpl. eexists. split.
      * apply list_lookup_insert_eq. eapply lookup_lt_Some; eauto.
      * simpl. lia.
    + intros ptr' Hne. simpl.
      rewrite list_lookup_insert_ne by congruence.
      rewrite Er. rewrite !list_lookup_insert_ne by congruence. reflexivity.
Qed.

Lemma reset_in_frame p W H p' :
  reset_in p W H = Ok p' -> same_frame p p' /\ rects p' = rects p.
Proof.
  unfold reset_in. intros E. apply bind_inv in E as (d & _ & E).
  injection E as <-. split; [|reflexivity]. repeat split.
Qed.

Lemma s32_small z : 0 <= z < 2147483648 -> s32 z = z.
Proof.
  intros H. unfold s32. rewrite u32_small by (unfold UINT_RANGE; lia).
  destruct (Z.ltb_spec z 2147483648); [reflexivity|lia].
Qed.

Section Policy.

Variable qsort : (nat -> nat -> Z) -> list nat -> list nat.
Variable needed_size : Z -> Z -> Z -> Z * Z.
Hypothesis qsort_perm : forall cmp l, qsort cmp l ≡ₚ l.

(** C6, amended.  Under [JAPACKER_STOP] with [always_repack] off, let the
    loop of [japacker_pack] have gone through the rects before position [i]
    of the sorted order without returning, and let [japacker_pack_rect] fail
    on the rect at position [i], which is not packed.  Then [japacker_pack]
    returns [i] at once; the rects before position [i] are all packed, by
    this call or by an earlier one, so [i] counts the rects packed before
    the failing one; [images_needed] is what it was before the call, the
    image in progress is not counted; the failing rect is left unpacked,
    and every rect after it is left as it was before the call: unpacked if
    it was unpacked, packed where an earlier call has packed it. *)
Theorem C6_stop_policy p p0 (i : nat) p1 locals1 ptr rect p2 :
  packer_ok p ->
  (num_rects (internal_data p) =? 0) || (image_width (internal_data p) =? 0) ||
  (image_height (internal_data p) =? 0) ||
  negb (u32 (ea_size (store_of p)) =? u32 (num_rects (internal_data p) + 1))
  = false ->
  fail_policy (options p) = JAPACKER_STOP ->
  always_repack (options p) = 0 ->
  reset_in (pack_prepare qsort p)
    (image_width (internal_data (pack_prepare qsort p)))
    (image_height (internal_data (pack_prepare qsort p))) = Ok p0 ->
  (i < length (rects p))%nat ->
  pack_for i 0 p0 (mk_locals 0 0 0) = Ok (p1, locals1, None) ->
  sorted_rect p1 i = Ok ptr ->
  load_rect p1 ptr = Ok rect ->
  output_packed rect = 0 ->
  pack_rect_in (store_rect p1 ptr (set_output_packed 0 rect)) ptr
    (set_output_packed 0 rect) = Ok (p2, 0) ->
  japacker_pack qsort needed_size p = Ok (p2, Z.of_nat i) /\
  images_needed (result p2) = images_needed (result p) /\
  (forall (j : nat) ptr', (j < i)%nat -> sorted_rect p2 j = Ok ptr' ->
     exists r, rects p2 !! ptr' = Some r /\ output_packed r <> 0) /\
  (exists r, rects p2 !! ptr = Some r /\ output_packed r = 0) /\
  (forall (j : nat) ptr', (i < j)%nat -> sorted_rect p2 j = Ok ptr' ->
     rects p2 !! ptr' = rects p !! ptr' /\
     forall r, rects p !! ptr' = Some r ->
       (output_packed r = 0 -> exists r', rects p2 !! ptr' = Some r' /\
                                          output_packed r' = 0) /\
       (output_packed r <> 0 -> exists r', rects p2 !! ptr' = Some r' /\
                                           output_packed r' <> 0)).
Proof.
  intros Hok Hvalid Hpol Hrep Hreset Hi Hprefix Hsorted Hload Hunp Hpack.
  assert (Hskip :
    negb (output_packed rect =? 0) &&
    (negb (always_repack (options p1) =? 1) ||
     negb (images_needed (result p1) =? 0)) = false)
    by (rewrite Hunp; reflexivity).
  pose proof (validation_passed p Hok Hvalid) as Hsz.
  destruct (pack_prepare_static qsort qsort_perm p Hok Hsz) as (Hs & Hr & Hn).
  destruct (pack_prepare_options qsort p) as (_ & _ & _ & Hpol' & Him).
  cbv zeta in Hpol', Him. rewrite Hpol in Hpol'.
  rewrite Hrep in Him. change (negb (0 =? 0)) with false in Him.
  cbv iota in Him.
  pose proof Hs as (_ & _ & _ & _ & _ & _ & _ & (ptrs & Eptrs & Hperm) & _).
  assert (Hnd : NoDup ptrs).
  { rewrite Hperm. apply NoDup_seq. }
  destruct (reset_in_frame _ _ _ _ Hreset) as [(G1 & G2 & G3 & G4 & G5 & G6 & G7)
                                               Grects].
  destruct (pack_for_stop_prefix ptrs i 0 p0 _ p1 locals1
              ltac:(congruence) ltac:(congruence) Hnd Hprefix)
    as (A1 & A2 & A3 & A4 & A5).
  pose proof (pack_rect_in_frame _ _ _ _ _ Hpack)
    as [(F1 & F2 & F3 & F4 & F5 & F6 & F7) (rect' & Er)].
  change (options (store_rect p1 ptr (set_output_packed 0 rect)))
    with (options p1) in F1.
  change (result (store_rect p1 ptr (set_output_packed 0 rect)))
    with (result p1) in F2.
  change (sorted_rects
            (internal_data (store_rect p1 ptr (set_output_packed 0 rect))))
    with (sorted_rects (internal_data p1)) in F3.
  change (rects (store_rect p1 ptr (set_output_packed 0 rect)))
    with (<[ptr := set_output_packed 0 rect]> (rects p1)) in Er.
  pose proof (pack_rect_in_inv _ _ _ _ _ Hpack) as (d' & rect'' & Epr & Ep2).
  apply pack_rect_failed in Epr as [_ Erect].
  assert (Hrect' : rect' = set_output_rotated 0 (set_output_packed 0 rect)).
  { rewrite Ep2 in Er. simpl in Er.
    apply load_rect_inv in Hload. apply lookup_lt_Some in Hload.
    assert (X : (<[ptr := rect'']> (<[ptr := set_output_packed 0 rect]>
                   (rects p1))) !! ptr =
                (<[ptr := rect']> (<[ptr := set_output_packed 0 rect]>
                   (rects p1))) !! ptr) by (rewrite Er; reflexivity).
    rewrite !list_lookup_insert_eq in X by (rewrite ?length_insert; lia).
    congruence. }
  apply sorted_rect_inv in Hsorted as (ptrs1 & Es1 & Hptr).
  rewrite A3 in Es1. injection Es1 as <-.
  assert (Hsorted2 : sorted_rects (internal_data p2) = Some ptrs)
    by congruence.
  pose proof (load_rect_inv _ _ _ Hload) as Hload'.
  split; [|split; [|split; [|split]]].
  - unfold japacker_pack. fold (store_of p). rewrite Hvalid.
    cbn [pack_do_while]. rewrite Hreset. cbn [bind].
    assert (HN : Z.to_nat (num_rects (internal_data (pack_prepare qsort p))) =
                 (i + S (length (rects p) - i - 1))%nat).
    { rewrite Hn. destruct Hok as (-> & _). lia. }
    replace (Z.to_nat (num_rects (internal_data p)))
      with (length (rects p)) by (destruct Hok as (-> & _); lia).
    rewrite HN, pack_for_app, Hprefix. cbn [bind fst snd pack_for].
    replace (0 + i)%nat with i by lia.
    unfold sorted_rect at 1. rewrite A3, Hptr. cbn [bind].
    rewrite Hload. cbn [bind]. rewrite Hskip. rewrite Hpack.
    cbn [bind fst snd]. rewrite Z.eqb_refl.
    rewrite F1, A1, G1, Hpol'.
    rewrite s32_small; [reflexivity|].
    destruct Hok as (Hnum & _ & _ & Hb & _). lia.
  - rewrite F2, A2, G2. exact Him.
  - intros j ptr' Hj Hsj.
    apply sorted_rect_inv in Hsj as (ptrs2 & Es2 & Hpj).
    rewrite Hsorted2 in Es2. injection Es2 as <-.
    destruct (A4 j ptr') as (r & Hr1 & Hr2); [lia|exact Hpj|].
    exists r. split; [|exact Hr2].
    assert (ptr' <> ptr).
    { intros ->. pose proof (NoDup_lookup _ _ _ _ Hnd Hptr Hpj). lia. }
    rewrite Er. rewrite !list_lookup_insert_ne by congruence. exact Hr1.
  - exists rect'. split.
    + rewrite Er. apply list_lookup_insert_eq. rewrite length_insert.
      eapply lookup_lt_Some; eauto.
    + rewrite Hrect'. reflexivity.
  - intros j ptr' Hj Hsj.
    apply sorted_rect_inv in Hsj as (ptrs2 & Es2 & Hpj).
    rewrite Hsorted2 in Es2. injection Es2 as <-.
    assert (ptr' <> ptr).
    { intros ->. pose proof (NoDup_lookup _ _ _ _ Hnd Hptr Hpj). lia. }
    assert (Esame : rects p2 !! ptr' = rects p !! ptr').
    { rewrite Er. rewrite !list_lookup_insert_ne by congruence.
      rewrite A5.
      + rewrite Grects, Hr. reflexivity.
      + intros j' Hj' Hp'.
        pose proof (NoDup_lookup _ _ _ _ Hnd Hpj Hp'). lia. }
    split; [exact Esame|]. intros r Hr0. rewrite <- Esame in Hr0.
    split; intros Hp; exists r; auto.
Qed.

(** Every rect is skipped. *)
Lemma pack_for_all_skipped count :
  forall i p locals,
    packer_static p ->
    (i + count <= length (rects p))%nat ->
    always_repack (options p) = 0 ->
    Forall (fun r => output_packed r <> 0) (rects p) ->
    pack_for count i p locals = Ok (p, locals, None).
Proof.
  induction count as [|count IH]; intros i p locals Hs Hn Hrep Hall;
    [reflexivity|].
  cbn [pack_for].
  destruct (static_sorted_rect p i Hs) as (ptr & E1 & Hptr); [lia|].
  rewrite E1. cbn [bind].
  destruct (static_load_rect p ptr Hs Hptr) as (rect & E2 & Hl & _).
  rewrite E2. cbn [bind].
  pose proof (Forall_lookup_1 _ _ _ _ Hall Hl) as Hp. simpl in Hp.
  apply Z.eqb_neq in Hp. rewrite Hp, Hrep. simpl.
  apply IH; auto. lia.
Qed.

(** C5, amended.  When every rect is packed already and [always_repack] and
    [reduce_image_size] are off, a call of [japacker_pack] on an accepted
    setup packs nothing: it returns 0, the number of rects that this call has
    packed, and every member of every rect is as before. *)
Theorem C5_second_pack p :
  packer_ok p ->
  (num_rects (internal_data p) =? 0) || (image_width (internal_data p) =? 0) ||
  (image_height (internal_data p) =? 0) ||
  negb (u32 (ea_size (store_of p)) =? u32 (num_rects (internal_data p) + 1))
  = false ->
  always_repack (options p) = 0 ->
  reduce_image_size (options p) <> 1 ->
  Forall (fun r => output_packed r <> 0) (rects p) ->
  exists p',
    japacker_pack qsort needed_size p = Ok (p', 0) /\ rects p' = rects p.
Proof.
  intros Hok Hvalid Hrep Hred Hall.
  pose proof (validation_passed p Hok Hvalid) as Hsz.
  destruct (pack_prepare_static qsort qsort_perm p Hok Hsz) as (Hs & Hr & Hn).
  destruct (pack_prepare_options qsort p) as (_ & Hrep' & Hred' & _ & _).
  cbv zeta in Hrep', Hred'.
  unfold japacker_pack. fold (store_of p). rewrite Hvalid.
  cbn [pack_do_while].
  destruct (static_image_range _ Hs) as [HW HH].
  destruct (reset_in_spec _ _ _ Hs HW HH) as (p1 & E1 & Hinv1 & Hf1 & Hr1 & _).
  rewrite E1. cbn [bind].
  destruct Hf1 as (G1 & G2 & G3 & G4 & G5 & G6 & G7).
  rewrite (pack_for_all_skipped _ 0 p1).
  - cbn [bind]. cbv beta iota zeta.
    cbn [request_new_image packed_rects Z.eqb negb].
    change (reduce_image_size (options (with_last_image ?w ?h
              (with_images_needed ?n p1))))
      with (reduce_image_size (options p1)).
    rewrite G1, Hred'. apply Z.eqb_neq in Hred. rewrite Hred. cbn [bind].
    eexists. split; [reflexivity|]. simpl. congruence.
  - apply Hinv1.
  - simpl. rewrite G7, Hr. destruct Hok as (Hnum & _). lia.
  - rewrite G1. congruence.
  - rewrite Hr1, Hr. exact Hall.
Qed.

End Policy.

(** ** Shrink-to-fit: the size that is recorded *)

Lemma same_job_refl p : same_job p p.
Proof. repeat split. Qed.

Lemma same_job_trans p1 p2 p3 :
  same_job p1 p2 -> same_job p2 p3 -> same_job p1 p3.
Proof.
  intros (A1 & A2 & A3 & A4 & A5 & A6 & A7 & A8 & A9 & A10)
         (B1 & B2 & B3 & B4 & B5 & B6 & B7 & B8 & B9 & B10).
  repeat split; congruence.
Qed.

(** Two packers of the driver with the same frame have arrays of empty
    areas of the same size. *)
Lemma same_job_frame p p' :
  packer_static p -> packer_static p' ->
  same_frame p p' -> rect_job <$> rects p' = rect_job <$> rects p ->
  ea_set_comparator (store_of p') = ea_set_comparator (store_of p) ->
  same_job p p'.
Proof.
  intros (_ & S2 & S3 & _) (_ & T2 & T3 & _) (F1 & F2 & F3 & F4 & F5 & F6 & _)
         Hr Hc.
  cbv zeta in S2, S3, T2, T3. fold (store_of p) in S2, S3.
  fold (store_of p') in T2, T3.
  assert (Hsz : ea_size (store_of p') = ea_size (store_of p)) by lia.
  split; [exact F1|]. split; [exact F3|]. split; [exact F4|].
  split; [exact Hr|]. split; [exact F5|]. split; [exact F6|].
  split; [rewrite F2; reflexivity|]. split; [lia|]. split; [exact Hsz|].
  exact Hc.
Qed.

Lemma rect_job_insert (rs : list japacker_rect) ptr rect rect' :
  rs !! ptr = Some rect -> rect_job rect' = rect_job rect ->
  rect_job <$> <[ptr := rect']> rs = rect_job <$> rs.
Proof.
  intros Hl Hj. rewrite list_fmap_insert. apply list_insert_id.
  rewrite list_lookup_fmap, Hl. simpl. congruence.
Qed.

Lemma u32_add_l a b : u32 (u32 a + b) = u32 (a + b).
Proof. unfold u32. apply Zplus_mod_idemp_l. Qed.

Lemma u32_sub_ne w gap :
  0 <= w < UINT_RANGE -> 1 <= gap < UINT_RANGE -> u32 (w - gap) <> w.
Proof.
  intros Hw Hg. unfold u32, UINT_RANGE in *.
  destruct (Z_le_gt_dec gap w).
  - rewrite Z.mod_small by lia. lia.
  - rewrite <- (Z.mod_add _ 1) by lia. rewrite Z.mod_small by lia. lia.
Qed.

(** With a comparator function and a free slot, [japacker_pack_rect]
    returns. *)
Lemma pack_rect_in_total k p ptr rect :
  driver_inv k p -> k < num_rects (internal_data p) ->
  rects p !! ptr = Some rect ->
  ea_set_comparator (store_of p) <> None ->
  exists p' ret,
    pack_rect_in p ptr rect = Ok (p', ret) /\
    driver_inv (k + 1) p' /\ same_frame p p' /\
    ea_set_comparator (store_of p') = ea_set_comparator (store_of p) /\
    (ret = 0 \/ ret = 1) /\
    rect_job <$> rects p' = rect_job <$> rects p.
Proof.
  intros Hinv Hk Hl Hc.
  pose proof Hinv as [Hs (W & H & l & HW & HH & Hok & Hi)].
  assert (Hin : 0 <= input_width rect /\ 0 <= input_height rect).
  { destruct Hs as (_ & _ & _ & _ & _ & _ & _ & _ & Hall).
    apply (Forall_lookup_1 _ _ _ _ Hall Hl). }
  destruct Hin as [Hw Hh].
  pose proof (pack_rect_in_safe k p ptr rect Hinv Hk Hw Hh) as Hsafe.
  pose proof (static_capacity p Hs) as Hcap.
  unfold pack_rect_in in *. fold (store_of p) in *.
  destruct (pack_rect_spec W H (store_of p) l rect (allow_rotation (options p))
              HW HH Hok Hw Hh) as [(r & Er & P)|[[_ N]|[_ N]]];
    [|contradiction|lia].
  rewrite Er in *. cbn [bind safe] in *.
  destruct r as [[d' rect'] ret]. cbn [fst snd] in *.
  destruct Hsafe as (S1 & S2 & S3 & _).
  destruct P as (P1 & P2 & P3 & P). cbn [fst snd] in P1, P2, P3, P.
  eexists _, _. split; [reflexivity|].
  split; [exact S1|]. split; [exact S2|]. split; [|split; [exact S3|]].
  - unfold store_rect, store_of. simpl.
    destruct P as [(_ & -> & _)|(_ & _ & _ & l' & _ & _ & _ & _ & C' & _)];
      [reflexivity|exact C'].
  - unfold store_rect. simpl. eapply rect_job_insert; [exact Hl|].
    unfold rect_job. congruence.
Qed.

(** The first [for] loop of a pass. *)
Lemma reduce_for_total count :
  forall i p image_index,
    driver_inv (Z.of_nat i) p ->
    Z.of_nat (i + count) = num_rects (internal_data p) ->
    ea_set_comparator (store_of p) <> None ->
    exists p' failed,
      reduce_for count i p image_index = Ok (p', failed) /\
      driver_inv (num_rects (internal_data p)) p' /\ same_frame p p' /\
      ea_set_comparator (store_of p') = ea_set_comparator (store_of p) /\
      rect_job <$> rects p' = rect_job <$> rects p.
Proof.
  induction count as [|count IH]; intros i p image_index Hinv Hn Hc.
  - simpl. eexists _, _. split; [reflexivity|].
    split; [eapply driver_inv_mono; [|exact Hinv]; lia|].
    split; [apply same_frame_refl|auto].
  - cbn [reduce_for]. pose proof Hinv as [Hs _].
    pose proof Hs as (Hnum & _).
    destruct (static_sorted_rect p i Hs) as (ptr & E1 & Hptr); [lia|].
    rewrite E1. cbn [bind].
    destruct (static_load_rect p ptr Hs Hptr) as (rect & E2 & Hl & _).
    rewrite E2. cbn [bind].
    destruct (negb _).
    { apply IH; auto; [|lia]. eapply driver_inv_mono; [|exact Hinv]. lia. }
    destruct (pack_rect_in_total (Z.of_nat i) p ptr rect Hinv)
      as (p1 & ret & E3 & Hinv1 & Hframe & Hc1 & Hret & Hj1); auto; [lia|].
    rewrite E3. cbn [bind fst snd].
    pose proof Hframe as (F1 & F2 & F3 & F4 & F5 & F6 & F7).
    destruct Hret as [-> | ->]; simpl (_ =? 0); cbv iota.
    + eexists _, _. split; [reflexivity|].
      split; [eapply driver_inv_mono; [|exact Hinv1]; lia|].
      split; [exact Hframe|]. split; [exact Hc1|exact Hj1].
    + destruct (IH (S i) p1 image_index)
        as (p' & failed & E & R1 & R2 & R3 & R4).
      * replace (Z.of_nat (S i)) with (Z.of_nat i + 1) by lia. exact Hinv1.
      * rewrite F4. lia.
      * congruence.
      * exists p', failed. split; [exact E|]. rewrite F4 in R1.
        split; [exact R1|]. split; [eapply same_frame_trans; eauto|].
        split; congruence.
Qed.

(** The rects that a pass of shrink-to-fit has placed lie in the image of
    the pass and do not overlap; a pass that has met no failure has placed
    every rect of its image that it has met. *)
Lemma reduce_for_packed W H idx ptrs count :
  0 <= W < UINT_RANGE -> 0 <= H < UINT_RANGE -> NoDup ptrs ->
  forall i p p' done,
    reduce_for count i p idx = Ok (p', 0) ->
    sorted_rects (internal_data p) = Some ptrs ->
    nonneg_inputs (rects p) ->
    reduce_inv W H (rects p) (store_of p) done ->
    (forall ptr, ptr ∈ done ->
       exists j, (j < i)%nat /\ ptrs !! j = Some ptr) ->
    (forall (j : nat) ptr r, (j < i)%nat -> ptrs !! j = Some ptr ->
       rects p !! ptr = Some r -> u32 (output_image_index r) = idx ->
       ptr ∈ done) ->
    exists done',
      reduce_inv W H (rects p') (store_of p') done' /\
      length (rects p') = length (rects p) /\
      (forall (j : nat) ptr r, (j < i + count)%nat -> ptrs !! j = Some ptr ->
         rects p' !! ptr = Some r -> u32 (output_image_index r) = idx ->
         ptr ∈ done').
Proof.
  intros HW HH Hnd.
  induction count as [|count IH]; intros i p p' done E Hs Hnn Hinv Hdone Hmet.
  { simpl in E. injection E as <-. exists done. split; [exact Hinv|].
    split; [reflexivity|]. rewrite Nat.add_0_r. exact Hmet. }
  replace (i + S count)%nat with (S i + count)%nat by lia.
  cbn [reduce_for] in E.
  apply bind_inv in E as (ptr & E1 & E).
  apply sorted_rect_inv in E1 as (ptrs' & Hs' & Hptr).
  rewrite Hs in Hs'. injection Hs' as <-.
  apply bind_inv in E as (rect & E2 & E). apply load_rect_inv in E2.
  assert (Hnew : ptr ∉ done).
  { intros Hin. destruct (Hdone ptr Hin) as (j & Hj & Hpj).
    pose proof (NoDup_lookup _ _ _ _ Hnd Hpj Hptr). lia. }
  assert (Hnext : forall q, q ∈ done ->
            exists j, (j < S i)%nat /\ ptrs !! j = Some q).
  { intros q Hq. destruct (Hdone q Hq) as (j & Hj & Hpj).
    exists j. split; [lia|exact Hpj]. }
  destruct (negb _) eqn:T.
  { apply (IH _ _ _ done E Hs Hnn Hinv Hnext).
    intros j q r Hj Hq Hr Hidx.
    destruct (decide (j = i)) as [->|Hne]; [|apply (Hmet j q r); auto; lia].
    exfalso. rewrite Hptr in Hq. injection Hq as <-.
    rewrite E2 in Hr. injection Hr as <-.
    apply negb_true_iff, Z.eqb_neq in T. contradiction. }
  clear T.
  assert (Hlt : (ptr < length (rects p))%nat)
    by (eapply lookup_lt_Some; eauto).
  assert (Hrect : 0 <= input_width rect /\ 0 <= input_height rect)
    by (apply (Forall_lookup_1 _ _ _ _ Hnn E2)).
  apply bind_inv in E as ([p1 ret] & E3 & E). cbn [fst snd] in E.
  destruct (ret =? 0) eqn:Hret; [discriminate E|].
  apply Z.eqb_neq in Hret.
  apply pack_rect_in_inv in E3 as (d' & rect' & E3 & ->).
  fold (store_of p) in E3.
  destruct Hinv as (Hf & Hnd' & Hin).
  destruct (filling_invariant W H _ _ HW HH Hf) as (l & Hok & _).
  pose proof (pack_rect_spec W H _ l rect (allow_rotation (options p))
                HW HH Hok (proj1 Hrect) (proj2 Hrect)) as Hspec.
  destruct Hspec as [(a & Ea & Hpost)|[[Ea _]|[Ea _]]];
    rewrite E3 in Ea; [|discriminate|discriminate].
  injection Ea as <-. destruct Hpost as (Hw' & Hh' & _ & Hpost).
  cbn [fst snd] in Hw', Hh', Hpost.
  pose proof (filling_place W H _ _ rect (allow_rotation (options p)) d'
                rect' ret Hf (proj1 Hrect) (proj2 Hrect) E3) as Hf'.
  destruct Hpost as [(Hz & _)
                    |(-> & Hpk & _ & l' & _ & _ & _ & _ & _ & Hin' & _)];
    [contradiction|].
  cbn [Z.eqb] in Hf'.
  assert (Hlen1 : length (<[ptr := rect']> (rects p)) = length (rects p))
    by apply length_insert.
  cut (exists done',
         reduce_inv W H (rects p') (store_of p') done' /\
         length (rects p') = length (<[ptr := rect']> (rects p)) /\
         (forall (j : nat) ptr0 r, (j < S i + count)%nat ->
            ptrs !! j = Some ptr0 -> rects p' !! ptr0 = Some r ->
            u32 (output_image_index r) = idx -> ptr0 ∈ done')).
  { intros (done' & Hi' & Hl' & Ha'). exists done'.
    split; [exact Hi'|]. split; [congruence|exact Ha']. }
  apply (IH _ _ _ (ptr :: done) E Hs).
  - apply Forall_insert; [exact Hnn|]. rewrite Hw', Hh'. exact Hrect.
  - split; [|split; [apply NoDup_cons; auto|]].
    + change (filling W H d'
                (placed_of (<[ptr := rect']> (rects p)) (ptr :: done))).
      unfold placed_of. rewrite fmap_cons.
      fold (placed_of (<[ptr := rect']> (rects p)) done).
      rewrite placed_of_insert by exact Hnew.
      unfold rect_at. rewrite list_lookup_insert_eq by exact Hlt. simpl.
      exact Hf'.
    + intros q Hq.
      change (exists r, <[ptr := rect']> (rects p) !! q = Some r /\
                output_packed r <> 0 /\ in_image W H (footprint r)).
      apply elem_of_cons in Hq as [->|Hq].
      * exists rect'. split; [apply list_lookup_insert_eq; exact Hlt|].
        split; [rewrite Hpk; discriminate|exact Hin'].
      * destruct (Hin q Hq) as (r & Hr & Hp). exists r.
        split; [|exact Hp]. rewrite list_lookup_insert_ne; [exact Hr|].
        intros ->. contradiction.
  - intros q Hq. apply elem_of_cons in Hq as [->|Hq].
    + exists i. split; [lia|exact Hptr].
    + apply Hnext, Hq.
  - intros j q r Hj Hq Hr Hidx.
    change (<[ptr := rect']> (rects p) !! q = Some r) in Hr.
    destruct (decide (q = ptr)) as [->|Hne]; [left|right].
    rewrite list_lookup_insert_ne in Hr by congruence.
    apply (Hmet j q r); auto.
    destruct (decide (j = i)) as [->|]; [congruence|lia].
Qed.

(** When the pass has placed all the rects of its image, they make a
    packing of that image. *)
Lemma reduce_inv_packed W H idx rs d done :
  0 <= W < UINT_RANGE -> 0 <= H < UINT_RANGE ->
  reduce_inv W H rs d done ->
  (forall i r, rs !! i = Some r -> u32 (output_image_index r) = idx ->
     i ∈ done) ->
  image_packed idx W H rs.
Proof.
  intros HW HH (Hf & Hnd & Hin) Hall. split.
  - intros i r Hr Hidx. destruct (Hin i (Hall i r Hr Hidx)) as (r1 & Hr1 & Hp).
    rewrite Hr in Hr1. injection Hr1 as <-. exact Hp.
  - intros i j r r' Hij Hr Hr' Hi Hj.
    apply (placed_of_disjoint W H rs d done i j r r' HW HH Hf Hnd);
      [apply (Hall i r Hr Hi)|apply (Hall j r' Hr' Hj)|exact Hij|exact Hr
      |exact Hr'].
Qed.

(** The second [for] loop. *)
Lemma restore_for_total count :
  forall i p image_index,
    driver_inv (Z.of_nat i) p ->
    Z.of_nat (i + count) = num_rects (internal_data p) ->
    ea_set_comparator (store_of p) <> None ->
    exists p',
      restore_for count i p image_index = Ok p' /\ same_frame p p'.
Proof.
  induction count as [|count IH]; intros i p image_index Hinv Hn Hc.
  - simpl. eexists. split; [reflexivity|apply same_frame_refl].
  - cbn [restore_for]. pose proof Hinv as [Hs _].
    pose proof Hs as (Hnum & _).
    destruct (static_sorted_rect p i Hs) as (ptr & E1 & Hptr); [lia|].
    rewrite E1. cbn [bind].
    destruct (static_load_rect p ptr Hs Hptr) as (rect & E2 & Hl & _).
    rewrite E2. cbn [bind].
    destruct (negb _).
    { apply IH; auto; [|lia]. eapply driver_inv_mono; [|exact Hinv]. lia. }
    destruct (pack_rect_in_total (Z.of_nat i) p ptr rect Hinv)
      as (p1 & ret & E3 & Hinv1 & Hframe & Hc1 & Hret & Hj1); auto; [lia|].
    rewrite E3. cbn [bind fst snd].
    pose proof Hframe as (F1 & F2 & F3 & F4 & F5 & F6 & F7).
    destruct (IH (S i) p1 image_index) as (p' & E & R).
    + replace (Z.of_nat (S i)) with (Z.of_nat i + 1) by lia. exact Hinv1.
    + rewrite F4. lia.
    + congruence.
    + exists p'. split; [exact E|eapply same_frame_trans; eauto].
Qed.

Lemma reset_in_total p W H :
  packer_static p -> 0 <= W < UINT_RANGE -> 0 <= H < UINT_RANGE ->
  exists p',
    reset_in p W H = Ok p' /\ driver_inv 0 p' /\ same_frame p p' /\
    rects p' = rects p /\
    ea_set_comparator (store_of p') = ea_set_comparator (store_of p).
Proof.
  intros Hs HW HH.
  destruct (reset_in_spec p W H Hs HW HH) as (p' & E & Hinv & Hf & Hr & _).
  exists p'. split; [exact E|]. split; [exact Hinv|]. split; [exact Hf|].
  split; [exact Hr|].
  pose proof Hs as (H1 & H2 & H3 & H4 & H5 & _).
  destruct (reset_spec (data_empty_areas (internal_data p)) W H)
    as (d & Ed & _ & _ & _ & _ & _ & C); auto; try lia.
  unfold reset_in in E. rewrite Ed in E. cbn [bind] in E.
  injection E as <-. exact C.
Qed.

Lemma same_job_with_last_image p0 p w h :
  same_job p0 p -> same_job p0 (with_last_image w h p).
Proof. intros H. exact H. Qed.

(** A pass that has met no failure leaves a packing of its image. *)
Lemma pass_packed p w h p0 p1 idx :
  packer_static p ->
  0 <= w < UINT_RANGE -> 0 <= h < UINT_RANGE ->
  reset_in p w h = Ok p0 ->
  reduce_for (Z.to_nat (num_rects (internal_data p0))) 0 p0 idx = Ok (p1, 0) ->
  image_packed idx w h (rects p1).
Proof.
  intros Hs Hw Hh E0 E1.
  destruct (reset_in_total p w h Hs Hw Hh) as (p0' & E0' & Hinv0 & _).
  rewrite E0 in E0'. injection E0' as <-.
  pose proof Hinv0 as [Hs0 _].
  pose proof Hs0
    as (Hnum & _ & _ & _ & _ & _ & _ & (ptrs & Hptrs & Hperm) & Hnn).
  assert (Hnd : NoDup ptrs) by (rewrite Hperm; apply NoDup_seq).
  assert (Hinv : reduce_inv w h (rects p0) (store_of p0) []).
  { split; [|split; [apply NoDup_nil_2|intros q Hq; inversion Hq]].
    unfold reset_in in E0. apply bind_inv in E0 as (d & Ed & E0).
    injection E0 as <-. destruct Hs as (_ & Hsz & _ & _ & Hc & _).
    apply (filling_reset w h (data_empty_areas (internal_data p)) d); auto. }
  destruct (reduce_for_packed w h idx ptrs _ Hw Hh Hnd 0 p0 p1 [] E1 Hptrs Hnn
              Hinv) as (done & Hinv1 & Hlen & Hall).
  { intros q Hq. inversion Hq. }
  { intros j q r Hj. lia. }
  apply (reduce_inv_packed w h idx _ _ done Hw Hh Hinv1).
  intros i r Hr Hidx.
  pose proof (lookup_lt_Some _ _ _ Hr) as Hlt. rewrite Hlen in Hlt.
  assert (Hin : i ∈ ptrs).
  { rewrite Hperm. apply elem_of_seq. lia. }
  apply list_elem_of_lookup_1 in Hin as [j Hj].
  apply (Hall j i r); auto.
  pose proof (lookup_lt_Some _ _ _ Hj) as Hltj.
  rewrite Hperm, length_seq in Hltj. simpl. rewrite Hnum. lia.
Qed.

(** The [while] loop.  Between two passes the current size is the last
    successful one, or its width is smaller by a gap of at least twice the
    next delta. *)
Lemma reduce_while_total fuel :
  forall p0 p A idx dw dh lsw lsh,
    driver_inv (num_rects (internal_data p)) p ->
    ea_set_comparator (store_of p) <> None ->
    same_job p0 p ->
    0 <= dw < 2 ^ Z.of_nat fuel -> dw < UINT_RANGE ->
    0 <= lsw < UINT_RANGE -> 0 <= lsh < UINT_RANGE ->
    size_ok p0 idx lsw lsh ->
    (last_image_width (result p) = lsw /\
     last_image_height (result p) = lsh) \/
    (exists gap, 1 <= gap < UINT_RANGE /\ 2 * dw <= gap /\
                 last_image_width (result p) = u32 (lsw - gap)) ->
    exists p' returned lsw' lsh',
      reduce_while fuel p A idx dw dh lsw lsh = Ok (p', returned, lsw', lsh') /\
      driver_inv (num_rects (internal_data p)) p' /\
      num_rects (internal_data p') = num_rects (internal_data p) /\
      ea_set_comparator (store_of p') <> None /\
      0 <= lsw' < UINT_RANGE /\ 0 <= lsh' < UINT_RANGE /\
      size_ok p0 idx lsw' lsh' /\
      ((last_image_width (result p') = lsw' /\
        last_image_height (result p') = lsh') \/
       (returned = false /\ last_image_width (result p') <> lsw')).
Proof.
  assert (Hstop : forall fuel p0 p A idx dw dh lsw lsh,
    driver_inv (num_rects (internal_data p)) p ->
    ea_set_comparator (store_of p) <> None ->
    0 <= lsw < UINT_RANGE -> 0 <= lsh < UINT_RANGE ->
    size_ok p0 idx lsw lsh ->
    (last_image_width (result p) = lsw /\
     last_image_height (result p) = lsh) \/
    (exists gap, 1 <= gap < UINT_RANGE /\ 2 * dw <= gap /\
                 last_image_width (result p) = u32 (lsw - gap)) ->
    (dw =? 0) || (dh =? 0) = true ->
    exists p' returned lsw' lsh',
      reduce_while fuel p A idx dw dh lsw lsh = Ok (p', returned, lsw', lsh') /\
      driver_inv (num_rects (internal_data p)) p' /\
      num_rects (internal_data p') = num_rects (internal_data p) /\
      ea_set_comparator (store_of p') <> None /\
      0 <= lsw' < UINT_RANGE /\ 0 <= lsh' < UINT_RANGE /\
      size_ok p0 idx lsw' lsh' /\
      ((last_image_width (result p') = lsw' /\
        last_image_height (result p') = lsh') \/
       (returned = false /\ last_image_width (result p') <> lsw'))).
  { intros fuel' p0 p A idx dw dh lsw lsh Hinv Hc Hlw Hlh Hgood Hstate Ez.
    exists p, false, lsw, lsh.
    split; [destruct fuel'; cbn [reduce_while]; rewrite Ez; reflexivity|].
    split; [exact Hinv|]. split; [reflexivity|]. split; [exact Hc|].
    split; [exact Hlw|]. split; [exact Hlh|]. split; [exact Hgood|].
    destruct Hstate as [Hs|(gap & Hg & _ & Hs)]; [left; exact Hs|right].
    split; [reflexivity|]. rewrite Hs. apply u32_sub_ne; assumption. }
  induction fuel as [|fuel IH];
    intros p0 p A idx dw dh lsw lsh Hinv Hc Hjob Hdw HdwR Hlw Hlh Hgood Hstate.
  - apply Hstop; auto. change (2 ^ Z.of_nat 0) with 1 in Hdw.
    replace dw with 0 by lia. reflexivity.
  - destruct ((dw =? 0) || (dh =? 0)) eqn:Ez; [apply Hstop; auto|].
    cbn [reduce_while]. rewrite Ez.
    apply orb_false_elim in Ez as [Ez _]. apply Z.eqb_neq in Ez.
    destruct (half_bounds dw fuel ltac:(lia)) as [Hhalf Hhalf2].
    set (p1 := if lsw =? last_image_width (result p) then _ else _).
    assert (Hs1 : packer_static p1).
    { unfold p1. destruct (lsw =? _); apply Hinv. }
    assert (Hn1 : num_rects (internal_data p1) = num_rects (internal_data p)).
    { unfold p1. destruct (lsw =? _); reflexivity. }
    assert (Hc1 : ea_set_comparator (store_of p1) =
                  ea_set_comparator (store_of p)).
    { unfold p1. destruct (lsw =? _); reflexivity. }
    assert (Hj1 : same_job p0 p1).
    { unfold p1. destruct (lsw =? _); exact Hjob. }
    assert (Hr1 : 0 <= last_image_width (result p1) < UINT_RANGE /\
                  0 <= last_image_height (result p1) < UINT_RANGE).
    { unfold p1. destruct (lsw =? _); simpl; split; apply u32_range. }
    assert (Hg1 : exists g, 1 <= g < UINT_RANGE /\ dw <= g /\
                    last_image_width (result p1) = u32 (lsw - g)).
    { unfold p1. destruct Hstate as [[Hw _]|(gap & Hg & Hg2 & Hw)].
      - rewrite Hw, Z.eqb_refl. simpl. exists dw.
        split; [lia|]. split; [lia|reflexivity].
      - pose proof (u32_sub_ne lsw gap Hlw Hg) as Hne.
        rewrite <- Hw in Hne.
        destruct (Z.eqb_spec lsw (last_image_width (result p))); [congruence|].
        simpl. exists (gap - dw). split; [lia|]. split; [lia|].
        rewrite Hw, u32_add_l. f_equal. lia. }
    clearbody p1.
    destruct (reset_in_total p1 _ _ Hs1 (proj1 Hr1) (proj2 Hr1))
      as (p2 & E2 & Hinv2 & Hf2 & Hrr2 & Hc2).
    rewrite E2. cbn [bind].
    pose proof (static_same_frame_num _ _ Hf2) as Hn2.
    destruct (reduce_for_total (Z.to_nat (num_rects (internal_data p2))) 0 p2
                idx Hinv2) as (p3 & failed & E3 & Hinv3 & Hf3 & Hc3e & Hrj3).
    { simpl. apply static_num_rects, Hinv2. }
    { congruence. }
    assert (Hc3 : ea_set_comparator (store_of p3) <> None) by congruence.
    rewrite E3. cbn [bind fst snd].
    pose proof (static_same_frame_num _ _ Hf3) as Hn3.
    rewrite Hn2, Hn1 in Hinv3.
    assert (Hn : num_rects (internal_data p3) = num_rects (internal_data p))
      by congruence.
    assert (Hres : result p3 = result p1).
    { destruct Hf3 as (_ & -> & _). destruct Hf2 as (_ & -> & _).
      reflexivity. }
    assert (Hj3 : same_job p0 p3).
    { eapply same_job_trans; [exact Hj1|].
      apply same_job_frame;
        [exact Hs1|apply Hinv3|eapply same_frame_trans; eauto| |congruence].
      rewrite Hrj3, Hrr2. reflexivity. }
    assert (Hnext : forall dw' lsw' lsh',
      0 <= dw' < 2 ^ Z.of_nat fuel -> dw' < UINT_RANGE ->
      0 <= lsw' < UINT_RANGE -> 0 <= lsh' < UINT_RANGE ->
      size_ok p0 idx lsw' lsh' ->
      (last_image_width (result p3) = lsw' /\
       last_image_height (result p3) = lsh') \/
      (exists gap, 1 <= gap < UINT_RANGE /\ 2 * dw' <= gap /\
                   last_image_width (result p3) = u32 (lsw' - gap)) ->
      exists p' returned lsw'' lsh'',
        reduce_while fuel p3 A idx dw' (dh / 2) lsw' lsh' =
        Ok (p', returned, lsw'', lsh'') /\
        driver_inv (num_rects (internal_data p)) p' /\
        num_rects (internal_data p') = num_rects (internal_data p) /\
        ea_set_comparator (store_of p') <> None /\
        0 <= lsw'' < UINT_RANGE /\ 0 <= lsh'' < UINT_RANGE /\
        size_ok p0 idx lsw'' lsh'' /\
        ((last_image_width (result p') = lsw'' /\
          last_image_height (result p') = lsh'') \/
         (returned = false /\ last_image_width (result p') <> lsw''))).
    { intros dw' lsw' lsh' B1 B2 B3 B4 B5 B6.
      destruct (IH p0 p3 A idx dw' (dh / 2) lsw' lsh')
        as (p' & ret & w & h & E & R); auto; [rewrite Hn; exact Hinv3|].
      exists p', ret, w, h. rewrite Hn in R. split; [exact E|exact R]. }
    destruct (Z.eqb_spec failed 0) as [-> | _].
    + assert (Hgood3 : size_ok p0 idx (last_image_width (result p3))
                         (last_image_height (result p3))).
      { right. exists p1, p2, p3. rewrite Hres.
        split; [exact Hj1|]. split; [exact E2|]. split; [exact E3|].
        split; [apply Hj3|].
        apply (pass_packed p1 _ _ p2 p3 idx Hs1 (proj1 Hr1) (proj2 Hr1)
                 E2 E3). }
      rewrite Hres in *.
      destruct (_ <? _).
      * eexists _, _, _, _. split; [reflexivity|].
        split; [exact Hinv3|]. split; [exact Hn|]. split; [exact Hc3|].
        split; [apply Hr1|]. split; [apply Hr1|]. split; [exact Hgood3|].
        left. rewrite Hres. auto.
      * apply Hnext; [exact Hhalf|lia|apply Hr1|apply Hr1|exact Hgood3|].
        left. auto.
    + apply Hnext; [exact Hhalf|lia|exact Hlw|exact Hlh|exact Hgood|].
      right. destruct Hg1 as (g & G1 & G2 & G3). exists g.
      split; [exact G1|]. split; [lia|]. rewrite Hres. exact G3.
Qed.

Section ShrinkToFit.

Variable needed_size : Z -> Z -> Z -> Z * Z.

(** C4, amended.  [japacker_pack] calls [japacker_reduce_last_image_size]
    with the recorded size set to the size of the image, on a packer that
    satisfies the invariant of the driver.  When the comparator function is
    set and the area of the rects is not 0, the call returns, and the size
    it records for the last image is the size given at initialisation or a
    size at which a pass of the search, the reset of the store followed by
    the first [for] loop, has placed every rect of the last image: the pass
    has met no failure and leaves these rects inside an image of that
    size, no two of them overlapping. *)
Theorem C4_recorded_size p rects_area :
  driver_inv (num_rects (internal_data p)) p ->
  ea_set_comparator (store_of p) <> None ->
  rects_area <> 0 ->
  last_image_width (result p) = image_width (internal_data p) ->
  last_image_height (result p) = image_height (internal_data p) ->
  exists p',
    japacker_reduce_last_image_size needed_size p rects_area = Ok p' /\
    size_ok p (u32 (images_needed (result p) - 1))
      (last_image_width (result p')) (last_image_height (result p')).
Proof.
  intros Hinv Hc HA Hw Hh. unfold japacker_reduce_last_image_size.
  apply Z.eqb_neq in HA. rewrite HA.
  destruct (_ <? _).
  { exists p. split; [reflexivity|]. left. auto. }
  destruct (static_image_range p (proj1 Hinv)) as [HW HH].
  set (idx := u32 (images_needed (result p) - 1)).
  set (dw := u32 _ / 2). set (dh := u32 _ / 2).
  assert (Hdw : 0 <= dw < 2 ^ Z.of_nat 32 /\ dw < UINT_RANGE).
  { unfold dw. pose proof (delta_bound (image_width (internal_data p) -
      fst (needed_size rects_area (image_width (internal_data p))
             (image_height (internal_data p))))) as Hb.
    change (2 ^ Z.of_nat 32) with 4294967296 in *.
    unfold UINT_RANGE. lia. }
  destruct (reduce_while_total 32 p p rects_area idx dw dh
              (image_width (internal_data p)) (image_height (internal_data p)))
    as (p1 & returned & lsw & lsh & E & Hinv1 & Hn1 & Hc1 & Hlw & Hlh & Hgood
        & Hstate); auto; try apply Hdw.
  { apply same_job_refl. }
  { left. auto. }
  rewrite E. cbn [bind].
  destruct returned.
  { exists p1. split; [reflexivity|].
    destruct Hstate as [[-> ->]|[? _]]; [exact Hgood|discriminate]. }
  destruct (Z.eqb_spec lsw (last_image_width (result p1))) as [Heq|Hne];
    cbn [negb].
  { exists p1. split; [reflexivity|].
    destruct Hstate as [[-> ->]|[_ ?]]; [exact Hgood|congruence]. }
  set (p2 := with_last_image lsw lsh p1).
  change (last_image_width (result p2)) with lsw.
  change (last_image_height (result p2)) with lsh.
  assert (Hs2 : packer_static p2) by apply Hinv1.
  destruct (reset_in_total p2 lsw lsh Hs2 Hlw Hlh)
    as (p3 & E3 & Hinv3 & Hf3 & _ & Hc3).
  rewrite E3. cbn [bind].
  destruct (restore_for_total (Z.to_nat (num_rects (internal_data p3))) 0 p3
              idx Hinv3) as (p4 & E4 & Hf4).
  { simpl. apply static_num_rects, Hinv3. }
  { rewrite Hc3. exact Hc1. }
  exists p4. split; [exact E4|].
  destruct Hf4 as (_ & -> & _). destruct Hf3 as (_ & -> & _). exact Hgood.
Qed.

End ShrinkToFit.

(** ** The code at concrete inputs *)

(** C2.  One placement already breaks the order of the list.  A 60 x 9 rect
    in a 100 x 10 image, sorted by perimeter, splits the image into a new
    area of 60 x 1 (comparator 61) and the reshaped area of 40 x 10
    (comparator 50); no merge happens, the search for the new area starts at
    the predecessor of the reshaped one, which is null, and the new area is
    linked in at the front: the list reads 61, 50. *)
Theorem C2_list_not_ascending :
  res_map (fun r => (snd r, comparators (store_of (fst r))))
    (japacker_pack insertion_qsort needed_size_square
       (new_packer [(60, 9)] 100 10
          (mk_options 0 0 0 0 JAPACKER_SORT_BY_PERIMETER JAPACKER_STOP)))
  = Ok (1, [61; 50]) /\
  ~ ascending [61; 50].
Proof.
  split; [vm_compute; reflexivity|].
  intros H. specialize (H 0%nat 1%nat 61 50). simpl in H.
  assert (61 <= 50) by (apply H; [lia|reflexivity|reflexivity]). lia.
Qed.

(** C7.  A 9 x 9 rect and a 1 x 11 rect in a 10 x 10 image under
    [JAPACKER_NEW_IMAGE]: the first pass places the 9 x 9 rect on image 0,
    the second pass finds that the 1 x 11 rect does not fit the untouched
    image and returns 1 after the decrement, which leaves [images_needed] at
    0 although one image is in use. *)
Theorem C7_images_needed_after_abort :
  res_map (fun r => (snd r, images_needed (result (fst r)),
                     outputs <$> rects (fst r)))
    (japacker_pack insertion_qsort needed_size_square
       (new_packer [(9, 9); (1, 11)] 10 10
          (mk_options 0 0 0 0 JAPACKER_SORT_BY_PERIMETER JAPACKER_NEW_IMAGE)))
  = Ok (1, 0, [(0, 0, 1, 0, 0); (0, 0, 0, 0, 0)]).
Proof. vm_compute. reflexivity. Qed.

(** C7, again.  When the first rect of the first pass does not fit, the
    decrement wraps the unsigned counter around. *)
Lemma images_needed_wraps :
  res_map (fun r => (snd r, images_needed (result (fst r))))
    (japacker_pack insertion_qsort needed_size_square
       (new_packer [(11, 11)] 10 10
          (mk_options 0 0 0 0 JAPACKER_SORT_BY_PERIMETER JAPACKER_NEW_IMAGE)))
  = Ok (0, 4294967295).
Proof. vm_compute. reflexivity. Qed.

(** C9.  Under [JAPACKER_CONTINUE] a single rect that does not fit leaves
    the accumulated area at 0, and the optimizer divides by it. *)
Theorem C9_division_by_zero :
  japacker_pack insertion_qsort needed_size_square
    (new_packer [(11, 11)] 10 10
       (mk_options 0 0 0 1 JAPACKER_SORT_BY_PERIMETER JAPACKER_CONTINUE))
  = Fault DivByZero.
Proof. vm_compute. reflexivity. Qed.

(** C10.  Under [JAPACKER_NEW_IMAGE] a 10 x 10 rect fills the 10 x 10 image
    exactly and empties the list; the 1 x 1 rect that follows fails, and the
    test on the first empty area reads through the null pointer. *)
Theorem C10_first_is_null :
  japacker_pack insertion_qsort needed_size_square
    (new_packer [(10, 10); (1, 1)] 10 10
       (mk_options 0 0 0 0 JAPACKER_SORT_BY_PERIMETER JAPACKER_NEW_IMAGE))
  = Fault NullDeref.
Proof. vm_compute. reflexivity. Qed.

(** C4, as stated, fails.  For one 50 x 50 rect in a 100 x 100 image the
    search tries 76, 64, 58, 55 and 54, all with success, and stops because
    the delta has reached 0: the recorded size 54 x 54 is neither within the
    tolerance of the area 2500 nor the original size.  For rects of 6 x 9,
    1 x 9 and 7 x 4 in a 16 x 16 image with rotation allowed, the candidate
    13 succeeds, 12 fails after it has rotated the 7 x 4 rect, and the final
    repack at 13 starts with that rect rotated and no longer places the
    1 x 9 rect, which keeps its position (6, 4) inside the region of the
    rotated rect at (6, 0). *)
Lemma C4_counterexample :
  (res_map (fun r => (last_image_width (result (fst r)),
                      last_image_height (result (fst r))))
     (japacker_pack insertion_qsort needed_size_square
        (new_packer [(50, 50)] 100 100
           (mk_options 0 0 0 1 JAPACKER_SORT_BY_PERIMETER JAPACKER_STOP)))
   = Ok (54, 54) /\
   ~ within_tolerance 54 54 2500) /\
  (res_map (fun r => (result (fst r), outputs <$> rects (fst r)))
     (japacker_pack insertion_qsort needed_size_square
        (new_packer [(6, 9); (1, 9); (7, 4)] 16 16
           (mk_options 1 0 0 1 JAPACKER_SORT_BY_PERIMETER JAPACKER_STOP)))
   = Ok (mk_result 1 13 13,
         [(0, 0, 1, 0, 0); (6, 4, 1, 0, 0); (6, 0, 1, 1, 0)]) /\
   inside (footprint (mk_rect 1 9 6 4 1 0 0)) 6 4 /\
   inside (footprint (mk_rect 7 4 6 0 1 1 0)) 6 4).
Proof.
  split; [split|split; [|split]].
  - vm_compute. reflexivity.
  - unfold within_tolerance. vm_compute. intros H. discriminate H.
  - vm_compute. reflexivity.
  - unfold inside. simpl. lia.
  - unfold inside. simpl. lia.
Qed.

(** C5, as stated, fails.  After a first call has packed the only rect, a
    second call with [always_repack = 0] returns 0, not 1, and
    [images_needed] goes from 1 to 2. *)
Lemma C5_counterexample :
  res_map (fun r => (snd (fst r), images_needed (result (fst (fst r))),
                     snd (snd r), images_needed (result (fst (snd r)))))
    (pack_twice insertion_qsort needed_size_square
       (new_packer [(5, 5)] 10 10
          (mk_options 0 0 0 0 JAPACKER_SORT_BY_PERIMETER JAPACKER_STOP)))
  = Ok (1, 1, 0, 2).
Proof. vm_compute. reflexivity. Qed.


(** C6, as stated, fails.  A first call under [JAPACKER_CONTINUE] packs the
    rects of 7 x 7 and of 3 x 3 and leaves the rect of 11 x 1, which does
    not fit the image of 10 x 10.  A second call under [JAPACKER_STOP],
    with [always_repack] off, skips the first rect, fails on the second and
    returns 1 with [images_needed] still at 1; the third rect, which comes
    after the failing one in the sorted order, is not left unpacked: it is
    packed at (7, 0) on image 0, where the first call has put it. *)
Lemma C6_counterexample :
  fail_policy (options resume_example) = JAPACKER_STOP /\
  always_repack (options resume_example) = 0 /\
  sorted_rects (internal_data resume_example) =
  Some [0%nat; 1%nat; 2%nat] /\
  res_map (fun r => (snd r, images_needed (result (fst r)),
                     outputs <$> rects (fst r)))
    (japacker_pack insertion_qsort needed_size_square resume_example)
  = Ok (1, 1, [(0, 0, 1, 0, 0); (0, 0, 0, 0, 0); (7, 0, 1, 0, 0)]).
Proof.
  split; [reflexivity|]. split; [reflexivity|].
  split; vm_compute; reflexivity.
Qed.

(** ** The theorems at the examples *)

Lemma new_packer_ok dims W H opts :
  Z.of_nat (length dims) + 1 < 2147483648 ->
  0 <= W < UINT_RANGE -> 0 <= H < UINT_RANGE ->
  Forall (fun wh => 0 <= fst wh /\ 0 <= snd wh) dims ->
  packer_ok (new_packer dims W H opts).
Proof.
  intros Hn HW HH Hall. unfold packer_ok, new_packer, japacker_init. simpl.
  rewrite length_map, length_replicate.
  assert (Hu : u32 (Z.of_nat (length dims) + 1) = Z.of_nat (length dims) + 1)
    by (apply u32_small; unfold UINT_RANGE; lia).
  rewrite Hu, s32_small by lia.
  split; [reflexivity|]. split; [lia|]. split; [lia|]. split; [lia|].
  split; [intros f Hf; discriminate Hf|]. split; [exact HW|].
  split; [exact HH|]. split; [intros ptrs Hp; discriminate Hp|].
  split; [|lia].
  apply Forall_fmap. eapply Forall_impl; [exact Hall|]. simpl. auto.
Qed.

Lemma ok_or_eq {A : Type} (a : A) (r : res A) :
  res_map (fun _ => tt) r = Ok tt -> r = Ok (ok_or a r).
Proof. destruct r; simpl; [reflexivity|discriminate]. Qed.

Lemma ok_or_pair {A B : Type} (a : A * B) (r : res (A * B)) (v : B) :
  res_map snd r = Ok v -> r = Ok (fst (ok_or a r), v).
Proof.
  destruct r as [[x y]|]; simpl; [intros [= ->]; reflexivity|discriminate].
Qed.

Lemma ok_or_triple {A B C : Type} (a : A * B * C) (r : res (A * B * C))
    (v : C) :
  res_map snd r = Ok v ->
  r = Ok (fst (fst (ok_or a r)), snd (fst (ok_or a r)), v).
Proof.
  destruct r as [[[x y] z]|]; simpl; [intros [= ->]; reflexivity|discriminate].
Qed.

Lemma example_store_comparator_ok : comparator_ok example_store.
Proof. intros f Hf. injection Hf as <-. apply perimeter_comparator_only. Qed.

Lemma example_reset_filling : filling 10 4 example_reset [].
Proof.
  apply (filling_reset 10 4 example_store).
  - apply example_store_comparator_ok.
  - reflexivity.
  - unfold example_reset. apply ok_or_eq. vm_compute. reflexivity.
Qed.

(** C1 at the example: the rect of 3 x 2 and the two empty areas that the
    split has made tile the image of 10 x 4. *)
Lemma C1_tiling_witness :
  partition_of (mk_box 0 0 10 4)
    ([footprint (snd (fst example_placed))] ++
     empty_boxes (fst (fst example_placed))).
Proof.
  apply (C1_tiling_invariant 10 4 (fst (fst example_placed))
           [footprint (snd (fst example_placed))]).
  - unfold UINT_RANGE. lia.
  - unfold UINT_RANGE. lia.
  - apply (filling_place 10 4 example_reset [] (mk_rect 3 2 0 0 0 0 0) 0
             (fst (fst example_placed)) (snd (fst example_placed)) 1).
    + apply example_reset_filling.
    + simpl. lia.
    + simpl. lia.
    + unfold example_placed. apply ok_or_triple. vm_compute. reflexivity.
Defined.


Lemma comparator_is_set d :
  match ea_set_comparator d with Some _ => true | None => false end = true ->
  ea_set_comparator d <> None.
Proof. destruct (ea_set_comparator d); [discriminate 2|discriminate 1]. Qed.


(** C3 at the example. *)
Lemma C3_capacity_witness :
  safe (japacker_pack insertion_qsort needed_size_square capacity_example)
    (fun r =>
       ea_index (store_of (fst r)) <= num_rects (internal_data (fst r)) /\
       Z.of_nat (length (ea_list (store_of (fst r)))) =
       Z.of_nat (length (ea_list (store_of capacity_example))) /\
       packer_ok (fst r)).
Proof.
  apply (C3_capacity_bound insertion_qsort needed_size_square
           insertion_qsort_perm capacity_example).
  apply new_packer_ok.
  - simpl. lia.
  - unfold UINT_RANGE. lia.
  - unfold UINT_RANGE. lia.
  - repeat constructor; simpl; lia.
Defined.

Lemma stop_example_ok : packer_ok stop_example.
Proof.
  apply new_packer_ok.
  - simpl. lia.
  - unfold UINT_RANGE. lia.
  - unfold UINT_RANGE. lia.
  - repeat constructor; simpl; lia.
Qed.


(** What a call that returns leaves is a packer for the next call. *)
Lemma pack_result_ok p r :
  packer_ok p ->
  japacker_pack insertion_qsort needed_size_square p = Ok r ->
  packer_ok (fst r).
Proof.
  intros Hok E. unfold japacker_pack in E. fold (store_of p) in E.
  destruct (_ || _) eqn:Hv; [injection E as <-; exact Hok|].
  pose proof (validation_passed p Hok Hv) as Hsz.
  destruct (pack_prepare_static insertion_qsort insertion_qsort_perm p Hok Hsz)
    as (Hs & _ & Hn).
  destruct (pack_prepare_pending insertion_qsort insertion_qsort_perm p Hok Hsz)
    as [Hpend Hrep].
  pose proof (pack_do_while_safe needed_size_square _
                (pack_prepare insertion_qsort p) 0 Hs Hpend Hrep) as Hsafe.
  rewrite E in Hsafe. simpl in Hsafe. destruct Hsafe as [R1 R2].
  apply driver_inv_packer_ok. rewrite R2. exact R1.
Qed.

Lemma packer_ok_with_options o p :
  packer_ok p -> packer_ok (with_options o p).
Proof. intros H. exact H. Qed.

Lemma resume_example_ok : packer_ok resume_example.
Proof.
  unfold resume_example. cbv zeta. apply packer_ok_with_options.
  apply (pack_result_ok
           (new_packer [(7, 7); (11, 1); (3, 3)] 10 10
              (mk_options 0 0 0 0 JAPACKER_SORT_BY_PERIMETER
                 JAPACKER_CONTINUE))).
  - apply new_packer_ok.
    + simpl. lia.
    + unfold UINT_RANGE. lia.
    + unfold UINT_RANGE. lia.
    + repeat constructor; simpl; lia.
  - apply ok_or_eq. vm_compute. reflexivity.
Qed.

(** C6, amended, at the example: the rect of 7 x 7 is skipped, the rect of
    11 x 1 fails and [japacker_pack] returns 1; the rect of 3 x 3, which
    comes after it, is still packed. *)
Lemma C6_stop_witness :
  japacker_pack insertion_qsort needed_size_square resume_example =
  Ok (fst resume_example_failed, Z.of_nat 1) /\
  images_needed (result (fst resume_example_failed)) =
  images_needed (result resume_example) /\
  (forall (j : nat) ptr', (j < 1)%nat ->
     sorted_rect (fst resume_example_failed) j = Ok ptr' ->
     exists r, rects (fst resume_example_failed) !! ptr' = Some r /\
               output_packed r <> 0) /\
  (exists r, rects (fst resume_example_failed) !! 1%nat = Some r /\
             output_packed r = 0) /\
  (forall (j : nat) ptr', (1 < j)%nat ->
     sorted_rect (fst resume_example_failed) j = Ok ptr' ->
     rects (fst resume_example_failed) !! ptr' =
     rects resume_example !! ptr' /\
     forall r, rects resume_example !! ptr' = Some r ->
       (output_packed r = 0 ->
        exists r', rects (fst resume_example_failed) !! ptr' = Some r' /\
                   output_packed r' = 0) /\
       (output_packed r <> 0 ->
        exists r', rects (fst resume_example_failed) !! ptr' = Some r' /\
                   output_packed r' <> 0)).
Proof.
  apply (C6_stop_policy insertion_qsort needed_size_square
           insertion_qsort_perm resume_example resume_example_reset 1
           (fst (fst resume_example_loop)) (snd (fst resume_example_loop))
           1%nat (rect_at (rects (fst (fst resume_example_loop))) 1)
           (fst resume_example_failed)).
  - apply resume_example_ok.
  - vm_compute. reflexivity.
  - reflexivity.
  - reflexivity.
  - replace (image_width
               (internal_data (pack_prepare insertion_qsort resume_example)))
      with 10 by (vm_compute; reflexivity).
    replace (image_height
               (internal_data (pack_prepare insertion_qsort resume_example)))
      with 10 by (vm_compute; reflexivity).
    unfold resume_example_reset. apply ok_or_eq. vm_compute. reflexivity.
  - replace (length (rects resume_example)) with 3%nat
      by (vm_compute; reflexivity).
    lia.
  - unfold resume_example_loop. apply ok_or_triple. vm_compute. reflexivity.
  - vm_compute. reflexivity.
  - vm_compute. reflexivity.
  - vm_compute. reflexivity.
  - unfold resume_example_failed. cbv zeta. apply ok_or_pair.
    vm_compute. reflexivity.
Defined.

Lemma packed_example_ok : packer_ok packed_example.
Proof.
  unfold packed_example. cbv zeta.
  apply (pack_result_ok
           (new_packer [(5, 5)] 10 10
              (mk_options 0 0 0 0 JAPACKER_SORT_BY_PERIMETER JAPACKER_STOP))).
  - apply new_packer_ok.
    + simpl. lia.
    + unfold UINT_RANGE. lia.
    + unfold UINT_RANGE. lia.
    + repeat constructor; simpl; lia.
  - apply ok_or_eq. vm_compute. reflexivity.
Qed.

Lemma packed_example_rects : rects packed_example = [mk_rect 5 5 0 0 1 0 0].
Proof. vm_compute. reflexivity. Qed.

(** C5, amended, at the example: a second call on the packer of one packed
    rect. *)
Lemma C5_second_pack_witness :
  exists p',
    japacker_pack insertion_qsort needed_size_square packed_example =
    Ok (p', 0) /\
    rects p' = rects packed_example.
Proof.
  apply (C5_second_pack insertion_qsort needed_size_square
           insertion_qsort_perm packed_example).
  - apply packed_example_ok.
  - vm_compute. reflexivity.
  - vm_compute. reflexivity.
  - intros H. vm_compute in H. discriminate H.
  - rewrite packed_example_rects. repeat constructor. simpl. lia.
Defined.

Lemma shrink_example_inv :
  driver_inv (num_rects (internal_data shrink_example)) shrink_example.
Proof.
  set (p := new_packer [(50, 50)] 100 100
              (mk_options 0 0 0 1 JAPACKER_SORT_BY_PERIMETER JAPACKER_STOP)).
  assert (Hok : packer_ok p).
  { apply new_packer_ok.
    - simpl. lia.
    - unfold UINT_RANGE. lia.
    - unfold UINT_RANGE. lia.
    - repeat constructor; simpl; lia. }
  assert (Hsz : ea_size (store_of p) = num_rects (internal_data p) + 1)
    by (vm_compute; reflexivity).
  destruct (pack_prepare_static insertion_qsort insertion_qsort_perm p Hok Hsz)
    as (Hs & _).
  destruct (reset_in_spec (pack_prepare insertion_qsort p) 100 100 Hs)
    as (p1 & E1 & Hinv1 & _); [unfold UINT_RANGE; lia..|].
  assert (E : reset_in (pack_prepare insertion_qsort p) 100 100 =
              Ok shrink_example_reset).
  { unfold shrink_example_reset. cbv zeta. apply ok_or_eq.
    vm_compute. reflexivity. }
  rewrite E in E1. injection E1 as <-.
  assert (Hn : Z.of_nat (0 + 1) =
               num_rects (internal_data shrink_example_reset))
    by (vm_compute; reflexivity).
  pose proof (pack_for_safe 1 0 shrink_example_reset (mk_locals 0 0 0) Hinv1
                Hn) as Hsafe.
  assert (E2 : pack_for 1 0 shrink_example_reset (mk_locals 0 0 0) =
               Ok (ok_or (shrink_example_reset, mk_locals 0 0 0, None)
                     (pack_for 1 0 shrink_example_reset (mk_locals 0 0 0))))
    by (apply ok_or_eq; vm_compute; reflexivity).
  rewrite E2 in Hsafe. cbn [safe fst] in Hsafe. destruct Hsafe as [Hinv2 _].
  replace (num_rects (internal_data shrink_example)) with
    (num_rects (internal_data shrink_example_reset))
    by (vm_compute; reflexivity).
  unfold shrink_example. cbv zeta.
  apply driver_inv_with_last_image, driver_inv_with_images_needed.
  exact Hinv2.
Qed.

(** C4, amended, at the example: the search on one rect of 50 x 50 in an
    image of 100 x 100. *)
Lemma C4_recorded_size_witness :
  exists p',
    japacker_reduce_last_image_size needed_size_square shrink_example 2500 =
    Ok p' /\
    size_ok shrink_example (u32 (images_needed (result shrink_example) - 1))
      (last_image_width (result p')) (last_image_height (result p')).
Proof.
  apply (C4_recorded_size needed_size_square shrink_example 2500).
  - apply shrink_example_inv.
  - apply comparator_is_set. vm_compute. reflexivity.
  - lia.
  - vm_compute. reflexivity.
  - vm_compute. reflexivity.
Defined.

(** * Further properties *)

(** ** The list of empty areas *)

(** The list depends on the links only. *)
Lemma repr_same_links d d' l :
  repr d l ->
  ea_first d' = ea_first d -> ea_last d' = ea_last d ->
  prevs d' = prevs d -> nexts d' = nexts d ->
  repr d' l.
Proof.
  intros (Hnd & Hf & Hl & Hseg & Hout) F L P N.
  assert (Hlen : length (ea_list d') = length (ea_list d)).
  { rewrite <- (length_prevs d'), P. apply length_prevs. }
  split; [exact Hnd|]. split; [congruence|]. split; [congruence|].
  rewrite P, N. split; [exact Hseg|].
  intros i Hi Hv. apply Hout; [exact Hi|]. rewrite <- Hlen. exact Hv.
Qed.

(** X1.  [japacker_delist_empty_area] on a member [c] of a well-formed list
    returns, and leaves the well-formed list of the other members in their
    order; the links of [c] are null afterwards, and no position, size or
    other member of the store has changed. *)
Theorem X1_delist_removes_member d l1 c l2 :
  repr d (l1 ++ c :: l2) ->
  exists d',
    japacker_delist_empty_area d c = Ok d' /\
    repr d' (l1 ++ l2) /\
    listed d' = l1 ++ l2 /\
    prevs d' !! c = Some None /\ nexts d' !! c = Some None /\
    geoms d' = geoms d /\
    same_conf d d'.
Proof.
  intros Hr. destruct (delist_spec d l1 c l2 Hr) as (d' & E & Hr' & G & SC).
  exists d'. split; [exact E|]. split; [exact Hr'|].
  split; [apply listed_repr; exact Hr'|].
  assert (Hc : c ∉ l1 ++ l2).
  { destruct Hr as (Hnd & _). apply NoDup_app in Hnd as (_ & H1 & H2).
    apply NoDup_cons in H2 as [H2 _]. rewrite elem_of_app.
    intros [H|H]; [|auto]. apply (H1 c H). left. }
  assert (Hv : valid d' c).
  { unfold valid. destruct SC as [-> _]. eapply repr_valid; [exact Hr|].
    apply elem_of_app. right. left. }
  destruct (out_links _ _ _ Hr' Hc Hv) as [P N]. auto.
Qed.

(** X3.  [japacker_merge_adjacent_empty_areas] on an unlisted area returns
    0 or 1.  On 0 the store is as before.  In both cases the list that is
    left is well formed and made of members of the old one, the other slots
    keep their regions, and every point is covered by the area and the
    listed regions as many times as before: merging neither loses nor
    duplicates space. *)
Theorem X3_merge_keeps_cover W H d l area :
  0 <= W < UINT_RANGE -> 0 <= H < UINT_RANGE ->
  repr d l -> area ∉ l -> valid d area ->
  (forall i, i ∈ l -> in_image W H (box_at d i)) ->
  in_image W H (box_at d area) ->
  exists d' l' m,
    japacker_merge_adjacent_empty_areas d area = Ok (d', m) /\
    (m = 0 \/ m = 1) /\ (m = 0 -> d' = d) /\
    repr d' l' /\ l' ⊆ l /\
    (forall i, i <> area -> box_at d' i = box_at d i) /\
    in_image W H (box_at d' area) /\
    forall px py,
      (cnt (box_at d' area) px py + hits (boxes d' l') px py =
       cnt (box_at d area) px py + hits (boxes d l) px py)%nat.
Proof.
  intros HW HH Hr Ha Hv Hin Hina.
  destruct (merge_spec W H d l area HW HH Hr Ha Hv Hin Hina)
    as (d' & l' & m & E & Hr' & Hsub & _ & Hg & Hin' & Hc & Hm).
  exists d', l', m. split; [exact E|].
  split; [destruct Hm as [(-> & _)| ->]; auto|].
  split; [intros ->; destruct Hm as [(_ & -> & _)|]; [reflexivity|lia]|].
  split; [exact Hr'|]. split; [exact Hsub|].
  split; [intros i Hi; apply box_at_eq, Hg, Hi|].
  split; [exact Hin'|exact Hc].
Qed.

Lemma walk_next_None steps N : walk_next steps N None = [].
Proof. destruct steps; reflexivity. Qed.

(** X4.  [japacker_reset_empty_areas] erases what the store held: when
    [size] is the length of the array and is not 0, the call returns, every
    slot is zeroed but the first, which is an area of [width] x [height] at
    the origin with null links, and the list is that one area. *)
Theorem X4_reset_erases d0 W H :
  0 < ea_size d0 -> ea_size d0 = Z.of_nat (length (ea_list d0)) ->
  exists d,
    japacker_reset_empty_areas d0 W H = Ok d /\
    ea_list d = mk_area 0 0 W H 0 None None ::
                replicate (length (ea_list d0) - 1) zero_area /\
    ea_first d = Some 0%nat /\ ea_last d = Some 0%nat /\
    ea_index d = 0 /\
    listed d = [0%nat] /\
    empty_boxes d = [mk_box 0 0 W H].
Proof.
  intros Hpos Hsize. unfold japacker_reset_empty_areas.
  rewrite decide_True by lia.
  rewrite Hsize, Nat2Z.id, drop_all, app_nil_r.
  destruct (length (ea_list d0)) as [|n] eqn:Hlen; [lia|].
  cbn [replicate with_list with_index with_first with_last ea_first deref
       bind]. unfold modify. simpl.
  eexists. split; [reflexivity|]. simpl. rewrite Nat.sub_0_r.
  split; [reflexivity|]. split; [reflexivity|]. split; [reflexivity|].
  split; [reflexivity|]. unfold empty_boxes, listed. simpl.
  rewrite walk_next_None. split; reflexivity.
Qed.

(** *** The order of the list *)

Lemma modify_cmps d p f d' :
  modify d p f = Ok d' ->
  (forall a, area_comparator (f a) = area_comparator a) ->
  cmps d' = cmps d.
Proof.
  unfold modify, cmps. destruct (ea_list d !! p) as [a|] eqn:E; [|discriminate].
  intros [= <-] Hf. simpl. rewrite list_fmap_insert. apply list_insert_id.
  rewrite list_lookup_fmap, E. simpl. rewrite Hf. reflexivity.
Qed.

Lemma cmp_at_eq d d' i : cmps d' = cmps d -> cmp_at d' i = cmp_at d i.
Proof.
  intros H. unfold cmp_at. rewrite <- !list_lookup_fmap.
  fold (cmps d') (cmps d). rewrite H. reflexivity.
Qed.

(** The insertion writes links only. *)
Lemma sort_walk_cmps fuel :
  forall d area cur d',
    sort_walk fuel d area cur = Ok d' -> cmps d' = cmps d.
Proof.
  assert (Hnone : forall fuel d area d',
            sort_walk fuel d area None = Ok d' -> cmps d' = cmps d).
  { intros fuel0 d area d' E. rewrite sort_walk_None in E.
    apply bind_inv in E as (f & _ & E).
    apply bind_inv in E as (d1 & E1 & E).
    apply bind_inv in E as (d2 & E2 & E). injection E as <-.
    apply modify_cmps in E1; [|reflexivity].
    apply modify_cmps in E2; [|reflexivity].
    change (cmps (with_first (Some area) d2)) with (cmps d2). congruence. }
  induction fuel as [|fuel IH]; intros d area [c|] d' E;
    try (eapply Hnone; eassumption); [discriminate E|].
  cbn [sort_walk] in E.
  apply bind_inv in E as (cc & _ & E).
  apply bind_inv in E as (ac & _ & E).
  destruct (cc <? ac).
  - apply bind_inv in E as (d1 & E1 & E).
    apply bind_inv in E as (d2 & E2 & E).
    apply modify_cmps in E2; [|reflexivity].
    apply modify_cmps in E; [|reflexivity].
    assert (cmps d1 = cmps d); [|congruence].
    destruct (decide _) in E1; [injection E1 as <-; reflexivity|].
    apply bind_inv in E1 as (cn & _ & E1).
    apply bind_inv in E1 as (d3 & E3 & E1).
    apply bind_inv in E1 as (an & _ & E1).
    apply bind_inv in E1 as (n0 & _ & E1).
    apply modify_cmps in E3; [|reflexivity].
    apply modify_cmps in E1; [|reflexivity]. congruence.
  - apply bind_inv in E as (cp & _ & E). eapply IH; eauto.
Qed.

Lemma sort_empty_area_cmps d area cur d' :
  japacker_sort_empty_area d area cur = Ok d' -> cmps d' = cmps d.
Proof.
  unfold japacker_sort_empty_area. destruct (ea_first d).
  - apply sort_walk_cmps.
  - intros [= <-]. reflexivity.
Qed.

(** A value put between the lower and the higher ones. *)
Lemma ascending_insert (xs ys : list Z) (v : Z) :
  ascending (xs ++ ys) ->
  (forall x, x ∈ xs -> x <= v) -> (forall y, y ∈ ys -> v <= y) ->
  ascending (xs ++ v :: ys).
Proof.
  intros Hasc Hx Hy i j a b Hij Ha Hb.
  destruct (Nat.lt_ge_cases i (length xs)) as [Hi|Hi].
  - rewrite lookup_app_l in Ha by exact Hi.
    apply list_elem_of_lookup_2 in Ha as Hax.
    destruct (Nat.lt_ge_cases j (length xs)) as [Hj|Hj].
    + rewrite lookup_app_l in Hb by exact Hj.
      apply (Hasc i j a b Hij); rewrite lookup_app_l; auto.
    + rewrite lookup_app_r in Hb by exact Hj.
      destruct (j - length xs)%nat as [|k] eqn:Ek; simpl in Hb.
      * injection Hb as <-. auto.
      * apply list_elem_of_lookup_2 in Hb. specialize (Hx a Hax).
        specialize (Hy b Hb). lia.
  - rewrite lookup_app_r in Ha by exact Hi.
    rewrite lookup_app_r in Hb by lia.
    destruct (i - length xs)%nat as [|k] eqn:Ek; simpl in Ha.
    + injection Ha as <-.
      destruct (j - length xs)%nat as [|k'] eqn:Ek'; [lia|]. simpl in Hb.
      apply list_elem_of_lookup_2 in Hb. auto.
    + destruct (j - length xs)%nat as [|k'] eqn:Ek'; [lia|]. simpl in Hb.
      apply (Hasc (length xs + k) (length xs + k') a b)%nat; [lia| |].
      * rewrite lookup_app_r by lia.
        replace (length xs + k - length xs)%nat with k by lia. exact Ha.
      * rewrite lookup_app_r by lia.
        replace (length xs + k' - length xs)%nat with k' by lia. exact Hb.
Qed.

Lemma ascending_below_last (f : nat -> Z) la lb z i :
  ascending (f <$> (la ++ lb)) -> last la = Some z -> i ∈ la -> f i <= f z.
Proof.
  intros Hasc Hz Hi. apply last_Some in Hz as [la' ->].
  apply elem_of_app in Hi as [Hi|Hi].
  - apply list_elem_of_lookup_1 in Hi as [k Hk].
    pose proof (lookup_lt_Some _ _ _ Hk) as Hlt.
    apply (Hasc k (length la') (f i) (f z)); [exact Hlt| |].
    + rewrite list_lookup_fmap, <- !app_assoc, lookup_app_l, Hk by exact Hlt.
      reflexivity.
    + rewrite list_lookup_fmap, <- !app_assoc, lookup_app_r by lia.
      rewrite Nat.sub_diag. reflexivity.
  - apply list_elem_of_singleton in Hi as ->. lia.
Qed.

(** X2.  [japacker_sort_empty_area] is one step of an insertion sort that
    walks backwards from [current].  On a well-formed list in ascending order
    of the comparator, when no member after [current] has a comparator
    below that of the area, the call returns and the list, now with the area
    in it, is again well formed and in ascending order. *)
Theorem X2_sort_keeps_order d l1 l2 area :
  repr d (l1 ++ l2) -> area ∉ l1 ++ l2 -> valid d area ->
  ascending (comparators d) ->
  (forall i, i ∈ l2 -> cmp_at d area <= cmp_at d i) ->
  exists d' la lb,
    japacker_sort_empty_area d area (last l1) = Ok d' /\
    l1 ++ l2 = la ++ lb /\
    repr d' (la ++ area :: lb) /\
    listed d' = la ++ area :: lb /\
    ascending (comparators d').
Proof.
  intros Hr Ha Hv Hasc Hl2.
  assert (Hcomp : comparators d = cmp_at d <$> (l1 ++ l2)).
  { unfold comparators. rewrite (listed_repr _ _ Hr). reflexivity. }
  rewrite Hcomp in Hasc.
  assert (Hgoal : exists d' la lb,
    japacker_sort_empty_area d area (last l1) = Ok d' /\
    l1 ++ l2 = la ++ lb /\ repr d' (la ++ area :: lb) /\
    (forall i, i ∈ la -> cmp_at d i <= cmp_at d area) /\
    (forall i, i ∈ lb -> cmp_at d area <= cmp_at d i)).
  { unfold japacker_sort_empty_area.
    pose proof Hr as (Hnd & Hf & Hl & Hseg & Hout).
    destruct (ea_first d) as [f|] eqn:Ef.
    - destruct (sort_walk_order d l1 l2 area (length (ea_list d)))
        as (d' & la & lb & [O1 O2] & E & -> & Hr' & _); auto.
      + intros H. rewrite H in Hf. discriminate.
      + pose proof (repr_length _ _ Hr) as Hlen.
        rewrite length_app in Hlen. lia.
      + exists d', la, (lb ++ l2). split; [exact E|].
        split; [rewrite app_assoc; reflexivity|]. split; [exact Hr'|].
        split.
        * intros i Hi. destruct (last la) as [z|] eqn:Hz.
          -- specialize (O2 z eq_refl).
             rewrite <- app_assoc in Hasc.
             pose proof (ascending_below_last (cmp_at d) la (lb ++ l2) z i
                           Hasc Hz Hi). lia.
          -- apply last_None in Hz. subst la. inversion Hi.
        * intros i Hi. apply elem_of_app in Hi as [Hi|Hi]; auto.
    - assert (l1 ++ l2 = []) as E
        by (destruct (l1 ++ l2); [auto|discriminate]).
      destruct (sort_empty_area_spec d l1 l2 area Hr Ha Hv)
        as (d' & la & lb & E' & Hsplit & Hr' & _).
      unfold japacker_sort_empty_area in E'. rewrite Ef in E'.
      exists d', la, lb. split; [exact E'|]. split; [exact Hsplit|].
      split; [exact Hr'|]. rewrite E in Hsplit. symmetry in Hsplit.
      apply app_eq_nil in Hsplit as [-> ->].
      split; intros i Hi; inversion Hi. }
  destruct Hgoal as (d' & la & lb & E & Hsplit & Hr' & Hla & Hlb).
  exists d', la, lb. split; [exact E|]. split; [exact Hsplit|].
  split; [exact Hr'|]. split; [apply listed_repr; exact Hr'|].
  unfold comparators. rewrite (listed_repr _ _ Hr').
  pose proof (sort_empty_area_cmps _ _ _ _ E) as Hc.
  change (ascending (cmp_at d' <$> (la ++ area :: lb))).
  rewrite (list_fmap_ext (cmp_at d') (cmp_at d));
    [|intros k x _; apply cmp_at_eq; exact Hc].
  rewrite fmap_app, fmap_cons. rewrite Hsplit, fmap_app in Hasc.
  apply ascending_insert; [exact Hasc| |].
  - intros x Hx. apply list_elem_of_fmap in Hx as (i & -> & Hi). auto.
  - intros y Hy. apply list_elem_of_fmap in Hy as (i & -> & Hi). auto.
Qed.

(** ** Placing one rect *)

(** X5.  On a store that is being filled, with the comparator function set
    and a slot left, [japacker_pack_rect] returns 0 or 1, and it returns 0
    only when no listed empty area takes the rect, neither as its
    [rotated] flag says nor, when rotation is allowed, with width and height
    exchanged.  A call that returns 0 leaves the store as it was and clears
    [rotated]; a call that returns 1 has marked the rect as packed, inside
    the image, in an area that took it. *)
Theorem X5_pack_rect_fails_only_without_room W H d l rect allow_rotation :
  0 <= W < UINT_RANGE -> 0 <= H < UINT_RANGE ->
  store_ok W H d l ->
  0 <= input_width rect -> 0 <= input_height rect ->
  ea_set_comparator d <> None ->
  ea_index d + 1 < Z.of_nat (length (ea_list d)) ->
  exists d' rect' ret,
    japacker_pack_rect d rect allow_rotation = Ok (d', rect', ret) /\
    ((ret = 0 /\ d' = d /\ rect' = set_output_rotated 0 rect /\
      (forall i, i ∈ l ->
         ~ fits (placed_width rect) (placed_height rect) (box_at d i)) /\
      (allow_rotation <> 0 ->
       forall i, i ∈ l ->
         ~ fits (input_height rect) (input_width rect) (box_at d i)))
     \/
     (ret = 1 /\ output_packed rect' = 1 /\
      in_image W H (footprint rect') /\
      ((output_rotated rect' = output_rotated rect /\
        exists i, i ∈ l /\
          fits (placed_width rect) (placed_height rect) (box_at d i))
       \/
       (output_rotated rect' = 1 /\ allow_rotation <> 0 /\
        forall i, i ∈ l ->
          ~ fits (placed_width rect) (placed_height rect) (box_at d i))))).
Proof.
  intros HW HH Hok Hiw Hih Hcmp Hcap.
  destruct (pack_rect_spec W H d l rect allow_rotation HW HH Hok Hiw Hih)
    as [(r & Er & P)|[[_ N]|[_ N]]]; [|contradiction|lia].
  destruct r as [[d' rect'] ret]. exists d', rect', ret.
  split; [exact Er|]. destruct P as (_ & _ & _ & P). cbn [fst snd] in P.
  destruct P as [(R & D & Rt & N1 & N2)|(R & Pk & Hrot & l' & _ & _ & _ & _ &
                                         _ & Hin & _)].
  - left. auto.
  - right. auto.
Qed.

(** The loop of [japacker_pack_rect] stops at the first listed area that is
    not skipped. *)
Lemma find_fit_first d la a lb width height :
  forall l0 steps,
    repr d (l0 ++ la ++ a :: lb) ->
    (length (la ++ a :: lb) <= steps)%nat ->
    (forall i, i ∈ la -> ~ fits width height (box_at d i)) ->
    fits width height (box_at d a) ->
    find_fit steps d width height (head (la ++ a :: lb)) = Ok (Some a).
Proof.
  induction la as [|c la IH]; intros l0 steps Hr Hs Hno Hfit.
  - simpl in *. destruct steps as [|steps]; [lia|]. simpl.
    assert (Hva : valid d a).
    { eapply repr_valid; eauto. apply elem_of_app. right. left. }
    destruct (valid_lookup _ _ Hva) as [x Hx].
    unfold load. rewrite Hx. simpl.
    pose proof (lookup_views _ _ _ Hx) as (Hg & _).
    unfold fits, box_at in Hfit. rewrite Hg in Hfit. simpl in Hfit.
    destruct (Z.ltb_spec (area_height x) height); [lia|].
    destruct (Z.ltb_spec (area_width x) width); [lia|]. reflexivity.
  - simpl in Hs. destruct steps as [|steps]; [lia|]. simpl.
    assert (Hvc : valid d c).
    { eapply repr_valid; eauto. apply elem_of_app. right. left. }
    destruct (valid_lookup _ _ Hvc) as [x Hx].
    unfold load. rewrite Hx. simpl.
    pose proof (lookup_views _ _ _ Hx) as (Hg & Hn & _).
    assert (Hnf : ~ fits width height (box_at d c)) by (apply Hno; left).
    unfold fits, box_at in Hnf. rewrite Hg in Hnf. simpl in Hnf.
    assert (E : (area_height x <? height) || (area_width x <? width) = true).
    { apply orb_true_iff.
      destruct (Z.ltb_spec (area_height x) height); [auto|].
      destruct (Z.ltb_spec (area_width x) width); [auto|]. lia. }
    rewrite E.
    pose proof Hr as (_ & _ & _ & Hseg & _).
    apply lseg_middle in Hseg as [_ HN].
    rewrite Hn in HN. injection HN as ->. rewrite hd_or_None.
    apply (IH (l0 ++ [c]) steps).
    + rewrite <- app_assoc. exact Hr.
    + simpl. lia.
    + intros i Hi. apply Hno. right. exact Hi.
    + exact Hfit.
Qed.

(** X6.  [japacker_pack_rect] is first fit: the rect goes to the first
    listed empty area, in the order of the list, that is at least as wide
    and as high as the rect (taken as its [rotated] flag says), and its
    position is the corner of that area. *)
Theorem X6_pack_rect_first_fit W H d la a lb rect allow_rotation :
  0 <= W < UINT_RANGE -> 0 <= H < UINT_RANGE ->
  store_ok W H d (la ++ a :: lb) ->
  0 <= input_width rect -> 0 <= input_height rect ->
  ea_set_comparator d <> None ->
  ea_index d + 1 < Z.of_nat (length (ea_list d)) ->
  (forall i, i ∈ la ->
     ~ fits (placed_width rect) (placed_height rect) (box_at d i)) ->
  fits (placed_width rect) (placed_height rect) (box_at d a) ->
  exists d' rect',
    japacker_pack_rect d rect allow_rotation = Ok (d', rect', 1) /\
    rect' = set_output_packed 1
              (set_output_y (box_y (box_at d a))
                 (set_output_x (box_x (box_at d a)) rect)) /\
    footprint rect' =
    mk_box (box_x (box_at d a)) (box_y (box_at d a))
           (placed_width rect) (placed_height rect).
Proof.
  intros HW HH Hok Hiw Hih Hcmp Hcap Hno Hfit.
  pose proof (store_ok_repr _ _ _ _ Hok) as Hr.
  pose proof (repr_length _ _ Hr) as Hlen.
  pose proof Hr as (_ & Hf & _).
  unfold japacker_pack_rect, pack_rect_body at 1.
  fold (placed_width rect). fold (placed_height rect).
  rewrite Hf.
  rewrite (find_fit_first d la a lb _ _ [] _ Hr Hlen Hno Hfit). cbn [bind].
  assert (Hpw : 0 <= placed_width rect /\ 0 <= placed_height rect).
  { unfold placed_width, placed_height.
    destruct (output_rotated rect =? 0); lia. }
  destruct (place_in_spec W H d la a lb rect _ _ HW HH Hok (proj1 Hpw)
              (proj2 Hpw) Hfit)
    as [(r & Er & l' & _ & _ & _ & _ & _ & Hrect & _)|[[_ N]|[_ N]]];
    [|contradiction|lia].
  rewrite Er. cbn [bind]. destruct r as [d' rect']. cbn [fst snd] in *.
  exists d', rect'. split; [reflexivity|]. split; [exact Hrect|].
  rewrite Hrect. apply footprint_placed.
Qed.

(** ** Ordering the rects *)

Lemma s32_signed z : -2147483648 <= z < 2147483648 -> s32 z = z.
Proof.
  intros Hz. unfold s32, u32, UINT_RANGE.
  destruct (Z_lt_ge_dec z 0).
  - rewrite <- (Z.mod_add z 1) by lia. rewrite Z.mod_small by lia.
    destruct (Z.ltb_spec (z + 1 * 4294967296) 2147483648); lia.
  - rewrite Z.mod_small by lia.
    destruct (Z.ltb_spec z 2147483648); lia.
Qed.

(** X12.  The four functions handed to [qsort] order the rects from the
    largest to the smallest: as long as the measure compared (height, width,
    height + width, height * width) is below [2^31] for both rects, the
    result is positive exactly when the second rect is the larger one, and 0
    exactly when the two measures are equal. *)
Theorem X12_compare_rects rs a b :
  let ra := rect_at rs a in
  let rb := rect_at rs b in
  0 <= input_height ra -> 0 <= input_width ra ->
  0 <= input_height rb -> 0 <= input_width rb ->
  input_height ra + input_width ra < 2147483648 ->
  input_height rb + input_width rb < 2147483648 ->
  input_height ra * input_width ra < 2147483648 ->
  input_height rb * input_width rb < 2147483648 ->
  (0 < japacker_compare_rect_heights rs a b <->
   input_height ra < input_height rb) /\
  (japacker_compare_rect_heights rs a b = 0 <->
   input_height ra = input_height rb) /\
  (0 < japacker_compare_rect_widths rs a b <->
   input_width ra < input_width rb) /\
  (japacker_compare_rect_widths rs a b = 0 <->
   input_width ra = input_width rb) /\
  (0 < japacker_compare_rect_perimeters rs a b <->
   input_height ra + input_width ra < input_height rb + input_width rb) /\
  (japacker_compare_rect_perimeters rs a b = 0 <->
   input_height ra + input_width ra = input_height rb + input_width rb) /\
  (0 < japacker_compare_rect_areas rs a b <->
   input_height ra * input_width ra < input_height rb * input_width rb) /\
  (japacker_compare_rect_areas rs a b = 0 <->
   input_height ra * input_width ra = input_height rb * input_width rb).
Proof.
  intros ra rb Ha1 Ha2 Hb1 Hb2 Hpa Hpb Haa Hab.
  unfold japacker_compare_rect_heights, japacker_compare_rect_widths,
    japacker_compare_rect_perimeters, japacker_compare_rect_areas.
  fold ra rb.
  pose proof (Z.mul_nonneg_nonneg _ _ Ha1 Ha2).
  pose proof (Z.mul_nonneg_nonneg _ _ Hb1 Hb2).
  rewrite !s32_signed by lia. lia.
Qed.

(** ** The position of a pixel *)

Lemma dst_offset_plain packer rect x y :
  output_rotated rect = 0 ->
  japacker_get_dst_offset packer rect x y =
  u32 ((y + output_y rect) * dst_width_of packer rect + output_x rect + x).
Proof.
  intros Hrot. unfold japacker_get_dst_offset, dst_width_of.
  rewrite Hrot. cbn [Z.eqb].
  set (w := if _ && _ then last_image_width _ else image_width _).
  replace (if (reduce_image_size (options packer) =? 1) &&
              (u32 (output_image_index rect)
                 =? u32 (images_needed (result packer) - 1))
           then s32 (last_image_width (result packer))
           else s32 (image_width (internal_data packer)))
    with (s32 w) by (unfold w; destruct (_ && _); reflexivity).
  replace ((y + output_y rect) * s32 w + output_x rect + x)
    with ((y + output_y rect) * s32 w + (output_x rect + x)) by ring.
  rewrite u32_mul_s32. f_equal. ring.
Qed.

(** The pixel of the destination image that a pixel of the rect goes to:
    column and row. *)
Lemma dst_offset_cell packer rect W H x y :
  dst_width_of packer rect = W ->
  in_image W H (footprint rect) ->
  W * H <= UINT_RANGE ->
  0 <= x < input_width rect -> 0 <= y < input_height rect ->
  exists col row,
    inside (footprint rect) col row /\
    0 <= col < W /\ 0 <= row < H /\
    japacker_get_dst_offset packer rect x y = row * W + col /\
    (output_rotated rect = 0 ->
     col = output_x rect + x /\ row = output_y rect + y) /\
    (output_rotated rect <> 0 ->
     col = output_x rect + y /\
     row = output_y rect + input_width rect - 1 - x).
Proof.
  intros HW Hin Hbuf Hx Hy. unfold in_image, footprint in Hin.
  destruct (Z.eq_dec (output_rotated rect) 0) as [Hrot|Hrot].
  - rewrite (dst_offset_plain _ _ _ _ Hrot), HW.
    unfold footprint, inside. rewrite Hrot in *. simpl in *.
    exists (output_x rect + x), (output_y rect + y).
    split; [lia|]. split; [lia|]. split; [lia|].
    split; [|split; [auto|tauto]].
    rewrite u32_small; [ring|]. split; [nia|].
    assert ((y + output_y rect) * W + output_x rect + x < W * H); nia.
  - rewrite (dst_offset_rotated _ _ _ _ Hrot), HW.
    unfold footprint, inside. apply Z.eqb_neq in Hrot as Hrot'.
    rewrite Hrot' in *. simpl in *.
    exists (output_x rect + y), (output_y rect + input_width rect - 1 - x).
    split; [lia|]. split; [lia|]. split; [lia|].
    split; [|split; [tauto|auto]].
    rewrite u32_small; [ring|]. split; [nia|].
    assert ((output_y rect + input_width rect - 1 - x) * W + output_x rect + y
            < W * H); nia.
Qed.

(** X11.  For a rect whose region lies inside its destination image of
    [W] x [H] ([W] being the width [japacker_get_dst_offset] takes for it),
    with [W * H] pixels addressable by an [unsigned int]: every pixel of the
    rect gets an offset inside the image buffer, at a column and a row of the
    region of the rect, and two different pixels of the rect never get the
    same offset.  This holds for rotated rects as for the others. *)
Theorem X11_dst_offset_in_region packer rect W H :
  dst_width_of packer rect = W ->
  in_image W H (footprint rect) ->
  W * H <= UINT_RANGE ->
  (forall x y,
     0 <= x < input_width rect -> 0 <= y < input_height rect ->
     0 <= japacker_get_dst_offset packer rect x y < W * H /\
     inside (footprint rect)
       (japacker_get_dst_offset packer rect x y mod W)
       (japacker_get_dst_offset packer rect x y / W)) /\
  (forall x y x' y',
     0 <= x < input_width rect -> 0 <= y < input_height rect ->
     0 <= x' < input_width rect -> 0 <= y' < input_height rect ->
     japacker_get_dst_offset packer rect x y =
     japacker_get_dst_offset packer rect x' y' ->
     x = x' /\ y = y').
Proof.
  intros HW Hin Hbuf. split.
  - intros x y Hx Hy.
    destruct (dst_offset_cell packer rect W H x y HW Hin Hbuf Hx Hy)
      as (col & row & Hins & Hc & Hr & -> & _).
    split; [nia|].
    replace (row * W + col) with (col + row * W) by ring.
    rewrite Z.mod_add, Z.div_add by lia.
    rewrite Z.mod_small, Z.div_small by lia.
    replace (0 + row) with row by lia. exact Hins.
  - intros x y x' y' Hx Hy Hx' Hy' E.
    destruct (dst_offset_cell packer rect W H x y HW Hin Hbuf Hx Hy)
      as (col & row & _ & Hc & Hr & E1 & P1 & R1).
    destruct (dst_offset_cell packer rect W H x' y' HW Hin Hbuf Hx' Hy')
      as (col' & row' & _ & Hc' & Hr' & E2 & P2 & R2).
    rewrite E1, E2 in E.
    assert (row = row') by nia.
    assert (col = col') by nia.
    destruct (Z.eq_dec (output_rotated rect) 0) as [Hrot|Hrot].
    + destruct (P1 Hrot), (P2 Hrot). lia.
    + destruct (R1 Hrot), (R2 Hrot). lia.
Qed.

(** ** Sorting the rects *)

Section SortRects.

Variable qsort : (nat -> nat -> Z) -> list nat -> list nat.
Hypothesis qsort_perm : forall cmp l, qsort cmp l ≡ₚ l.

(** X10.  [japacker_sort_rects] leaves the rects and the results alone and
    makes [sorted_rects] point to every rect exactly once.  When
    [rects_are_sorted] is 1 the pointers are in the order of the rects and
    neither the options nor the store change, so the comparator function of
    the empty areas stays as it was; otherwise [rects_are_sorted] becomes 1
    and the comparator function is the one that goes with [sort_by]. *)
Theorem X10_sort_rects p :
  num_rects (internal_data p) = Z.of_nat (length (rects p)) ->
  let p' := japacker_sort_rects qsort p in
  rects p' = rects p /\ result p' = result p /\
  (exists ptrs, sorted_rects (internal_data p') = Some ptrs /\
                ptrs ≡ₚ seq 0 (length (rects p))) /\
  (rects_are_sorted (options p) = 1 ->
   sorted_rects (internal_data p') = Some (seq 0 (length (rects p))) /\
   options p' = options p /\ store_of p' = store_of p) /\
  (rects_are_sorted (options p) <> 1 ->
   rects_are_sorted (options p') = 1 /\
   sort_by (options p') = sort_by (options p) /\
   ea_set_comparator (store_of p') =
   Some (match sort_by (options p) with
         | JAPACKER_SORT_BY_PERIMETER =>
             japacker_empty_area_set_perimeter_comparator
         | JAPACKER_SORT_BY_AREA => japacker_empty_area_set_area_comparator
         | JAPACKER_SORT_BY_HEIGHT => japacker_empty_area_set_height_comparator
         | JAPACKER_SORT_BY_WIDTH => japacker_empty_area_set_width_comparator
         end)).
Proof.
  intros Hn. cbv zeta. unfold japacker_sort_rects.
  rewrite Hn, Nat2Z.id.
  destruct (Z.eqb_spec (rects_are_sorted (options p)) 1) as [Hs|Hs].
  - split; [reflexivity|]. split; [reflexivity|].
    split; [eexists; split; [reflexivity|reflexivity]|].
    split; [intros _; repeat split|intros H; contradiction].
  - split; [reflexivity|]. split; [reflexivity|].
    split; [eexists; split; [reflexivity|apply qsort_perm]|].
    split; [intros H; contradiction|intros _].
    split; [reflexivity|]. split; [reflexivity|].
    destruct (sort_by (options p)); reflexivity.
Qed.

End SortRects.

(** ** The inputs are read only *)

Ltac bind_inv_all H :=
  repeat (let x := fresh "x" in
          let E := fresh "E" in
          apply bind_inv in H as (x & E & H)).

(** The body of the loop of [japacker_pack_rect] writes the position and
    [packed]. *)
Lemma place_in_rect d rect area width height d' rect' :
  place_in d rect area width height = Ok (d', rect') ->
  exists x y,
    rect' = set_output_packed 1 (set_output_y y (set_output_x x rect)).
Proof.
  unfold place_in. intros E.
  apply bind_inv in E as (ax & _ & E).
  apply bind_inv in E as (ay & _ & E).
  apply bind_inv in E as (ah & _ & E).
  apply bind_inv in E as (aw & _ & E).
  exists ax, ay.
  destruct (_ && _); [|destruct (height =? ah); [|destruct (width =? aw)]];
    bind_inv_all E; injection E as _ <-; reflexivity.
Qed.

Lemma pack_rect_inputs d rect allow_rotation d' rect' ret :
  japacker_pack_rect d rect allow_rotation = Ok (d', rect', ret) ->
  rect_inputs rect' = rect_inputs rect.
Proof.
  unfold japacker_pack_rect, pack_rect_body at 1. intros E.
  apply bind_inv in E as (found & _ & E). destruct found as [area|].
  { apply bind_inv in E as ([d1 r1] & E1 & E). injection E as _ <- _.
    apply place_in_rect in E1 as (x & y & ->). reflexivity. }
  destruct (allow_rotation =? 0); [injection E as _ <- _; reflexivity|].
  unfold pack_rect_body in E.
  apply bind_inv in E as (found & _ & E). destruct found as [area|].
  { apply bind_inv in E as ([d1 r1] & E1 & E). injection E as _ <- _.
    apply place_in_rect in E1 as (x & y & ->). reflexivity. }
  simpl in E. injection E as _ <- _. reflexivity.
Qed.

Lemma inputs_insert (rs : list japacker_rect) ptr rect rect' :
  rs !! ptr = Some rect -> rect_inputs rect' = rect_inputs rect ->
  rect_inputs <$> <[ptr := rect']> rs = rect_inputs <$> rs.
Proof.
  intros Hl Hj. rewrite list_fmap_insert. apply list_insert_id.
  rewrite list_lookup_fmap, Hl. simpl. congruence.
Qed.

(** The call on the packer, for a rect that has the inputs of [*ptr]. *)
Lemma pack_rect_in_inputs p ptr rect0 rect p' ret :
  rects p !! ptr = Some rect0 -> rect_inputs rect = rect_inputs rect0 ->
  pack_rect_in p ptr rect = Ok (p', ret) ->
  rect_inputs <$> rects p' = rect_inputs <$> rects p /\
  exists rect', rects p' !! ptr = Some rect' /\
                rect_inputs rect' = rect_inputs rect0.
Proof.
  intros Hl Hin E. apply pack_rect_in_inv in E as (d' & rect' & E & ->).
  apply pack_rect_inputs in E. unfold store_rect. simpl.
  split; [eapply inputs_insert; [exact Hl|congruence]|].
  exists rect'. split; [|congruence].
  apply list_lookup_insert_eq. eapply lookup_lt_Some; eauto.
Qed.

Lemma pack_for_inputs count :
  forall i p locals r,
    pack_for count i p locals = Ok r ->
    rect_inputs <$> rects (fst (fst r)) = rect_inputs <$> rects p.
Proof.
  induction count as [|count IH]; intros i p locals r E.
  - simpl in E. injection E as <-. reflexivity.
  - cbn [pack_for] in E.
    apply bind_inv in E as (ptr & _ & E).
    apply bind_inv in E as (rect & E2 & E). apply load_rect_inv in E2.
    destruct (negb _ && _); [eapply IH; eauto|].
    set (rect0 := set_output_packed 0 rect) in *.
    assert (H0 : rect_inputs <$> rects (store_rect p ptr rect0) =
                 rect_inputs <$> rects p).
    { unfold store_rect. simpl. eapply inputs_insert; eauto. }
    apply bind_inv in E as ([p1 ret] & E3 & E). cbn [fst snd] in E.
    apply (pack_rect_in_inputs _ ptr rect0) in E3 as (H1 & rect' & Hl' & Hin');
      [| |reflexivity].
    2:{ unfold store_rect. simpl. apply list_lookup_insert_eq.
        eapply lookup_lt_Some; eauto. }
    destruct (ret =? 0).
    + destruct (fail_policy (options p1)).
      * injection E as <-. simpl. congruence.
      * apply IH in E. congruence.
      * bind_inv_all E.
        destruct (_ && _); [injection E as <-; simpl; congruence|].
        apply IH in E. congruence.
    + apply bind_inv in E as (rect1 & E4 & E). apply load_rect_inv in E4.
      apply IH in E. rewrite E. unfold store_rect. simpl.
      rewrite <- H0, <- H1. eapply inputs_insert; [exact E4|reflexivity].
Qed.

Lemma reduce_for_inputs count :
  forall i p image_index r,
    reduce_for count i p image_index = Ok r ->
    rect_inputs <$> rects (fst r) = rect_inputs <$> rects p.
Proof.
  induction count as [|count IH]; intros i p idx r E.
  - simpl in E. injection E as <-. reflexivity.
  - cbn [reduce_for] in E.
    apply bind_inv in E as (ptr & _ & E).
    apply bind_inv in E as (rect & E2 & E). apply load_rect_inv in E2.
    destruct (negb _); [eapply IH; eauto|].
    apply bind_inv in E as ([p1 ret] & E3 & E). cbn [fst snd] in E.
    apply (pack_rect_in_inputs _ ptr rect) in E3 as (H1 & _);
      [|exact E2|reflexivity].
    destruct (ret =? 0); [injection E as <-; exact H1|].
    apply IH in E. congruence.
Qed.

Lemma restore_for_inputs count :
  forall i p image_index p',
    restore_for count i p image_index = Ok p' ->
    rect_inputs <$> rects p' = rect_inputs <$> rects p.
Proof.
  induction count as [|count IH]; intros i p idx p' E.
  - simpl in E. injection E as <-. reflexivity.
  - cbn [restore_for] in E.
    apply bind_inv in E as (ptr & _ & E).
    apply bind_inv in E as (rect & E2 & E). apply load_rect_inv in E2.
    destruct (negb _); [eapply IH; eauto|].
    apply bind_inv in E as ([p1 ret] & E3 & E). cbn [fst snd] in E.
    apply (pack_rect_in_inputs _ ptr rect) in E3 as (H1 & _);
      [|exact E2|reflexivity].
    apply IH in E. congruence.
Qed.

Lemma reduce_while_inputs fuel :
  forall p A idx dw dh lsw lsh r,
    reduce_while fuel p A idx dw dh lsw lsh = Ok r ->
    rect_inputs <$> rects (fst (fst (fst r))) = rect_inputs <$> rects p.
Proof.
  induction fuel as [|fuel IH]; intros p A idx dw dh lsw lsh r E.
  - simpl in E. destruct (_ || _); [|discriminate].
    injection E as <-. reflexivity.
  - cbn [reduce_while] in E. destruct (_ || _); [injection E as <-; reflexivity|].
    apply bind_inv in E as (p2 & E2 & E).
    apply reset_in_frame in E2 as [_ Hr2].
    apply bind_inv in E as ([p3 failed] & E3 & E). cbn [fst snd] in E.
    apply reduce_for_inputs in E3. cbn [fst] in E3.
    assert (H3 : rect_inputs <$> rects p3 = rect_inputs <$> rects p).
    { rewrite E3, Hr2. destruct (lsw =? _); reflexivity. }
    destruct (failed =? 0).
    + destruct (_ <? _); [injection E as <-; exact H3|].
      apply IH in E. congruence.
    + apply IH in E. congruence.
Qed.

Section Inputs.

Variable qsort : (nat -> nat -> Z) -> list nat -> list nat.
Variable needed_size : Z -> Z -> Z -> Z * Z.

Lemma reduce_last_image_size_inputs p A p' :
  japacker_reduce_last_image_size needed_size p A = Ok p' ->
  rect_inputs <$> rects p' = rect_inputs <$> rects p.
Proof.
  unfold japacker_reduce_last_image_size. intros E.
  destruct (A =? 0); [discriminate|].
  destruct (_ <? _); [injection E as <-; reflexivity|].
  apply bind_inv in E as ([[[p1 returned] lsw] lsh] & E1 & E).
  apply reduce_while_inputs in E1. cbn [fst] in E1.
  destruct returned; [injection E as <-; exact E1|].
  destruct (negb _); [|injection E as <-; exact E1].
  apply bind_inv in E as (p2 & E2 & E).
  apply reset_in_frame in E2 as [_ Hr2].
  apply restore_for_inputs in E. rewrite E, Hr2. exact E1.
Qed.

Lemma pack_do_while_inputs fuel :
  forall p packed r,
    pack_do_while needed_size fuel p packed = Ok r ->
    rect_inputs <$> rects (fst r) = rect_inputs <$> rects p.
Proof.
  induction fuel as [|fuel IH]; intros p packed r E; [discriminate|].
  cbn [pack_do_while] in E.
  apply bind_inv in E as (p1 & E1 & E).
  apply reset_in_frame in E1 as [_ Hr1].
  apply bind_inv in E as ([[p2 locals] returned] & E2 & E).
  apply pack_for_inputs in E2. cbn [fst] in E2. rewrite Hr1 in E2.
  destruct returned; [injection E as <-; exact E2|].
  destruct (negb _).
  - apply IH in E. rewrite E. exact E2.
  - apply bind_inv in E as (p3 & E3 & E). injection E as <-. cbn [fst].
    destruct (_ =? 1).
    + apply reduce_last_image_size_inputs in E3. rewrite E3. exact E2.
    + injection E3 as <-. exact E2.
Qed.

Lemma pack_prepare_rects p : rects (pack_prepare qsort p) = rects p.
Proof.
  unfold pack_prepare, japacker_sort_rects.
  repeat match goal with |- context [if ?c then _ else _] =>
    destruct c end; reflexivity.
Qed.

Lemma pack_inputs p p' n :
  japacker_pack qsort needed_size p = Ok (p', n) ->
  rect_inputs <$> rects p' = rect_inputs <$> rects p.
Proof.
  intros E.
  unfold japacker_pack in E. destruct (_ || _); [injection E as <- _; auto|].
  apply pack_do_while_inputs in E. cbn [fst] in E. rewrite E.
  rewrite pack_prepare_rects. reflexivity.
Qed.

(** X7.  [japacker_pack] never writes the inputs: whenever a call returns,
    whatever the options and whatever it has packed, moved, rotated or
    repacked on the way (shrink-to-fit included), the array holds as many
    rects as before and every rect has the width and the height the user
    gave it. *)
Theorem X7_pack_keeps_inputs p p' n :
  japacker_pack qsort needed_size p = Ok (p', n) ->
  length (rects p') = length (rects p) /\
  forall i r, rects p !! i = Some r ->
    exists r', rects p' !! i = Some r' /\
               input_width r' = input_width r /\
               input_height r' = input_height r.
Proof.
  intros E.
  pose proof (pack_inputs p p' n E) as H.
  split.
  - rewrite <- (length_fmap rect_inputs (rects p')), H. apply length_fmap.
  - intros i r Hr.
    assert (Hi : (rect_inputs <$> rects p') !! i = Some (rect_inputs r))
      by (rewrite H, list_lookup_fmap, Hr; reflexivity).
    rewrite list_lookup_fmap in Hi.
    destruct (rects p' !! i) as [r'|]; [|discriminate].
    exists r'. split; [reflexivity|]. simpl in Hi. unfold rect_inputs in Hi.
    injection Hi as -> ->. auto.
Qed.

End Inputs.

(** ** The calls that cannot go wrong *)

(** The [for] loop of [japacker_pack] under [JAPACKER_STOP] and
    [JAPACKER_CONTINUE]: it never reads the first empty area, and it never
    asks for a new image. *)
Lemma pack_for_total count :
  forall i p locals,
    driver_inv (Z.of_nat i) p ->
    Z.of_nat (i + count) = num_rects (internal_data p) ->
    ea_set_comparator (store_of p) <> None ->
    fail_policy (options p) <> JAPACKER_NEW_IMAGE ->
    exists p' locals' ret,
      pack_for count i p locals = Ok (p', locals', ret) /\
      request_new_image locals' = request_new_image locals /\
      options p' = options p.
Proof.
  induction count as [|count IH]; intros i p locals Hinv Hn Hc Hpol.
  - simpl. eexists _, _, _. split; [reflexivity|]. auto.
  - cbn [pack_for]. pose proof Hinv as [Hs _].
    pose proof Hs as (Hnum & _).
    destruct (static_sorted_rect p i Hs) as (ptr & E1 & Hptr); [lia|].
    rewrite E1. cbn [bind].
    destruct (static_load_rect p ptr Hs Hptr) as (rect & E2 & Hl & Hw & Hh).
    rewrite E2. cbn [bind].
    destruct (negb (output_packed rect =? 0) && _).
    { apply IH; auto; [|lia]. eapply driver_inv_mono; [|exact Hinv]. lia. }
    set (rect0 := set_output_packed 0 rect).
    set (p0 := store_rect p ptr rect0).
    assert (Hinv0 : driver_inv (Z.of_nat i) p0)
      by (apply driver_inv_store_rect; auto).
    destruct (pack_rect_in_total (Z.of_nat i) p0 ptr rect0 Hinv0)
      as (p1 & ret & E3 & Hinv1 & Hframe & Hc1 & Hret & _).
    { change (num_rects (internal_data p0)) with (num_rects (internal_data p)).
      lia. }
    { unfold p0, store_rect. simpl. apply list_lookup_insert_eq. exact Hptr. }
    { exact Hc. }
    rewrite E3. cbn [bind fst snd].
    pose proof Hframe as (F1 & F2 & F3 & F4 & F5 & F6 & F7).
    change (options p0) with (options p) in F1.
    change (num_rects (internal_data p0)) with (num_rects (internal_data p))
      in F4.
    change (store_of p0) with (store_of p) in Hc1.
    assert (Hnext : forall p2 locals2,
      driver_inv (Z.of_nat i + 1) p2 ->
      num_rects (internal_data p2) = num_rects (internal_data p) ->
      ea_set_comparator (store_of p2) = ea_set_comparator (store_of p) ->
      options p2 = options p ->
      request_new_image locals2 = request_new_image locals ->
      exists p' locals' ret',
        pack_for count (S i) p2 locals2 = Ok (p', locals', ret') /\
        request_new_image locals' = request_new_image locals /\
        options p' = options p).
    { intros p2 locals2 Hinv2 Hn2 Hc2 Ho2 Hr2.
      destruct (IH (S i) p2 locals2) as (p' & locals' & ret' & E & R & O).
      - replace (Z.of_nat (S i)) with (Z.of_nat i + 1) by lia. exact Hinv2.
      - rewrite Hn2. lia.
      - congruence.
      - congruence.
      - exists p', locals', ret'. split; [exact E|]. split; congruence. }
    destruct Hret as [-> | ->]; simpl (_ =? 0); cbv iota.
    + rewrite F1. destruct (fail_policy (options p)) eqn:Ep.
      * eexists _, _, _. split; [reflexivity|]. auto.
      * apply Hnext; auto.
      * contradiction.
    + pose proof Hinv1 as [Hs1 _].
      destruct (static_load_rect p1 ptr Hs1) as (rect1 & E4 & _ & Hw1 & Hh1).
      { rewrite F7. unfold p0, store_rect. simpl. rewrite length_insert.
        exact Hptr. }
      rewrite E4. cbn [bind].
      apply Hnext; auto.
      apply driver_inv_store_rect; auto.
Qed.

Section Totality.

Variable qsort : (nat -> nat -> Z) -> list nat -> list nat.
Variable needed_size : Z -> Z -> Z -> Z * Z.
Hypothesis qsort_perm : forall cmp l, qsort cmp l ≡ₚ l.

(** The comparator function after the sort. *)
Lemma pack_prepare_comparator p :
  rects_are_sorted (options p) <> 1 \/ ea_set_comparator (store_of p) <> None ->
  ea_set_comparator (store_of (pack_prepare qsort p)) <> None.
Proof.
  intros H. unfold pack_prepare, japacker_sort_rects.
  destruct (Z.eqb_spec (rects_are_sorted (options p)) 1) as [Hs|Hs].
  - destruct H as [H|H]; [contradiction|].
    cbn [negb orb].
    destruct (sorted_rects (internal_data p));
      destruct (negb (always_repack _ =? 0)); exact H.
  - cbn [negb orb]. cbv zeta.
    destruct (negb (always_repack _ =? 0)); simpl; discriminate.
Qed.

(** A call with the policy to stop or to continue and without shrink-to-fit
    returns. *)
Lemma pack_returns p :
  packer_ok p ->
  (num_rects (internal_data p) =? 0) || (image_width (internal_data p) =? 0) ||
  (image_height (internal_data p) =? 0) ||
  negb (u32 (ea_size (store_of p)) =? u32 (num_rects (internal_data p) + 1))
  = false ->
  fail_policy (options p) <> JAPACKER_NEW_IMAGE ->
  reduce_image_size (options p) <> 1 ->
  rects_are_sorted (options p) <> 1 \/ ea_set_comparator (store_of p) <> None ->
  exists p' n, japacker_pack qsort needed_size p = Ok (p', n).
Proof.
  intros Hok Hvalid Hpol Hred Hcmp.
  pose proof (validation_passed p Hok Hvalid) as Hsz.
  destruct (pack_prepare_static qsort qsort_perm p Hok Hsz) as (Hs & Hr & Hn).
  destruct (pack_prepare_options qsort p) as (_ & _ & Hred' & Hpol' & _).
  cbv zeta in Hred', Hpol'.
  pose proof (pack_prepare_comparator p Hcmp) as Hc.
  unfold japacker_pack. fold (store_of p). rewrite Hvalid.
  cbn [pack_do_while].
  destruct (static_image_range _ Hs) as [HW HH].
  destruct (reset_in_total _ _ _ Hs HW HH) as (p1 & E1 & Hinv1 & Hf1 & _ & Hc1).
  rewrite E1. cbn [bind].
  destruct Hf1 as (G1 & G2 & G3 & G4 & G5 & G6 & G7).
  destruct (pack_for_total (Z.to_nat (num_rects (internal_data p))) 0 p1
              (mk_locals 0 0 0) Hinv1)
    as (p2 & locals2 & ret & E2 & Hreq & Ho2).
  { simpl. rewrite G4, Hn. destruct Hok as (-> & _). lia. }
  { congruence. }
  { congruence. }
  rewrite Hn, E2. cbn [bind]. destruct ret as [v|]; [eauto|].
  simpl in Hreq. rewrite Hreq. cbn [Z.eqb negb].
  change (reduce_image_size (options (with_last_image ?w ?h
            (with_images_needed ?k p2))))
    with (reduce_image_size (options p2)).
  rewrite Ho2, G1, Hred'. apply Z.eqb_neq in Hred. rewrite Hred.
  cbn [bind]. eauto.
Qed.

(** X13.  With [fail_policy] at [JAPACKER_STOP] or [JAPACKER_CONTINUE] and
    [reduce_image_size] off, a call of [japacker_pack] on a packer that is
    set up as [japacker_init] leaves it, for rects that [qsort] is asked to
    sort or with a comparator function left by an earlier call, always
    returns: it dereferences no null pointer, calls no null function, makes
    no access outside an array and divides by nothing. *)
Theorem X13_pack_returns p :
  packer_ok p ->
  (num_rects (internal_data p) =? 0) || (image_width (internal_data p) =? 0) ||
  (image_height (internal_data p) =? 0) ||
  negb (u32 (ea_size (store_of p)) =? u32 (num_rects (internal_data p) + 1))
  = false ->
  fail_policy (options p) <> JAPACKER_NEW_IMAGE ->
  reduce_image_size (options p) <> 1 ->
  rects_are_sorted (options p) <> 1 \/ ea_set_comparator (store_of p) <> None ->
  exists p' n, japacker_pack qsort needed_size p = Ok (p', n).
Proof. exact (pack_returns p). Qed.

End Totality.

(** ** What a call leaves is a packing *)

(** Writing a rect that is not marked as packed. *)
Lemma pass_inv_unpacked W H k rs d done ptr r0 :
  pass_inv W H k rs d done -> ptr ∉ done -> output_packed r0 = 0 ->
  pass_inv W H k (<[ptr := r0]> rs) d done.
Proof.
  intros (Hf & Hnd & Hd & Hk & Ho & Hp) Hptr H0.
  assert (Hlk : forall i r, <[ptr := r0]> rs !! i = Some r ->
            output_packed r <> 0 -> i <> ptr /\ rs !! i = Some r).
  { intros i r Hr Hpk. destruct (decide (i = ptr)) as [->|Hne].
    - apply list_lookup_insert_Some in Hr as [(_ & <- & _)|[? _]]; congruence.
    - rewrite list_lookup_insert_ne in Hr by congruence. auto. }
  split; [rewrite placed_of_insert by exact Hptr; exact Hf|].
  split; [exact Hnd|]. split; [|split; [|split]].
  - intros q Hq. destruct (Hd q Hq) as (r & Hr & Hin). exists r.
    split; [|exact Hin]. rewrite list_lookup_insert_ne; [exact Hr|].
    intros ->. contradiction.
  - intros i r Hr Hpk Hi. destruct (Hlk i r Hr Hpk) as [_ Hr']. eauto.
  - intros i r Hr Hpk Hi. destruct (Hlk i r Hr Hpk) as [_ Hr']. eauto.
  - intros i j r r' Hij Hr Hr' Hpk Hpk' Hi Hik.
    destruct (Hlk i r Hr Hpk) as [_ Hr1].
    destruct (Hlk j r' Hr' Hpk') as [_ Hr1']. eauto.
Qed.

(** Writing the rect that [japacker_pack_rect] has just placed. *)
Lemma pass_inv_placed W H k rs d d' done ptr rect allow_rotation rect' ret r2 :
  pass_inv W H k rs d done -> ptr ∉ done ->
  (ptr < length rs)%nat ->
  0 <= input_width rect -> 0 <= input_height rect ->
  japacker_pack_rect d rect allow_rotation = Ok (d', rect', ret) ->
  ret <> 0 ->
  in_image W H (footprint rect') ->
  footprint r2 = footprint rect' ->
  output_image_index r2 = k ->
  pass_inv W H k (<[ptr := r2]> rs) d' (ptr :: done).
Proof.
  intros (Hf & Hnd & Hd & Hk & Ho & Hp) Hptr Hlt Hw Hh E Hret Hin Hfp Hidx.
  assert (Hlk : forall i r, <[ptr := r2]> rs !! i = Some r ->
            (i = ptr /\ r = r2) \/ (i <> ptr /\ rs !! i = Some r)).
  { intros i r Hr. destruct (decide (i = ptr)) as [->|Hne].
    - rewrite list_lookup_insert_eq in Hr by exact Hlt. left.
      split; congruence.
    - rewrite list_lookup_insert_ne in Hr by congruence. auto. }
  split; [|split; [|split; [|split; [|split]]]].
  - unfold placed_of. rewrite fmap_cons.
    fold (placed_of (<[ptr := r2]> rs) done).
    rewrite placed_of_insert by exact Hptr.
    unfold rect_at. rewrite list_lookup_insert_eq by exact Hlt. simpl.
    rewrite Hfp.
    pose proof (filling_place W H d _ rect allow_rotation d' rect' ret
                  Hf Hw Hh E) as Hf'.
    apply Z.eqb_neq in Hret. rewrite Hret in Hf'. exact Hf'.
  - apply NoDup_cons. auto.
  - intros q Hq. apply elem_of_cons in Hq as [->|Hq].
    + exists r2. split; [apply list_lookup_insert_eq; exact Hlt|].
      rewrite Hfp. exact Hin.
    + destruct (Hd q Hq) as (r & Hr & Hin'). exists r.
      split; [|exact Hin']. rewrite list_lookup_insert_ne; [exact Hr|].
      intros ->. contradiction.
  - intros i r Hr Hpk Hi. destruct (Hlk i r Hr) as [[-> _]|[_ Hr']];
      [left|right; eauto].
  - intros i r Hr Hpk Hi. destruct (Hlk i r Hr) as [[_ ->]|[_ Hr']];
      [congruence|eauto].
  - intros i j r r' Hij Hr Hr' Hpk Hpk' Hi Hik.
    destruct (Hlk i r Hr) as [[_ ->]|[_ Hr1]]; [congruence|].
    destruct (Hlk j r' Hr') as [[_ ->]|[_ Hr1']]; [congruence|]. eauto.
Qed.

(** What holds when the pass is over, or left. *)
Lemma pass_inv_valid W H k rs d done :
  0 <= W < UINT_RANGE -> 0 <= H < UINT_RANGE -> 0 <= k ->
  pass_inv W H k rs d done ->
  valid_packing W H rs /\ packed_below (k + 1) rs.
Proof.
  intros HW HH Hk0 (Hf & Hnd & Hd & Hk & Ho & Hp).
  split; [split|].
  - intros i r Hr Hpk.
    destruct (Z.eq_dec (output_image_index r) k) as [E|E].
    + destruct (Hd i (Hk i r Hr Hpk E)) as (r1 & Hr1 & Hin). congruence.
    + apply (Ho i r Hr Hpk E).
  - intros i j r r' Hij Hr Hr' Hpk Hpk' Hidx.
    destruct (Z.eq_dec (output_image_index r) k) as [E|E].
    + apply (placed_of_disjoint W H rs d done i j r r' HW HH Hf Hnd);
        [apply (Hk i r Hr Hpk E)|apply (Hk j r' Hr' Hpk'); congruence
        |exact Hij|exact Hr|exact Hr'].
    + eapply Hp; eauto.
  - intros i r Hr Hpk.
    destruct (Z.eq_dec (output_image_index r) k) as [E|E]; [lia|].
    destruct (Ho i r Hr Hpk E). lia.
Qed.

(** What holds when a pass starts. *)
Lemma pass_inv_start W H k rs d0 d :
  comparator_ok d0 ->
  ea_size d0 = Z.of_nat (length (ea_list d0)) ->
  japacker_reset_empty_areas d0 W H = Ok d ->
  valid_packing W H rs -> packed_below k rs ->
  pass_inv W H k rs d [].
Proof.
  intros Hc Hs E [V1 V2] Hb.
  split; [eapply filling_reset; eauto|]. split; [apply NoDup_nil_2|].
  split; [intros q Hq; inversion Hq|]. split; [|split].
  - intros i r Hr Hpk Hi. specialize (Hb i r Hr Hpk). lia.
  - intros i r Hr Hpk Hi. split; [apply (Hb i r Hr Hpk)|eauto].
  - intros i j r r' Hij Hr Hr' Hpk Hpk' Hi _. eauto.
Qed.

Lemma footprint_marked k rect :
  footprint (set_output_packed 1 (set_output_image_index k rect)) =
  footprint rect.
Proof. destruct rect. reflexivity. Qed.

(** The first area of the list is a listed area. *)
Lemma first_listed W H d l f fw fh :
  store_ok W H d l ->
  deref (ea_first d) = Ok f ->
  rd d f area_width = Ok fw -> rd d f area_height = Ok fh ->
  f ∈ l /\ fw = box_w (box_at d f) /\ fh = box_h (box_at d f).
Proof.
  intros Hok Ef Ew Eh. pose proof (store_ok_repr _ _ _ _ Hok) as Hr.
  assert (Hin : f ∈ l).
  { destruct Hr as (_ & Hfirst & _). rewrite Hfirst in Ef.
    destruct l as [|a l]; [discriminate|]. simpl in Ef.
    injection Ef as <-. left. }
  split; [exact Hin|].
  destruct (rd_box d f (repr_valid d l f Hr Hin)) as (_ & _ & Ew' & Eh').
  rewrite Ew' in Ew. rewrite Eh' in Eh. split; congruence.
Qed.

(** One pass of the loop of [japacker_pack] over the rects: the rects it
    places are added to the ones of the image, the others are left or
    marked as not packed.  Under [JAPACKER_NEW_IMAGE], when the empty image
    takes every rect that is not packed, the pass does not return from
    inside the loop, and it packs every rect it meets unless it asks for a
    new image. *)
Lemma pack_for_valid W H k ptrs count :
  0 <= W < UINT_RANGE -> 0 <= H < UINT_RANGE -> NoDup ptrs ->
  forall i p locals r done,
    pack_for count i p locals = Ok r ->
    sorted_rects (internal_data p) = Some ptrs ->
    s32 (images_needed (result p)) = k ->
    nonneg_inputs (rects p) ->
    pass_inv W H k (rects p) (store_of p) done ->
    (forall ptr, ptr ∈ done ->
       exists j, (j < i)%nat /\ ptrs !! j = Some ptr) ->
    (exists done',
       pass_inv W H k (rects (fst (fst r))) (store_of (fst (fst r))) done') /\
    (fail_policy (options p) = JAPACKER_NEW_IMAGE ->
     image_width (internal_data p) = W ->
     image_height (internal_data p) = H ->
     Forall (fits_image W H) (rects p) ->
     met_packed ptrs i (rects p) (request_new_image locals) ->
     snd r = None /\
     Forall (fits_image W H) (rects (fst (fst r))) /\
     met_packed ptrs (i + count) (rects (fst (fst r)))
       (request_new_image (snd (fst r)))).
Proof.
  intros HW HH Hnd.
  induction count as [|count IH]; intros i p locals r done E Hs Hk Hnn Hinv Hdone.
  { simpl in E. injection E as <-. split; [exists done; exact Hinv|].
    intros _ _ _ Hfit Hmet. cbn [fst snd]. rewrite Nat.add_0_r. auto. }
  replace (i + S count)%nat with (S i + count)%nat by lia.
  cbn [pack_for] in E.
  apply bind_inv in E as (ptr & E1 & E).
  apply sorted_rect_inv in E1 as (ptrs' & Hs' & Hptr).
  rewrite Hs in Hs'. injection Hs' as <-.
  apply bind_inv in E as (rect & E2 & E). apply load_rect_inv in E2.
  assert (Hnew : ptr ∉ done).
  { intros Hin. destruct (Hdone ptr Hin) as (j & Hj & Hpj).
    pose proof (NoDup_lookup _ _ _ _ Hnd Hpj Hptr). lia. }
  assert (Hnext : forall q, q ∈ done ->
            exists j, (j < S i)%nat /\ ptrs !! j = Some q).
  { intros q Hq. destruct (Hdone q Hq) as (j & Hj & Hpj).
    exists j. split; [lia|exact Hpj]. }
  destruct (negb _ && _) eqn:T.
  { destruct (IH _ _ _ _ _ E Hs Hk Hnn Hinv Hnext) as [Hv Hc].
    split; [exact Hv|]. intros Hpol HwW HhH Hfit Hmet.
    apply Hc; auto. intros Hreq j q Hj Hq.
    destruct (decide (j = i)) as [->|Hne].
    - rewrite Hptr in Hq. injection Hq as <-. exists rect.
      split; [exact E2|]. apply andb_true_iff in T as [T _].
      apply negb_true_iff, Z.eqb_neq in T. exact T.
    - apply (Hmet Hreq j q); [lia|exact Hq]. }
  assert (Hpk0 : output_packed rect = 0).
  { destruct (Z.eqb_spec (output_packed rect) 0) as [e|ne]; [exact e|].
    exfalso. cbn [negb andb] in T. apply orb_false_iff in T as [_ T].
    apply negb_false_iff, Z.eqb_eq in T. rewrite T in Hk.
    destruct Hinv as (_ & _ & _ & H4 & H5 & _).
    destruct (Z.eq_dec (output_image_index rect) k) as [e|ne'].
    - apply Hnew. apply (H4 ptr rect E2 ne e).
    - destruct (H5 ptr rect E2 ne ne') as [Hr _].
      change (s32 0) with 0 in Hk. lia. }
  clear T.
  set (rect0 := set_output_packed 0 rect) in *.
  set (p0 := store_rect p ptr rect0) in *.
  assert (Hlt : (ptr < length (rects p))%nat)
    by (eapply lookup_lt_Some; eauto).
  assert (Hrect : 0 <= input_width rect /\ 0 <= input_height rect)
    by (apply (Forall_lookup_1 _ _ _ _ Hnn E2)).
  assert (Hinv0 : pass_inv W H k (rects p0) (store_of p) done)
    by (apply pass_inv_unpacked; auto).
  assert (Hnn0 : nonneg_inputs (rects p0))
    by (apply Forall_insert; [exact Hnn|exact Hrect]).
  assert (Hfit0 : Forall (fits_image W H) (rects p) ->
            output_rotated rect = 0 /\ input_width rect <= W /\
            input_height rect <= H).
  { intros Hfit.
    destruct (Forall_lookup_1 _ _ _ _ Hfit E2) as [Hp|Hp];
      [contradiction|exact Hp]. }
  apply bind_inv in E as ([p1 ret] & E3 & E). cbn [fst snd] in E.
  apply pack_rect_in_inv in E3 as (d' & rect' & E3 & ->).
  change (data_empty_areas (internal_data p0)) with (store_of p) in E3.
  destruct Hinv0 as (Hf & Hinv0').
  destruct (filling_invariant W H _ _ HW HH Hf) as (l & Hok & _).
  pose proof (pack_rect_spec W H _ l rect0 (allow_rotation (options p0))
                HW HH Hok (proj1 Hrect) (proj2 Hrect)) as Hspec.
  destruct Hspec as [(a & Ea & Hpost)|[[Ea _]|[Ea _]]];
    rewrite E3 in Ea; [|discriminate|discriminate].
  injection Ea as <-. destruct Hpost as (Hw' & Hh' & _ & Hpost).
  cbn [fst snd] in Hw', Hh', Hpost.
  assert (Hnn1 : nonneg_inputs (<[ptr := rect']> (rects p0))).
  { apply Forall_insert; [exact Hnn0|]. rewrite Hw', Hh'. exact Hrect. }
  destruct Hpost as [(-> & -> & -> & Hnofit & _)
                    |(-> & Hpk & _ & l' & _ & _ & _ & _ & _ & Hin & _)].
  - assert (Hinv1 : pass_inv W H k (<[ptr := set_output_rotated 0 rect0]> (rects p0))
                      (store_of p) done).
    { apply pass_inv_unpacked; [split; assumption|exact Hnew|reflexivity]. }
    assert (Hfit1 : Forall (fits_image W H) (rects p) ->
              Forall (fits_image W H)
                (<[ptr := set_output_rotated 0 rect0]> (rects p0))).
    { intros Hfit. destruct (Hfit0 Hfit) as (Hrot & Hdims).
      apply Forall_insert; [apply Forall_insert; [exact Hfit|]|];
        right; simpl; auto. }
    cbn [Z.eqb] in E.
    destruct (fail_policy _) eqn:Hp.
    + injection E as <-. split; [exists done; exact Hinv1|].
      intros Hpol. exfalso.
      assert (Hp' : fail_policy (options p) = JAPACKER_STOP) by exact Hp.
      congruence.
    + destruct (IH _ _ _ _ done E Hs Hk Hnn1) as [Hv Hc];
        [destruct p, internal_data; exact Hinv1|exact Hnext|].
      split; [exact Hv|]. intros Hpol. exfalso.
      assert (Hp' : fail_policy (options p) = JAPACKER_CONTINUE) by exact Hp.
      congruence.
    + apply bind_inv in E as (f & Ef & E).
      apply bind_inv in E as (fw & Ew & E).
      apply bind_inv in E as (fh & Eh & E).
      destruct (first_listed W H (store_of p) l f fw fh Hok Ef Ew Eh)
        as (Hfl & Hfw & Hfh).
      destruct (_ && _) eqn:Hfull.
      * injection E as <-.
        split; [exists done; destruct p, internal_data; exact Hinv1|].
        intros Hpol HwW HhH Hfit Hmet. exfalso.
        apply andb_true_iff in Hfull as [A B]. apply Z.eqb_eq in A, B.
        assert (A' : fw = W) by (rewrite <- HwW; exact A).
        assert (B' : fh = H) by (rewrite <- HhH; exact B).
        destruct (Hfit0 Hfit) as (Hrot & Hdw & Hdh).
        apply (Hnofit f Hfl). unfold fits, placed_width, placed_height.
        change (output_rotated rect0) with (output_rotated rect).
        rewrite Hrot. simpl. lia.
      * destruct (IH _ _ _ _ done E Hs Hk Hnn1) as [Hv Hc];
          [destruct p, internal_data; exact Hinv1|exact Hnext|].
        split; [exact Hv|]. intros Hpol HwW HhH Hfit Hmet.
        apply Hc; [exact Hp|exact HwW|exact HhH|exact (Hfit1 Hfit)|].
        intros Hreq. discriminate Hreq.
  - cbn [Z.eqb] in E.
    apply bind_inv in E as (rect1 & E4 & E). apply load_rect_inv in E4.
    assert (Hlt0 : (ptr < length (rects p0))%nat).
    { unfold p0, store_rect. simpl. rewrite length_insert. exact Hlt. }
    assert (rect1 = rect') as ->.
    { unfold store_rect in E4. simpl in E4.
      rewrite list_lookup_insert_eq in E4 by exact Hlt0. congruence. }
    set (r2 := set_output_packed 1
                 (set_output_image_index (s32 (images_needed (result p)))
                    rect')).
    assert (Hgoal : pass_inv W H k (<[ptr := r2]> (rects p0)) d'
                      (ptr :: done)).
    { eapply (pass_inv_placed W H k (rects p0) (store_of p) d' done ptr rect0);
        [split; assumption|exact Hnew|exact Hlt0|apply Hrect|apply Hrect
        |exact E3|discriminate|exact Hin|apply footprint_marked
        |rewrite <- Hk; destruct rect'; reflexivity]. }
    assert (Hrs2 : <[ptr := r2]> (<[ptr := rect']> (rects p0)) =
                   <[ptr := r2]> (rects p0))
      by apply list_insert_insert_eq.
    destruct (IH _ _ _ _ (ptr :: done) E Hs Hk) as [Hv Hc].
    + unfold store_rect. simpl. apply Forall_insert; [exact Hnn1|].
      simpl. rewrite Hw', Hh'. exact Hrect.
    + change (pass_inv W H k (<[ptr := r2]> (<[ptr := rect']> (rects p0)))
                d' (ptr :: done)).
      rewrite Hrs2. exact Hgoal.
    + intros q Hq. apply elem_of_cons in Hq as [->|Hq].
      * exists i. split; [lia|exact Hptr].
      * apply Hnext, Hq.
    + split; [exact Hv|]. intros Hpol HwW HhH Hfit Hmet.
      apply Hc; [exact Hpol|exact HwW|exact HhH| |].
      * change (Forall (fits_image W H)
                  (<[ptr := r2]> (<[ptr := rect']> (rects p0)))).
        rewrite Hrs2.
        apply Forall_insert; [apply Forall_insert; [exact Hfit|]|].
        -- right. exact (Hfit0 Hfit).
        -- left. discriminate.
      * change (met_packed ptrs (S i)
                  (<[ptr := r2]> (<[ptr := rect']> (rects p0)))
                  (request_new_image locals)).
        rewrite Hrs2. intros Hreq j q Hj Hq.
        destruct (decide (q = ptr)) as [->|Hne].
        -- exists r2. split; [apply list_lookup_insert_eq; exact Hlt0|].
           discriminate.
        -- assert (Hji : (j < i)%nat).
           { destruct (decide (j = i)) as [->|]; [congruence|lia]. }
           destruct (Hmet Hreq j q Hji Hq) as (r0 & Hr0 & Hp0).
           exists r0. split; [|exact Hp0]. unfold p0, store_rect. simpl.
           rewrite !list_lookup_insert_ne by congruence. exact Hr0.
Qed.

(** The loop leaves the size of the image alone. *)
Lemma pack_for_dims count :
  forall i p locals r,
    pack_for count i p locals = Ok r ->
    image_width (internal_data (fst (fst r))) = image_width (internal_data p) /\
    image_height (internal_data (fst (fst r))) = image_height (internal_data p).
Proof.
  induction count as [|count IH]; intros i p locals r E.
  - simpl in E. injection E as <-. auto.
  - cbn [pack_for] in E.
    apply bind_inv in E as (ptr & _ & E).
    apply bind_inv in E as (rect & _ & E).
    destruct (negb _ && _); [eapply IH; eauto|].
    apply bind_inv in E as ([p1 ret] & E3 & E). cbn [fst snd] in E.
    apply pack_rect_in_frame in E3 as [(_ & _ & _ & _ & Hw & Hh & _) _].
    cbn in Hw, Hh.
    destruct (ret =? 0).
    + destruct (fail_policy (options p1)).
      * injection E as <-. auto.
      * apply IH in E. rewrite Hw, Hh in E. exact E.
      * bind_inv_all E.
        destruct (_ && _); [injection E as <-; auto|].
        apply IH in E. rewrite Hw, Hh in E. exact E.
    + apply bind_inv in E as (rect1 & _ & E).
      apply IH in E. cbn in E. rewrite Hw, Hh in E. exact E.
Qed.

Section ValidPacking.

Variable qsort : (nat -> nat -> Z) -> list nat -> list nat.
Variable needed_size : Z -> Z -> Z -> Z * Z.
Hypothesis qsort_perm : forall cmp l, qsort cmp l ≡ₚ l.

Lemma pack_do_while_valid W H fuel :
  forall p packed r,
    pack_do_while needed_size fuel p packed = Ok r ->
    packer_static p ->
    image_width (internal_data p) = W -> image_height (internal_data p) = H ->
    reduce_image_size (options p) <> 1 ->
    valid_packing W H (rects p) ->
    packed_below (images_needed (result p)) (rects p) ->
    0 <= images_needed (result p) ->
    images_needed (result p) + Z.of_nat fuel <= 2147483648 ->
    valid_packing W H (rects (fst r)) /\
    (fail_policy (options p) = JAPACKER_NEW_IMAGE ->
     Forall (fits_image W H) (rects p) ->
     Forall (fun r => output_packed r <> 0) (rects (fst r)) /\
     packed_below (images_needed (result (fst r))) (rects (fst r))).
Proof.
  induction fuel as [|fuel IH];
    intros p packed r E Hst HW HH Hred Hv Hb Hk0 Hfuel; [discriminate|].
  cbn [pack_do_while] in E. rewrite HW, HH in E.
  pose proof (static_image_range p Hst) as [HWr HHr]. rewrite HW in HWr.
  rewrite HH in HHr.
  destruct (reset_in_spec p W H Hst HWr HHr)
    as (p1 & E1 & Hd1 & Hfr1 & Hr1 & _).
  rewrite E1 in E. cbn [bind] in E.
  destruct Hfr1 as (Ho1 & Hres1 & Hs1 & Hn1 & Hw1 & Hh1 & _).
  assert (Hinv : pass_inv W H (images_needed (result p)) (rects p1)
                   (store_of p1) []).
  { unfold reset_in in E1. apply bind_inv in E1 as (d & Ed & E1).
    injection E1 as <-. destruct Hst as (_ & Hsz & _ & _ & Hc & _).
    rewrite Hr1.
    apply (pass_inv_start W H _ _ (data_empty_areas (internal_data p)) d);
      auto. }
  apply bind_inv in E as ([[p2 locals] returned] & E2 & E).
  destruct Hst as (Hnum & _ & _ & Hcap & _ & _ & _ & (ptrs & Hptrs & Hperm) & Hnn).
  assert (Hnd : NoDup ptrs) by (rewrite Hperm; apply NoDup_seq).
  destruct (pack_for_valid W H (images_needed (result p)) ptrs _ HWr HHr Hnd
              _ _ _ _ [] E2) as [(done' & Hinv2) Hcomplete].
  { congruence. }
  { rewrite Hres1. apply s32_small. lia. }
  { unfold nonneg_inputs. rewrite Hr1. exact Hnn. }
  { exact Hinv. }
  { intros q Hq. inversion Hq. }
  cbn [fst snd] in Hinv2, Hcomplete.
  rewrite Ho1, Hw1, Hh1, Hr1 in Hcomplete.
  assert (Hcomplete' :
    fail_policy (options p) = JAPACKER_NEW_IMAGE ->
    Forall (fits_image W H) (rects p) ->
    returned = None /\ Forall (fits_image W H) (rects p2) /\
    (request_new_image locals = 0 ->
     Forall (fun r => output_packed r <> 0) (rects p2))).
  { intros Hpol Hfit.
    destruct (Hcomplete Hpol HW HH Hfit) as (Hret & Hfit2 & Hmet).
    { intros _ j q Hj. lia. }
    split; [exact Hret|]. split; [exact Hfit2|].
    intros Hreq. apply Forall_lookup_2. intros q rq Hq.
    assert (Hin : q ∈ ptrs).
    { rewrite Hperm. apply elem_of_seq.
      pose proof (lookup_lt_Some _ _ _ Hq) as Hlt.
      assert (Hlen : length (rects p2) = length (rects p)).
      { pose proof (pack_for_inputs _ _ _ _ _ E2) as Hi. cbn [fst] in Hi.
        rewrite Hr1 in Hi.
        rewrite <- (length_fmap rect_inputs (rects p2)), Hi.
        apply length_fmap. }
      lia. }
    apply list_elem_of_lookup_1 in Hin as [j Hj].
    destruct (Hmet Hreq j q) as (r0 & Hr0 & Hp0); [|exact Hj|congruence].
    pose proof (lookup_lt_Some _ _ _ Hj) as Hlt.
    rewrite Hperm, length_seq in Hlt. lia. }
  clear Hcomplete.
  apply (pass_inv_valid W H _ _ _ _ HWr HHr Hk0) in Hinv2 as [Hv2 Hb2].
  destruct returned as [v|].
  { injection E as <-. split; [exact Hv2|]. intros Hpol Hfit.
    destruct (Hcomplete' Hpol Hfit) as [Hret _]. discriminate Hret. }
  assert (Hcount : Z.of_nat (0 + Z.to_nat (num_rects (internal_data p)))
                   = num_rects (internal_data p1)) by (rewrite Hn1; lia).
  pose proof (pack_for_safe _ 0 p1 (mk_locals 0 packed 0) Hd1 Hcount) as Hsafe.
  rewrite E2 in Hsafe. destruct Hsafe as [[Hst2 _] _].
  destruct (pack_for_frame _ _ _ _ _ _ E2) as [Ho2 Hres2].
  destruct (pack_for_dims _ _ _ _ _ E2) as [Hw2 Hh2]. cbn [fst] in Hw2, Hh2.
  assert (Hu : u32 (images_needed (result p2) + 1) =
               images_needed (result p) + 1).
  { rewrite Hres2, Hres1. apply u32_small. unfold UINT_RANGE. lia. }
  rewrite Hu in E.
  destruct (negb _) eqn:Hreq.
  - apply IH in E; [|exact Hst2| | | | | | |]; cbn.
    + destruct E as [Ev Ec]. split; [exact Ev|]. intros Hpol Hfit.
      destruct (Hcomplete' Hpol Hfit) as (_ & Hfit2 & _).
      apply Ec; [|exact Hfit2]. cbn. congruence.
    + congruence.
    + congruence.
    + rewrite Ho2, Ho1. exact Hred.
    + exact Hv2.
    + exact Hb2.
    + lia.
    + lia.
  - cbn in E.
    replace (reduce_image_size (options p2) =? 1) with false in E.
    2:{ symmetry. apply Z.eqb_neq. rewrite Ho2, Ho1. exact Hred. }
    cbn [bind] in E. injection E as <-. split; [exact Hv2|].
    intros Hpol Hfit. destruct (Hcomplete' Hpol Hfit) as (_ & _ & Hall).
    apply negb_false_iff, Z.eqb_eq in Hreq. split; [exact (Hall Hreq)|].
    exact Hb2.
Qed.

(** Without shrink-to-fit a call turns a packing into a packing, and under
    [JAPACKER_NEW_IMAGE] it leaves no rect that the empty image takes. *)
Lemma pack_valid p p' n :
  let W := image_width (internal_data p) in
  let H := image_height (internal_data p) in
  packer_ok p ->
  reduce_image_size (options p) <> 1 ->
  valid_packing W H (rects p) ->
  packed_below (if always_repack (options p) =? 0
                then images_needed (result p) else 0) (rects p) ->
  0 <= images_needed (result p) ->
  images_needed (result p) + num_rects (internal_data p) + 2 <= 2147483648 ->
  japacker_pack qsort needed_size p = Ok (p', n) ->
  valid_packing W H (rects p') /\
  ((num_rects (internal_data p) =? 0) || (image_width (internal_data p) =? 0) ||
   (image_height (internal_data p) =? 0) ||
   negb (u32 (ea_size (store_of p)) =? u32 (num_rects (internal_data p) + 1))
   = false ->
   fail_policy (options p) = JAPACKER_NEW_IMAGE ->
   Forall (fits_image W H) (rects p) ->
   Forall (fun r => output_packed r <> 0) (rects p') /\
   packed_below (images_needed (result p')) (rects p')).
Proof.
  intros W H Hok Hred Hv Hb Hk0 Hcap E.
  unfold japacker_pack in E. fold (store_of p) in E.
  destruct (_ || _) eqn:Hval.
  { injection E as <- _. split; [exact Hv|]. discriminate. }
  pose proof (validation_passed p Hok Hval) as Hsz.
  destruct (pack_prepare_static qsort qsort_perm p Hok Hsz) as (Hst & Hr & Hn).
  destruct (pack_prepare_options qsort p) as (_ & _ & Hred' & Hpol' & Him).
  cbv zeta in Hred', Hpol', Him.
  assert (Hnum : 0 <= num_rects (internal_data p)).
  { destruct Hok as (-> & _). lia. }
  apply (pack_do_while_valid W H) in E; [|exact Hst| | | | | | |].
  - cbn [fst] in E. destruct E as [Ev Ec]. split; [exact Ev|].
    intros _ Hpol Hfit. apply Ec; [congruence|rewrite Hr; exact Hfit].
  - unfold pack_prepare, japacker_sort_rects.
    repeat match goal with |- context [if ?c then _ else _] =>
      destruct c end; reflexivity.
  - unfold pack_prepare, japacker_sort_rects.
    repeat match goal with |- context [if ?c then _ else _] =>
      destruct c end; reflexivity.
  - rewrite Hred'. exact Hred.
  - rewrite Hr. exact Hv.
  - rewrite Hr, Him. destruct (always_repack (options p) =? 0); exact Hb.
  - rewrite Him. destruct (always_repack (options p) =? 0); simpl; lia.
  - rewrite Him.
    destruct (always_repack (options p) =? 0); simpl negb; cbv iota; lia.
Qed.

(** X8.  Without shrink-to-fit, [japacker_pack] turns a packing into a
    packing: if the rects marked as packed lie in the image, no two of one
    image overlap, and their images come before the one the call starts
    with (none is marked when [always_repack] restarts the count), then
    whenever the call returns, with whatever policy and result, every rect
    marked as packed lies in the image and no two of them of the same image
    overlap. *)
Theorem X8_pack_is_valid p p' n :
  let W := image_width (internal_data p) in
  let H := image_height (internal_data p) in
  packer_ok p ->
  reduce_image_size (options p) <> 1 ->
  valid_packing W H (rects p) ->
  packed_below (if always_repack (options p) =? 0
                then images_needed (result p) else 0) (rects p) ->
  0 <= images_needed (result p) ->
  images_needed (result p) + num_rects (internal_data p) + 2 <= 2147483648 ->
  japacker_pack qsort needed_size p = Ok (p', n) ->
  valid_packing W H (rects p').
Proof.
  intros W H Hok Hred Hv Hb Hk0 Hcap E.
  exact (proj1 (pack_valid p p' n Hok Hred Hv Hb Hk0 Hcap E)).
Qed.

(** X15.  Under [JAPACKER_NEW_IMAGE] and without shrink-to-fit, a call that
    returns leaves no rect out.  On a packer that passes the validation of
    the setup and whose packed rects make a packing on the images before
    the one the call starts with, if every rect that is not marked as
    packed has [rotated] at 0 and is at most as wide and as high as the
    image, then after the call every rect is marked as packed and the image
    index of every rect is at least 0 and below [images_needed]. *)
Theorem X15_new_image_packs_all p p' n :
  let W := image_width (internal_data p) in
  let H := image_height (internal_data p) in
  packer_ok p ->
  (num_rects (internal_data p) =? 0) || (image_width (internal_data p) =? 0) ||
  (image_height (internal_data p) =? 0) ||
  negb (u32 (ea_size (store_of p)) =? u32 (num_rects (internal_data p) + 1))
  = false ->
  fail_policy (options p) = JAPACKER_NEW_IMAGE ->
  reduce_image_size (options p) <> 1 ->
  valid_packing W H (rects p) ->
  packed_below (if always_repack (options p) =? 0
                then images_needed (result p) else 0) (rects p) ->
  0 <= images_needed (result p) ->
  images_needed (result p) + num_rects (internal_data p) + 2 <= 2147483648 ->
  Forall (fits_image W H) (rects p) ->
  japacker_pack qsort needed_size p = Ok (p', n) ->
  Forall (fun r => output_packed r <> 0) (rects p') /\
  packed_below (images_needed (result p')) (rects p').
Proof.
  intros W H Hok Hval Hpol Hred Hv Hb Hk0 Hcap Hfit E.
  exact (proj2 (pack_valid p p' n Hok Hred Hv Hb Hk0 Hcap E) Hval Hpol Hfit).
Qed.

End ValidPacking.

(** ** The value [japacker_pack] returns *)

(** One pass of the loop when packed rects are skipped and a failure does
    not stop the loop: [packed_rects] grows by the number of rects that
    have become packed. *)
Lemma pack_for_count count :
  forall i p locals r,
    pack_for count i p locals = Ok r ->
    always_repack (options p) <> 1 ->
    fail_policy (options p) <> JAPACKER_STOP ->
    0 <= packed_rects locals ->
    packed_rects locals + Z.of_nat (unpacked (rects p)) < 2147483648 ->
    options (fst (fst r)) = options p /\
    0 <= packed_rects (snd (fst r)) /\
    packed_rects (snd (fst r)) + Z.of_nat (unpacked (rects (fst (fst r)))) =
    packed_rects locals + Z.of_nat (unpacked (rects p)) /\
    (forall v, snd r = Some v -> v = packed_rects (snd (fst r))).
Proof.
  induction count as [|count IH]; intros i p locals r E Har Hpol H0 Hb.
  { simpl in E. injection E as <-. cbn. repeat split; auto. discriminate. }
  cbn [pack_for] in E.
  apply bind_inv in E as (ptr & _ & E).
  apply bind_inv in E as (rect & E2 & E). apply load_rect_inv in E2.
  destruct (negb _ && _) eqn:T; [eapply IH; eauto|].
  assert (Hpk : output_packed rect = 0).
  { apply Z.eqb_neq in Har. rewrite Har in T. simpl in T.
    rewrite andb_true_r in T. apply negb_false_iff, Z.eqb_eq in T. exact T. }
  clear T.
  set (rect0 := set_output_packed 0 rect) in *.
  assert (Hlt : (ptr < length (rects p))%nat)
    by (eapply lookup_lt_Some; eauto).
  apply bind_inv in E as ([p1 ret] & E3 & E). cbn [fst snd] in E.
  apply pack_rect_in_inv in E3 as (d' & rect' & E3 & ->).
  destruct (ret =? 0) eqn:Hret.
  - apply Z.eqb_eq in Hret. subst ret.
    apply pack_rect_failed in E3 as [-> ->].
    match type of E with context [fail_policy (options ?P)] =>
      assert (HP : options P = options p /\
                   unpacked (rects P) = unpacked (rects p));
      [|set (P1 := P) in *]
    end.
    { split; [reflexivity|]. unfold store_rect. simpl rects.
      rewrite list_insert_insert_eq.
      apply (unpacked_insert_same _ _ rect); auto. }
    destruct HP as [Ho Hu]. rewrite Ho in E.
    destruct (fail_policy (options p)) eqn:Hp; [congruence| |].
    + apply IH in E;
        [|rewrite Ho; exact Har|rewrite Ho; congruence|exact H0
         |rewrite Hu; exact Hb].
      rewrite Ho, Hu in E. exact E.
    + bind_inv_all E. destruct (_ && _).
      * injection E as <-. cbn [fst snd].
        unfold with_images_needed, with_result. cbn [options rects].
        rewrite Ho, Hu. cbn [packed_rects].
        repeat split; auto. intros v Hv. injection Hv as <-.
        apply s32_small. lia.
      * apply IH in E; cbn [packed_rects] in *;
          [|rewrite Ho; exact Har|rewrite Ho; congruence|exact H0
           |rewrite Hu; exact Hb].
        rewrite Ho, Hu in E. exact E.
  - apply bind_inv in E as (rect1 & _ & E).
    match type of E with pack_for _ _ ?P ?L = _ =>
      assert (HP : options P = options p /\
                   (unpacked (rects P) + 1 = unpacked (rects p))%nat /\
                   packed_rects L = u32 (packed_rects locals + 1));
      [|set (P1 := P) in *; set (L1 := L) in *]
    end.
    { split; [reflexivity|]. split; [|reflexivity].
      unfold store_rect. simpl rects.
      rewrite !list_insert_insert_eq.
      match goal with |- context [<[ptr := ?r2]> (rects p)] =>
        pose proof (unpacked_insert (rects p) ptr rect r2 E2) as Hi end.
      destruct (decide (output_packed rect = 0)); [|contradiction].
      simpl in Hi. lia. }
    destruct HP as (Ho & Hu & HL).
    assert (Hs : u32 (packed_rects locals + 1) = packed_rects locals + 1)
      by (apply u32_small; unfold UINT_RANGE; lia).
    rewrite Hs in HL.
    apply IH in E;
      [|rewrite Ho; exact Har|rewrite Ho; exact Hpol|rewrite HL; lia
       |rewrite HL; lia].
    rewrite Ho, HL in E.
    destruct E as (Eo & E0 & Ec & Ev). repeat split; auto. lia.
Qed.

Section Count.

Variable qsort : (nat -> nat -> Z) -> list nat -> list nat.
Variable needed_size : Z -> Z -> Z -> Z * Z.

Lemma pack_do_while_count fuel :
  forall p packed r,
    pack_do_while needed_size fuel p packed = Ok r ->
    always_repack (options p) <> 1 ->
    reduce_image_size (options p) <> 1 ->
    fail_policy (options p) <> JAPACKER_STOP ->
    0 <= packed ->
    packed + Z.of_nat (unpacked (rects p)) < 2147483648 ->
    0 <= snd r /\
    snd r + Z.of_nat (unpacked (rects (fst r))) =
    packed + Z.of_nat (unpacked (rects p)).
Proof.
  induction fuel as [|fuel IH];
    intros p packed r E Har Hred Hpol H0 Hb; [discriminate|].
  cbn [pack_do_while] in E.
  apply bind_inv in E as (p1 & E1 & E).
  apply reset_in_frame in E1 as [(Ho1 & _) Hr1].
  apply bind_inv in E as ([[p2 locals] returned] & E2 & E).
  apply pack_for_count in E2; cbn [fst snd packed_rects] in *;
    [|congruence|congruence|exact H0|rewrite Hr1; exact Hb].
  destruct E2 as (Ho2 & H2 & Hc & Hv). rewrite Hr1 in Hc.
  destruct returned as [v|].
  { injection E as <-. cbn [fst snd]. rewrite (Hv v eq_refl). auto. }
  unfold with_last_image, with_images_needed, with_result in E.
  destruct (negb _).
  - apply IH in E; cbn [options rects] in *;
      [|congruence|congruence|congruence|exact H2|lia]. lia.
  - cbn [options rects result images_needed internal_data] in E.
    replace (reduce_image_size (options p2) =? 1) with false in E.
    2:{ symmetry. apply Z.eqb_neq. congruence. }
    cbn [bind] in E. injection E as <-. cbn [fst snd rects].
    rewrite s32_small by lia. auto.
Qed.

(** X9.  The value of a call that skips the packed rects and does not stop
    at a failure: when [always_repack] and shrink-to-fit are off and the
    policy is to continue or to open a new image, a call that passes the
    validation of the setup returns the number of rects that it has packed,
    which is the number of rects that were not marked as packed before the
    call less the number of those that are not after it. *)
Theorem X9_pack_counts p p' n :
  always_repack (options p) <> 1 ->
  reduce_image_size (options p) <> 1 ->
  fail_policy (options p) <> JAPACKER_STOP ->
  (num_rects (internal_data p) =? 0) || (image_width (internal_data p) =? 0) ||
  (image_height (internal_data p) =? 0) ||
  negb (u32 (ea_size (store_of p)) =? u32 (num_rects (internal_data p) + 1))
  = false ->
  Z.of_nat (unpacked (rects p)) < 2147483648 ->
  japacker_pack qsort needed_size p = Ok (p', n) ->
  0 <= n /\
  n = Z.of_nat (unpacked (rects p)) - Z.of_nat (unpacked (rects p')).
Proof.
  intros Har Hred Hpol Hval Hb E.
  unfold japacker_pack in E. unfold store_of in Hval. rewrite Hval in E.
  destruct (pack_prepare_options qsort p) as (_ & Har' & Hred' & Hpol' & _).
  cbv zeta in Har', Hred', Hpol'.
  apply pack_do_while_count in E; cbn [fst snd] in *;
    [|congruence|congruence|congruence|lia
     |rewrite pack_prepare_rects; lia].
  rewrite pack_prepare_rects in E. lia.
Qed.

End Count.

(** ** The first call on a new packer *)

Lemma new_packer_rects dims W H opts :
  rect_inputs <$> rects (new_packer dims W H opts) = dims /\
  Forall (fun r => output_packed r = 0) (rects (new_packer dims W H opts)).
Proof.
  unfold new_packer. simpl. split.
  - induction dims as [|[w h] dims IH]; [reflexivity|].
    simpl. f_equal. exact IH.
  - apply Forall_fmap, Forall_true. reflexivity.
Qed.

Lemma new_packer_validation dims W H opts :
  dims <> [] -> Z.of_nat (length dims) + 1 < 2147483648 ->
  0 < W -> 0 < H ->
  let p := new_packer dims W H opts in 
  (num_rects (internal_data p) =? 0) || (image_width (internal_data p) =? 0) ||
  (image_height (internal_data p) =? 0) ||
  negb (u32 (ea_size (store_of p)) =? u32 (num_rects (internal_data p) + 1))
  = false.
Proof.
  intros Hd Hn HW HH. unfold new_packer, japacker_init. simpl.
  assert (Hu : u32 (Z.of_nat (length dims) + 1) = Z.of_nat (length dims) + 1)
    by (apply u32_small; unfold UINT_RANGE; lia).
  rewrite Hu, s32_small, Hu by lia.
  assert (Hl : Z.of_nat (length dims) <> 0) by (destruct dims; simpl; [congruence|lia]).
  apply Z.eqb_neq in Hl. rewrite Hl, Z.eqb_refl.
  replace (W =? 0) with false by (symmetry; apply Z.eqb_neq; lia).
  replace (H =? 0) with false by (symmetry; apply Z.eqb_neq; lia).
  reflexivity.
Qed.

Section FirstPack.

Variable qsort : (nat -> nat -> Z) -> list nat -> list nat.
Variable needed_size : Z -> Z -> Z -> Z * Z.
Hypothesis qsort_perm : forall cmp l, qsort cmp l ≡ₚ l.

(** X14.  The first call on a new packer: after [japacker_init] for at
    least one rect and an image that is not empty, the assignment of the
    inputs [dims] and of options that ask for the sort, leave shrink-to-fit
    off and have the policy to stop or to continue, [japacker_pack]
    returns; the rects keep the inputs [dims], every rect marked as packed
    lies in the image and no two of them overlap. *)
Theorem X14_first_pack dims W H opts :
  dims <> [] -> Z.of_nat (length dims) + 1 < 2147483648 ->
  0 < W < UINT_RANGE -> 0 < H < UINT_RANGE ->
  Forall (fun wh => 0 <= fst wh /\ 0 <= snd wh) dims ->
  rects_are_sorted opts <> 1 ->
  reduce_image_size opts <> 1 ->
  fail_policy opts <> JAPACKER_NEW_IMAGE ->
  exists p' n,
    japacker_pack qsort needed_size (new_packer dims W H opts) = Ok (p', n) /\
    rect_inputs <$> rects p' = dims /\
    valid_packing W H (rects p').
Proof.
  intros Hd Hn HW HH Hall Hsort Hred Hpol.
  set (p := new_packer dims W H opts).
  assert (Hok : packer_ok p) by (apply new_packer_ok; auto; lia).
  pose proof (new_packer_validation dims W H opts Hd Hn
                (proj1 HW) (proj1 HH)) as Hval.
  destruct (new_packer_rects dims W H opts) as [Hin Hun].
  destruct (pack_returns qsort needed_size qsort_perm p Hok Hval Hpol Hred
              (or_introl Hsort)) as (p' & n & E).
  exists p', n. split; [exact E|]. split.
  - rewrite (pack_inputs qsort needed_size p p' n E). exact Hin.
  - assert (Hnone : forall i r, rects p !! i = Some r ->
              output_packed r <> 0 -> False).
    { intros i r Hr Hpk. apply Hpk. apply (Forall_lookup_1 _ _ _ _ Hun Hr). }
    apply (fun Hv Hb Hk Hcap =>
             proj1 (pack_valid qsort needed_size qsort_perm p p' n
                      Hok Hred Hv Hb Hk Hcap E)).
    + split; [intros i r Hr Hpk; destruct (Hnone i r Hr Hpk)|].
      intros i j r r' _ Hr _ Hpk. destruct (Hnone i r Hr Hpk).
    + intros i r Hr Hpk. destruct (Hnone i r Hr Hpk).
    + simpl. lia.
    + simpl. lia.
Qed.

End FirstPack.

(** ** The further properties at the examples *)

Lemma filling_store_ok W H d placed :
  0 <= W < UINT_RANGE -> 0 <= H < UINT_RANGE ->
  filling W H d placed -> store_ok W H d (listed d).
Proof.
  intros HW HH Hf.
  destruct (filling_invariant W H d placed HW HH Hf) as (l & Hok & _).
  rewrite (listed_repr d l (store_ok_repr _ _ _ _ Hok)). exact Hok.
Qed.

Lemma example_reset_ok : store_ok 10 4 example_reset [0%nat].
Proof.
  change [0%nat] with (listed example_reset).
  apply (filling_store_ok 10 4 example_reset []);
    [unfold UINT_RANGE; lia|unfold UINT_RANGE; lia|].
  apply example_reset_filling.
Qed.

Lemma example_placed_ok :
  store_ok 10 4 (fst (fst example_placed)) [1%nat; 0%nat].
Proof.
  replace [1%nat; 0%nat] with (listed (fst (fst example_placed)))
    by (vm_compute; reflexivity).
  apply (filling_store_ok 10 4 _ [footprint (snd (fst example_placed))]);
    [unfold UINT_RANGE; lia|unfold UINT_RANGE; lia|].
  apply (filling_place 10 4 example_reset [] (mk_rect 3 2 0 0 0 0 0) 0
           (fst (fst example_placed)) (snd (fst example_placed)) 1).
  - apply example_reset_filling.
  - simpl. lia.
  - simpl. lia.
  - unfold example_placed. apply ok_or_triple. vm_compute. reflexivity.
Qed.

Lemma all_unpacked_valid W H k rs :
  Forall (fun r => output_packed r = 0) rs ->
  valid_packing W H rs /\ packed_below k rs.
Proof.
  intros Hun.
  assert (Hnone : forall i r, rs !! i = Some r -> output_packed r <> 0 -> False).
  { intros i r Hr Hpk. apply Hpk. apply (Forall_lookup_1 _ _ _ _ Hun Hr). }
  split; [split|].
  - intros i r Hr Hpk. destruct (Hnone i r Hr Hpk).
  - intros i j r r' _ Hr _ Hpk. destruct (Hnone i r Hr Hpk).
  - intros i r Hr Hpk. destruct (Hnone i r Hr Hpk).
Qed.

Lemma two_images_example_ok : packer_ok two_images_example.
Proof.
  apply new_packer_ok.
  - simpl. lia.
  - unfold UINT_RANGE. lia.
  - unfold UINT_RANGE. lia.
  - repeat constructor; simpl; lia.
Qed.

Lemma two_images_pack :
  japacker_pack insertion_qsort needed_size_square two_images_example =
  Ok (two_images_packed, 2).
Proof.
  unfold two_images_packed. apply ok_or_pair. vm_compute. reflexivity.
Qed.

Lemma continue_pack :
  japacker_pack insertion_qsort needed_size_square continue_example =
  Ok (continue_packed, 2).
Proof.
  unfold continue_packed. apply ok_or_pair. vm_compute. reflexivity.
Qed.

Lemma stop_pack :
  japacker_pack insertion_qsort needed_size_square stop_example =
  Ok (stop_packed, 1).
Proof.
  unfold stop_packed. apply ok_or_pair. vm_compute. reflexivity.
Qed.

(** X1 at the example: the second of the two areas that are listed once a
    rect of 3 x 2 is placed in the image of 10 x 4. *)
Lemma X1_delist_witness :
  exists d',
    japacker_delist_empty_area (fst (fst example_placed)) 0%nat = Ok d' /\
    repr d' ([1%nat] ++ []) /\
    listed d' = [1%nat] ++ [] /\
    prevs d' !! 0%nat = Some None /\ nexts d' !! 0%nat = Some None /\
    geoms d' = geoms (fst (fst example_placed)) /\
    same_conf (fst (fst example_placed)) d'.
Proof.
  apply (X1_delist_removes_member (fst (fst example_placed))
           [1%nat] 0%nat []).
  apply (store_ok_repr 10 4). apply example_placed_ok.
Defined.

(** X2 at the example: the unused slot 2, whose comparator is 0, goes before
    the two listed areas, whose comparators are 5 and 11. *)
Lemma X2_sort_witness :
  exists d' la lb,
    japacker_sort_empty_area (fst (fst example_placed)) 2%nat
      (last [1%nat; 0%nat]) = Ok d' /\
    [1%nat; 0%nat] ++ [] = la ++ lb /\
    repr d' (la ++ 2%nat :: lb) /\
    listed d' = la ++ 2%nat :: lb /\
    ascending (comparators d').
Proof.
  apply (X2_sort_keeps_order (fst (fst example_placed))
           [1%nat; 0%nat] [] 2%nat).
  - apply (store_ok_repr 10 4). apply example_placed_ok.
  - intros Hin. simpl in Hin.
    apply elem_of_cons in Hin as [Hin|Hin]; [discriminate|].
    apply list_elem_of_singleton in Hin. discriminate.
  - unfold valid.
    replace (length (ea_list (fst (fst example_placed)))) with 3%nat
      by (vm_compute; reflexivity).
    lia.
  - replace (comparators (fst (fst example_placed))) with [5; 11]
      by (vm_compute; reflexivity).
    intros i j a b Hij Hi Hj.
    destruct i as [|[|i]]; destruct j as [|[|j]]; simpl in Hi, Hj;
      try discriminate; try lia.
    injection Hi as <-. injection Hj as <-. lia.
  - intros i Hi. inversion Hi.
Defined.

(** X3 at the example: the right part of the image of 10 x 4 takes the
    left part back. *)
Lemma X3_merge_witness :
  exists d' l' m,
    japacker_merge_adjacent_empty_areas merge_example 1%nat = Ok (d', m) /\
    (m = 0 \/ m = 1) /\ (m = 0 -> d' = merge_example) /\
    repr d' l' /\ l' ⊆ [0%nat] /\
    (forall i, i <> 1%nat -> box_at d' i = box_at merge_example i) /\
    in_image 10 4 (box_at d' 1%nat) /\
    forall px py,
      (cnt (box_at d' 1%nat) px py + hits (boxes d' l') px py =
       cnt (box_at merge_example 1%nat) px py +
       hits (boxes merge_example [0%nat]) px py)%nat.
Proof.
  apply (X3_merge_keeps_cover 10 4 merge_example [0%nat] 1%nat).
  - unfold UINT_RANGE. lia.
  - unfold UINT_RANGE. lia.
  - apply (repr_same_links example_reset).
    + apply (store_ok_repr 10 4). apply example_reset_ok.
    + vm_compute. reflexivity.
    + vm_compute. reflexivity.
    + vm_compute. reflexivity.
    + vm_compute. reflexivity.
  - intros Hin. apply list_elem_of_singleton in Hin. discriminate.
  - unfold valid.
    replace (length (ea_list merge_example)) with 3%nat
      by (vm_compute; reflexivity).
    lia.
  - intros i Hi. apply list_elem_of_singleton in Hi. subst i.
    replace (box_at merge_example 0%nat) with (mk_box 0 0 6 4)
      by (vm_compute; reflexivity).
    unfold in_image. simpl. lia.
  - replace (box_at merge_example 1%nat) with (mk_box 6 0 4 4)
      by (vm_compute; reflexivity).
    unfold in_image. simpl. lia.
Defined.

(** X4 at the example: the store of three slots, for an image of 10 x 4. *)
Lemma X4_reset_witness :
  exists d,
    japacker_reset_empty_areas example_store 10 4 = Ok d /\
    ea_list d = mk_area 0 0 10 4 0 None None ::
                replicate (length (ea_list example_store) - 1) zero_area /\
    ea_first d = Some 0%nat /\ ea_last d = Some 0%nat /\
    ea_index d = 0 /\
    listed d = [0%nat] /\
    empty_boxes d = [mk_box 0 0 10 4].
Proof.
  apply (X4_reset_erases example_store 10 4).
  - vm_compute. reflexivity.
  - vm_compute. reflexivity.
Defined.

(** X5 at the example: a rect of 3 x 2 and the empty image of 10 x 4. *)
Lemma X5_pack_rect_witness :
  exists d' rect' ret,
    japacker_pack_rect example_reset (mk_rect 3 2 0 0 0 0 0) 0 =
    Ok (d', rect', ret) /\
    ((ret = 0 /\ d' = example_reset /\
      rect' = set_output_rotated 0 (mk_rect 3 2 0 0 0 0 0) /\
      (forall i, i ∈ [0%nat] ->
         ~ fits (placed_width (mk_rect 3 2 0 0 0 0 0))
             (placed_height (mk_rect 3 2 0 0 0 0 0))
             (box_at example_reset i)) /\
      (0 <> 0 ->
       forall i, i ∈ [0%nat] ->
         ~ fits (input_height (mk_rect 3 2 0 0 0 0 0))
             (input_width (mk_rect 3 2 0 0 0 0 0))
             (box_at example_reset i)))
     \/
     (ret = 1 /\ output_packed rect' = 1 /\
      in_image 10 4 (footprint rect') /\
      ((output_rotated rect' = output_rotated (mk_rect 3 2 0 0 0 0 0) /\
        exists i, i ∈ [0%nat] /\
          fits (placed_width (mk_rect 3 2 0 0 0 0 0))
            (placed_height (mk_rect 3 2 0 0 0 0 0))
            (box_at example_reset i))
       \/
       (output_rotated rect' = 1 /\ 0 <> 0 /\
        forall i, i ∈ [0%nat] ->
          ~ fits (placed_width (mk_rect 3 2 0 0 0 0 0))
              (placed_height (mk_rect 3 2 0 0 0 0 0))
              (box_at example_reset i))))).
Proof.
  apply (X5_pack_rect_fails_only_without_room 10 4 example_reset [0%nat]
           (mk_rect 3 2 0 0 0 0 0) 0).
  - unfold UINT_RANGE. lia.
  - unfold UINT_RANGE. lia.
  - apply example_reset_ok.
  - simpl. lia.
  - simpl. lia.
  - apply comparator_is_set. vm_compute. reflexivity.
  - vm_compute. reflexivity.
Defined.

(** X6 at the example: once a rect of 3 x 2 is placed in the image of
    10 x 4, a rect of 2 x 3 is too high for the area below it, which is
    the first of the list, and goes to the area beside it. *)
Lemma X6_first_fit_witness :
  exists d' rect',
    japacker_pack_rect (fst (fst example_placed)) (mk_rect 2 3 0 0 0 0 0) 0 =
    Ok (d', rect', 1) /\
    rect' = set_output_packed 1
              (set_output_y (box_y (box_at (fst (fst example_placed)) 0%nat))
                 (set_output_x
                    (box_x (box_at (fst (fst example_placed)) 0%nat))
                    (mk_rect 2 3 0 0 0 0 0))) /\
    footprint rect' =
    mk_box (box_x (box_at (fst (fst example_placed)) 0%nat))
           (box_y (box_at (fst (fst example_placed)) 0%nat))
           (placed_width (mk_rect 2 3 0 0 0 0 0))
           (placed_height (mk_rect 2 3 0 0 0 0 0)).
Proof.
  apply (X6_pack_rect_first_fit 10 4 (fst (fst example_placed))
           [1%nat] 0%nat [] (mk_rect 2 3 0 0 0 0 0) 0).
  - unfold UINT_RANGE. lia.
  - unfold UINT_RANGE. lia.
  - apply example_placed_ok.
  - simpl. lia.
  - simpl. lia.
  - apply comparator_is_set. vm_compute. reflexivity.
  - vm_compute. reflexivity.
  - intros i Hi. apply list_elem_of_singleton in Hi. subst i.
    replace (box_at (fst (fst example_placed)) 1%nat) with (mk_box 0 2 3 2)
      by (vm_compute; reflexivity).
    unfold fits, placed_width, placed_height. simpl. lia.
  - replace (box_at (fst (fst example_placed)) 0%nat) with (mk_box 3 0 7 4)
      by (vm_compute; reflexivity).
    unfold fits, placed_width, placed_height. simpl. lia.
Defined.

(** X7 at the example: the two rects of 6 x 6 after the call that has put
    them on two images. *)
Lemma X7_inputs_witness :
  length (rects two_images_packed) = length (rects two_images_example) /\
  forall i r, rects two_images_example !! i = Some r ->
    exists r', rects two_images_packed !! i = Some r' /\
               input_width r' = input_width r /\
               input_height r' = input_height r.
Proof.
  apply (X7_pack_keeps_inputs insertion_qsort needed_size_square
           two_images_example two_images_packed 2).
  apply two_images_pack.
Defined.

(** X8 at the example: the two rects of 6 x 6 are both at the origin, on
    two images. *)
Lemma X8_valid_witness :
  valid_packing 10 10 (rects two_images_packed).
Proof.
  apply (X8_pack_is_valid insertion_qsort needed_size_square
           insertion_qsort_perm two_images_example two_images_packed 2).
  - apply two_images_example_ok.
  - simpl. lia.
  - apply (all_unpacked_valid _ _ 0). repeat constructor.
  - apply (all_unpacked_valid 10 10). repeat constructor.
  - simpl. lia.
  - simpl. lia.
  - apply two_images_pack.
Defined.

(** X9 at the example: of three rects, two are packed. *)
Lemma X9_count_witness :
  0 <= 2 /\
  2 = Z.of_nat (unpacked (rects continue_example)) -
      Z.of_nat (unpacked (rects continue_packed)).
Proof.
  apply (X9_pack_counts insertion_qsort needed_size_square
           continue_example continue_packed 2).
  - simpl. lia.
  - simpl. lia.
  - simpl. discriminate.
  - vm_compute. reflexivity.
  - replace (unpacked (rects continue_example)) with 3%nat
      by (vm_compute; reflexivity).
    lia.
  - apply continue_pack.
Defined.

(** X10 at the example: the two rects of [stop_example], sorted by the
    insertion sort. *)
Lemma X10_sort_rects_witness :
  let p := stop_example in
  let p' := japacker_sort_rects insertion_qsort p in
  rects p' = rects p /\ result p' = result p /\
  (exists ptrs, sorted_rects (internal_data p') = Some ptrs /\
                ptrs ≡ₚ seq 0 (length (rects p))) /\
  (rects_are_sorted (options p) = 1 ->
   sorted_rects (internal_data p') = Some (seq 0 (length (rects p))) /\
   options p' = options p /\ store_of p' = store_of p) /\
  (rects_are_sorted (options p) <> 1 ->
   rects_are_sorted (options p') = 1 /\
   sort_by (options p') = sort_by (options p) /\
   ea_set_comparator (store_of p') =
   Some (match sort_by (options p) with
         | JAPACKER_SORT_BY_PERIMETER =>
             japacker_empty_area_set_perimeter_comparator
         | JAPACKER_SORT_BY_AREA => japacker_empty_area_set_area_comparator
         | JAPACKER_SORT_BY_HEIGHT => japacker_empty_area_set_height_comparator
         | JAPACKER_SORT_BY_WIDTH => japacker_empty_area_set_width_comparator
         end)).
Proof.
  apply (X10_sort_rects insertion_qsort insertion_qsort_perm stop_example).
  reflexivity.
Defined.

(** X11 at the example: a rotated rect of 3 x 5 at (4, 1) in an image of
    10 x 10. *)
Lemma X11_dst_offset_witness :
  (forall x y,
     0 <= x < 3 -> 0 <= y < 5 ->
     0 <= japacker_get_dst_offset stop_example (mk_rect 3 5 4 1 1 1 0) x y
       < 10 * 10 /\
     inside (footprint (mk_rect 3 5 4 1 1 1 0))
       (japacker_get_dst_offset stop_example (mk_rect 3 5 4 1 1 1 0) x y
          mod 10)
       (japacker_get_dst_offset stop_example (mk_rect 3 5 4 1 1 1 0) x y
          / 10)) /\
  (forall x y x' y',
     0 <= x < 3 -> 0 <= y < 5 -> 0 <= x' < 3 -> 0 <= y' < 5 ->
     japacker_get_dst_offset stop_example (mk_rect 3 5 4 1 1 1 0) x y =
     japacker_get_dst_offset stop_example (mk_rect 3 5 4 1 1 1 0) x' y' ->
     x = x' /\ y = y').
Proof.
  apply (X11_dst_offset_in_region stop_example (mk_rect 3 5 4 1 1 1 0)
           10 10).
  - vm_compute. reflexivity.
  - unfold in_image. simpl. lia.
  - unfold UINT_RANGE. lia.
Defined.

(** X12 at the example: a rect of 3 x 2 and a rect of 5 x 1. *)
Lemma X12_compare_witness :
  let rs := [mk_rect 3 2 0 0 0 0 0; mk_rect 5 1 0 0 0 0 0] in
  let ra := rect_at rs 0 in
  let rb := rect_at rs 1 in
  (0 < japacker_compare_rect_heights rs 0 1 <->
   input_height ra < input_height rb) /\
  (japacker_compare_rect_heights rs 0 1 = 0 <->
   input_height ra = input_height rb) /\
  (0 < japacker_compare_rect_widths rs 0 1 <->
   input_width ra < input_width rb) /\
  (japacker_compare_rect_widths rs 0 1 = 0 <->
   input_width ra = input_width rb) /\
  (0 < japacker_compare_rect_perimeters rs 0 1 <->
   input_height ra + input_width ra < input_height rb + input_width rb) /\
  (japacker_compare_rect_perimeters rs 0 1 = 0 <->
   input_height ra + input_width ra = input_height rb + input_width rb) /\
  (0 < japacker_compare_rect_areas rs 0 1 <->
   input_height ra * input_width ra < input_height rb * input_width rb) /\
  (japacker_compare_rect_areas rs 0 1 = 0 <->
   input_height ra * input_width ra = input_height rb * input_width rb).
Proof.
  apply (X12_compare_rects
           [mk_rect 3 2 0 0 0 0 0; mk_rect 5 1 0 0 0 0 0] 0%nat 1%nat);
    simpl; lia.
Defined.

(** X13 at the example: the call on [stop_example] returns. *)
Lemma X13_returns_witness :
  exists p' n,
    japacker_pack insertion_qsort needed_size_square stop_example =
    Ok (p', n).
Proof.
  apply (X13_pack_returns insertion_qsort needed_size_square
           insertion_qsort_perm stop_example).
  - apply stop_example_ok.
  - vm_compute. reflexivity.
  - simpl. discriminate.
  - simpl. lia.
  - left. simpl. lia.
Defined.

(** X14 at the example: three rects under [JAPACKER_CONTINUE]. *)
Lemma X14_first_pack_witness :
  exists p' n,
    japacker_pack insertion_qsort needed_size_square continue_example =
    Ok (p', n) /\
    rect_inputs <$> rects p' = [(6, 6); (6, 6); (3, 3)] /\
    valid_packing 10 10 (rects p').
Proof.
  apply (X14_first_pack insertion_qsort needed_size_square
           insertion_qsort_perm [(6, 6); (6, 6); (3, 3)] 10 10
           (mk_options 0 0 0 0 JAPACKER_SORT_BY_PERIMETER JAPACKER_CONTINUE)).
  - discriminate.
  - simpl. lia.
  - unfold UINT_RANGE. lia.
  - unfold UINT_RANGE. lia.
  - repeat constructor; simpl; lia.
  - simpl. lia.
  - simpl. lia.
  - simpl. discriminate.
Defined.

(** X15 at the example: the two rects of 6 x 6 are packed, on the images 0
    and 1 of 2. *)
Lemma X15_packs_all_witness :
  Forall (fun r => output_packed r <> 0) (rects two_images_packed) /\
  packed_below (images_needed (result two_images_packed))
    (rects two_images_packed).
Proof.
  apply (X15_new_image_packs_all insertion_qsort needed_size_square
           insertion_qsort_perm two_images_example two_images_packed 2).
  - apply two_images_example_ok.
  - vm_compute. reflexivity.
  - reflexivity.
  - simpl. lia.
  - apply (all_unpacked_valid _ _ 0). repeat constructor.
  - apply (all_unpacked_valid 10 10). repeat constructor.
  - simpl. lia.
  - simpl. lia.
  - apply Forall_cons. split; [right; simpl; lia|].
    apply Forall_cons. split; [right; simpl; lia|]. apply Forall_nil_2.
  - apply two_images_pack.
Defined.
